(** * crap-clone: the emission engine of a CVS to fast-import converter

    A shallow embedding of [crap-clone.c], [fixup.c] and the line reader of
    [server.c].  The C program keeps one database of files, versions,
    changesets and tags, a process-wide mark counter, a connection to the
    CVS server and the fast-import stream on stdout.  Here all of that is
    one [state] record, threaded through a state-and-abort monad: [fatal],
    a failed [assert] and a null dereference end the run.

    Pointers are indices: a [version_t *] is an index into the version
    pool, a [file_t *] an index into [db->files], a [tag_t *] an index
    into [db->tags], and NULL is [None].  *)

From Stdlib Require Import ZArith Ascii List Lia DecimalString.
From Stdlib Require String.
From Stdlib Require Import Sorting.Permutation Sorting.Sorted.
From stdpp Require Import base list strings.
Import ListNotations.

Local Open Scope Z_scope.

(* ===================================================================== *)
(** ** C strings *)

Module CString.

Definition newline : ascii := "010"%char.
Definition nul : ascii := "000"%char.

Fixpoint take (n : nat) (s : string) : string :=
  match n, s with
  | S n', String c r => String c (take n' r)
  | _, _ => EmptyString
  end.

Fixpoint drop (n : nat) (s : string) : string :=
  match n, s with
  | S n', String _ r => drop n' r
  | _, _ => s
  end.

(** [starts_with (haystack, needle)] of utils.h. *)
Definition starts_with (s needle : string) : bool := String.prefix needle s.

(** [strchr (s, c)]: offset of the first [c], NULL as [None]. *)
Fixpoint strchr (s : string) (c : ascii) : option nat :=
  match s with
  | EmptyString => None
  | String a r => if Ascii.eqb a c then Some O else option_map S (strchr r c)
  end.

(** [strrchr (s, c)]: offset of the last [c]. *)
Fixpoint strrchr (s : string) (c : ascii) : option nat :=
  match s with
  | EmptyString => None
  | String a r =>
      match strrchr r c with
      | Some i => Some (S i)
      | None => if Ascii.eqb a c then Some O else None
      end
  end.

(** [strcmp (a, b) <= 0]; bytes compare as unsigned char. *)
Definition strcmp_le (a b : string) : bool :=
  match String.compare a b with Gt => false | _ => true end.

(** [%zu], [%lu] and [%ld]. *)
Definition fmt_u (n : Z) : string := NilEmpty.string_of_uint (N.to_uint (Z.to_N n)).
Definition fmt_d (n : Z) : string := NilZero.string_of_int (Z.to_int n).

Definition isspace (c : ascii) : bool :=
  let n := nat_of_ascii c in
  (Nat.eqb n 32 || (Nat.leb 9 n && Nat.leb n 13))%bool.

Definition digit (c : ascii) : option Z :=
  let n := Z.of_nat (nat_of_ascii c) in
  if ((48 <=? n) && (n <=? 57))%Z then Some (n - 48)%Z else None.

Definition ULONG_MAX : Z := 2 ^ 64 - 1.

Fixpoint skip_space (s : string) : string :=
  match s with
  | String c r => if isspace c then skip_space r else s
  | EmptyString => s
  end.

(** The digits of [strtoul]: accumulated value (clamped at ULONG_MAX once
    it overflows), number of digits consumed and the unparsed tail. *)
Fixpoint digits (acc : Z) (s : string) : Z * nat * string :=
  match s with
  | String c r =>
      match digit c with
      | Some d =>
          let acc' := (acc * 10 + d)%Z in
          let '(v, n, t) :=
            digits (if (ULONG_MAX <? acc')%Z then (ULONG_MAX + 1)%Z else acc') r in
          (v, S n, t)
      | None => (acc, O, s)
      end
  | EmptyString => (acc, O, s)
  end.

(** [strtoul (s, &tail, 10)]: optional white space and sign, then decimal
    digits.  Without digits the result is 0 and [tail] is [s] itself; an
    overflow gives ULONG_MAX; a minus sign negates modulo 2^64. *)
Definition strtoul (s : string) : Z * string :=
  let s1 := skip_space s in
  let '(neg, s2) :=
    match s1 with
    | String "-" r => (true, r)
    | String "+" r => (false, r)
    | _ => (false, s1)
    end in
  let '(v, n, t) := digits 0 s2 in
  match n with
  | O => (0%Z, s)
  | _ =>
      if (ULONG_MAX <? v)%Z then (ULONG_MAX, t)
      else if neg then (((- v) mod 2 ^ 64)%Z, t) else (v, t)
  end.

(** [getline]: the bytes up to and including the first newline, and the
    rest of the stream. *)
Fixpoint getline (s : string) : string * string :=
  match s with
  | EmptyString => (EmptyString, EmptyString)
  | String c r =>
      if Ascii.eqb c newline then (String c EmptyString, r)
      else let '(l, r') := getline r in (String c l, r')
  end.

Fixpoint has_nul (s : string) : bool :=
  match s with
  | EmptyString => false
  | String c r => Ascii.eqb c nul || has_nul r
  end.

(** [if (s > 0 && line[s - 1] == '\n') line[--s] = 0]. *)
Fixpoint chomp (s : string) : string :=
  match s with
  | EmptyString => EmptyString
  | String c EmptyString => if Ascii.eqb c newline then EmptyString else s
  | String c r => String c (chomp r)
  end.

Definition last_char (s : string) : option ascii :=
  String.get (String.length s - 1) s.

End CString.
Import CString.

(* ===================================================================== *)
(** ** Data model *)

Abbreviation vref := nat.   (**r [version_t *], non-null *)
Abbreviation fref := nat.   (**r [file_t *], as [f - db->files] *)
Abbreviation tref := nat.   (**r [tag_t *], as [t - db->tags] *)

(** [changeset_t *]: a commit of [db->changesets], or the changeset
    embedded in a tag ([&tag->changeset], [as_tag] goes back). *)
Inductive cref :=
| CCommit (n : nat)
| CTag (t : tref).

Definition cref_eqb (a b : cref) : bool :=
  match a, b with
  | CCommit n, CCommit m => Nat.eqb n m
  | CTag t, CTag u => Nat.eqb t u
  | _, _ => false
  end.

Definition SIZE_MAX : Z := 2 ^ 64 - 1.

(** [#define TIME_MIN (sizeof(time_t) == sizeof(int) ? INT_MIN : LONG_MIN)]
    with a 64-bit [time_t]. *)
Definition TIME_MIN : Z := - 2 ^ 63.
Definition TIME_MAX : Z := 2 ^ 63 - 1.

(** [file_t], of which the code here reads [const char * path]: the
    string it points to, and the pointer itself, which [grab_by_option]
    compares. *)
Record file := mkFile {
  f_path : string;     (**r the string that [path] points to *)
  f_path_ptr : string  (**r the bytes of the pointer [path] itself, in memory
                           order, before its first zero byte *)
}.

Record version := mkVersion {
  v_file : fref;
  v_version : string;
  v_parent : option vref;
  v_branch : option tref;
  v_author : string;
  v_log : string;
  v_time : Z;
  v_dead : bool;
  v_exec : bool;
  v_used : bool;
  v_mark : Z
}.

Record changeset := mkChangeset {
  cs_time : Z;
  cs_versions : list vref;
  cs_mark : Z
}.

Record fixup_ver := mkFixup {
  fx_file : fref;
  fx_version : option vref;
  fx_time : Z
}.

Record tag := mkTag {
  t_tag : string;
  t_branch_versions : option (list (option vref));  (**r NULL for a non-branch tag *)
  t_parent : option cref;
  t_tag_files : list vref;
  t_last : option cref;
  t_fixup : bool;
  t_is_released : bool;
  t_changeset : changeset;
  t_fixups : list fixup_ver;     (**r [fixups .. fixups_end]; NULL is the empty array *)
  t_fixups_curr : nat            (**r [fixups_curr - fixups] *)
}.

(** What is written to stdout, one constructor per [printf] of the source;
    [render] is its format string. *)
Inductive out_item :=
| OBlob (mark len : Z)
| OBytes (body : string)
| ONewline
| OCommit (heads : bool) (name : string)
| OMark (mark : Z)
| OCommitter (author : string) (time : Z)
| OData (log : string)
| ODataLen (len : Z)
| OText (text : string)
| OModify (exec : bool) (mark : Z) (path : string)
| ODelete (path : string)
| OReset (heads : bool) (name : string)
| OFrom (mark : Z)
| OProgressDone.

Definition refs_kind (heads : bool) : string := if heads then "heads" else "tags".
Definition nl : string := String newline EmptyString.

Definition render (o : out_item) : string :=
  match o with
  | OBlob mark len =>
      "blob" +:+ nl +:+ "mark :" +:+ fmt_u mark +:+ nl +:+ "data " +:+ fmt_u len +:+ nl
  | OBytes body => body
  | ONewline => nl
  | OCommit heads name => "commit refs/" +:+ refs_kind heads +:+ "/" +:+ name +:+ nl
  | OMark mark => "mark :" +:+ fmt_u mark +:+ nl
  | OCommitter author time =>
      "committer " +:+ author +:+ " <" +:+ author +:+ "> " +:+ fmt_d time +:+ " +0000" +:+ nl
  | OData log => "data " +:+ fmt_u (Z.of_nat (String.length log)) +:+ nl +:+ log +:+ nl
  | ODataLen len => "data " +:+ fmt_u len +:+ nl
  | OText text => text
  | OModify exec mark path =>
      "M " +:+ (if exec then "755" else "644") +:+ " :" +:+ fmt_u mark +:+ " " +:+ path +:+ nl
  | ODelete path => "D " +:+ path +:+ nl
  | OReset heads name => "reset refs/" +:+ refs_kind heads +:+ "/" +:+ name +:+ nl
  | OFrom mark => "from :" +:+ fmt_u mark +:+ nl +:+ nl
  | OProgressDone => "progress done" +:+ nl
  end.

Definition render_all (os : list out_item) : string :=
  fold_right (fun o acc => render o +:+ acc) "" os.

(** What is sent to the server, one constructor per request line.  The
    module and prefix of the connection and the local-time [format_date]
    only appear when a request is rendered. *)
Inductive req_item :=
| QDirectory (rel : string)
| QMainDirectory
| QArg_kk
| QArg_r (rev : string)
| QArg_D (date : Z)
| QArg_dashdash
| QArg (path : string)
| QUpdate.

Section RenderRequest.
Variables (module prefix : string) (format_date : Z -> string).

Definition render_req (q : req_item) : string :=
  match q with
  | QDirectory rel =>
      "Directory " +:+ module +:+ "/" +:+ rel +:+ nl +:+ prefix +:+ rel +:+ nl
  | QMainDirectory =>
      "Directory " +:+ module +:+ nl
        +:+ CString.take (String.length prefix - 1) prefix +:+ nl
  | QArg_kk => "Argument -kk" +:+ nl
  | QArg_r rev => "Argument -r" +:+ rev +:+ nl
  | QArg_D date => "Argument -D" +:+ format_date date +:+ nl
  | QArg_dashdash => "Argument --" +:+ nl
  | QArg path => "Argument " +:+ path +:+ nl
  | QUpdate => "update" +:+ nl
  end.
End RenderRequest.

(** Diagnostics on stderr. *)
Inductive err_item :=
| EDuplicate (path vers : string)
| EMissed (path vers : string)
| ECommit (time : Z)
| ENewline
| ETag (time : Z) (is_branch : bool) (name : string).

Record state := mkState {
  db_files : list file;
  db_versions : list version;
  db_tags : list tag;
  db_changesets : list changeset;
  mark_counter : Z;
  stdout : list out_item;
  stderr : list err_item;
  s_in : string;                 (**r unread bytes of the server's replies *)
  s_line : string;               (**r [s->line] *)
  s_sent : list req_item;
  count_versions : Z;
  count_transactions : Z
}.

(** Field updates. *)
Definition with_versions (f : list version -> list version) (s : state) : state :=
  mkState (db_files s) (f (db_versions s)) (db_tags s) (db_changesets s)
    (mark_counter s) (stdout s) (stderr s) (s_in s) (s_line s) (s_sent s)
    (count_versions s) (count_transactions s).

Definition with_tags (f : list tag -> list tag) (s : state) : state :=
  mkState (db_files s) (db_versions s) (f (db_tags s)) (db_changesets s)
    (mark_counter s) (stdout s) (stderr s) (s_in s) (s_line s) (s_sent s)
    (count_versions s) (count_transactions s).

Definition with_changesets (f : list changeset -> list changeset) (s : state) : state :=
  mkState (db_files s) (db_versions s) (db_tags s) (f (db_changesets s))
    (mark_counter s) (stdout s) (stderr s) (s_in s) (s_line s) (s_sent s)
    (count_versions s) (count_transactions s).

Definition with_mark_counter (m : Z) (s : state) : state :=
  mkState (db_files s) (db_versions s) (db_tags s) (db_changesets s)
    m (stdout s) (stderr s) (s_in s) (s_line s) (s_sent s)
    (count_versions s) (count_transactions s).

Definition with_stdout (o : list out_item) (s : state) : state :=
  mkState (db_files s) (db_versions s) (db_tags s) (db_changesets s)
    (mark_counter s) o (stderr s) (s_in s) (s_line s) (s_sent s)
    (count_versions s) (count_transactions s).

Definition with_stderr (e : list err_item) (s : state) : state :=
  mkState (db_files s) (db_versions s) (db_tags s) (db_changesets s)
    (mark_counter s) (stdout s) e (s_in s) (s_line s) (s_sent s)
    (count_versions s) (count_transactions s).

Definition with_input (i l : string) (s : state) : state :=
  mkState (db_files s) (db_versions s) (db_tags s) (db_changesets s)
    (mark_counter s) (stdout s) (stderr s) i l (s_sent s)
    (count_versions s) (count_transactions s).

Definition with_sent (q : list req_item) (s : state) : state :=
  mkState (db_files s) (db_versions s) (db_tags s) (db_changesets s)
    (mark_counter s) (stdout s) (stderr s) (s_in s) (s_line s) q
    (count_versions s) (count_transactions s).

Definition with_counts (cv ct : Z) (s : state) : state :=
  mkState (db_files s) (db_versions s) (db_tags s) (db_changesets s)
    (mark_counter s) (stdout s) (stderr s) (s_in s) (s_line s) (s_sent s)
    cv ct.

(* ===================================================================== *)
(** ** The monad of the emitter *)

Inductive abort :=
| Fatal (msg : string)          (**r [fatal (...)]: diagnostic, exit *)
| AssertFailed (cond : string)  (**r [assert (cond)] *)
| Segfault (what : string)      (**r NULL or dangling pointer dereferenced *)
| Overflow                      (**r signed overflow of [mark_counter] *)
| OutOfFuel.                    (**r never produced: see [read_versions_fuel] *)

Inductive outcome (A : Type) :=
| Ret (a : A) (s : state)
| Abort (e : abort) (s : state).
Arguments Ret {A} a s.
Arguments Abort {A} e s.

Definition M (A : Type) : Type := state -> outcome A.

(** The state a computation ends in. *)
Definition final {A} (o : outcome A) : state :=
  match o with
  | Ret _ s => s
  | Abort _ s => s
  end.

Definition ret {A} (a : A) : M A := fun s => Ret a s.

Definition bind {A B} (m : M A) (k : A -> M B) : M B :=
  fun s => match m s with
           | Ret a s' => k a s'
           | Abort e s' => Abort e s'
           end.

Declare Scope emit_scope.
Delimit Scope emit_scope with emit.
Notation "'let*' x ':=' c1 'in' c2" := (bind c1 (fun x => c2))
  (at level 10, x name, c1 at level 100, c2 at level 200) : emit_scope.
Notation "c1 ;;; c2" := (bind c1 (fun _ => c2))
  (at level 100, c2 at level 200, right associativity) : emit_scope.
Local Open Scope emit_scope.

Definition abort_with {A} (e : abort) : M A := fun s => Abort e s.
Definition fatal {A} (msg : string) : M A := abort_with (Fatal msg).
Definition assert (b : bool) (cond : string) : M unit :=
  if b then ret tt else abort_with (AssertFailed cond).
Definition get : M state := fun s => Ret s s.
Definition modify (f : state -> state) : M unit := fun s => Ret tt (f s).

(** [for (i = a; i != a_end; ++i) body]. *)
Fixpoint for_each {A} (l : list A) (body : A -> M unit) : M unit :=
  match l with
  | [] => ret tt
  | x :: r => body x ;;; for_each r body
  end.

Definition printf (o : out_item) : M unit :=
  modify (fun s => with_stdout (stdout s ++ [o]) s).
Definition eprintf (e : err_item) : M unit :=
  modify (fun s => with_stderr (stderr s ++ [e]) s).
Definition cvs_printf (q : list req_item) : M unit :=
  modify (fun s => with_sent (s_sent s ++ q) s).

(** Dereferences. *)
Definition the_version (v : vref) : M version :=
  fun s => match db_versions s !! v with
           | Some x => Ret x s
           | None => Abort (Segfault "version") s
           end.
Definition the_file (f : fref) : M file :=
  fun s => match db_files s !! f with
           | Some x => Ret x s
           | None => Abort (Segfault "file") s
           end.
Definition the_tag (t : tref) : M tag :=
  fun s => match db_tags s !! t with
           | Some x => Ret x s
           | None => Abort (Segfault "tag") s
           end.
Definition the_changeset (c : cref) : M changeset :=
  fun s => match c with
           | CCommit n =>
               match db_changesets s !! n with
               | Some x => Ret x s
               | None => Abort (Segfault "changeset") s
               end
           | CTag t =>
               match db_tags s !! t with
               | Some x => Ret (t_changeset x) s
               | None => Abort (Segfault "tag") s
               end
           end.

Definition set_changeset_mark (m : Z) (c : changeset) : changeset :=
  mkChangeset (cs_time c) (cs_versions c) m.

Definition update_version (v : vref) (f : version -> version) : M unit :=
  modify (with_versions (alter f v)).
Definition update_tag (t : tref) (f : tag -> tag) : M unit :=
  modify (with_tags (alter f t)).

(* ===================================================================== *)
(** ** Accessors of the history store *)

(** Modelled from the spec: [version_normalise] is declared in file.h,
    which is not among the sources.  "normalise(v) = canonical non-alias
    form (identity here)". *)
Definition version_normalise (v : option vref) : option vref := v.

(** Modelled from the spec: [version_live] is declared in file.h.
    "live(v) = v if v and not dead else null". *)
Definition version_live (vs : list version) (v : option vref) : option vref :=
  match v with
  | Some i =>
      match vs !! i with
      | Some x => if v_dead x then None else Some i
      | None => None
      end
  | None => None
  end.

Definition live (s : state) (v : option vref) : option vref :=
  version_live (db_versions s) v.

Fixpoint find_index {A} (p : A -> bool) (l : list A) : option nat :=
  match l with
  | [] => None
  | x :: r => if p x then Some O else option_map S (find_index p r)
  end.

(** Modelled from the spec: [database_find_file] (database.h).  "File.
    Identified by repository-relative path (unique)." *)
Definition database_find_file (s : state) (path : string) : option fref :=
  find_index (fun f => String.eqb (f_path f) path) (db_files s).

(** Modelled from the spec: [file_find_version] (file.h).  A file "owns an
    ordered set of versions keyed by version identifier". *)
Definition file_find_version (s : state) (f : fref) (vers : string) : option vref :=
  find_index (fun v => Nat.eqb (v_file v) f && String.eqb (v_version v) vers)
    (db_versions s).

Definition option_vref_eqb (a b : option vref) : bool :=
  match a, b with
  | Some x, Some y => Nat.eqb x y
  | None, None => true
  | _, _ => false
  end.

(** [base_versions[i]] for a possibly NULL array; an index outside the
    array is a wild read. *)
Definition array_get (a : list (option vref)) (i : nat) : M (option vref) :=
  fun s => match a !! i with
           | Some x => Ret x s
           | None => Abort (Segfault "branch_versions") s
           end.

(** Modelled from the spec: [ARRAY_SORT] (utils.h) wraps [qsort], whose
    order among equal keys is unspecified.  Nothing below depends on that
    order; the model inserts stably. *)
Section ArraySort.
Context {A : Type} (le : A -> A -> bool).

Fixpoint sort_insert (x : A) (l : list A) : list A :=
  match l with
  | [] => [x]
  | y :: r => if le x y then x :: l else y :: sort_insert x r
  end.

Definition ARRAY_SORT (l : list A) : list A := fold_right sort_insert [] l.
End ArraySort.

(* ===================================================================== *)
(** ** Reading the server's replies (server.c, crap-clone.c) *)

(** [next_line] of server.c. *)
Definition next_line : M unit := fun s =>
  match s_in s with
  | EmptyString => Abort (Fatal "Unexpected EOF from server.") s
  | _ =>
      let '(l, rest) := getline (s_in s) in
      if has_nul l
      then Abort (Fatal "Got line containing ASCII NUL from server.")
             (with_input rest l s)
      else Ret tt (with_input rest (chomp l) s)
  end.

(** Modelled from the spec: [cvs_read_block] (cvs_connection.h) "reads
    exactly the declared byte length" and copies it to [out] when that is
    not NULL; a short stream is fatal. *)
Definition cvs_read_block (out : bool) (len : Z) : M unit := fun s =>
  if Z.of_nat (String.length (s_in s)) <? len
  then Abort (Fatal "Unexpected EOF from server.") s
  else
    let n := Z.to_nat len in
    let s' := with_input (CString.drop n (s_in s)) (s_line s) s in
    Ret tt (if out then with_stdout (stdout s' ++ [OBytes (CString.take n (s_in s))]) s'
            else s').

Definition line : M string := fun s => Ret (s_line s) s.

(** The directory part of an update line, [d] of [read_version]. *)
Definition update_directory (d : string) : string :=
  if String.eqb d "." || String.eqb d "./" then ""
  else
    let len := String.length d in
    let len := match last_char d with
               | Some c => if Ascii.eqb c "/" then (len - 1)%nat else len
               | None => len
               end in
    CString.take len d +:+ "/".

Definition LONG_MAX : Z := 2 ^ 63 - 1.

(** [++mark_counter].  The counter is a [long]; incrementing LONG_MAX is
    undefined in C and the model stops there. *)
Definition next_mark : M Z := fun s =>
  let m := mark_counter s + 1 in
  if LONG_MAX <? m then Abort Overflow s else Ret m (with_mark_counter m s).

Definition set_version_mark (m : Z) (v : version) : version :=
  mkVersion (v_file v) (v_version v) (v_parent v) (v_branch v) (v_author v)
    (v_log v) (v_time v) (v_dead v) (v_exec v) (v_used v) m.

Definition set_version_exec (e : bool) (v : version) : version :=
  mkVersion (v_file v) (v_version v) (v_parent v) (v_branch v) (v_author v)
    (v_log v) (v_time v) (v_dead v) e (v_used v) (v_mark v).

(** The end of [read_version]: the blob record, for a version seen for the
    first time. *)
Definition read_blob (version : vref) (path vers : string) (len : Z) : M unit :=
  let* v := the_version version in
  let out := v_mark v =? SIZE_MAX in
  (if out then
     let* m := next_mark in
     update_version version (set_version_mark m) ;;;
     printf (OBlob m len)
   else eprintf (EDuplicate path vers)) ;;;
  cvs_read_block out len ;;;
  modify (fun s => with_counts (count_versions s + 1) (count_transactions s) s) ;;;
  (if out then printf ONewline else ret tt).

Definition read_version : M unit :=
  let* l := line in
  if starts_with l "Removed " then next_line
  else if starts_with l "Checked-in " then next_line ;;; next_line
  else if negb (starts_with l "Created ")
          && negb (starts_with l "Update-existing ")
          && negb (starts_with l "Updated ")
  then fatal "Did not get Update line"
  else
    let d := match strchr l " " with
             | Some i => update_directory (CString.drop (S i) l)
             | None => ""
             end in
    next_line ;;;
    next_line ;;;
    let* l := line in
    if negb (starts_with l "/")
    then fatal "cvs checkout - doesn't look like entry line"
    else
      let l1 := CString.drop 1 l in
      match strchr l1 "/" with
      | None => fatal "cvs checkout - doesn't look like entry line"
      | Some slash1 =>
          let l2 := CString.drop (S slash1) l1 in
          match strchr l2 "/" with
          | None => fatal "cvs checkout - doesn't look like entry line"
          | Some slash2 =>
              let path := d +:+ CString.take slash1 l1 in
              let vers := CString.take slash2 l2 in
              let* s := get in
              match database_find_file s path with
              | None => fatal "cvs checkout - got unknown file"
              | Some file =>
                  match file_find_version s file vers with
                  | None => fatal "cvs checkout - got unknown file version"
                  | Some version =>
                      next_line ;;;
                      let* l := line in
                      if negb (starts_with l "u=")
                      then fatal "cvs checkout - got unexpected file mode"
                      else
                        update_version version
                          (set_version_exec
                             (match strchr l "x" with Some _ => true | None => false end)) ;;;
                        next_line ;;;
                        let* l := line in
                        let '(len, tail) := strtoul l in
                        if (len =? ULONG_MAX) || negb (String.eqb tail "")
                        then fatal "cvs checkout - got unexpected file length"
                        else
                          read_blob version path vers len
                  end
              end
          end
      end.

(** The [while (1)] of [read_versions].  Every round reads a line, so the
    length of the unread input bounds the rounds: [read_versions] starts
    with more fuel than that and never runs out. *)
Fixpoint read_versions_fuel (fuel : nat) : M unit :=
  match fuel with
  | O => abort_with OutOfFuel
  | S fuel' =>
      next_line ;;;
      let* l := line in
      if starts_with l "M " || starts_with l "MT " then read_versions_fuel fuel'
      else if String.eqb l "ok" then ret tt
      else read_version ;;; read_versions_fuel fuel'
  end.

Definition read_versions : M unit :=
  modify (fun s => with_counts (count_versions s) (count_transactions s + 1) s) ;;;
  let* s := get in
  read_versions_fuel (S (String.length (s_in s))).

(* ===================================================================== *)
(** ** The fetch driver (crap-clone.c) *)

(** The part of [path] before its last slash, NULL without one. *)
Definition dirname (path : string) : option string :=
  option_map (fun slash => CString.take slash path) (strrchr path "/").

Definition grab_version (version : option vref) : M unit :=
  match version with
  | None => ret tt
  | Some vi =>
      let* v := the_version vi in
      if negb (v_mark v =? SIZE_MAX) then ret tt
      else
        let* f := the_file (v_file v) in
        let path := f_path f in
        (* Make sure we have the directory. *)
        (match dirname path with
         | Some dir =>
             match v_parent v with
             | None => cvs_printf [QDirectory dir]
             | Some p =>
                 let* pv := the_version p in
                 if v_mark pv =? SIZE_MAX then cvs_printf [QDirectory dir] else ret tt
             end
         | None => ret tt
         end) ;;;
        (* Go to the main directory. *)
        cvs_printf [QMainDirectory] ;;;
        cvs_printf [QArg_kk; QArg_r (v_version v); QArg_dashdash; QArg path; QUpdate] ;;;
        read_versions ;;;
        let* v := the_version vi in
        if v_mark v =? SIZE_MAX
        then fatal "cvs checkout - failed to get"
        else ret tt
  end.

(** The directory declarations of [grab_by_option]: one per run of
    paths with the same directory, in the order of the array; [d] is the
    directory declared last. *)
Fixpoint directories (d : option string) (paths : list string) : list req_item :=
  match paths with
  | [] => []
  | p :: r =>
      match dirname p with
      | None => directories d r
      | Some dir =>
          if match d with Some d0 => String.eqb dir d0 | None => false end
          then directories d r
          else QDirectory dir :: directories (Some dir) r
      end
  end.

(** The first loop of [grab_by_option]: the pointer [v->file->path] of
    every version, each asserted live, used and not yet fetched.  An
    element of [paths] is given as the file: where the pointer points, and
    its own bytes. *)
Fixpoint fetch_paths (fetch : list vref) : M (list file) :=
  match fetch with
  | [] => ret []
  | i :: r =>
      let* s := get in
      match live s (Some i) with
      | None => abort_with (AssertFailed "v && v->used && v->mark == SIZE_MAX")
      | Some vi =>
          let* v := the_version vi in
          assert (v_used v && (v_mark v =? SIZE_MAX))
            "v && v->used && v->mark == SIZE_MAX" ;;;
          let* f := the_file (v_file v) in
          let* paths := fetch_paths r in
          ret (f :: paths)
      end
  end.

Definition opt_arg (f : string -> req_item) (a : option string) : list req_item :=
  match a with Some x => [f x] | None => [] end.

(** [ARRAY_SORT (paths, strcmp)], with [strcmp] cast to the type of a
    comparison of [qsort]:
    the comparison is handed the addresses of two elements of [paths], as
    [qsort] does, and [strcmp] reads at such an address the bytes of the
    pointer stored there, not the path.  The array is sorted by the bytes
    of the pointers.  (An address has zero bytes at its end on the targets
    of the program, where the read stops.) *)
Definition pointer_le (a b : file) : bool := strcmp_le (f_path_ptr a) (f_path_ptr b).

Definition grab_by_option (r_arg : option string) (D_arg : option Z)
    (fetch : list vref) : M unit :=
  let* paths := fetch_paths fetch in
  assert (negb (Nat.eqb (length paths) 0)) "paths != paths_end" ;;;
  let paths := map f_path (ARRAY_SORT pointer_le paths) in
  cvs_printf (directories None paths) ;;;
  (* Go to the main directory. *)
  cvs_printf [QMainDirectory] ;;;
  (* Update args: *)
  cvs_printf (opt_arg QArg_r r_arg) ;;;
  cvs_printf (match D_arg with Some t => [QArg_D t] | None => [] end) ;;;
  cvs_printf [QArg_kk; QArg_dashdash] ;;;
  cvs_printf (map QArg paths) ;;;
  cvs_printf [QUpdate] ;;;
  read_versions.

(** [time_t] is a signed 64-bit integer; a difference that leaves its
    range wraps (two's complement). *)
Definition wrap_time (z : Z) : Z := (z + 2 ^ 63) mod 2 ^ 64 - 2 ^ 63.

(** [dmin] and [dmax] of [grab_versions]. *)
Fixpoint time_range (dmin dmax : Z) (times : list Z) : Z * Z :=
  match times with
  | [] => (dmin, dmax)
  | t :: r =>
      if t <? dmin then time_range t dmax r
      else if dmax <? t then time_range dmin t r
      else time_range dmin dmax r
  end.

Fixpoint the_versions (l : list vref) : M (list version) :=
  match l with
  | [] => ret []
  | i :: r =>
      let* v := the_version i in
      let* vs := the_versions r in
      ret (v :: vs)
  end.

(** The last loop of [grab_versions].  [tried_date] is a [bool], so
    [tried_date > 1] never holds and nothing is reported. *)
Definition grab_missing (tried_date : bool) (fetch : list vref) : M unit :=
  for_each fetch (fun i =>
    let* v := the_version i in
    if v_mark v =? SIZE_MAX then
      (if 1 <? Z.b2z tried_date
       then let* f := the_file (v_file v) in eprintf (EMissed (f_path f) (v_version v))
       else ret tt) ;;;
      grab_version (Some i)
    else ret tt).

Definition grab_versions (fetch : list vref) : M unit :=
  match fetch with
  | [] => ret tt
  | [v] => grab_version (Some v)
  | first :: rest =>
      let* v0 := the_version first in
      let* vs := the_versions rest in
      if forallb (fun v => String.eqb (v_version v) (v_version v0)) vs
      then grab_by_option (Some (v_version v0)) None fetch
      else
        let '(dmin, dmax) := time_range (v_time v0) (v_time v0) (map v_time vs) in
        (if (wrap_time (dmax - dmin) <? 300)
            && match v_branch v0 with Some _ => true | None => false end
         then
           match v_branch v0 with
           | Some b =>
               let* br := the_tag b in
               grab_by_option
                 (if String.eqb (t_tag br) "" then None else Some (t_tag br))
                 (Some dmax) fetch
           | None => ret tt
           end
         else ret tt) ;;;
        let tried_date :=
          (wrap_time (dmax - dmin) <? 300)
          && match v_branch v0 with Some _ => true | None => false end in
        grab_missing tried_date fetch
  end.

(* ===================================================================== *)
(** ** Fix-ups (fixup.c) *)

(** [compare_fixup_by_time (A, B) <= 0]. *)
Definition compare_fixup_by_time (a b : fixup_ver) : bool := fx_time a <=? fx_time b.

(** [v == NULL || v->dead ? NULL : v]; [None] is a dangling pointer. *)
Definition live_or_null (vs : list version) (v : option vref) : option (option vref) :=
  match v with
  | None => Some None
  | Some i => x ← vs !! i; Some (if v_dead x then None else Some i)
  end.

(** The loop of [create_fixups] from file [i] on, [n] files left; [tf] is
    the unread part of [tag->tag_files].  [None] is a wild read. *)
Fixpoint create_fixups_from (vs : list version)
    (branch_versions : option (list (option vref)))
    (i : fref) (n : nat) (tf : list vref) : option (list fixup_ver) :=
  match n with
  | O => Some []
  | S n' =>
      bv ← match branch_versions with
           | Some a => version_normalise <$> a !! i
           | None => Some None
           end;
      ttf ← match tf with
            | t :: r =>
                x ← vs !! t;
                Some (if Nat.eqb (v_file x) i then (version_normalise (Some t), r)
                      else (None, tf))
            | [] => Some (None, tf)
            end;
      bvl ← live_or_null vs bv;
      tvl ← live_or_null vs ttf.1;
      rest ← create_fixups_from vs branch_versions (S i) n' ttf.2;
      if option_vref_eqb bvl tvl then Some rest
      else
        fix_time ← match ttf.1 with
                   | Some t => v_time <$> vs !! t
                   | None => Some TIME_MIN
                   end;
        Some (mkFixup i tvl fix_time :: rest)
  end.

Definition set_fixups (fx : list fixup_ver) (curr : nat) (t : tag) : tag :=
  mkTag (t_tag t) (t_branch_versions t) (t_parent t) (t_tag_files t) (t_last t)
    (t_fixup t) (t_is_released t) (t_changeset t) fx curr.

Definition create_fixups (branch_versions : option (list (option vref)))
    (tg : tref) : M unit :=
  let* t := the_tag tg in
  assert (Nat.eqb (length (t_fixups t)) 0) "tag->fixups == NULL" ;;;
  let* s := get in
  match create_fixups_from (db_versions s) branch_versions O
          (length (db_files s)) (t_tag_files t) with
  | None => abort_with (Segfault "create_fixups")
  | Some fixups =>
      (* Sort fix-ups by date. *)
      update_tag tg (set_fixups (ARRAY_SORT compare_fixup_by_time fixups) O)
  end.

(** The counters of [fixup_commit_comment]. *)
Record fixup_stats := mkStats {
  keep : nat;
  added : nat;
  deleted : nat;
  modified : nat
}.

Definition base_live (vs : list version) (base_versions : option (list (option vref)))
    (i : fref) : option (option vref) :=
  match base_versions with
  | Some a => version_live vs <$> a !! i
  | None => Some None
  end.

(** [tv] of both loops of [fixup_commit_comment], and [ffv] after it. *)
Definition next_fixup (i : fref) (bv : option vref) (ffv : list fixup_ver)
    : option vref * list fixup_ver :=
  match ffv with
  | f :: r => if Nat.eqb (fx_file f) i then (fx_version f, r) else (bv, ffv)
  | [] => (bv, ffv)
  end.

(** The first loop: [n] files from [i] on. *)
Fixpoint comment_stats (vs : list version) (base_versions : option (list (option vref)))
    (i : fref) (n : nat) (ffv : list fixup_ver) (st : fixup_stats) : option fixup_stats :=
  match n with
  | O => Some st
  | S n' =>
      bv ← base_live vs base_versions i;
      let '(tv, ffv') := next_fixup i bv ffv in
      comment_stats vs base_versions (S i) n' ffv'
        (if option_vref_eqb bv tv then
           match bv with
           | Some _ => mkStats (S (keep st)) (added st) (deleted st) (modified st)
           | None => st
           end
         else
           match tv, bv with
           | None, _ => mkStats (keep st) (added st) (S (deleted st)) (modified st)
           | Some _, None => mkStats (keep st) (S (added st)) (deleted st) (modified st)
           | Some _, Some _ => mkStats (keep st) (added st) (deleted st) (S (modified st))
           end)
  end.

Definition version_string (vs : list version) (v : vref) : option string :=
  v_version <$> vs !! v.

(** The second loop: the lines after the header. *)
Fixpoint comment_lines (files : list file) (vs : list version)
    (base_versions : option (list (option vref)))
    (i : fref) (n : nat) (ffv : list fixup_ver) (st : fixup_stats) : option string :=
  match n with
  | O => Some ""
  | S n' =>
      bv ← base_live vs base_versions i;
      let '(tv, ffv') := next_fixup i bv ffv in
      rest ← comment_lines files vs base_versions (S i) n' ffv' st;
      if option_vref_eqb bv tv then
        match bv with
        | Some b =>
            if Nat.leb (keep st) (deleted st) then
              x ← vs !! b;
              f ← files !! v_file x;
              Some (f_path f +:+ " KEEP " +:+ v_version x +:+ nl +:+ rest)
            else Some rest
        | None => Some rest
        end
      else if match tv with Some _ => true | None => false end
              || Nat.leb (deleted st) (keep st) then
        f ← files !! i;
        old ← match bv with Some b => version_string vs b | None => Some "ADD" end;
        new ← match tv with Some t => version_string vs t | None => Some "DELETE" end;
        Some (f_path f +:+ " " +:+ old +:+ "->" +:+ new +:+ nl +:+ rest)
      else Some rest
  end.

Definition comment_header (st : fixup_stats) : string :=
  "Fix-up commit generated by crap-clone.  (~" +:+ fmt_u (Z.of_nat (modified st))
    +:+ " +" +:+ fmt_u (Z.of_nat (added st))
    +:+ " -" +:+ fmt_u (Z.of_nat (deleted st))
    +:+ " =" +:+ fmt_u (Z.of_nat (keep st)) +:+ ")" +:+ nl.

Definition fixup_commit_comment (base_versions : option (list (option vref)))
    (fixups : list fixup_ver) : M string :=
  let* s := get in
  let n := length (db_files s) in
  (* Generate stats. *)
  match comment_stats (db_versions s) base_versions O n fixups (mkStats 0 0 0 0) with
  | None => abort_with (Segfault "fixup_commit_comment")
  | Some st =>
      assert (Nat.eqb (added st + deleted st + modified st) (length fixups))
        "added + deleted + modified == fixups_end - fixups" ;;;
      (* Generate the commit comment. *)
      match comment_lines (db_files s) (db_versions s) base_versions O n fixups st with
      | None => abort_with (Segfault "fixup_commit_comment")
      | Some lines => ret (comment_header st +:+ lines)
      end
  end.

(** Modelled from the spec: [fixup_list] (fixup.h) is not among the
    sources.  "[print_fixups(before=cs)] emits only those fixups whose
    time-hint precedes the next real commit [cs], leaving the rest to later
    invocations"; without [cs] there is "no time cutoff".  The pending
    fix-ups are in time order, so those are a prefix of them;
    [fixups_curr] moves past it.  [print_fixups] and
    [fixup_commit_comment] walk the result in step with [db->files], so it
    is handed out in file order. *)
Fixpoint fixups_before (cutoff : option Z) (pending : list fixup_ver) : list fixup_ver :=
  match pending with
  | [] => []
  | f :: r =>
      match cutoff with
      | Some t => if fx_time f <? t then f :: fixups_before cutoff r else []
      | None => f :: fixups_before cutoff r
      end
  end.

Definition compare_fixup_by_file (a b : fixup_ver) : bool := Nat.leb (fx_file a) (fx_file b).

Definition fixup_list (tg : tref) (cs : option cref) : M (list fixup_ver) :=
  let* t := the_tag tg in
  let* cutoff := match cs with
                 | Some c => let* x := the_changeset c in ret (Some (cs_time x))
                 | None => ret None
                 end in
  let fixups := fixups_before cutoff (List.skipn (t_fixups_curr t) (t_fixups t)) in
  update_tag tg (set_fixups (t_fixups t) (t_fixups_curr t + length fixups)) ;;;
  ret (ARRAY_SORT compare_fixup_by_file fixups).

(* ===================================================================== *)
(** ** The emitter (crap-clone.c) *)

Definition set_tag_fixup (b : bool) (t : tag) : tag :=
  mkTag (t_tag t) (t_branch_versions t) (t_parent t) (t_tag_files t) (t_last t)
    b (t_is_released t) (t_changeset t) (t_fixups t) (t_fixups_curr t).

Definition set_tag_mark (m : Z) (t : tag) : tag :=
  mkTag (t_tag t) (t_branch_versions t) (t_parent t) (t_tag_files t) (t_last t)
    (t_fixup t) (t_is_released t) (set_changeset_mark m (t_changeset t))
    (t_fixups t) (t_fixups_curr t).

Definition set_tag_last (c : option cref) (t : tag) : tag :=
  mkTag (t_tag t) (t_branch_versions t) (t_parent t) (t_tag_files t) c
    (t_fixup t) (t_is_released t) (t_changeset t) (t_fixups t) (t_fixups_curr t).

Definition set_tag_released (b : bool) (t : tag) : tag :=
  mkTag (t_tag t) (t_branch_versions t) (t_parent t) (t_tag_files t) (t_last t)
    (t_fixup t) b (t_changeset t) (t_fixups t) (t_fixups_curr t).

Definition set_branch_versions (a : option (list (option vref))) (t : tag) : tag :=
  mkTag (t_tag t) a (t_parent t) (t_tag_files t) (t_last t)
    (t_fixup t) (t_is_released t) (t_changeset t) (t_fixups t) (t_fixups_curr t).

(** [tag->branch_versions[i] = v], for a non-NULL array. *)
Definition set_branch_version (i : fref) (v : option vref) (t : tag) : tag :=
  set_branch_versions (option_map (fun a => <[i := v]> a) (t_branch_versions t)) t.

Definition is_branch (t : tag) : bool :=
  match t_branch_versions t with Some _ => true | None => false end.

(** [*tag->tag ? tag->tag : "cvs_master"]. *)
Definition ref_name (t : tag) : string :=
  if String.eqb (t_tag t) "" then "cvs_master" else t_tag t.

(** An argument [base_versions] of the source is always
    [x->branch_versions] for some tag [x], or NULL: it is passed here as
    [Some x] or [None] and read through the state, since [print_fixups]
    writes to the very array it reads when [x] is [tag]. *)
Definition base_array (base : option tref) : M (option (list (option vref))) :=
  match base with
  | Some x => let* t := the_tag x in ret (t_branch_versions t)
  | None => ret None
  end.

(** [base_versions ? version_live (base_versions[i]) : NULL]. *)
Definition base_version (base : option tref) (i : fref) : M (option vref) :=
  let* a := base_array base in
  match a with
  | Some a =>
      let* v := array_get a i in
      let* s := get in
      ret (live s v)
  | None => ret None
  end.

(** The versions [print_fixups] has to fetch. *)
Fixpoint fixups_to_fetch (vs : list version) (fixups : list fixup_ver) : list vref :=
  match fixups with
  | [] => []
  | ffv :: r =>
      match fx_version ffv with
      | Some i =>
          match vs !! i with
          | Some v =>
              if negb (v_dead v) && (v_mark v =? SIZE_MAX)
              then i :: fixups_to_fetch vs r
              else fixups_to_fetch vs r
          | None => fixups_to_fetch vs r
          end
      | None => fixups_to_fetch vs r
      end
  end.

(** One round of the last loop of [print_fixups]. *)
Definition print_fixup (base : option tref) (tg : tref) (ffv : fixup_ver) : M unit :=
  let i := fx_file ffv in
  let* bv := base_version base i in
  let tv := fx_version ffv in
  assert (negb (option_vref_eqb tv bv)) "tv != bv" ;;;
  (match tv with
   | None =>
       match bv with
       | Some b =>
           let* x := the_version b in
           let* f := the_file (v_file x) in
           printf (ODelete (f_path f))
       | None => abort_with (Segfault "bv")
       end
   | Some t =>
       let* x := the_version t in
       let* f := the_file (v_file x) in
       printf (OModify (v_exec x) (v_mark x) (f_path f))
   end) ;;;
  let* t := the_tag tg in
  if is_branch t then update_tag tg (set_branch_version i tv) else ret tt.

(** Output the fixups that must be done before the given time.  If none,
    then no commit is created. *)
Definition print_fixups (base : option tref) (tg : tref) (cs : option cref) : M unit :=
  let* fixups := fixup_list tg cs in
  match fixups with
  | [] => ret tt
  | _ =>
      let* s := get in
      grab_versions (fixups_to_fetch (db_versions s) fixups) ;;;
      update_tag tg (set_tag_fixup true) ;;;
      let* m := next_mark in
      update_tag tg (set_tag_mark m) ;;;
      let* t := the_tag tg in
      printf (OCommit (is_branch t) (ref_name t)) ;;;
      printf (OMark m) ;;;
      let* time := match t_last t with
                   | Some l =>
                       if is_branch t
                       then let* c := the_changeset l in ret (cs_time c)
                       else ret (cs_time (t_changeset t))
                   | None => ret (cs_time (t_changeset t))
                   end in
      printf (OCommitter "crap" time) ;;;
      let* a := base_array base in
      let* comment := fixup_commit_comment a fixups in
      printf (ODataLen (Z.of_nat (String.length comment))) ;;;
      printf (OText comment) ;;;
      for_each fixups (print_fixup base tg)
  end.

Definition set_commit_mark (n : nat) (m : Z) : M unit :=
  modify (with_changesets (alter (set_changeset_mark m) n)).

(** The first loop of [print_commit]: is the commit a no-op, and what is
    to be fetched. *)
Fixpoint commit_delta (br : tref) (versions : list vref) (is_nil : bool)
    (fetch : list vref) : M (bool * list vref) :=
  match versions with
  | [] => ret (is_nil, fetch)
  | i :: r =>
      let* x := the_version i in
      if negb (v_used x) then commit_delta br r is_nil fetch
      else
        let* s := get in
        let cv := live s (Some i) in
        let* b := the_tag br in
        match t_branch_versions b with
        | None => abort_with (Segfault "branch_versions")
        | Some a =>
            let* tip := array_get a (v_file x) in
            if option_vref_eqb cv (live s tip) then commit_delta br r is_nil fetch
            else
              match cv with
              | Some c =>
                  let* y := the_version c in
                  if v_mark y =? SIZE_MAX
                  then commit_delta br r false (fetch ++ [c])
                  else commit_delta br r false fetch
              | None => commit_delta br r false fetch
              end
        end
  end.

(** One round of the last loop of [print_commit]. *)
Definition print_commit_version (i : vref) : M unit :=
  let* x := the_version i in
  if v_used x then
    match version_normalise (Some i) with
    | Some vvi =>
        let* vv := the_version vvi in
        let* f := the_file (v_file vv) in
        if v_dead vv then printf (ODelete (f_path f))
        else printf (OModify (v_exec vv) (v_mark vv) (f_path f))
    | None => abort_with (Segfault "vv")
    end
  else ret tt.

(** [print_commit] after the fix-ups: "the commit proper". *)
Definition print_commit_proper (n : nat) (cs : changeset) (v : version) (br : tref)
    : M unit :=
  (* Check to see if this commit actually does anything... *)
  let* d := commit_delta br (cs_versions cs) true [] in
  let '(is_nil, fetch) := d in
  if is_nil then
    let* b := the_tag br in
    match t_last b with
    | None => abort_with (Segfault "v->branch->last")
    | Some l =>
        let* lc := the_changeset l in
        set_commit_mark n (cs_mark lc) ;;;
        update_tag br (set_tag_last (Some (CCommit n)))
    end
  else
    eprintf (ECommit (cs_time cs)) ;;;
    (* Get the versions. *)
    grab_versions fetch ;;;
    update_tag br (set_tag_last (Some (CCommit n))) ;;;
    let* m := next_mark in
    set_commit_mark n m ;;;
    let* b := the_tag br in
    printf (OCommit true (ref_name b)) ;;;
    printf (OMark m) ;;;
    printf (OCommitter (v_author v) (cs_time cs)) ;;;
    printf (OData (v_log v)) ;;;
    for_each (cs_versions cs) print_commit_version ;;;
    eprintf ENewline.

Definition print_commit (n : nat) : M unit :=
  let* cs := the_changeset (CCommit n) in
  match cs_versions cs with
  | [] => abort_with (Segfault "cs->versions[0]")
  | v0 :: _ =>
      let* v := the_version v0 in
      match v_branch v with
      | None => abort_with (Segfault "v->branch")
      | Some br =>
          (* Before doing the commit proper, output any branch-fixups that
             need doing. *)
          print_fixups (Some br) br (Some (CCommit n)) ;;;
          print_commit_proper n cs v br
      end
  end.

Definition print_tag (tg : tref) : M unit :=
  let* t := the_tag tg in
  eprintf (ETag (cs_time (t_changeset t)) (is_branch t) (t_tag t)) ;;;
  let* branch :=
    match t_parent t with
    | None => ret None
    | Some (CCommit n) =>
        let* p := the_changeset (CCommit n) in
        match cs_versions p with
        | [] => abort_with (Segfault "tag->parent->versions[0]")
        | v0 :: _ => let* v := the_version v0 in ret (v_branch v)
        end
    | Some (CTag p) => ret (Some p)
    end in
  (match t_parent t, branch with
   | None, _ => ret tt
   | Some p, Some b =>
       let* bt := the_tag b in
       assert (match t_last bt with Some l => cref_eqb l p | None => false end)
         "tag->parent == NULL || (branch && branch->last == tag->parent)"
   | Some _, None =>
       abort_with
         (AssertFailed "tag->parent == NULL || (branch && branch->last == tag->parent)")
   end) ;;;
  printf (OReset (is_branch t) (ref_name t)) ;;;
  let* m := match t_parent t with
            | Some p => let* pc := the_changeset p in ret (cs_mark pc)
            | None => ret 0
            end in
  update_tag tg (set_tag_mark m) ;;;
  (if negb (m =? 0) then printf (OFrom m) else ret tt) ;;;
  update_tag tg (set_tag_last (Some (CTag tg))) ;;;
  let* a := base_array branch in
  create_fixups a tg ;;;
  (* If the tag is a branch, then rewind the current versions to the parent
     versions.  The fix-up commits will restore things. *)
  (if is_branch t then
     let* s := get in
     match branch with
     | Some _ =>
         match a with
         | Some bvs => update_tag tg (set_branch_versions (Some bvs))
         | None => abort_with (Segfault "branch->branch_versions")
         end
     | None =>
         update_tag tg
           (set_branch_versions (Some (List.repeat None (length (db_files s)))))
     end
   else
     (* For a tag, just force out all the fixups immediately. *)
     print_fixups branch tg None).

(* ===================================================================== *)
(** ** The emission loop of [main] *)

(** Modelled from the spec: [changeset_update_branch_versions]
    (changeset.h) is not among the sources.  "after emitting a commit on
    that branch the tip for each modified file equals the version
    emitted". *)
Definition changeset_update_branch_versions (n : nat) : M unit :=
  let* cs := the_changeset (CCommit n) in
  match cs_versions cs with
  | [] => abort_with (Segfault "cs->versions[0]")
  | v0 :: _ =>
      let* v := the_version v0 in
      match v_branch v with
      | None => abort_with (Segfault "v->branch")
      | Some br =>
          for_each (cs_versions cs) (fun i =>
            let* x := the_version i in
            if v_used x then update_tag br (set_branch_version (v_file x) (Some i))
            else ret tt)
      end
  end.

(** "Mark the initial tags as ready to emit, and fill in branches with
    their initial versions": the array of a branch is cleared and takes
    the versions of [tag_files]. *)
Definition initial_versions (vs : list version) (nfiles : nat) (t : tag) : tag :=
  match t_branch_versions t with
  | Some _ =>
      set_branch_versions
        (Some (fold_left
                 (fun a j => match vs !! j with
                             | Some x => <[v_file x := Some j]> a
                             | None => a
                             end)
                 (t_tag_files t) (List.repeat None nfiles))) t
  | None => t
  end.

(** One round of "Emit the changesets for real". *)
Definition emit_changeset (c : cref) : M unit :=
  match c with
  | CCommit n => print_commit n ;;; changeset_update_branch_versions n
  | CTag t => update_tag t (set_tag_released true) ;;; print_tag t
  end.

(** "Final fixups." *)
Definition final_fixups : M unit :=
  let* s := get in
  for_each (seq 0 (length (db_tags s))) (fun i =>
    let* t := the_tag i in
    if is_branch t then print_fixups (Some i) i None else ret tt).

(** The loop of [main] over the tags, before the emission. *)
Definition initialise : M unit :=
  modify (fun s => with_tags
            (map (initial_versions (db_versions s) (length (db_files s)))) s).

(** The emission part of [main].  The scheduler ([next_changeset],
    [changeset_emitted]) is not among the sources: [schedule] is the
    sequence of changesets it hands out. *)
Definition emit_all (schedule : list cref) : M unit :=
  initialise ;;;
  for_each schedule emit_changeset ;;;
  final_fixups ;;;
  printf OProgressDone.

(* ===================================================================== *)
(** * Reasoning about the emitter *)

(** ** Hoare triples over [M]

    [hoare P m Q X]: from a state in [P], [m] either returns [a] in a state
    in [Q a], or aborts for a reason in [X]. *)

Definition hoare {A} (P : state -> Prop) (m : M A) (Q : A -> state -> Prop)
    (X : abort -> Prop) : Prop :=
  forall s, P s ->
    match m s with
    | Ret a s' => Q a s'
    | Abort e _ => X e
    end.

Definition any_abort : abort -> Prop := fun _ => True.

Lemma any_abort_intro e : any_abort e.
Proof. exact I. Qed.

Lemma any_abort_all e : e <> OutOfFuel -> any_abort e.
Proof. intros _. exact I. Qed.

#[export] Hint Resolve any_abort_intro any_abort_all : core.

Lemma bind_Ret {A B} (m : M A) (k : A -> M B) s b s' :
  bind m k s = Ret b s' <-> exists a s1, m s = Ret a s1 /\ k a s1 = Ret b s'.
Proof.
  unfold bind. split.
  - destruct (m s) as [a s1|e s1]; [eauto | discriminate].
  - intros (a & s1 & -> & H). exact H.
Qed.

Lemma for_each_cons {A} (x : A) l body :
  for_each (x :: l) body = (body x ;;; for_each l body).
Proof. reflexivity. Qed.

Section HoareRules.
Context {A B : Type}.
Implicit Types (P I : state -> Prop) (X : abort -> Prop).

Lemma hoare_ret P (a : A) (Q : A -> state -> Prop) X :
  (forall s, P s -> Q a s) -> hoare P (ret a) Q X.
Proof. intros H s Hs. simpl. auto. Qed.

Lemma hoare_bind P (m : M A) (k : A -> M B) Q1 Q X :
  hoare P m Q1 X -> (forall a, hoare (Q1 a) (k a) Q X) -> hoare P (bind m k) Q X.
Proof.
  intros Hm Hk s Hs. unfold bind. specialize (Hm s Hs).
  destruct (m s) as [a s1|e s1]; [apply Hk, Hm | exact Hm].
Qed.

Lemma hoare_conseq P P' (m : M A) (Q Q' : A -> state -> Prop) X :
  hoare P' m Q' X -> (forall s, P s -> P' s) -> (forall a s, Q' a s -> Q a s) ->
  hoare P m Q X.
Proof.
  intros Hm HP HQ s Hs. specialize (Hm s (HP s Hs)).
  destruct (m s); auto.
Qed.

Lemma hoare_abort P e (Q : A -> state -> Prop) X :
  X e -> hoare P (abort_with e) Q X.
Proof. intros H s _. exact H. Qed.

Lemma hoare_Ret P (m : M A) Q X s a s' :
  hoare P m Q X -> P s -> m s = Ret a s' -> Q a s'.
Proof. intros Hm Hs E. specialize (Hm s Hs). rewrite E in Hm. exact Hm. Qed.
End HoareRules.

(** Rules for code that keeps an invariant [I]. *)
Section InvariantRules.
Context (I : state -> Prop) (X : abort -> Prop).

Definition keeps {A} (m : M A) : Prop := hoare I m (fun _ => I) X.

Lemma keeps_ret {A} (a : A) : keeps (ret a).
Proof. apply hoare_ret. auto. Qed.

Lemma keeps_bind {A B} (m : M A) (k : A -> M B) :
  keeps m -> (forall a, keeps (k a)) -> keeps (bind m k).
Proof. intros. eapply hoare_bind; eauto. Qed.

Lemma keeps_get : keeps get.
Proof. intros s Hs. exact Hs. Qed.

Lemma keeps_line : keeps line.
Proof. intros s Hs. exact Hs. Qed.

Lemma keeps_modify f : (forall s, I s -> I (f s)) -> keeps (modify f).
Proof. intros H s Hs. apply H, Hs. Qed.

Lemma keeps_for_each {A} (l : list A) body :
  (forall x, keeps (body x)) -> keeps (for_each l body).
Proof.
  intros H. induction l as [|x l IH]; [apply keeps_ret|].
  rewrite for_each_cons. apply keeps_bind; auto.
Qed.

Section Aborts.
Hypothesis X_all : forall e, e <> OutOfFuel -> X e.

Lemma keeps_abort {A} e : e <> OutOfFuel -> keeps (@abort_with A e).
Proof. intros. apply hoare_abort. auto. Qed.

Lemma keeps_fatal {A} msg : keeps (@fatal A msg).
Proof. apply keeps_abort. discriminate. Qed.

Lemma keeps_assert b c : keeps (assert b c).
Proof. destruct b; [apply keeps_ret | apply keeps_abort; discriminate]. Qed.

Lemma keeps_the_version v : keeps (the_version v).
Proof.
  intros s Hs. unfold the_version. destruct (_ !! _); [exact Hs|].
  apply X_all. discriminate.
Qed.

Lemma keeps_the_file f : keeps (the_file f).
Proof.
  intros s Hs. unfold the_file. destruct (_ !! _); [exact Hs|].
  apply X_all. discriminate.
Qed.

Lemma keeps_the_tag t : keeps (the_tag t).
Proof.
  intros s Hs. unfold the_tag. destruct (_ !! _); [exact Hs|].
  apply X_all. discriminate.
Qed.

Lemma keeps_the_changeset c : keeps (the_changeset c).
Proof.
  intros s Hs. unfold the_changeset.
  destruct c; destruct (_ !! _); first [exact Hs | apply X_all; discriminate].
Qed.

Lemma keeps_array_get a i : keeps (array_get a i).
Proof.
  intros s Hs. unfold array_get. destruct (_ !! _); [exact Hs|].
  apply X_all. discriminate.
Qed.
End Aborts.
End InvariantRules.

(** Structural steps of a [keeps] proof; [leaf] closes the calls. *)
Ltac keeps_step leaf :=
  lazymatch goal with
  | |- keeps _ _ (bind _ _) => apply keeps_bind; [| intros ?]
  | |- keeps _ _ (ret _) => apply keeps_ret
  | |- keeps _ _ get => apply keeps_get
  | |- keeps _ _ line => apply keeps_line
  | |- keeps _ _ (for_each _ _) => apply keeps_for_each; intros ?
  | |- keeps _ _ (match ?x with _ => _ end) => destruct x
  | |- keeps _ _ (let _ := _ in _) => cbv zeta
  | |- keeps _ _ _ => leaf
  end.
Ltac keeps_go leaf := repeat keeps_step leaf.

Ltac as_keeps :=
  lazymatch goal with
  | |- hoare ?I ?m (fun _ => ?I) ?X => change (keeps I X m)
  end.

(** A call of a function for which the context has a lemma. *)
Ltac head_of t :=
  lazymatch t with
  | ?f _ => head_of f
  | _ => t
  end.

Ltac keeps_call :=
  idtac;
  lazymatch goal with
  | |- keeps _ _ ?m =>
      let h := head_of m in
      match goal with
      | H : context [h] |- _ => apply H; solve [auto]
      end
  end.

(** The primitives; [upd] proves that a state update keeps the invariant. *)
Ltac keeps_prim upd :=
  idtac;
  lazymatch goal with
  | |- keeps _ _ (ret _) => apply keeps_ret
  | |- keeps _ _ get => apply keeps_get
  | |- keeps _ _ line => apply keeps_line
  | |- keeps _ _ (fatal _) => apply keeps_fatal; assumption
  | |- keeps _ _ (abort_with _) => apply keeps_abort; [assumption | discriminate]
  | |- keeps _ _ (assert _ _) => apply keeps_assert; assumption
  | |- keeps _ _ (the_version _) => apply keeps_the_version; assumption
  | |- keeps _ _ (the_file _) => apply keeps_the_file; assumption
  | |- keeps _ _ (the_tag _) => apply keeps_the_tag; assumption
  | |- keeps _ _ (the_changeset _) => apply keeps_the_changeset; assumption
  | |- keeps _ _ (array_get _ _) => apply keeps_array_get; assumption
  | |- keeps _ _ (modify _) => apply keeps_modify; intros; upd
  | |- keeps _ _ (update_version _ _) => apply keeps_modify; intros; upd
  | |- keeps _ _ (update_tag _ _) => apply keeps_modify; intros; upd
  | |- keeps _ _ (eprintf _) => apply keeps_modify; intros; upd
  | |- keeps _ _ (cvs_printf _) => apply keeps_modify; intros; upd
  | |- keeps _ _ (printf _) => apply keeps_modify; intros; upd
  | |- keeps _ _ (set_commit_mark _ _) => apply keeps_modify; intros; upd
  | |- keeps _ _ _ => keeps_call
  end.

(** ** Invariants of the fetch driver

    Whatever is kept by reading a line, by the diagnostics, by the
    requests, by the executable bit and by the blob record of
    [read_blob] is kept by the whole fetch driver. *)
Lemma keeps_next_line_input (I : state -> Prop) (X : abort -> Prop) :
  (forall e, e <> OutOfFuel -> X e) ->
  (forall i l s, I s -> I (with_input i l s)) ->
  keeps I X next_line.
Proof.
  intros X_all I_input s Hs. unfold next_line.
  destruct (s_in s) eqn:E; [apply X_all; discriminate|].
  destruct (getline _) as [l rest]. destruct (has_nul l).
  - apply X_all. discriminate.
  - apply I_input, Hs.
Qed.

Section FetchInvariant.
Context (I : state -> Prop) (X : abort -> Prop).
Hypothesis X_all : forall e, e <> OutOfFuel -> X e.
Hypothesis I_next_line : keeps I X next_line.
Hypothesis I_stderr : forall e s, I s -> I (with_stderr e s).
Hypothesis I_sent : forall q s, I s -> I (with_sent q s).
Hypothesis I_counts : forall a b s, I s -> I (with_counts a b s).
Hypothesis I_exec :
  forall v e s, I s -> I (with_versions (alter (set_version_exec e) v) s).
Hypothesis I_blob :
  forall version path vers len, keeps I X (read_blob version path vers len).

Local Ltac prim := keeps_prim ltac:(solve [auto]).

Lemma keeps_read_version : keeps I X read_version.
Proof.
  pose proof I_blob. unfold read_version. keeps_go prim.
Qed.

Lemma keeps_read_versions_fuel fuel :
  X OutOfFuel -> keeps I X (read_versions_fuel fuel).
Proof.
  intros HX. pose proof keeps_read_version.
  induction fuel as [|fuel IH]; simpl; [apply hoare_abort, HX|].
  keeps_go prim.
Qed.

Lemma keeps_cvs_printf q : keeps I X (cvs_printf q).
Proof. unfold cvs_printf. prim. Qed.

Lemma keeps_eprintf e : keeps I X (eprintf e).
Proof. unfold eprintf. prim. Qed.

Lemma keeps_read_versions_any : X OutOfFuel -> keeps I X read_versions.
Proof.
  intros HX. unfold read_versions.
  apply keeps_bind; [prim|]. intros _.
  apply keeps_bind; [apply keeps_get|]. intros s.
  apply keeps_read_versions_fuel, HX.
Qed.

Section Driver.
Hypothesis I_read_versions : keeps I X read_versions.

Lemma keeps_grab_version v : keeps I X (grab_version v).
Proof.
  pose proof keeps_cvs_printf.
  unfold grab_version. keeps_go prim.
Qed.

Lemma keeps_fetch_paths fetch : keeps I X (fetch_paths fetch).
Proof.
  induction fetch as [|i r IH]; simpl; keeps_go prim.
Qed.

Lemma keeps_grab_by_option r_arg D_arg fetch :
  keeps I X (grab_by_option r_arg D_arg fetch).
Proof.
  pose proof keeps_cvs_printf. pose proof keeps_fetch_paths.
  unfold grab_by_option. keeps_go prim.
Qed.

Lemma keeps_the_versions l : keeps I X (the_versions l).
Proof. induction l as [|i r IH]; simpl; keeps_go prim. Qed.

Lemma keeps_grab_missing tried fetch : keeps I X (grab_missing tried fetch).
Proof.
  pose proof keeps_grab_version. pose proof keeps_eprintf.
  unfold grab_missing. keeps_go prim.
Qed.

Lemma keeps_grab_versions fetch : keeps I X (grab_versions fetch).
Proof.
  pose proof keeps_grab_version. pose proof keeps_grab_by_option.
  pose proof keeps_grab_missing. pose proof keeps_the_versions.
  unfold grab_versions. keeps_go prim.
Qed.
End Driver.
End FetchInvariant.

(** ** Invariants of the emitter *)

(** The marks that a record defines: those of [blob] and [commit]
    records, not the references of [M] and [from] lines. *)
Definition marks_of_item (o : out_item) : list Z :=
  match o with
  | OBlob m _ => [m]
  | OMark m => [m]
  | _ => []
  end.

Definition marks_of (os : list out_item) : list Z := flat_map marks_of_item os.

Lemma marks_of_app a b : marks_of (a ++ b) = marks_of a ++ marks_of b.
Proof. apply flat_map_app. Qed.

Lemma hoare_bind_keeps {A B} (P : state -> Prop) X (m : M A) (k : A -> M B) Q :
  keeps P X m -> (forall a, hoare P (k a) Q X) -> hoare P (bind m k) Q X.
Proof. intros. eapply hoare_bind; eauto. Qed.

(** The assignments that the emitter makes to the fields of tag [t]. *)
Inductive tag_update (t : tref) : (tag -> tag) -> Prop :=
| tu_fixups fx k : tag_update t (set_fixups fx k)
| tu_fixup b : tag_update t (set_tag_fixup b)
| tu_mark m : tag_update t (set_tag_mark m)
| tu_last_commit n : tag_update t (set_tag_last (Some (CCommit n)))
| tu_last_own : tag_update t (set_tag_last (Some (CTag t)))
| tu_released b : tag_update t (set_tag_released b)
| tu_branch_versions a : tag_update t (set_branch_versions a)
| tu_branch_version i v : tag_update t (set_branch_version i v).

#[export] Hint Constructors tag_update : core.

(** [I] holds between the records; [I' m] holds from the moment mark [m]
    is taken from the counter until its [mark :m] line is written.
    [allowed n]: commit [n] may be emitted. *)
Section EmitInvariant.
Context (I : state -> Prop) (I' : Z -> state -> Prop) (X : abort -> Prop)
        (allowed : nat -> Prop).
Hypothesis X_all : forall e, e <> OutOfFuel -> X e.
Hypothesis I_init :
  forall s, I s ->
    I (with_tags (map (initial_versions (db_versions s) (length (db_files s)))) s).
Hypothesis I_tags :
  forall t f s, tag_update t f -> I s -> I (with_tags (alter f t) s).
Hypothesis I_stderr : forall e s, I s -> I (with_stderr e s).
Hypothesis I_out :
  forall o s, marks_of_item o = [] -> I s -> I (with_stdout (stdout s ++ [o]) s).
Hypothesis I_noop :
  forall n m s, allowed n -> I s ->
    I (with_changesets (alter (set_changeset_mark m) n) s).
Hypothesis I_grab : forall fetch, keeps I X (grab_versions fetch).
Hypothesis I_alloc : hoare I next_mark I' X.
Hypothesis I'_tags :
  forall m t f s, tag_update t f -> I' m s -> I' m (with_tags (alter f t) s).
Hypothesis I'_cs :
  forall m n s, allowed n -> I' m s ->
    I' m (with_changesets (alter (set_changeset_mark m) n) s).
Hypothesis I'_out :
  forall m o s, marks_of_item o = [] -> I' m s -> I' m (with_stdout (stdout s ++ [o]) s).
Hypothesis I_emit : forall m, hoare (I' m) (printf (OMark m)) (fun _ => I) X.

Local Ltac prim := keeps_prim ltac:(solve [auto]).

Lemma keeps_update_tag t f : tag_update t f -> keeps I X (update_tag t f).
Proof. intros. unfold update_tag. prim. Qed.

Lemma keeps_printf o : marks_of_item o = [] -> keeps I X (printf o).
Proof. intros. unfold printf. prim. Qed.

Lemma keeps_eprintf_emit e : keeps I X (eprintf e).
Proof. unfold eprintf. prim. Qed.

Lemma keeps_fixup_list tg cs : keeps I X (fixup_list tg cs).
Proof.
  pose proof keeps_update_tag. unfold fixup_list. keeps_go prim.
Qed.

Lemma keeps_create_fixups a tg : keeps I X (create_fixups a tg).
Proof.
  pose proof keeps_update_tag. unfold create_fixups. keeps_go prim.
Qed.

Lemma keeps_fixup_commit_comment a fixups : keeps I X (fixup_commit_comment a fixups).
Proof. unfold fixup_commit_comment. keeps_go prim. Qed.

Lemma keeps_base_array base : keeps I X (base_array base).
Proof. unfold base_array. keeps_go prim. Qed.

Lemma keeps_base_version base i : keeps I X (base_version base i).
Proof.
  pose proof keeps_base_array. unfold base_version. keeps_go prim.
Qed.

Lemma keeps_print_fixup base tg ffv : keeps I X (print_fixup base tg ffv).
Proof.
  pose proof keeps_base_version. pose proof keeps_update_tag.
  pose proof keeps_printf.
  unfold print_fixup. keeps_go prim.
Qed.

Lemma keeps_print_fixups base tg cs : keeps I X (print_fixups base tg cs).
Proof.
  pose proof keeps_fixup_list. pose proof keeps_update_tag.
  pose proof keeps_printf. pose proof keeps_base_array.
  pose proof keeps_fixup_commit_comment. pose proof keeps_print_fixup.
  unfold print_fixups.
  apply keeps_bind; [prim|]. intros fixups.
  destruct fixups as [|ffv fixups]; [prim|].
  apply keeps_bind; [prim|]. intros s.
  apply keeps_bind; [prim|]. intros _.
  apply keeps_bind; [prim|]. intros _.
  eapply hoare_bind; [apply I_alloc|]. intros m.
  apply hoare_bind_keeps; [apply keeps_modify; auto|]. intros _.
  apply hoare_bind_keeps; [apply keeps_the_tag, X_all|]. intros t.
  apply hoare_bind_keeps; [apply keeps_modify; intros; apply I'_out; auto|].
  intros _.
  eapply hoare_bind; [apply I_emit|]. intros []. cbv beta.
  as_keeps. keeps_go prim.
Qed.

Lemma keeps_commit_delta br versions is_nil fetch :
  keeps I X (commit_delta br versions is_nil fetch).
Proof.
  revert is_nil fetch.
  induction versions as [|i r IH]; intros is_nil fetch; simpl; keeps_go prim.
Qed.

Lemma keeps_print_commit_version i : keeps I X (print_commit_version i).
Proof.
  pose proof keeps_printf. unfold print_commit_version. keeps_go prim.
Qed.

Lemma keeps_print_commit_proper n cs v br :
  allowed n -> keeps I X (print_commit_proper n cs v br).
Proof.
  intros Hn.
  pose proof keeps_commit_delta. pose proof keeps_print_commit_version.
  unfold print_commit_proper.
  apply keeps_bind; [prim|]. intros [is_nil fetch].
  destruct is_nil; [keeps_go prim|].
  apply keeps_bind; [prim|]. intros _.
  apply keeps_bind; [prim|]. intros _.
  apply keeps_bind; [prim|]. intros _.
  eapply hoare_bind; [apply I_alloc|]. intros m.
  apply hoare_bind_keeps; [apply keeps_modify; auto|]. intros _.
  apply hoare_bind_keeps; [apply keeps_the_tag, X_all|]. intros b.
  apply hoare_bind_keeps; [apply keeps_modify; intros; apply I'_out; auto|].
  intros _.
  eapply hoare_bind; [apply I_emit|]. intros []. cbv beta.
  as_keeps. keeps_go prim.
Qed.

Lemma keeps_print_commit n : allowed n -> keeps I X (print_commit n).
Proof.
  intros Hn.
  pose proof keeps_print_fixups.
  pose proof (fun cs v br => keeps_print_commit_proper n cs v br Hn).
  unfold print_commit. keeps_go prim.
Qed.

Lemma keeps_print_tag tg : keeps I X (print_tag tg).
Proof.
  pose proof keeps_print_fixups. pose proof keeps_create_fixups.
  pose proof keeps_base_array.
  unfold print_tag. keeps_go prim.
Qed.

Lemma keeps_changeset_update_branch_versions n :
  keeps I X (changeset_update_branch_versions n).
Proof. unfold changeset_update_branch_versions. keeps_go prim. Qed.

Definition may_emit (c : cref) : Prop :=
  match c with
  | CCommit n => allowed n
  | CTag _ => True
  end.

Lemma keeps_emit_changeset c : may_emit c -> keeps I X (emit_changeset c).
Proof.
  intros Hc.
  pose proof keeps_print_tag. pose proof keeps_changeset_update_branch_versions.
  destruct c as [n|t]; simpl in *.
  - pose proof (keeps_print_commit n Hc). keeps_go prim.
  - keeps_go prim.
Qed.

Lemma keeps_emit_changesets schedule :
  Forall may_emit schedule -> keeps I X (for_each schedule emit_changeset).
Proof.
  induction 1 as [|c l Hc Hl IH]; [apply keeps_ret|].
  rewrite for_each_cons. apply keeps_bind; [apply keeps_emit_changeset, Hc|].
  intros _. exact IH.
Qed.

Lemma keeps_final_fixups : keeps I X final_fixups.
Proof.
  pose proof keeps_print_fixups. unfold final_fixups. keeps_go prim.
Qed.

Lemma keeps_emit_all schedule :
  Forall may_emit schedule -> keeps I X (emit_all schedule).
Proof.
  intros Hs. pose proof (keeps_emit_changesets schedule Hs).
  pose proof keeps_final_fixups. pose proof keeps_printf.
  unfold emit_all, initialise.
  apply keeps_bind; [prim|]. intros _.
  apply keeps_bind; [assumption|]. intros _.
  keeps_go prim.
Qed.
End EmitInvariant.

(** ** Invariants that no update of the driver or the emitter disturbs *)

(** What an invariant may have to put up with from the fetch driver ... *)
Record fetch_tolerant (I : state -> Prop) : Prop := {
  tol_input : forall i l s, I s -> I (with_input i l s);
  tol_stderr : forall e s, I s -> I (with_stderr e s);
  tol_sent : forall q s, I s -> I (with_sent q s);
  tol_counts : forall a b s, I s -> I (with_counts a b s);
  tol_stdout : forall o s, I s -> I (with_stdout (stdout s ++ [o]) s);
  tol_counter : forall s, I s -> I (with_mark_counter (mark_counter s + 1) s)
}.

(** ... and from the emitter, when it emits the commits in [allowed]. *)
Record emit_tolerant (I : state -> Prop) (allowed : nat -> Prop) : Prop := {
  tol_tags : forall f s, I s -> I (with_tags f s);
  tol_commit :
    forall n m s, allowed n -> I s ->
      I (with_changesets (alter (set_changeset_mark m) n) s)
}.

Lemma keeps_cvs_read_block I X out len :
  (forall e, e <> OutOfFuel -> X e) ->
  (forall i l s, I s -> I (with_input i l s)) ->
  (forall o s, I s -> I (with_stdout (stdout s ++ [o]) s)) ->
  keeps I X (cvs_read_block out len).
Proof.
  intros HX Hi Ho s Hs. unfold cvs_read_block.
  destruct (_ <? _); [apply HX; discriminate|].
  destruct out; [|auto].
  apply (Ho _ (with_input _ _ s)). auto.
Qed.

Lemma keeps_next_mark I X :
  (forall e, e <> OutOfFuel -> X e) ->
  (forall s, I s -> I (with_mark_counter (mark_counter s + 1) s)) ->
  keeps I X next_mark.
Proof.
  intros HX Hm s Hs. unfold next_mark.
  destruct (_ <? _); [apply HX; discriminate | auto].
Qed.

(** The blob record, for an invariant that also puts up with a change of
    the marks of versions. *)
Lemma keeps_read_blob_tolerant I X :
  (forall e, e <> OutOfFuel -> X e) ->
  fetch_tolerant I ->
  (forall v m s, I s -> I (with_versions (alter (set_version_mark m) v) s)) ->
  forall version path vers len, keeps I X (read_blob version path vers len).
Proof.
  intros HX [] Hv version path vers len.
  pose proof (keeps_cvs_read_block I X) as Hb.
  pose proof (keeps_next_mark I X) as Hn.
  unfold read_blob.
  keeps_go ltac:(first [ apply Hb; assumption | apply Hn; assumption
                       | keeps_prim ltac:(solve [auto]) ]).
Qed.

Section TolerantInvariant.
Context (I : state -> Prop).
Hypothesis I_fetch : fetch_tolerant I.
Hypothesis I_exec :
  forall v e s, I s -> I (with_versions (alter (set_version_exec e) v) s).
Hypothesis I_blob :
  forall version path vers len, keeps I any_abort (read_blob version path vers len).

Lemma tolerant_read_versions : keeps I any_abort read_versions.
Proof.
  destruct I_fetch.
  apply keeps_read_versions_any; auto; try exact Logic.I;
    try (apply keeps_next_line_input; auto).
Qed.

Lemma tolerant_grab_versions fetch : keeps I any_abort (grab_versions fetch).
Proof.
  pose proof tolerant_read_versions. destruct I_fetch.
  apply keeps_grab_versions; auto;
    try (apply keeps_next_line_input; auto).
Qed.

Section Emitter.
Context (allowed : nat -> Prop).
Hypothesis I_emit : emit_tolerant I allowed.

Local Ltac emitter lemma :=
  pose proof tolerant_grab_versions; destruct I_fetch, I_emit;
  apply (lemma I (fun _ => I)); auto;
  first [ apply keeps_next_mark; solve [auto]
        | intros m; apply keeps_modify; solve [auto] ].

Lemma tolerant_emit_changesets schedule :
  Forall (may_emit allowed) schedule ->
  keeps I any_abort (for_each schedule emit_changeset).
Proof. emitter keeps_emit_changesets. Qed.

Lemma tolerant_print_fixups base tg cs :
  keeps I any_abort (print_fixups base tg cs).
Proof. emitter keeps_print_fixups. Qed.

Lemma tolerant_print_tag tg : keeps I any_abort (print_tag tg).
Proof. emitter keeps_print_tag. Qed.

Lemma tolerant_print_commit n : allowed n -> keeps I any_abort (print_commit n).
Proof. emitter keeps_print_commit. Qed.

Lemma tolerant_emit_all schedule :
  Forall (may_emit allowed) schedule -> keeps I any_abort (emit_all schedule).
Proof. emitter keeps_emit_all. Qed.
End Emitter.
End TolerantInvariant.

(* ===================================================================== *)
(** * The fetch driver *)

(** ** [read_versions] always has fuel left *)

Definition not_out_of_fuel (e : abort) : Prop := e <> OutOfFuel.

Lemma getline_rest_shorter c r :
  (String.length (getline (String c r)).2 < String.length (String c r))%nat.
Proof.
  revert c. induction r as [|c' r IH]; intros c; simpl.
  - destruct (Ascii.eqb c newline); simpl; lia.
  - destruct (Ascii.eqb c newline); simpl; [lia|].
    specialize (IH c'). simpl in IH.
    destruct (Ascii.eqb c' newline); simpl in *; [lia|].
    destruct (getline r) as [l r']. simpl in *. lia.
Qed.

Lemma drop_length n s : (String.length (CString.drop n s) <= String.length s)%nat.
Proof.
  revert s. induction n as [|n IH]; intros [|c r]; simpl; try lia.
  specialize (IH r). lia.
Qed.

Definition input_le (n : nat) (s : state) : Prop := (String.length (s_in s) <= n)%nat.

Lemma next_line_shrinks n :
  hoare (fun s => (String.length (s_in s) < S n)%nat) next_line
    (fun _ s => (String.length (s_in s) < n)%nat) not_out_of_fuel.
Proof.
  intros s Hs. unfold next_line in *.
  destruct (s_in s) as [|c r] eqn:E; [discriminate|].
  pose proof (getline_rest_shorter c r) as Hlt.
  destruct (getline (String c r)) as [l rest]. simpl in Hlt, Hs.
  destruct (has_nul l); [discriminate|]. simpl. lia.
Qed.

Lemma input_le_next_line n : keeps (input_le n) not_out_of_fuel next_line.
Proof.
  intros s Hs. unfold next_line, input_le in *.
  destruct (s_in s) as [|c r] eqn:E; [discriminate|].
  pose proof (getline_rest_shorter c r) as Hlt.
  destruct (getline (String c r)) as [l rest]. simpl in Hlt, Hs.
  destruct (has_nul l); [discriminate|]. simpl. lia.
Qed.

Lemma input_le_read_blob n version path vers len :
  keeps (input_le n) not_out_of_fuel (read_blob version path vers len).
Proof.
  assert (Hb : forall out, keeps (input_le n) not_out_of_fuel (cvs_read_block out len)).
  { intros out s Hs. unfold cvs_read_block, input_le in *.
    destruct (_ <? _); [discriminate|].
    pose proof (drop_length (Z.to_nat len) (s_in s)).
    destruct out; simpl; lia. }
  assert (Hn : keeps (input_le n) not_out_of_fuel next_mark).
  { apply keeps_next_mark; [auto | intros s Hs; exact Hs]. }
  assert (HX : forall e, e <> OutOfFuel -> not_out_of_fuel e) by auto.
  unfold read_blob. keeps_go ltac:(keeps_prim ltac:(assumption)).
Qed.

Lemma input_le_read_version n : keeps (input_le n) not_out_of_fuel read_version.
Proof.
  apply keeps_read_version; auto.
  - apply input_le_next_line.
  - apply input_le_read_blob.
Qed.

Lemma read_versions_fuel_enough fuel :
  hoare (fun s => (String.length (s_in s) < fuel)%nat) (read_versions_fuel fuel)
    (fun _ _ => True) not_out_of_fuel.
Proof.
  induction fuel as [|fuel IH]; intros s Hs; [lia|].
  simpl. unfold bind at 1.
  pose proof (next_line_shrinks fuel s Hs) as Hn. simpl in Hn.
  destruct (next_line s) as [[] s1|e s1]; [|exact Hn].
  unfold bind at 1, line.
  destruct (_ || _).
  { apply IH. lia. }
  destruct (String.eqb _ _); [exact Logic.I|].
  unfold bind.
  pose proof (input_le_read_version (String.length (s_in s1)) s1) as Hr.
  unfold input_le in Hr. specialize (Hr ltac:(lia)).
  destruct (read_version s1) as [[] s2|e s2]; [|exact Hr].
  apply IH. lia.
Qed.

(** [read_versions] returns or aborts as the C code does: the model's own
    abort, for want of fuel, never comes. *)
Lemma read_versions_has_fuel :
  hoare (fun _ => True) read_versions (fun _ _ => True) not_out_of_fuel.
Proof.
  intros s _. unfold read_versions, bind, modify, get.
  apply read_versions_fuel_enough. simpl. lia.
Qed.

(** Nor does it to the emitter as a whole. *)
Lemma emit_all_has_fuel schedule :
  hoare (fun _ => True) (emit_all schedule) (fun _ _ => True) not_out_of_fuel.
Proof.
  assert (HX : forall e, e <> OutOfFuel -> not_out_of_fuel e) by auto.
  assert (Hn : keeps (fun _ => True) not_out_of_fuel next_mark).
  { apply keeps_next_mark; auto. }
  assert (Hf : forall fetch, keeps (fun _ => True) not_out_of_fuel (grab_versions fetch)).
  { intros fetch. apply keeps_grab_versions; auto;
      first [ apply read_versions_has_fuel
            | apply keeps_next_line_input; solve [auto]
            | intros; apply keeps_read_blob_tolerant; auto; split; auto ]. }
  apply (keeps_emit_all (fun _ => True) (fun _ _ => True) not_out_of_fuel
           (fun _ => True)); auto.
  - intros m. apply keeps_modify. auto.
  - apply Forall_forall. intros []; simpl; auto.
Qed.

(** ** A version that has its mark keeps it *)

Definition marked (i : vref) (s : state) : Prop :=
  exists x, db_versions s !! i = Some x /\ v_mark x <> SIZE_MAX.

Definition has_mark (i : vref) (m : Z) (s : state) : Prop :=
  exists x, db_versions s !! i = Some x /\ v_mark x = m.

Lemma lookup_alter_version (f : version -> version) (vs : list version) v i x :
  alter f v vs !! i = Some x ->
  exists y, vs !! i = Some y /\ (x = y \/ (i = v /\ x = f y)).
Proof.
  intros H. destruct (decide (i = v)) as [->|Hne].
  - rewrite list_lookup_alter_eq in H.
    destruct (vs !! v) as [y|]; simpl in H; [|discriminate].
    injection H as <-. eauto.
  - rewrite list_lookup_alter_ne in H by congruence. eauto.
Qed.

Lemma lookup_alter_version_tag (f : tag -> tag) (ts : list tag) v i x :
  alter f v ts !! i = Some x ->
  exists y, ts !! i = Some y /\ (x = y \/ (i = v /\ x = f y)).
Proof.
  intros H. destruct (decide (i = v)) as [->|Hne].
  - rewrite list_lookup_alter_eq in H.
    destruct (ts !! v) as [y|]; simpl in H; [|discriminate].
    injection H as <-. eauto.
  - rewrite list_lookup_alter_ne in H by congruence. eauto.
Qed.

Lemma lookup_alter_Some {A} (f : A -> A) (l : list A) v i y :
  l !! i = Some y ->
  alter f v l !! i = Some (if decide (i = v) then f y else y).
Proof.
  intros H. destruct (decide (i = v)) as [->|Hne].
  - rewrite list_lookup_alter_eq, H. reflexivity.
  - rewrite list_lookup_alter_ne by congruence. exact H.
Qed.

Lemma has_mark_exec i m v e s :
  has_mark i m s -> has_mark i m (with_versions (alter (set_version_exec e) v) s).
Proof.
  intros (x & Hx & Hm). unfold has_mark. simpl.
  erewrite lookup_alter_Some by exact Hx.
  eexists. split; [reflexivity|]. destruct (decide _); auto.
Qed.

(** [read_blob] writes a mark only over the sentinel. *)
Lemma has_mark_read_blob i m version path vers len :
  m <> SIZE_MAX ->
  keeps (has_mark i m) any_abort (read_blob version path vers len).
Proof.
  intros Hm s (x & Hx & Hxm). unfold read_blob, bind, the_version.
  destruct (db_versions s !! version) as [v|] eqn:Ev; [|exact Logic.I].
  destruct (v_mark v =? SIZE_MAX) eqn:Eo.
  - apply Z.eqb_eq in Eo.
    assert (Hne : i <> version) by (intros ->; congruence).
    unfold next_mark. destruct (_ <? _); [exact Logic.I|]. simpl.
    unfold cvs_read_block. simpl. destruct (_ <? _); [exact Logic.I|]. simpl.
    exists x. split; [|exact Hxm]. simpl.
    erewrite lookup_alter_Some by exact Hx.
    destruct (decide _); [congruence | reflexivity].
  - simpl. unfold cvs_read_block. simpl. destruct (_ <? _); [exact Logic.I|].
    simpl. exists x. auto.
Qed.

Lemma has_mark_fetch_tolerant i m : fetch_tolerant (has_mark i m).
Proof. split; intros; assumption. Qed.

Lemma has_mark_emit_tolerant i m : emit_tolerant (has_mark i m) (fun _ => True).
Proof. split; intros; assumption. Qed.

Lemma has_mark_grab_versions i m fetch :
  m <> SIZE_MAX -> keeps (has_mark i m) any_abort (grab_versions fetch).
Proof.
  intros Hm. apply tolerant_grab_versions.
  - apply has_mark_fetch_tolerant.
  - intros. apply has_mark_exec. assumption.
  - intros. apply has_mark_read_blob, Hm.
Qed.

Lemma has_mark_grab_version i m v :
  m <> SIZE_MAX -> keeps (has_mark i m) any_abort (grab_version v).
Proof.
  intros Hm. apply (has_mark_grab_versions i m [] Hm) || idtac.
  destruct v as [v|]; [|apply keeps_ret].
  intros s Hs. exact (has_mark_grab_versions i m [v] Hm s Hs).
Qed.

Lemma marked_has_mark i s : marked i s <-> exists m, m <> SIZE_MAX /\ has_mark i m s.
Proof.
  split.
  - intros (x & Hx & Hm). exists (v_mark x). split; [exact Hm|]. exists x. auto.
  - intros (m & Hm & x & Hx & <-). exists x. auto.
Qed.

(** If [grab_version] returns, the version has a mark: it is fatal not to
    get it. *)
Lemma grab_version_marks v s s' :
  grab_version (Some v) s = Ret tt s' -> marked v s'.
Proof.
  unfold grab_version. intros H.
  apply bind_Ret in H as (x & s1 & Hx & H).
  unfold the_version in Hx.
  destruct (db_versions s !! v) as [x'|] eqn:E; [|discriminate].
  injection Hx as -> ->.
  destruct (v_mark x =? SIZE_MAX) eqn:Em; simpl in H.
  - apply bind_Ret in H as (f & s2 & _ & H).
    apply bind_Ret in H as (? & s3 & _ & H).
    apply bind_Ret in H as (? & s4 & _ & H).
    apply bind_Ret in H as (? & s5 & _ & H).
    apply bind_Ret in H as (? & s6 & _ & H).
    apply bind_Ret in H as (y & s7 & Hy & H).
    unfold the_version in Hy.
    destruct (db_versions s6 !! v) as [y'|] eqn:E2; [|discriminate].
    injection Hy as -> ->.
    destruct (v_mark y =? SIZE_MAX) eqn:Em2; [discriminate|].
    injection H as <-. exists y. split; [exact E2|].
    apply Z.eqb_neq. exact Em2.
  - injection H as <-. exists x. split; [exact E|]. apply Z.eqb_neq. exact Em.
Qed.

(** The last loop of [grab_versions] leaves no version without a mark. *)
Lemma grab_missing_marks tried fetch s s' :
  grab_missing tried fetch s = Ret tt s' -> forall i, In i fetch -> marked i s'.
Proof.
  unfold grab_missing. revert s.
  induction fetch as [|j r IH]; intros s H i Hi; [destruct Hi|].
  rewrite for_each_cons in H.
  apply bind_Ret in H as ([] & s1 & Hj & H).
  destruct Hi as [<-|Hi]; [|eapply IH; eauto].
  assert (Hm : marked j s1).
  { apply bind_Ret in Hj as (x & s0 & Hx & Hj).
    unfold the_version in Hx.
    destruct (db_versions s !! j) as [x'|] eqn:E; [|discriminate].
    injection Hx as -> ->.
    destruct (v_mark x =? SIZE_MAX) eqn:Em.
    - apply bind_Ret in Hj as (? & s2 & Hp & Hj).
      assert (s2 = s0) as ->.
      { destruct tried; simpl in Hp; injection Hp as _ <-; reflexivity. }
      eapply grab_version_marks, Hj.
    - injection Hj as <-. exists x. split; [exact E|].
      apply Z.eqb_neq, Em. }
  apply marked_has_mark in Hm as (m & Hm & Hh).
  apply marked_has_mark. exists m. split; [exact Hm|].
  clear IH Hj. revert s1 H Hh.
  induction r as [|k r IH]; intros s1 H Hh.
  - injection H as <-. exact Hh.
  - rewrite for_each_cons in H.
    apply bind_Ret in H as ([] & s2 & Hk & H).
    eapply IH; [exact H|].
    apply bind_Ret in Hk as (x & s0 & Hx & Hk).
    unfold the_version in Hx.
    destruct (db_versions s1 !! k) as [x'|] eqn:E; [|discriminate].
    injection Hx as -> ->.
    destruct (v_mark x =? SIZE_MAX).
    + apply bind_Ret in Hk as (? & s3 & Hp & Hk).
      assert (s3 = s0) as ->.
      { destruct tried; simpl in Hp; injection Hp as _ <-; reflexivity. }
      exact (hoare_Ret _ _ _ _ _ _ _ (has_mark_grab_version j m (Some k) Hm) Hh Hk).
    + injection Hk as <-. exact Hh.
Qed.

(** [fetch[i]->version == fetch[0]->version] for every [i]: the version
    strings are interned, so the pointers are equal when the strings are. *)
Definition same_version_id (s : state) (fetch : list vref) : bool :=
  match fetch with
  | first :: rest =>
      forallb (fun i =>
                 match db_versions s !! first, db_versions s !! i with
                 | Some a, Some b => String.eqb (v_version b) (v_version a)
                 | _, _ => false
                 end) rest
  | [] => true
  end.

Lemma the_versions_Ret l s vs s' :
  the_versions l s = Ret vs s' -> s' = s /\ Forall2 (fun i v => db_versions s !! i = Some v) l vs.
Proof.
  revert vs s'. induction l as [|i r IH]; intros vs s' H; simpl in H.
  - injection H as <- <-. auto.
  - apply bind_Ret in H as (x & s1 & Hx & H).
    unfold the_version in Hx.
    destruct (db_versions s !! i) as [x'|] eqn:E; [|discriminate].
    injection Hx as -> ->.
    apply bind_Ret in H as (xs & s2 & Hxs & H).
    apply IH in Hxs as [-> Hall]. injection H as <- <-.
    split; [reflexivity|]. constructor; assumption.
Qed.

(** Every path of [grab_versions] but the one for equal version strings
    ends in a check of the marks. *)
Lemma grab_versions_marks fetch s s' :
  grab_versions fetch s = Ret tt s' ->
  same_version_id s fetch = false \/ (length fetch <= 1)%nat ->
  forall i, In i fetch -> marked i s'.
Proof.
  intros H Hc i Hi.
  destruct fetch as [|first [|second rest]].
  - destruct Hi.
  - destruct Hi as [<-|[]]. eapply grab_version_marks, H.
  - destruct Hc as [Hc|Hc]; [|simpl in Hc; lia].
    unfold grab_versions in H.
    apply bind_Ret in H as (v0 & s1 & H0 & H).
    unfold the_version in H0.
    destruct (db_versions s !! first) as [v0'|] eqn:E0; [|discriminate].
    injection H0 as -> ->.
    apply bind_Ret in H as (vs & s2 & Hvs & H).
    apply the_versions_Ret in Hvs as [-> Hvs].
    assert (Hsame : forallb (fun v => String.eqb (v_version v) (v_version v0)) vs = false).
    { rewrite <- Hc. unfold same_version_id. rewrite E0.
      clear -Hvs. induction Hvs as [|j v l vl Hj Hl IH]; [reflexivity|].
      simpl. rewrite Hj, IH. reflexivity. }
    rewrite Hsame in H.
    destruct (time_range _ _ _) as [dmin dmax].
    apply bind_Ret in H as ([] & s3 & _ & H).
    eapply grab_missing_marks; eauto.
Qed.

(* ===================================================================== *)
(** * Scenarios *)

Module Scenario.

(** The lines of a reply, each ended by a newline. *)
Definition lines (l : list string) : string :=
  fold_right (fun a b => a +:+ nl +:+ b) "" l.

(** The reply of the server for one file: the [Created] group and the
    body. *)
Definition created (name vers body : string) : string :=
  lines [ "Created ./"; "/repo/" +:+ name; "/" +:+ name +:+ "/" +:+ vers +:+ "///";
          "u=rw,g=r,o=r"; fmt_u (Z.of_nat (String.length body)) ] +:+ body.

Definition ok : string := lines ["ok"].

(** The bytes of an address as a pointer is stored on x86-64, the least
    significant first, before the first zero byte. *)
Fixpoint address_bytes (n : nat) (a : Z) : string :=
  match n with
  | O => EmptyString
  | S n' =>
      if Z.land a 255 =? 0 then EmptyString
      else String (ascii_of_N (Z.to_N (Z.land a 255)))
             (address_bytes n' (Z.shiftr a 8))
  end.

(** The pointer to the [k]th string that the program has allocated:
    addresses 16 bytes apart, growing. *)
Definition heap (k : Z) : string := address_bytes 8 (93824994357264 + 16 * k).

(** A live, used version that has not been fetched. *)
Definition ver (f : fref) (id : string) (br : tref) (time : Z) : version :=
  mkVersion f id None (Some br) "u" "log" time false false true SIZE_MAX.

Definition dead_ver (f : fref) (id : string) (br : tref) (time : Z) : version :=
  mkVersion f id None (Some br) "u" "log" time true false true SIZE_MAX.

Definition branch (name : string) (nfiles : nat) (parent : option cref)
    (tag_files : list vref) (time : Z) : tag :=
  mkTag name (Some (List.repeat None nfiles)) parent tag_files None false false
    (mkChangeset time [] SIZE_MAX) [] 0.

Definition plain_tag (name : string) (parent : option cref)
    (tag_files : list vref) (time : Z) : tag :=
  mkTag name None parent tag_files None false false
    (mkChangeset time [] SIZE_MAX) [] 0.

Definition commit (time : Z) (versions : list vref) : changeset :=
  mkChangeset time versions SIZE_MAX.

Definition start (files : list file) (versions : list version) (tags : list tag)
    (changesets : list changeset) (replies : string) : state :=
  mkState files versions tags changesets 0 [] [] replies "" [] 0 0.

(** Two files whose version 1.1 is wanted; the server answers [ok]
    without sending either. *)
Definition same_id_unanswered : state :=
  start [mkFile "a" (heap 0); mkFile "b" (heap 1)]
    [ver 0 "1.1" 0 10; ver 1 "1.1" 0 10]
    [branch "" 2 None [] 0] [] ok.

(** Two versions with different version strings, on different branches,
    100 seconds apart.  The server sends nothing for the request by
    date and each version for the requests by version. *)
Definition two_branches : state :=
  start [mkFile "a" (heap 0); mkFile "b" (heap 1)]
    [ver 0 "1.1.2.1" 1 1000; ver 1 "1.2" 0 1100]
    [branch "" 2 None [] 0; branch "b1" 2 None [] 0] []
    (ok +:+ created "a" "1.1.2.1" "x" +:+ ok +:+ created "b" "1.2" "yy" +:+ ok).

End Scenario.

(** C1, at its failing input: two versions with the same version string
    are requested together and the server sends neither.
    [grab_versions] returns all the same, both marks still the sentinel,
    with no blob written: the path for equal version strings returns
    before the check that the other paths make. *)
Theorem grab_versions_same_id_unchecked :
  same_version_id Scenario.same_id_unanswered [0; 1]%nat = true /\
  exists s',
    grab_versions [0; 1]%nat Scenario.same_id_unanswered = Ret tt s' /\
    map v_mark (db_versions s') = [SIZE_MAX; SIZE_MAX] /\
    stdout s' = [] /\
    s_sent s' = [QMainDirectory; QArg_r "1.1"; QArg_kk; QArg_dashdash;
                 QArg "a"; QArg "b"; QUpdate].
Proof.
  split; [reflexivity|]. eexists. split; [vm_compute; reflexivity|].
  repeat split; reflexivity.
Qed.

(** C2, at its failing input: two versions with different version
    strings, one on branch [b1] and one on the trunk, 100 seconds apart.
    They share no branch, yet the first request is the one by branch tag
    and date, with the tag of the first version's branch; the requests by
    version follow only because that one brought nothing. *)
Theorem grab_versions_date_request_across_branches :
  map v_branch (db_versions Scenario.two_branches) = [Some 1; Some 0]%nat /\
  same_version_id Scenario.two_branches [0; 1]%nat = false /\
  exists s',
    grab_versions [0; 1]%nat Scenario.two_branches = Ret tt s' /\
    s_sent s' =
      [QMainDirectory; QArg_r "b1"; QArg_D 1100; QArg_kk; QArg_dashdash;
       QArg "a"; QArg "b"; QUpdate] ++
      [QMainDirectory; QArg_kk; QArg_r "1.1.2.1"; QArg_dashdash; QArg "a"; QUpdate] ++
      [QMainDirectory; QArg_kk; QArg_r "1.2"; QArg_dashdash; QArg "b"; QUpdate].
Proof.
  split; [reflexivity|]. split; [reflexivity|].
  eexists. split; [vm_compute; reflexivity|]. reflexivity.
Qed.

(* ===================================================================== *)
(** * Fix-ups *)

(** ** [ARRAY_SORT] sorts *)
Section SortFacts.
Context {A : Type} (le : A -> A -> bool).
Hypothesis le_total : forall a b, le a b = true \/ le b a = true.
Hypothesis le_trans : forall a b c, le a b = true -> le b c = true -> le a c = true.

Lemma sort_insert_perm x l : Permutation (x :: l) (sort_insert le x l).
Proof.
  induction l as [|y r IH]; simpl; [reflexivity|].
  destruct (le x y); [reflexivity|].
  rewrite perm_swap. constructor. exact IH.
Qed.

Lemma ARRAY_SORT_perm l : Permutation l (ARRAY_SORT le l).
Proof.
  induction l as [|x r IH]; simpl; [reflexivity|].
  rewrite <- sort_insert_perm. constructor. exact IH.
Qed.

Lemma sort_insert_sorted x l :
  StronglySorted (fun a b => le a b = true) l ->
  StronglySorted (fun a b => le a b = true) (sort_insert le x l).
Proof.
  induction 1 as [|y r Hr IH Hy]; simpl.
  - repeat constructor.
  - destruct (le x y) eqn:E.
    + constructor; [constructor; assumption|].
      constructor; [exact E|].
      eapply Forall_impl; [exact Hy|]. intros z Hz. eapply le_trans; eauto.
    + constructor; [exact IH|].
      assert (Hyx : le y x = true) by (destruct (le_total x y); congruence).
      eapply Permutation_Forall; [apply sort_insert_perm|].
      constructor; assumption.
Qed.

Lemma ARRAY_SORT_sorted l : StronglySorted (fun a b => le a b = true) (ARRAY_SORT le l).
Proof.
  induction l as [|x r IH]; simpl; [constructor|].
  apply sort_insert_sorted, IH.
Qed.
End SortFacts.

Lemma StronglySorted_weaken {A} (R R' : A -> A -> Prop) l :
  (forall a b, R a b -> R' a b) -> StronglySorted R l -> StronglySorted R' l.
Proof.
  intros HR. induction 1 as [|x r Hr IH Hx]; constructor; [exact IH|].
  eapply Forall_impl; [exact Hx|]. auto.
Qed.

Lemma sort_by_time_sorted l :
  StronglySorted (fun a b => fx_time a <= fx_time b) (ARRAY_SORT compare_fixup_by_time l).
Proof.
  eapply StronglySorted_weaken; [|apply ARRAY_SORT_sorted].
  - intros a b H. apply Z.leb_le, H.
  - intros a b. unfold compare_fixup_by_time.
    destruct (Z.leb_spec (fx_time a) (fx_time b)); [auto|].
    right. apply Z.leb_le. lia.
  - intros a b c. unfold compare_fixup_by_time. rewrite !Z.leb_le. lia.
Qed.

(** ** [create_fixups] against the per-file comparison of the spec *)

(** [target[f]]: the version of file [f] among the tag's files. *)
Definition target (vs : list version) (tag_files : list vref) (f : fref) : option vref :=
  List.find (fun i => match vs !! i with
                      | Some x => Nat.eqb (v_file x) f
                      | None => false
                      end) tag_files.

(** [base[f]]. *)
Definition base_at (base : option (list (option vref))) (f : fref) : option vref :=
  match base with
  | Some a => default None (a !! f)
  | None => None
  end.

Definition version_time (vs : list version) (v : vref) : Z :=
  default 0 (v_time <$> vs !! v).

(** The entry that file [f] needs, if any: "(file, target[file]) :
    live(base[file]) <> live(target[file])".  Its time is that of the
    tag's version of the file, dead or not, and [TIME_MIN] when the tag
    has no version of the file. *)
Definition wanted_fixup (vs : list version) (base : option (list (option vref)))
    (tag_files : list vref) (f : fref) : option fixup_ver :=
  let tv := target vs tag_files f in
  if option_vref_eqb (version_live vs (base_at base f)) (version_live vs tv)
  then None
  else Some (mkFixup f (version_live vs tv)
               (match tv with
                | Some t => version_time vs t
                | None => TIME_MIN
                end)).

(** The time the claim gives an entry: that of its version, and
    [TIME_MIN] for a deletion. *)
Definition claimed_time (vs : list version) (e : fixup_ver) : Z :=
  match fx_version e with
  | Some t => version_time vs t
  | None => TIME_MIN
  end.

(** The representation invariants that [create_fixups] relies on:
    [tag_files] names existing versions, of files of the database, at most
    one per file and in file order ([lo] is the least file allowed), ... *)
Fixpoint tag_files_ok (vs : list version) (nfiles : nat) (lo : fref)
    (tag_files : list vref) : bool :=
  match tag_files with
  | [] => true
  | t :: r =>
      match vs !! t with
      | Some x =>
          Nat.leb lo (v_file x) && Nat.ltb (v_file x) nfiles
          && tag_files_ok vs nfiles (S (v_file x)) r
      | None => false
      end
  end.

(** ... and [branch_versions] has an entry per file and names existing
    versions. *)
Definition base_ok (vs : list version) (nfiles : nat)
    (base : option (list (option vref))) : bool :=
  match base with
  | None => true
  | Some a =>
      Nat.eqb (length a) nfiles
      && forallb (fun o => match o with
                           | Some i => match vs !! i with Some _ => true | None => false end
                           | None => true
                           end) a
  end.

Lemma tag_files_ok_below vs n lo tf j :
  tag_files_ok vs n lo tf = true -> (j < lo)%nat -> target vs tf j = None.
Proof.
  revert lo. induction tf as [|t r IH]; intros lo H Hj; [reflexivity|].
  simpl in *. destruct (vs !! t) as [x|]; [|discriminate].
  apply andb_prop in H as [H Hr]. apply andb_prop in H as [Hlo _].
  apply Nat.leb_le in Hlo.
  destruct (Nat.eqb_spec (v_file x) j); [lia|].
  eapply IH; [exact Hr | lia].
Qed.

Lemma live_or_null_valid vs v :
  match v with Some i => is_Some (vs !! i) | None => True end ->
  live_or_null vs v = Some (version_live vs v).
Proof.
  destruct v as [i|]; [|reflexivity]. intros [x Hx]. simpl. rewrite Hx. reflexivity.
Qed.

Lemma base_ok_lookup vs n a i :
  base_ok vs n (Some a) = true -> (i < n)%nat ->
  exists bv, a !! i = Some bv /\
             match bv with Some j => is_Some (vs !! j) | None => True end.
Proof.
  unfold base_ok. intros H Hi. apply andb_prop in H as [Hl Ha].
  apply Nat.eqb_eq in Hl.
  destruct (a !! i) as [bv|] eqn:E.
  - exists bv. split; [reflexivity|].
    rewrite forallb_forall in Ha.
    specialize (Ha bv (proj1 (list_elem_of_In _ _) (list_elem_of_lookup_2 _ _ _ E))).
    destruct bv as [j|]; [|exact Logic.I].
    destruct (vs !! j); [eauto | discriminate].
  - apply lookup_ge_None in E. lia.
Qed.

Lemma omap_ext_in {A B} (f g : A -> option B) l :
  (forall x, In x l -> f x = g x) -> omap f l = omap g l.
Proof.
  induction l as [|x r IH]; intros H; [reflexivity|].
  change (match f x with Some y => y :: omap f r | None => omap f r end
          = match g x with Some y => y :: omap g r | None => omap g r end).
  rewrite (H x (or_introl eq_refl)), IH; [reflexivity|].
  intros y Hy. apply H. right. exact Hy.
Qed.

Lemma omap_cons {A B} (f : A -> option B) x l :
  omap f (x :: l) = match f x with Some y => y :: omap f l | None => omap f l end.
Proof. reflexivity. Qed.

(** The walk of [create_fixups] over the files and the tag's files in
    step finds what the comparison file by file asks for. *)
Lemma create_fixups_from_wanted vs base nfiles n :
  base_ok vs nfiles base = true ->
  forall (i : fref) tf,
    (i + n = nfiles)%nat ->
    tag_files_ok vs nfiles i tf = true ->
    create_fixups_from vs base i n tf
    = Some (omap (wanted_fixup vs base tf) (seq i n)).
Proof.
  intros Hb. induction n as [|n IH]; intros i tf Hn Htf; [reflexivity|].
  cbn [create_fixups_from seq]. rewrite omap_cons.
  (* bv *)
  assert (Hbv : exists bv,
             match base with
             | Some a => version_normalise <$> a !! i
             | None => Some None
             end = Some bv
             /\ bv = base_at base i
             /\ match bv with Some j => is_Some (vs !! j) | None => True end).
  { destruct base as [a|].
    - destruct (base_ok_lookup vs nfiles a i Hb ltac:(lia)) as (bv & E & Hv).
      exists bv. unfold base_at. rewrite E. repeat split. exact Hv.
    - exists None. auto. }
  destruct Hbv as (bv & -> & Ebv & Hbv). cbn [mbind option_bind].
  (* tv *)
  assert (Htv : exists tv tf',
             match tf with
             | t :: r =>
                 x ← vs !! t;
                 Some (if Nat.eqb (v_file x) i then (version_normalise (Some t), r)
                       else (None, tf))
             | [] => Some (None, tf)
             end = Some (tv, tf')
             /\ tv = target vs tf i
             /\ match tv with Some j => is_Some (vs !! j) | None => True end
             /\ tag_files_ok vs nfiles (S i) tf' = true
             /\ forall j, In j (seq (S i) n) -> target vs tf j = target vs tf' j).
  { destruct tf as [|t r].
    - exists None, []. auto.
    - simpl in Htf. simpl. destruct (vs !! t) as [x|] eqn:E; [|discriminate].
      apply andb_prop in Htf as [H Hr]. apply andb_prop in H as [Hlo Hlt].
      apply Nat.leb_le in Hlo. simpl.
      destruct (Nat.eqb_spec (v_file x) i) as [Hx|Hx].
      + exists (Some t), r. rewrite Hx in Hr.
        repeat split; eauto.
        intros j Hj. apply in_seq in Hj.
        destruct (Nat.eqb_spec (v_file x) j); [lia | reflexivity].
      + exists None, (t :: r). repeat split; auto.
        * symmetry. eapply tag_files_ok_below; [exact Hr | lia].
        * cbn [tag_files_ok]. rewrite E.
          apply andb_true_intro; split; [apply andb_true_intro; split|];
            [apply Nat.leb_le; lia | exact Hlt | exact Hr].
        * intros j _. unfold target. simpl. rewrite E. reflexivity. }
  destruct Htv as (tv & tf' & -> & Etv & Htv & Htf' & Hrest).
  cbn [mbind option_bind fst snd].
  rewrite (live_or_null_valid vs bv Hbv), (live_or_null_valid vs tv Htv).
  cbn [mbind option_bind].
  rewrite (IH (S i) tf' ltac:(lia) Htf'). cbn [mbind option_bind].
  rewrite (omap_ext_in (wanted_fixup vs base tf) (wanted_fixup vs base tf'));
    [|intros j Hj; unfold wanted_fixup; rewrite (Hrest j Hj); reflexivity].
  assert (Hw : wanted_fixup vs base tf i
               = if option_vref_eqb (version_live vs bv) (version_live vs tv)
                 then None
                 else Some (mkFixup i (version_live vs tv)
                              (match tv with
                               | Some t => version_time vs t
                               | None => TIME_MIN
                               end))).
  { unfold wanted_fixup. rewrite <- Etv, <- Ebv. reflexivity. }
  rewrite Hw.
  destruct (option_vref_eqb _ _); [reflexivity|].
  destruct tv as [t|]; [|reflexivity].
  destruct Htv as [x Hx]. unfold version_time. rewrite Hx. reflexivity.
Qed.

Module FixupScenario.
Import Scenario.

(** File [a] is live at 1.1 on the parent branch; the tag names its dead
    version 1.2, of time 100. *)
Definition dead_target : state :=
  start [mkFile "a" (heap 0)]
    [ver 0 "1.1" 0 5; dead_ver 0 "1.2" 0 100]
    [plain_tag "v1" None [1%nat] 100] [] "".

Definition dead_target_base : option (list (option vref)) := Some [Some 0%nat].
End FixupScenario.

(** C3, counterexample: the tag names a dead version of a file that is
    live on the parent branch.  The entry is a deletion (its version is
    null), and its time is the time of the dead version, 100, not the
    minimum time value. *)
Lemma create_fixups_deletion_time_counterexample :
  tag_files_ok (db_versions FixupScenario.dead_target) 1 0 [1%nat] = true /\
  base_ok (db_versions FixupScenario.dead_target) 1 FixupScenario.dead_target_base = true /\
  exists s' t' e,
    create_fixups FixupScenario.dead_target_base 0 FixupScenario.dead_target = Ret tt s' /\
    db_tags s' !! 0%nat = Some t' /\
    t_fixups t' = [e] /\
    fx_version e = None /\
    fx_time e = 100 /\
    fx_time e <> claimed_time (db_versions FixupScenario.dead_target) e.
Proof.
  split; [reflexivity|]. split; [reflexivity|].
  eexists _, _, _. split; [vm_compute; reflexivity|].
  split; [reflexivity|]. split; [reflexivity|].
  split; [reflexivity|]. split; [reflexivity|].
  vm_compute. discriminate.
Qed.

(** C3, amended: for a tag whose files are in file order and a base with
    an entry per file, [create_fixups] returns, and the fix-ups it stores
    are, up to order, one entry [(f, live(target[f]), time)] for each file
    [f] with [live(base[f]) <> live(target[f])] and nothing else; they are
    sorted by time ascending.  The time of an entry is the time of the
    tag's version of the file, also when that version is dead and the
    entry a deletion, and TIME_MIN when the tag has no version of the
    file. *)
Theorem create_fixups_spec s tg t base :
  db_tags s !! tg = Some t ->
  t_fixups t = [] ->
  tag_files_ok (db_versions s) (length (db_files s)) 0 (t_tag_files t) = true ->
  base_ok (db_versions s) (length (db_files s)) base = true ->
  exists fixups,
    create_fixups base tg s = Ret tt (with_tags (alter (set_fixups fixups 0) tg) s) /\
    Permutation fixups
      (omap (wanted_fixup (db_versions s) base (t_tag_files t))
         (seq 0 (length (db_files s)))) /\
    StronglySorted (fun a b => fx_time a <= fx_time b) fixups.
Proof.
  intros Ht Hf Htf Hb.
  exists (ARRAY_SORT compare_fixup_by_time
            (omap (wanted_fixup (db_versions s) base (t_tag_files t))
               (seq 0 (length (db_files s))))).
  split; [|split].
  - unfold create_fixups, bind, the_tag. rewrite Ht, Hf. simpl.
    rewrite (create_fixups_from_wanted _ _ (length (db_files s)) _ Hb 0%nat _ eq_refl Htf).
    reflexivity.
  - symmetry. apply ARRAY_SORT_perm.
  - apply sort_by_time_sorted.
Qed.

Lemma create_fixups_spec_witness :
  exists fixups,
    create_fixups FixupScenario.dead_target_base 0 FixupScenario.dead_target
    = Ret tt (with_tags (alter (set_fixups fixups 0) 0%nat) FixupScenario.dead_target) /\
    Permutation fixups
      (omap (wanted_fixup (db_versions FixupScenario.dead_target)
               FixupScenario.dead_target_base [1%nat])
         (seq 0 (length (db_files FixupScenario.dead_target)))) /\
    StronglySorted (fun a b => fx_time a <= fx_time b) fixups.
Proof.
  exact (create_fixups_spec FixupScenario.dead_target 0%nat _
           FixupScenario.dead_target_base eq_refl eq_refl eq_refl eq_refl).
Defined.

(** ** The log of a fix-up commit, file by file *)

(** The entry for file [f] among the fix-ups handed to
    [fixup_commit_comment]. *)
Definition fixup_for (fixups : list fixup_ver) (f : fref) : option fixup_ver :=
  List.find (fun e => Nat.eqb (fx_file e) f) fixups.

Section CommentSpec.
Context (files : list file) (vs : list version)
        (base : option (list (option vref))) (fixups : list fixup_ver).

(** The version of file [f] before and after the fix-up commit. *)
Definition old_version (f : fref) : option vref := version_live vs (base_at base f).
Definition new_version (f : fref) : option vref :=
  match fixup_for fixups f with
  | Some e => fx_version e
  | None => old_version f
  end.

Definition is_kept (f : fref) : bool :=
  option_vref_eqb (old_version f) (new_version f)
  && match old_version f with Some _ => true | None => false end.
Definition is_deleted (f : fref) : bool :=
  negb (option_vref_eqb (old_version f) (new_version f))
  && match new_version f with Some _ => false | None => true end.
Definition is_added (f : fref) : bool :=
  negb (option_vref_eqb (old_version f) (new_version f))
  && match new_version f, old_version f with Some _, None => true | _, _ => false end.
Definition is_modified (f : fref) : bool :=
  negb (option_vref_eqb (old_version f) (new_version f))
  && match new_version f, old_version f with Some _, Some _ => true | _, _ => false end.

(** A file changes state when its versions before and after differ. *)
Definition changes_state (f : fref) : bool :=
  negb (option_vref_eqb (old_version f) (new_version f)).

Definition count_files (p : fref -> bool) (i n : nat) : nat :=
  length (List.filter p (seq i n)).

Definition path_of (f : fref) : string := default "" (f_path <$> files !! f).
Definition id_of (v : vref) : string := default "" (v_version <$> vs !! v).
Definition file_of (v : vref) : fref := default O (v_file <$> vs !! v).

Definition change_line (f : fref) : string :=
  path_of f +:+ " "
    +:+ match old_version f with Some b => id_of b | None => "ADD" end
    +:+ "->"
    +:+ match new_version f with Some t => id_of t | None => "DELETE" end
    +:+ nl.

Definition keep_line (b : vref) : string :=
  path_of (file_of b) +:+ " KEEP " +:+ id_of b +:+ nl.

(** The line of file [f] in a log with [k] files kept and [d] deleted:
    a changed file has its line unless it is deleted and more files are
    deleted than kept; a kept file has one when no more are kept than
    deleted. *)
Definition comment_line (k d : nat) (f : fref) : string :=
  if changes_state f then
    if negb (is_deleted f) || Nat.leb d k then change_line f else ""
  else
    match old_version f with
    | Some b => if Nat.leb k d then keep_line b else ""
    | None => ""
    end.
End CommentSpec.

Definition concat_lines (l : list string) : string := fold_right String.append "" l.

(** The fix-ups are in file order, one per file at most. *)
Fixpoint fixups_sorted (lo : fref) (fixups : list fixup_ver) : bool :=
  match fixups with
  | [] => true
  | e :: r => Nat.leb lo (fx_file e) && fixups_sorted (S (fx_file e)) r
  end.

Lemma fixups_sorted_below lo fixups j :
  fixups_sorted lo fixups = true -> (j < lo)%nat -> fixup_for fixups j = None.
Proof.
  revert lo. induction fixups as [|e r IH]; intros lo H Hj; [reflexivity|].
  simpl in *. apply andb_prop in H as [Hlo Hr]. apply Nat.leb_le in Hlo.
  destruct (Nat.eqb_spec (fx_file e) j); [lia|].
  eapply IH; [exact Hr | lia].
Qed.

(** One step of the walk: [next_fixup] finds the entry of file [i], and
    leaves the entries of the files after [i]. *)
Lemma next_fixup_sorted i bv ffv :
  fixups_sorted i ffv = true ->
  exists ffv',
    next_fixup i bv ffv
    = (match fixup_for ffv i with Some e => fx_version e | None => bv end, ffv')
    /\ fixups_sorted (S i) ffv' = true
    /\ forall j, (i < j)%nat -> fixup_for ffv j = fixup_for ffv' j.
Proof.
  destruct ffv as [|e r]; intros H.
  - exists []. auto.
  - simpl in H. apply andb_prop in H as [Hlo Hr]. apply Nat.leb_le in Hlo.
    unfold next_fixup, fixup_for. simpl.
    destruct (Nat.eqb_spec (fx_file e) i) as [He|He].
    + exists r. rewrite He in Hr. repeat split; auto.
      intros j Hj. destruct (Nat.eqb_spec (fx_file e) j); [lia | reflexivity].
    + exists (e :: r). repeat split; auto.
      * change (List.find _ r) with (fixup_for r i).
        rewrite (fixups_sorted_below _ _ i Hr) by lia. reflexivity.
      * cbn [fixups_sorted]. apply andb_true_intro.
        split; [apply Nat.leb_le; lia | exact Hr].
Qed.

Lemma append_assoc a b c : (a +:+ b) +:+ c = a +:+ b +:+ c.
Proof.
  induction a as [|x a IH]; [reflexivity|].
  change (String x ((a +:+ b) +:+ c) = String x (a +:+ b +:+ c)).
  f_equal. exact IH.
Qed.

Lemma count_files_cons p i n :
  count_files p i (S n) = ((if p i then 1 else 0) + count_files p (S i) n)%nat.
Proof. unfold count_files. simpl. destruct (p i); reflexivity. Qed.

Lemma count_files_ext p q i n :
  (forall j, (i <= j)%nat -> p j = q j) -> count_files p i n = count_files q i n.
Proof.
  revert i. induction n as [|n IH]; intros i H; [reflexivity|].
  rewrite !count_files_cons, (H i) by lia. f_equal. apply IH. intros j Hj. apply H. lia.
Qed.

Lemma base_live_old vs base i bv :
  base_live vs base i = Some bv -> bv = old_version vs base i.
Proof.
  unfold base_live, old_version, base_at. destruct base as [a|].
  - destruct (a !! i) as [x|]; simpl; [|discriminate]. congruence.
  - simpl. congruence.
Qed.

(** The first loop of [fixup_commit_comment] counts the files by what the
    fix-ups do to them. *)
Lemma comment_stats_counts vs base n :
  forall i ffv st st',
    fixups_sorted i ffv = true ->
    comment_stats vs base i n ffv st = Some st' ->
    keep st' = (keep st + count_files (is_kept vs base ffv) i n)%nat /\
    added st' = (added st + count_files (is_added vs base ffv) i n)%nat /\
    deleted st' = (deleted st + count_files (is_deleted vs base ffv) i n)%nat /\
    modified st' = (modified st + count_files (is_modified vs base ffv) i n)%nat.
Proof.
  induction n as [|n IH]; intros i ffv st st' Hs H.
  - injection H as <-. unfold count_files. simpl. lia.
  - cbn [comment_stats] in H.
    destruct (base_live vs base i) as [bv|] eqn:Eb; [|discriminate].
    cbn [mbind option_bind] in H.
    apply base_live_old in Eb.
    destruct (next_fixup_sorted i bv ffv Hs) as (ffv' & En & Hs' & Hrest).
    rewrite En in H.
    specialize (IH _ _ _ _ Hs' H).
    assert (Hext : forall (p : list fixup_ver -> fref -> bool),
               (forall l l' j, fixup_for l j = fixup_for l' j -> p l j = p l' j) ->
               count_files (p ffv') (S i) n = count_files (p ffv) (S i) n).
    { intros p Hp. apply count_files_ext. intros j Hj. apply Hp. symmetry.
      apply Hrest. lia. }
    rewrite (Hext (is_kept vs base)), (Hext (is_added vs base)),
      (Hext (is_deleted vs base)), (Hext (is_modified vs base)) in IH;
      try (intros l l' j E;
           unfold is_kept, is_added, is_deleted, is_modified, new_version;
           rewrite E; reflexivity).
    rewrite !count_files_cons.
    unfold is_kept at 1, is_added at 1, is_deleted at 1, is_modified at 1.
    unfold new_version. rewrite <- Eb.
    destruct (option_vref_eqb bv _) eqn:Ee;
      destruct bv as [b|];
      destruct (match fixup_for ffv i with Some e => fx_version e | None => _ end)
        as [t|];
      simpl in *; lia.
Qed.

(** The second loop writes the line of each file. *)
Lemma comment_lines_spec files vs base n :
  forall i ffv st str,
    fixups_sorted i ffv = true ->
    comment_lines files vs base i n ffv st = Some str ->
    str = concat_lines
            (map (comment_line files vs base ffv (keep st) (deleted st)) (seq i n)).
Proof.
  induction n as [|n IH]; intros i ffv st str Hs H.
  - injection H as <-. reflexivity.
  - cbn [comment_lines] in H.
    destruct (base_live vs base i) as [bv|] eqn:Eb; [|discriminate].
    cbn [mbind option_bind] in H.
    apply base_live_old in Eb.
    destruct (next_fixup_sorted i bv ffv Hs) as (ffv' & En & Hs' & Hrest).
    rewrite En in H.
    destruct (comment_lines files vs base (S i) n ffv' st) as [rest|] eqn:Er;
      [|discriminate].
    cbn [mbind option_bind] in H.
    apply IH in Er; [|exact Hs'].
    assert (Hmap : map (comment_line files vs base ffv' (keep st) (deleted st)) (seq (S i) n)
                   = map (comment_line files vs base ffv (keep st) (deleted st)) (seq (S i) n)).
    { apply map_ext_in. intros j Hj. apply in_seq in Hj.
      unfold comment_line, changes_state, is_deleted, change_line, new_version.
      rewrite (Hrest j) by lia. reflexivity. }
    rewrite Hmap in Er. clear Hmap.
    cbn [seq map concat_lines fold_right]. fold (concat_lines
      (map (comment_line files vs base ffv (keep st) (deleted st)) (seq (S i) n))).
    rewrite <- Er.
    unfold comment_line, changes_state, is_deleted, change_line, keep_line,
      new_version, path_of, id_of, file_of, version_string in *.
    rewrite <- Eb.
    destruct (option_vref_eqb bv _) eqn:Ee.
    + destruct bv as [b|]; [|injection H as <-; reflexivity].
      simpl. destruct (Nat.leb (keep st) (deleted st));
        [|injection H as <-; reflexivity].
      destruct (vs !! b) as [x|]; [|discriminate]. simpl in *.
      destruct (files !! v_file x) as [f|]; [|discriminate]. simpl in *.
      injection H as <-. rewrite ?append_assoc. reflexivity.
    + simpl.
      destruct (match fixup_for ffv i with Some e => fx_version e | None => bv end)
        as [t|] eqn:Et; simpl in *.
      * destruct (files !! i) as [f|]; [|discriminate]. simpl in *.
        destruct bv as [b|]; simpl in *.
        -- destruct (vs !! b) as [x|]; [|discriminate]. simpl in *.
           destruct (vs !! t) as [y|]; [|discriminate]. simpl in *.
           injection H as <-. rewrite ?append_assoc. reflexivity.
        -- destruct (vs !! t) as [y|]; [|discriminate]. simpl in *.
           injection H as <-. rewrite ?append_assoc. reflexivity.
      * destruct (Nat.leb (deleted st) (keep st)); [|injection H as <-; reflexivity].
        destruct (files !! i) as [f|]; [|discriminate]. simpl in *.
        destruct bv as [b|]; simpl in *.
        -- destruct (vs !! b) as [x|]; [|discriminate]. simpl in *.
           injection H as <-. rewrite ?append_assoc. reflexivity.
        -- injection H as <-. rewrite ?append_assoc. reflexivity.
Qed.

Module CommentScenario.
Import Scenario.

(** One file, live at 1.1 on the base, that the fix-up commit deletes. *)
Definition only_deletion : state :=
  start [mkFile "a" (heap 0)] [ver 0 "1.1" 0 5] [plain_tag "v1" None [] 100] [] "".
Definition only_deletion_base : option (list (option vref)) := Some [Some 0%nat].
Definition only_deletion_fixups : list fixup_ver := [mkFixup 0 None TIME_MIN].
End CommentScenario.

(** C4, counterexample: a fix-up commit that deletes the only file.  The
    file changes state, from 1.1 to deleted, and the counts say so, but
    the log is the first line alone: with more files deleted than kept
    the line [a 1.1->DELETE] is left out. *)
Lemma fixup_commit_comment_deletion_counterexample :
  changes_state (db_versions CommentScenario.only_deletion)
    CommentScenario.only_deletion_base CommentScenario.only_deletion_fixups 0 = true /\
  fixup_commit_comment CommentScenario.only_deletion_base
    CommentScenario.only_deletion_fixups CommentScenario.only_deletion
  = Ret ("Fix-up commit generated by crap-clone.  (~0 +0 -1 =0)" +:+ nl)
      CommentScenario.only_deletion.
Proof. split; reflexivity. Qed.

(** C4, amended: the log of a fix-up commit is the line [Fix-up commit
    generated by crap-clone.  (~M +A -D =K)], with the numbers of files
    modified, added, deleted and kept, followed for each file in turn by
    its line: [<path> <old-version-or-ADD>-><new-version-or-DELETE>] for a
    file that changes state, except that a deleted file has no line when
    more files are deleted than kept; [<path> KEEP <version>] for a kept
    file when no more files are kept than deleted. *)
Theorem fixup_commit_comment_spec s base fixups comment s' :
  fixups_sorted 0 fixups = true ->
  fixup_commit_comment base fixups s = Ret comment s' ->
  let n := length (db_files s) in
  let vs := db_versions s in
  let M := count_files (is_modified vs base fixups) 0 n in
  let A := count_files (is_added vs base fixups) 0 n in
  let D := count_files (is_deleted vs base fixups) 0 n in
  let K := count_files (is_kept vs base fixups) 0 n in
  s' = s /\
  comment
  = ("Fix-up commit generated by crap-clone.  (~" +:+ fmt_u (Z.of_nat M)
       +:+ " +" +:+ fmt_u (Z.of_nat A) +:+ " -" +:+ fmt_u (Z.of_nat D)
       +:+ " =" +:+ fmt_u (Z.of_nat K) +:+ ")" +:+ nl)
    +:+ concat_lines (map (comment_line (db_files s) vs base fixups K D) (seq 0 n)).
Proof.
  intros Hs H. cbv zeta.
  unfold fixup_commit_comment, bind, get in H.
  destruct (comment_stats _ _ _ _ _ _) as [st|] eqn:Est; [|discriminate].
  destruct (comment_stats_counts _ _ _ _ _ _ _ Hs Est) as (Hk & Ha & Hd & Hm).
  simpl in Hk, Ha, Hd, Hm.
  unfold assert in H. destruct (Nat.eqb _ _); [|discriminate].
  destruct (comment_lines _ _ _ _ _ _ _) as [lines|] eqn:El; [|discriminate].
  apply comment_lines_spec in El; [|exact Hs].
  injection H as <- <-. split; [reflexivity|].
  rewrite El, Hk, Hd, <- Ha, <- Hm. unfold comment_header.
  rewrite <- Hk, <- Hd. reflexivity.
Qed.

Lemma fixup_commit_comment_spec_witness :
  CommentScenario.only_deletion = CommentScenario.only_deletion /\
  "Fix-up commit generated by crap-clone.  (~0 +0 -1 =0)" +:+ nl
  = ("Fix-up commit generated by crap-clone.  (~" +:+ fmt_u 0
       +:+ " +" +:+ fmt_u 0 +:+ " -" +:+ fmt_u 1 +:+ " =" +:+ fmt_u 0 +:+ ")" +:+ nl)
    +:+ concat_lines [""].
Proof.
  exact (fixup_commit_comment_spec CommentScenario.only_deletion
           CommentScenario.only_deletion_base CommentScenario.only_deletion_fixups
           _ _ eq_refl eq_refl).
Defined.

(* ===================================================================== *)
(** * The emitter *)

(** ** Inversion of the primitives *)

Lemma the_version_Ret v s x s' :
  the_version v s = Ret x s' -> s' = s /\ db_versions s !! v = Some x.
Proof.
  unfold the_version. destruct (db_versions s !! v); [|discriminate].
  intros H. injection H as <- <-. auto.
Qed.

Lemma the_file_Ret f s x s' :
  the_file f s = Ret x s' -> s' = s /\ db_files s !! f = Some x.
Proof.
  unfold the_file. destruct (db_files s !! f); [|discriminate].
  intros H. injection H as <- <-. auto.
Qed.

Lemma the_tag_Ret t s x s' :
  the_tag t s = Ret x s' -> s' = s /\ db_tags s !! t = Some x.
Proof.
  unfold the_tag. destruct (db_tags s !! t); [|discriminate].
  intros H. injection H as <- <-. auto.
Qed.

(** The changeset behind a [changeset_t *]. *)
Definition changeset_at (s : state) (c : cref) : option changeset :=
  match c with
  | CCommit n => db_changesets s !! n
  | CTag t => t_changeset <$> db_tags s !! t
  end.

Lemma the_changeset_Ret c s x s' :
  the_changeset c s = Ret x s' -> s' = s /\ changeset_at s c = Some x.
Proof.
  unfold the_changeset, changeset_at.
  destruct c as [n|t]; destruct (_ !! _); simpl; try discriminate;
    intros H; injection H as <- <-; auto.
Qed.

Lemma array_get_Ret a i s x s' :
  array_get a i s = Ret x s' -> s' = s /\ a !! i = Some x.
Proof.
  unfold array_get. destruct (a !! i); [|discriminate].
  intros H. injection H as <- <-. auto.
Qed.

Lemma modify_Ret f s u s' : modify f s = Ret u s' -> s' = f s.
Proof. intros H. injection H as _ H. symmetry. exact H. Qed.

Lemma get_Ret s x s' : get s = Ret x s' -> s' = s /\ x = s.
Proof. intros H. injection H as <- <-. auto. Qed.

Lemma ret_Ret {A} (a : A) s x s' : ret a s = Ret x s' -> s' = s /\ x = a.
Proof. intros H. injection H as <- <-. auto. Qed.

Lemma assert_Ret b c s u s' : assert b c s = Ret u s' -> s' = s /\ b = true.
Proof. destruct b; simpl; [|discriminate]. intros H. injection H as _ <-. auto. Qed.

(** Splits [H : (x <- m ;; k) s = Ret r s'] and inverts [m] when it is a
    primitive. *)
Ltac inv_bind H :=
  let a := fresh "a" in
  let s1 := fresh "s" in
  let H1 := fresh "E" in
  apply bind_Ret in H as (a & s1 & H1 & H);
  first
    [ apply the_version_Ret in H1 as [-> H1]
    | apply the_file_Ret in H1 as [-> H1]
    | apply the_tag_Ret in H1 as [-> H1]
    | apply the_changeset_Ret in H1 as [-> H1]
    | apply array_get_Ret in H1 as [-> H1]
    | apply get_Ret in H1 as [-> ->]
    | apply assert_Ret in H1 as [-> H1]
    | apply modify_Ret in H1; subst s1
    | idtac ].

(** ** Frames of the fetch driver and of the emitter *)

(** The output only grows. *)
Definition grows (pre : list out_item) (s : state) : Prop :=
  exists new, stdout s = pre ++ new.

Lemma grows_refl s : grows (stdout s) s.
Proof. exists []. symmetry. apply app_nil_r. Qed.

Lemma grows_fetch_tolerant pre : fetch_tolerant (grows pre).
Proof.
  split; try (intros; assumption).
  intros o s [new H]. exists (new ++ [o]). simpl. rewrite H, app_assoc. reflexivity.
Qed.

Lemma grows_emit_tolerant pre : emit_tolerant (grows pre) (fun _ => True).
Proof. split; intros; assumption. Qed.

Lemma grows_grab_versions pre fetch : keeps (grows pre) any_abort (grab_versions fetch).
Proof.
  apply tolerant_grab_versions.
  - apply grows_fetch_tolerant.
  - intros; assumption.
  - apply keeps_read_blob_tolerant; auto using grows_fetch_tolerant.
Qed.

Lemma grows_print_fixups pre base tg cs :
  keeps (grows pre) any_abort (print_fixups base tg cs).
Proof.
  apply (tolerant_print_fixups _ (grows_fetch_tolerant pre)) with (allowed := fun _ => True).
  - intros; assumption.
  - apply keeps_read_blob_tolerant; auto using grows_fetch_tolerant.
  - apply grows_emit_tolerant.
Qed.

(** The fetch driver leaves files, tags and changesets alone, and only
    adds to what was sent. *)
Definition fetch_frame (s0 s : state) : Prop :=
  db_files s = db_files s0 /\ db_tags s = db_tags s0 /\
  db_changesets s = db_changesets s0 /\ mark_counter s0 <= mark_counter s.

Lemma fetch_frame_refl s : fetch_frame s s.
Proof. repeat split. lia. Qed.

Lemma fetch_frame_tolerant s0 : fetch_tolerant (fetch_frame s0).
Proof.
  split; try (intros; assumption).
  intros s (? & ? & ? & ?). repeat split; auto. simpl. lia.
Qed.

Lemma fetch_frame_grab_versions s0 fetch :
  keeps (fetch_frame s0) any_abort (grab_versions fetch).
Proof.
  apply tolerant_grab_versions.
  - apply fetch_frame_tolerant.
  - intros; assumption.
  - apply keeps_read_blob_tolerant; auto using fetch_frame_tolerant.
Qed.

(** ** [print_fixups] *)

(** The time on the committer line of a fix-up commit, as
    [tag->branch_versions && tag->last ? tag->last->time :
    tag->changeset.time] reads it. *)
Definition flush_time (s : state) (t : tag) : option Z :=
  match t_last t with
  | Some l =>
      if is_branch t then cs_time <$> changeset_at s l
      else Some (cs_time (t_changeset t))
  | None => Some (cs_time (t_changeset t))
  end.

Lemma fixup_list_Ret tg cs s fixups s' :
  fixup_list tg cs s = Ret fixups s' ->
  exists t k,
    db_tags s !! tg = Some t /\
    s' = with_tags (alter (set_fixups (t_fixups t) k) tg) s.
Proof.
  unfold fixup_list. intros H.
  inv_bind H. inv_bind H.
  assert (s0 = s) as ->.
  { destruct cs as [c|].
    - inv_bind E0. apply ret_Ret in E0 as [-> _]. reflexivity.
    - apply ret_Ret in E0 as [-> _]. reflexivity. }
  inv_bind H. apply ret_Ret in H as [-> _]. eauto.
Qed.

Lemma next_mark_Ret s m s' :
  next_mark s = Ret m s' ->
  m = mark_counter s + 1 /\ s' = with_mark_counter m s.
Proof.
  unfold next_mark. destruct (_ <? _); [discriminate|].
  intros H. injection H as <- <-. auto.
Qed.

(** Two states whose changesets have the same times. *)
Definition same_times (s1 s2 : state) : Prop :=
  forall l, cs_time <$> changeset_at s1 l = cs_time <$> changeset_at s2 l.

Lemma same_times_alter_tag s1 s2 f tg :
  same_times s1 s2 ->
  (forall t, cs_time (t_changeset (f t)) = cs_time (t_changeset t)) ->
  same_times (with_tags (alter f tg) s1) s2.
Proof.
  intros H Hf l. rewrite <- (H l). destruct l as [n|u]; [reflexivity|].
  simpl. destruct (decide (u = tg)) as [->|Hne].
  - rewrite list_lookup_alter_eq. destruct (db_tags s1 !! tg); simpl; [|reflexivity].
    rewrite Hf. reflexivity.
  - rewrite list_lookup_alter_ne by congruence. reflexivity.
Qed.

Lemma print_fixup_tail_grows pre base tg fixups :
  keeps (grows pre) any_abort
    (let* a := base_array base in
     let* comment := fixup_commit_comment a fixups in
     printf (ODataLen (Z.of_nat (String.length comment))) ;;;
     printf (OText comment) ;;;
     for_each fixups (print_fixup base tg)).
Proof.
  pose proof (grows_fetch_tolerant pre) as [].
  assert (Ht : forall t f s, tag_update t f -> grows pre s ->
                 grows pre (with_tags (alter f t) s))
    by (intros; assumption).
  pose proof (keeps_base_array (grows pre) any_abort any_abort_all) as Hb.
  pose proof (keeps_fixup_commit_comment (grows pre) any_abort any_abort_all) as Hc.
  pose proof (keeps_print_fixup (grows pre) any_abort any_abort_all Ht
                ltac:(auto)) as Hp.
  keeps_go ltac:(keeps_prim ltac:(solve [auto])).
Qed.

(** From the [mark :m] line of a fix-up commit of tag [tg] to the end of
    [print_fixups]: [m] is the counter and the mark of the changeset of the
    tag, whose fix-ups are [fx]. *)
Definition fixup_marked (tg : tref) (m : Z) (fx : list fixup_ver) (s : state) : Prop :=
  mark_counter s = m /\
  exists t, db_tags s !! tg = Some t /\
            cs_mark (t_changeset t) = m /\ t_fixup t = true /\ t_fixups t = fx.

Lemma fixup_marked_out tg m fx o s :
  fixup_marked tg m fx s -> fixup_marked tg m fx (with_stdout (stdout s ++ [o]) s).
Proof. intros H. exact H. Qed.

Lemma fixup_marked_tip tg m fx u i v s :
  fixup_marked tg m fx s ->
  fixup_marked tg m fx (with_tags (alter (set_branch_version i v) u) s).
Proof.
  intros (Hc & t & Ht & Hm & Hf & Hx). split; [exact Hc|]. simpl.
  erewrite lookup_alter_Some by exact Ht.
  eexists. split; [reflexivity|]. destruct (decide (tg = u)); auto.
Qed.

Lemma print_fixup_tail_marked tg m fx base fixups :
  keeps (fixup_marked tg m fx) any_abort
    (let* a := base_array base in
     let* comment := fixup_commit_comment a fixups in
     printf (ODataLen (Z.of_nat (String.length comment))) ;;;
     printf (OText comment) ;;;
     for_each fixups (print_fixup base tg)).
Proof.
  pose proof any_abort_all as X_all.
  unfold base_array, fixup_commit_comment, print_fixup, base_version, base_array.
  keeps_go ltac:(keeps_prim ltac:(solve [auto using fixup_marked_out, fixup_marked_tip])).
Qed.

(** [fixup_list] without a commit hands out all the pending fix-ups. *)
Lemma fixups_before_all pending : fixups_before None pending = pending.
Proof. induction pending as [|f r IH]; simpl; [|rewrite IH]; reflexivity. Qed.

Lemma fixup_list_all tg s fixups s' t :
  db_tags s !! tg = Some t ->
  fixup_list tg None s = Ret fixups s' ->
  Permutation (List.skipn (t_fixups_curr t) (t_fixups t)) fixups.
Proof.
  unfold fixup_list. intros Ht H.
  inv_bind H. rewrite Ht in E. injection E as <-.
  inv_bind H. apply ret_Ret in E as [-> ->].
  inv_bind H. apply ret_Ret in H as [_ Hf]. subst fixups.
  rewrite fixups_before_all. apply ARRAY_SORT_perm.
Qed.

(** What [print_fixups] does, with the list that [fixup_list] hands out:
    nothing more when that is empty; else one commit, whose mark becomes the
    mark of the changeset of the tag. *)
Lemma print_fixups_flush base tg cs s s' t :
  db_tags s !! tg = Some t ->
  print_fixups base tg cs s = Ret tt s' ->
  exists fixups s0,
    fixup_list tg cs s = Ret fixups s0 /\
    ((fixups = [] /\ s' = s0) \/
     (fixups <> [] /\
      exists blobs m time post,
        flush_time s t = Some time /\
        stdout s' = stdout s ++ blobs
                      ++ [OCommit (is_branch t) (ref_name t); OMark m;
                          OCommitter "crap" time] ++ post /\
        mark_counter s < m /\
        fixup_marked tg m (t_fixups t) s')).
Proof.
  intros Ht H. unfold print_fixups in H.
  inv_bind H. exists a, s0. split; [exact E|].
  apply fixup_list_Ret in E as (t0 & k & Ht0 & ->).
  rewrite Ht in Ht0. injection Ht0 as <-.
  destruct a as [|ffv fixups].
  { apply ret_Ret in H as [-> _]. left. auto. }
  right. split; [discriminate|].
  inv_bind H. inv_bind H. inv_bind H.
  inv_bind H. apply next_mark_Ret in E0 as [Hm ->].
  inv_bind H. inv_bind H. inv_bind H. inv_bind H. inv_bind H. inv_bind H.
  pose proof (hoare_Ret _ _ _ _ _ _ _ (fetch_frame_grab_versions _ _)
                (fetch_frame_refl _) E) as (Hf & Htags & Hcs & Hctr).
  assert (Hblobs : grows (stdout s) s0).
  { refine (hoare_Ret _ _ _ _ _ _ _ (grows_grab_versions (stdout s) _) _ E).
    apply (grows_refl s). }
  destruct Hblobs as [blobs Hblobs].
  simpl in Htags, Hcs, Hctr, Hm.
  simpl in E0. rewrite Htags in E0.
  rewrite !list_lookup_alter_eq, Ht in E0. simpl in E0. injection E0 as <-.
  assert (Htime : flush_time s t = Some a6 /\
                  s1 = with_stdout
                         ((stdout s0 ++ [OCommit (is_branch t) (ref_name t)])
                            ++ [OMark a1])
                         (with_tags (alter (set_tag_mark a1) tg)
                            (with_mark_counter a1
                               (with_tags (alter (set_tag_fixup true) tg) s0)))).
  { unfold flush_time. simpl in E1.
    change (is_branch (set_tag_mark a1 (set_tag_fixup true (set_fixups (t_fixups t) k t))))
      with (is_branch t) in *.
    change (ref_name (set_tag_mark a1 (set_tag_fixup true (set_fixups (t_fixups t) k t))))
      with (ref_name t) in *.
    destruct (t_last t) as [l|]; [destruct (is_branch t)|].
    - inv_bind E1. apply ret_Ret in E1 as [-> ->]. split; [|reflexivity].
      replace (Some (cs_time a3)) with (cs_time <$> Some a3) by reflexivity.
      rewrite <- E0.
      destruct l as [n|u]; simpl.
      + rewrite Hcs. reflexivity.
      + rewrite Htags. destruct (decide (u = tg)) as [->|Hne].
        * rewrite !list_lookup_alter_eq. destruct (db_tags s !! tg); reflexivity.
        * rewrite !list_lookup_alter_ne by congruence. reflexivity.
    - apply ret_Ret in E1 as [-> ->]. auto.
    - apply ret_Ret in E1 as [-> ->]. auto. }
  destruct Htime as [Htime ->].
  assert (Hpost : grows (stdout s0 ++ [OCommit (is_branch t) (ref_name t); OMark a1;
                                      OCommitter "crap" a6]) s').
  { refine (hoare_Ret _ _ _ _ _ _ _ (print_fixup_tail_grows _ base tg _) _ H).
    exists []. simpl. rewrite <- !app_assoc. reflexivity. }
  destruct Hpost as [post Hpost].
  assert (Hmarked : fixup_marked tg a1 (t_fixups t) s').
  { refine (hoare_Ret _ _ _ _ _ _ _ (print_fixup_tail_marked tg a1 _ base _) _ H).
    split; [reflexivity|]. simpl. rewrite Htags, !list_lookup_alter_eq, Ht. simpl.
    eexists. split; [reflexivity|]. auto. }
  exists blobs, a1, a6, post. split; [exact Htime|].
  split; [rewrite Hpost, Hblobs, <- !app_assoc; reflexivity|].
  split; [lia | exact Hmarked].
Qed.

Lemma print_fixups_Ret base tg cs s s' t :
  db_tags s !! tg = Some t ->
  print_fixups base tg cs s = Ret tt s' ->
  (exists k, s' = with_tags (alter (set_fixups (t_fixups t) k) tg) s) \/
  (exists blobs m time post,
      flush_time s t = Some time /\
      stdout s' = stdout s ++ blobs
                    ++ [OCommit (is_branch t) (ref_name t); OMark m;
                        OCommitter "crap" time] ++ post /\
      mark_counter s < m).
Proof.
  intros Ht H.
  destruct (print_fixups_flush _ _ _ _ _ _ Ht H)
    as (fixups & s0 & Hl & [[_ ->]|(_ & blobs & m & time & post & Htime & Hout & Hm & _)]).
  - left. apply fixup_list_Ret in Hl as (t0 & k & Ht0 & ->).
    rewrite Ht in Ht0. injection Ht0 as <-. eauto.
  - right. exists blobs, m, time, post. auto.
Qed.

(** [tag->last] is assigned twice: [tag->last = &tag->changeset] in
    [print_tag] and [v->branch->last = cs] in [print_commit].  So the last
    changeset of a tag is never the changeset of another tag. *)
Definition last_own_or_commit (s : state) : Prop :=
  forall tg t u, db_tags s !! tg = Some t -> t_last t = Some (CTag u) -> u = tg.

Lemma last_own_or_commit_start s :
  Forall (fun t => t_last t = None) (db_tags s) -> last_own_or_commit s.
Proof.
  intros Hall tg t u Ht Hu. rewrite Forall_forall in Hall.
  rewrite (Hall t) in Hu by (eapply list_elem_of_lookup_2; exact Ht).
  discriminate.
Qed.

Lemma last_own_or_commit_update t f s :
  tag_update t f ->
  last_own_or_commit s -> last_own_or_commit (with_tags (alter f t) s).
Proof.
  intros Hf H tg x u Hx Hu. simpl in Hx.
  apply lookup_alter_version_tag in Hx as (y & Hy & [->|[-> ->]]);
    [exact (H _ _ _ Hy Hu)|].
  destruct Hf; simpl in Hu;
    first [ exact (H _ _ _ Hy Hu) | discriminate | congruence ].
Qed.

Lemma last_own_or_commit_init s :
  last_own_or_commit s ->
  last_own_or_commit
    (with_tags (map (initial_versions (db_versions s) (length (db_files s)))) s).
Proof.
  intros H tg x u Hx Hu. simpl in Hx.
  rewrite list_lookup_fmap in Hx.
  destruct (db_tags s !! tg) as [y|] eqn:Hy; [|discriminate].
  simpl in Hx. injection Hx as <-.
  apply (H tg y u Hy).
  unfold initial_versions in Hu. destruct (t_branch_versions y); exact Hu.
Qed.

Lemma last_own_or_commit_grab_versions fetch :
  keeps last_own_or_commit any_abort (grab_versions fetch).
Proof.
  assert (Hf : fetch_tolerant last_own_or_commit) by (split; intros; assumption).
  apply tolerant_grab_versions; [exact Hf | intros; assumption |].
  apply keeps_read_blob_tolerant; auto.
Qed.

Section LastOwnOrCommit.

Local Ltac emitter :=
  auto using last_own_or_commit_init, last_own_or_commit_update,
    last_own_or_commit_grab_versions;
  first [ apply keeps_next_mark; solve [auto]
        | intros m; apply keeps_modify; solve [auto]
        | apply Forall_forall; intros [n|t] _; exact Logic.I ].

Lemma last_own_or_commit_print_fixups base tg cs :
  keeps last_own_or_commit any_abort (print_fixups base tg cs).
Proof.
  apply (keeps_print_fixups last_own_or_commit (fun _ => last_own_or_commit)); emitter.
Qed.

Lemma last_own_or_commit_emit_changesets schedule :
  keeps last_own_or_commit any_abort (for_each schedule emit_changeset).
Proof.
  apply (keeps_emit_changesets last_own_or_commit (fun _ => last_own_or_commit))
    with (allowed := fun _ => True); emitter.
Qed.

Lemma last_own_or_commit_emit_all schedule :
  keeps last_own_or_commit any_abort (emit_all schedule).
Proof.
  apply (keeps_emit_all last_own_or_commit (fun _ => last_own_or_commit))
    with (allowed := fun _ => True); emitter.
Qed.

End LastOwnOrCommit.

(** The time the claim gives a fix-up commit: that of the last changeset
    of the branch when the tag is a branch that has commits, the tag's own
    otherwise. *)
Definition claimed_flush_time (s : state) (t : tag) : option Z :=
  match t_last t with
  | Some (CCommit n) =>
      if is_branch t then cs_time <$> db_changesets s !! n
      else Some (cs_time (t_changeset t))
  | _ => Some (cs_time (t_changeset t))
  end.

Module FlushScenario.
Import Scenario.

(** File [a] is at 1.2 on the trunk, both versions fetched; tag [v1],
    placed after the second commit, names 1.1 and its fix-up is pending. *)
Definition pending_tag : state :=
  mkState [mkFile "a" (heap 0)]
    [mkVersion 0 "1.1" None (Some 0%nat) "u" "log" 10 false false true 1;
     mkVersion 0 "1.2" (Some 0%nat) (Some 0%nat) "u" "log" 20 false false true 3]
    [mkTag "" (Some [Some 1%nat]) None [] (Some (CCommit 1)) false true
       (mkChangeset 0 [] 0) [] 0;
     mkTag "v1" None (Some (CCommit 1)) [0%nat] (Some (CTag 1)) false true
       (mkChangeset 30 [] 4) [mkFixup 0 (Some 0%nat) 10] 0]
    [mkChangeset 10 [0%nat] 2; mkChangeset 20 [1%nat] 4]
    4 [] [] "" "" [] 2 2.
End FlushScenario.

(** C9: whenever [print_fixups] writes a fix-up commit, its committer line
    is [committer crap <crap> T +0000], where [T] is the time of the last
    changeset of the branch when the tag is a branch that already has
    commits, and the time of the tag's own changeset otherwise.
    ([tag->last] is only ever a commit of the branch or the tag's own
    changeset, an invariant of the emitter, [last_own_or_commit]: that is
    the hypothesis on [t_last].) *)
Theorem print_fixups_committer base tg cs s s' t :
  db_tags s !! tg = Some t ->
  (forall u, t_last t = Some (CTag u) -> u = tg) ->
  print_fixups base tg cs s = Ret tt s' ->
  stdout s' = stdout s \/
  exists blobs m time post,
    claimed_flush_time s t = Some time /\
    stdout s' = stdout s ++ blobs
                  ++ [OCommit (is_branch t) (ref_name t); OMark m;
                      OCommitter "crap" time] ++ post /\
    render (OCommitter "crap" time)
    = "committer crap <crap> " +:+ fmt_d time +:+ " +0000" +:+ nl.
Proof.
  intros Ht Hlast H.
  destruct (print_fixups_Ret _ _ _ _ _ _ Ht H)
    as [[k ->]|(blobs & m & time & post & Htime & Hout & _)]; [left; reflexivity|].
  right. exists blobs, m, time, post. split; [|split; [exact Hout | reflexivity]].
  unfold flush_time in Htime. unfold claimed_flush_time.
  destruct (t_last t) as [[n|u]|]; [exact Htime| |exact Htime].
  destruct (is_branch t); [|exact Htime].
  rewrite (Hlast u eq_refl) in Htime. simpl in Htime. rewrite Ht in Htime.
  exact Htime.
Qed.

Lemma print_fixups_committer_witness :
  stdout (final (print_fixups (Some 0%nat) 1%nat None FlushScenario.pending_tag))
  = stdout FlushScenario.pending_tag \/
  exists blobs m time post,
    claimed_flush_time FlushScenario.pending_tag
      (mkTag "v1" None (Some (CCommit 1)) [0%nat] (Some (CTag 1)) false true
         (mkChangeset 30 [] 4) [mkFixup 0 (Some 0%nat) 10] 0) = Some time /\
    stdout (final (print_fixups (Some 0%nat) 1%nat None FlushScenario.pending_tag))
    = stdout FlushScenario.pending_tag ++ blobs
        ++ [OCommit false "v1"; OMark m; OCommitter "crap" time] ++ post /\
    render (OCommitter "crap" time)
    = "committer crap <crap> " +:+ fmt_d time +:+ " +0000" +:+ nl.
Proof.
  apply (print_fixups_committer (Some 0%nat) 1%nat None FlushScenario.pending_tag).
  - reflexivity.
  - intros u H. injection H as <-. reflexivity.
  - vm_compute. reflexivity.
Defined.

(** ** [print_tag] *)

Lemma create_fixups_Ret a tg s u s' :
  create_fixups a tg s = Ret u s' ->
  exists fx, s' = with_tags (alter (set_fixups fx 0) tg) s.
Proof.
  unfold create_fixups. intros H.
  inv_bind H. inv_bind H. inv_bind H.
  destruct (create_fixups_from _ _ _ _ _); [|discriminate].
  apply modify_Ret in H. eauto.
Qed.

Lemma base_array_Ret base s a s' :
  base_array base s = Ret a s' -> s' = s.
Proof.
  unfold base_array. destruct base as [x|]; intros H.
  - inv_bind H. apply ret_Ret in H as [-> _]. reflexivity.
  - apply ret_Ret in H as [-> _]. reflexivity.
Qed.

(** The mark of the changeset a tag is placed on, 0 without one. *)
Definition parent_mark (s : state) (t : tag) : option Z :=
  match t_parent t with
  | Some p => cs_mark <$> changeset_at s p
  | None => Some 0
  end.

Lemma print_tag_Ret tg s s' t :
  db_tags s !! tg = Some t ->
  print_tag tg s = Ret tt s' ->
  exists m rest t',
    parent_mark s t = Some m /\
    stdout s' = stdout s ++ [OReset (is_branch t) (ref_name t)]
                  ++ (if m =? 0 then [] else [OFrom m]) ++ rest /\
    db_tags s' !! tg = Some t' /\
    (is_branch t = true -> rest = []) /\
    ((rest = [] /\ (is_branch t = true \/ t_fixups t' = []) /\
      cs_mark (t_changeset t') = m /\ mark_counter s' = mark_counter s) \/
     (is_branch t = false /\ t_fixups t' <> [] /\
      exists blobs m' post,
        rest = blobs ++ [OCommit false (ref_name t); OMark m';
                         OCommitter "crap" (cs_time (t_changeset t))] ++ post /\
        cs_mark (t_changeset t') = m' /\
        mark_counter s < m' /\ mark_counter s' = m')).
Proof.
  intros Ht H. unfold print_tag in H.
  inv_bind H. rewrite Ht in E. injection E as <-.
  inv_bind H. inv_bind H.
  set (s1 := with_stderr _ s) in *.
  assert (s0 = s1) as ->.
  { destruct (t_parent t) as [[n|p]|].
    - inv_bind E.
      match type of E with
      | match cs_versions ?c with _ => _ end _ = _ =>
          destruct (cs_versions c) as [|v0 r]; [discriminate|]
      end.
      inv_bind E. apply ret_Ret in E as [-> _]. reflexivity.
    - apply ret_Ret in E as [-> _]. reflexivity.
    - apply ret_Ret in E as [-> _]. reflexivity. }
  clear E. inv_bind H.
  assert (s0 = s1) as ->.
  { destruct (t_parent t) as [p|]; [|apply ret_Ret in E as [-> _]; reflexivity].
    match type of E with
    | match ?b with _ => _ end _ = _ => destruct b; [|discriminate]
    end.
    inv_bind E. apply assert_Ret in E as [-> _]. reflexivity. }
  clear E. inv_bind H. inv_bind H.
  assert (parent_mark s t = Some a3 /\ s0 = with_stdout (stdout s1 ++ [OReset (is_branch t) (ref_name t)]) s1) as [Hm ->].
  { unfold parent_mark. destruct (t_parent t) as [p|].
    - inv_bind E. apply ret_Ret in E as [-> ->]. split; [|reflexivity].
      destruct p; simpl in *; rewrite E0; reflexivity.
    - apply ret_Ret in E as [-> ->]. auto. }
  clear E. exists a3.
  inv_bind H. inv_bind H.
  set (sa := with_tags (alter (set_tag_mark a3) tg) _) in *.
  assert (Hsa : stdout sa = stdout s ++ [OReset (is_branch t) (ref_name t)]) by reflexivity.
  assert (Hca : mark_counter sa = mark_counter s) by reflexivity.
  assert (Hta : db_tags sa !! tg = Some (set_tag_mark a3 t)).
  { subst sa. simpl. rewrite list_lookup_alter_eq, Ht. reflexivity. }
  clearbody sa. clear s1.
  assert (Hsb : stdout s0 = stdout s ++ [OReset (is_branch t) (ref_name t)]
                             ++ (if a3 =? 0 then [] else [OFrom a3])
                /\ db_tags s0 !! tg = Some (set_tag_mark a3 t)
                /\ mark_counter s0 = mark_counter s).
  { destruct (a3 =? 0); simpl in E.
    - apply ret_Ret in E as [-> _]. rewrite Hsa, app_nil_r. auto.
    - apply modify_Ret in E as ->. simpl. rewrite Hsa, <- app_assoc. auto. }
  destruct Hsb as (Hsb & Htb & Hcb). clear E Hsa Hta Hca sa.
  inv_bind H. inv_bind H. apply base_array_Ret in E as ->.
  inv_bind H. apply create_fixups_Ret in E as [fx ->].
  set (sc := with_tags (alter (set_fixups fx 0) tg) _) in *.
  assert (Hsc : stdout sc = stdout s0) by reflexivity.
  assert (Hcc : mark_counter sc = mark_counter s) by (rewrite <- Hcb; reflexivity).
  set (tc := set_fixups fx 0 (set_tag_last (Some (CTag tg)) (set_tag_mark a3 t))).
  assert (Htc : db_tags sc !! tg = Some tc).
  { subst sc tc. simpl. rewrite !list_lookup_alter_eq, Htb. reflexivity. }
  clearbody sc.
  destruct (is_branch t) eqn:Eb.
  - exists [].
    inv_bind H.
    assert (exists f, s' = with_tags (alter (set_branch_versions f) tg) sc) as [f ->].
    { repeat match type of H with
             | match ?x with _ => _ end _ = _ => destruct x; try discriminate
             end;
        apply modify_Ret in H; eauto. }
    exists (set_branch_versions f tc).
    split; [exact Hm|]. rewrite !app_nil_r.
    split; [simpl; rewrite Hsc, Hsb; reflexivity|].
    split; [simpl; rewrite list_lookup_alter_eq, Htc; reflexivity|].
    split; [reflexivity|].
    left. split; [reflexivity|]. split; [left; reflexivity|].
    split; [reflexivity | exact Hcc].
  - destruct (print_fixups_flush _ _ _ _ _ _ Htc H)
      as (fixups & s2 & Hl &
          [[-> ->]|(Hne & blobs & m & time & post & Htime & Hout & Hlt & Hmk)]).
    + pose proof (fixup_list_all _ _ _ _ _ Htc Hl) as Hperm.
      apply Permutation_nil_r in Hperm.
      apply fixup_list_Ret in Hl as (t0 & k & Ht0 & ->).
      rewrite Htc in Ht0. injection Ht0 as <-.
      exists [], (set_fixups (t_fixups tc) k tc).
      split; [exact Hm|]. rewrite !app_nil_r.
      split; [simpl; rewrite Hsc, Hsb; reflexivity|].
      split; [simpl; rewrite list_lookup_alter_eq, Htc; reflexivity|].
      split; [reflexivity|].
      left. split; [reflexivity|]. split; [right; exact Hperm|].
      split; [reflexivity | exact Hcc].
    + destruct Hmk as (Hctr & t' & Ht' & Hmark & _ & Hfx).
      assert (Htm : time = cs_time (t_changeset t)).
      { unfold flush_time in Htime. subst tc. simpl in Htime.
        change (is_branch _) with (is_branch t) in Htime. rewrite Eb in Htime.
        injection Htime as <-. reflexivity. }
      subst time.
      exists (blobs ++ [OCommit false (ref_name t); OMark m;
                        OCommitter "crap" (cs_time (t_changeset t))] ++ post), t'.
      split; [exact Hm|].
      split.
      { rewrite Hout, Hsc, Hsb, <- !app_assoc.
        change (is_branch tc) with (is_branch t). rewrite Eb. reflexivity. }
      split; [exact Ht'|].
      split; [discriminate|].
      right. split; [reflexivity|].
      split.
      { rewrite Hfx. intros Hnil. apply Hne.
        pose proof (fixup_list_all _ _ _ _ _ Htc Hl) as Hperm.
        rewrite Hnil in Hperm. simpl in Hperm.
        apply Permutation_nil in Hperm. exact Hperm. }
      exists blobs, m, post. split; [reflexivity|].
      split; [exact Hmark|]. split; [lia | exact Hctr].
Qed.

Lemma render_reset heads name m :
  render_all ([OReset heads name] ++ (if m =? 0 then [] else [OFrom m]))
  = "reset refs/" +:+ (if heads then "heads" else "tags") +:+ "/" +:+ name +:+ nl
      +:+ (if m =? 0 then "" else "from :" +:+ fmt_u m +:+ nl +:+ nl).
Proof.
  destruct (m =? 0); destruct heads; cbn [app render_all fold_right render refs_kind];
    rewrite ?append_assoc; reflexivity.
Qed.

Module TagScenario.
Import Scenario.

(** File [a] is at 1.2 on the trunk, both versions fetched; tag [v1] is to
    be placed on the second commit and names 1.1. *)
Definition tag_to_release : state :=
  mkState [mkFile "a" (heap 0)]
    [mkVersion 0 "1.1" None (Some 0%nat) "u" "log" 10 false false true 1;
     mkVersion 0 "1.2" (Some 0%nat) (Some 0%nat) "u" "log" 20 false false true 3]
    [mkTag "" (Some [Some 1%nat]) None [] (Some (CCommit 1)) false true
       (mkChangeset 0 [] 0) [] 0;
     plain_tag "v1" (Some (CCommit 1)) [0%nat] 30]
    [mkChangeset 10 [0%nat] 2; mkChangeset 20 [1%nat] 4]
    4 [] [] "" "" [] 2 2.
End TagScenario.

(** C8, counterexample: tag [v1] is placed on the second commit of the
    trunk, of mark 4, and names [a] at 1.1 where the trunk has 1.2.
    [print_tag] writes the reset with [from :4] and then the fix-up commit,
    of mark 5: when it returns the mark of the changeset of the tag is 5,
    not that of its parent. *)
Lemma print_tag_fixup_mark_counterexample :
  exists t s' t',
    db_tags TagScenario.tag_to_release !! 1%nat = Some t /\
    is_branch t = false /\
    parent_mark TagScenario.tag_to_release t = Some 4 /\
    print_tag 1 TagScenario.tag_to_release = Ret tt s' /\
    stdout s' = [OReset false "v1"; OFrom 4; OCommit false "v1"; OMark 5;
                 OCommitter "crap" 30; ODataLen 65;
                 OText ("Fix-up commit generated by crap-clone.  (~1 +0 -0 =0)" +:+ nl
                        +:+ "a 1.2->1.1" +:+ nl);
                 OModify false 1 "a"] /\
    db_tags s' !! 1%nat = Some t' /\
    cs_mark (t_changeset t') = 5.
Proof.
  eexists _, _, _. split; [reflexivity|]. split; [reflexivity|].
  split; [vm_compute; reflexivity|]. split; [vm_compute; reflexivity|].
  split; [vm_compute; reflexivity|]. split; vm_compute; reflexivity.
Qed.

(** C8, amended: for every tag changeset, [print_tag] writes [reset
    refs/heads/<name>] if the tag is a branch and [reset refs/tags/<name>]
    otherwise, where [<name>] is the name of the tag, or [cvs_master] when
    that is empty; it sets the tag changeset's mark to its parent
    changeset's mark (0 when it has no parent), and writes a [from :M] line
    exactly when that mark is nonzero.  For a branch nothing else is
    written, and so for a tag for which [create_fixups] has stored no
    fix-up: the mark stays that of the parent and the counter is not
    touched.  For a tag with a fix-up stored, the output of the fetch for
    the fix-up and then a fix-up commit follow: [commit refs/tags/<name>],
    the mark line, with a mark fresh from the counter, the committer line
    of [crap] with the time of the tag, and the rest of that commit; that
    mark is the mark of the changeset of the tag when [print_tag]
    returns. *)
Theorem print_tag_reset tg s s' t :
  db_tags s !! tg = Some t ->
  print_tag tg s = Ret tt s' ->
  exists m rest t',
    parent_mark s t = Some m /\
    stdout s' = stdout s ++ [OReset (is_branch t) (ref_name t)]
                  ++ (if m =? 0 then [] else [OFrom m]) ++ rest /\
    render_all ([OReset (is_branch t) (ref_name t)] ++ (if m =? 0 then [] else [OFrom m]))
    = "reset refs/" +:+ (if is_branch t then "heads" else "tags") +:+ "/"
        +:+ (if String.eqb (t_tag t) "" then "cvs_master" else t_tag t) +:+ nl
        +:+ (if m =? 0 then "" else "from :" +:+ fmt_u m +:+ nl +:+ nl) /\
    db_tags s' !! tg = Some t' /\
    (is_branch t = true -> rest = []) /\
    ((rest = [] /\ (is_branch t = true \/ t_fixups t' = []) /\
      cs_mark (t_changeset t') = m /\ mark_counter s' = mark_counter s) \/
     (is_branch t = false /\ t_fixups t' <> [] /\
      exists blobs m' post,
        rest = blobs ++ [OCommit false (ref_name t); OMark m';
                         OCommitter "crap" (cs_time (t_changeset t))] ++ post /\
        cs_mark (t_changeset t') = m' /\
        mark_counter s < m' /\ mark_counter s' = m')).
Proof.
  intros Ht H.
  destruct (print_tag_Ret _ _ _ _ Ht H) as (m & rest & t' & Hm & Hout & Ht' & Hb & Hrest).
  exists m, rest, t'. split; [exact Hm|]. split; [exact Hout|].
  split; [apply render_reset|]. split; [exact Ht'|]. split; assumption.
Qed.

Lemma print_tag_reset_witness :
  exists m rest t',
    parent_mark TagScenario.tag_to_release
      (Scenario.plain_tag "v1" (Some (CCommit 1)) [0%nat] 30) = Some m /\
    stdout (final (print_tag 1 TagScenario.tag_to_release))
    = stdout TagScenario.tag_to_release ++ [OReset false "v1"]
        ++ (if m =? 0 then [] else [OFrom m]) ++ rest /\
    render_all ([OReset false "v1"] ++ (if m =? 0 then [] else [OFrom m]))
    = "reset refs/" +:+ "tags" +:+ "/" +:+ "v1" +:+ nl
        +:+ (if m =? 0 then "" else "from :" +:+ fmt_u m +:+ nl +:+ nl) /\
    db_tags (final (print_tag 1 TagScenario.tag_to_release)) !! 1%nat = Some t' /\
    (false = true -> rest = []) /\
    ((rest = [] /\ (false = true \/ t_fixups t' = []) /\
      cs_mark (t_changeset t') = m /\
      mark_counter (final (print_tag 1 TagScenario.tag_to_release))
      = mark_counter TagScenario.tag_to_release) \/
     (false = false /\ t_fixups t' <> [] /\
      exists blobs m' post,
        rest = blobs ++ [OCommit false "v1"; OMark m'; OCommitter "crap" 30] ++ post /\
        cs_mark (t_changeset t') = m' /\
        mark_counter TagScenario.tag_to_release < m' /\
        mark_counter (final (print_tag 1 TagScenario.tag_to_release)) = m')).
Proof.
  apply (print_tag_reset 1%nat TagScenario.tag_to_release).
  - reflexivity.
  - vm_compute. reflexivity.
Defined.

(** ** The blob of a version *)

(** The marks of the blob records written. *)
Definition blob_mark (o : out_item) : list Z :=
  match o with
  | OBlob m _ => [m]
  | _ => []
  end.

Definition blob_marks (os : list out_item) : list Z := flat_map blob_mark os.

(** The marks of the versions that have one. *)
Definition version_marks (s : state) : list Z :=
  List.filter (fun m => negb (m =? SIZE_MAX)) (map v_mark (db_versions s)).

Definition blobs_match (s : state) : Prop :=
  Permutation (blob_marks (stdout s)) (version_marks s).

Lemma blob_marks_snoc l o : blob_marks (l ++ [o]) = blob_marks l ++ blob_mark o.
Proof.
  unfold blob_marks. rewrite flat_map_app. cbn [flat_map].
  rewrite app_nil_r. reflexivity.
Qed.

Lemma blob_marks_sublist os : blob_marks os `sublist_of` marks_of os.
Proof.
  induction os as [|o os IH]; [constructor|].
  unfold blob_marks, marks_of. cbn [flat_map].
  fold (blob_marks os). fold (marks_of os).
  destruct o; simpl; try exact IH; try (constructor; exact IH).
Qed.

Lemma blobs_match_out o s :
  marks_of_item o = [] ->
  blobs_match s -> blobs_match (with_stdout (stdout s ++ [o]) s).
Proof.
  unfold blobs_match, version_marks. simpl. intros Ho H.
  rewrite blob_marks_snoc.
  destruct o; try discriminate Ho; simpl; rewrite app_nil_r; exact H.
Qed.

Lemma blobs_match_mark m s :
  blobs_match s -> blobs_match (with_stdout (stdout s ++ [OMark m]) s).
Proof.
  unfold blobs_match, version_marks. simpl. intros H.
  rewrite blob_marks_snoc. simpl. rewrite app_nil_r. exact H.
Qed.

Lemma marks_alter_exec e i vs :
  map v_mark (alter (set_version_exec e) i vs) = map v_mark vs.
Proof.
  revert i. induction vs as [|v vs IH]; intros [|i]; simpl; try reflexivity.
  f_equal. apply IH.
Qed.

Lemma marks_alter_mark m i vs v :
  vs !! i = Some v -> v_mark v = SIZE_MAX -> m <> SIZE_MAX ->
  Permutation
    (List.filter (fun m => negb (m =? SIZE_MAX))
       (map v_mark (alter (set_version_mark m) i vs)))
    (List.filter (fun m => negb (m =? SIZE_MAX)) (map v_mark vs) ++ [m]).
Proof.
  intros Hv Hs Hm. revert i Hv.
  induction vs as [|x vs IH]; intros [|i] Hv; simpl in Hv; try discriminate.
  - injection Hv as ->. cbn [alter list_alter map List.filter set_version_mark v_mark].
    rewrite Hs. simpl.
    destruct (m =? SIZE_MAX) eqn:E; [apply Z.eqb_eq in E; contradiction|]. simpl.
    apply Permutation_cons_append.
  - cbn [alter list_alter map List.filter].
    destruct (negb (v_mark x =? SIZE_MAX)); simpl.
    + constructor. exact (IH i Hv).
    + exact (IH i Hv).
Qed.

(** A mark from the counter is never the sentinel. *)
Lemma next_mark_below s m s' : next_mark s = Ret m s' -> m <> SIZE_MAX.
Proof.
  unfold next_mark. destruct (LONG_MAX <? mark_counter s + 1) eqn:E; [discriminate|].
  intros H. injection H as <- _. apply Z.ltb_ge in E.
  unfold LONG_MAX, SIZE_MAX in *. lia.
Qed.

Lemma blobs_match_read_blob version path vers len :
  keeps blobs_match any_abort (read_blob version path vers len).
Proof.
  intros s H. unfold read_blob, bind, the_version.
  destruct (db_versions s !! version) as [v|] eqn:Ev; [|exact Logic.I].
  destruct (v_mark v =? SIZE_MAX) eqn:Em.
  - apply Z.eqb_eq in Em.
    destruct (next_mark s) as [m s1|] eqn:En; [|exact Logic.I].
    pose proof (next_mark_below _ _ _ En) as Hne.
    apply next_mark_Ret in En as [Hm ->].
    unfold update_version, printf, modify, cvs_read_block. cbn beta iota.
    match goal with
    | |- context [if ?c then Abort _ _ else _] => destruct c; [exact Logic.I|]
    end.
    unfold blobs_match, version_marks in *. simpl.
    rewrite !blob_marks_snoc. simpl. rewrite !app_nil_r.
    etransitivity; [|symmetry; eapply marks_alter_mark; eassumption].
    apply Permutation_app_tail. exact H.
  - unfold eprintf, modify, cvs_read_block. simpl.
    match goal with
    | |- context [if ?c then Abort _ _ else _] => destruct c; [exact Logic.I|]
    end.
    exact H.
Qed.

Lemma blobs_match_grab_versions fetch :
  keeps blobs_match any_abort (grab_versions fetch).
Proof.
  assert (Hl : keeps blobs_match any_abort next_line).
  { apply keeps_next_line_input; auto. }
  assert (He : forall v e s, blobs_match s ->
                 blobs_match (with_versions (alter (set_version_exec e) v) s)).
  { intros v e s H. unfold blobs_match, version_marks in *. simpl.
    rewrite marks_alter_exec. exact H. }
  apply keeps_grab_versions; auto using blobs_match_read_blob.
  apply keeps_read_versions_any; auto using blobs_match_read_blob.
Qed.

Lemma blob_marks_app a b : blob_marks (a ++ b) = blob_marks a ++ blob_marks b.
Proof. apply flat_map_app. Qed.

(** Since the output was [pre] and the versions were [vs0], a version has
    got a mark only with a blob record. *)
Definition marks_from (pre : list out_item) (vs0 : list version) (s : state) : Prop :=
  exists new,
    stdout s = pre ++ new /\
    forall i x, db_versions s !! i = Some x ->
      v_mark x = SIZE_MAX \/
      v_mark <$> vs0 !! i = Some (v_mark x) \/
      In (v_mark x) (blob_marks new).

Lemma marks_from_refl s : marks_from (stdout s) (db_versions s) s.
Proof.
  exists []. split; [rewrite app_nil_r; reflexivity|].
  intros i x Hx. right. left. rewrite Hx. reflexivity.
Qed.

Lemma marks_from_out pre vs0 os s :
  marks_from pre vs0 s -> marks_from pre vs0 (with_stdout (stdout s ++ os) s).
Proof.
  intros (new & Hout & H). exists (new ++ os). simpl.
  split; [rewrite Hout, <- app_assoc; reflexivity|].
  intros i x Hx. destruct (H i x Hx) as [?|[?|Hin]]; auto.
  right. right. rewrite blob_marks_app. apply in_or_app. auto.
Qed.

Lemma marks_from_read_blob pre vs0 version path vers len :
  keeps (marks_from pre vs0) any_abort (read_blob version path vers len).
Proof.
  intros s H. unfold read_blob, bind, the_version.
  destruct (db_versions s !! version) as [v|] eqn:Ev; [|exact Logic.I].
  destruct (v_mark v =? SIZE_MAX) eqn:Em.
  - destruct (next_mark s) as [m s1|] eqn:En; [|exact Logic.I].
    apply next_mark_Ret in En as [Hm ->].
    unfold update_version, printf, modify, cvs_read_block. cbn beta iota.
    match goal with
    | |- context [if ?c then Abort _ _ else _] => destruct c; [exact Logic.I|]
    end.
    cbn beta iota zeta.
    destruct H as (new & Hout & H).
    match goal with
    | |- marks_from _ _ ?st =>
        assert (Hst : exists tl, stdout st = stdout s ++ [OBlob m len] ++ tl /\
                                 db_versions st
                                 = alter (set_version_mark m) version (db_versions s))
    end.
    { simpl. eexists. split; [rewrite <- !app_assoc; reflexivity | reflexivity]. }
    destruct Hst as (tl & Hst & Hvs).
    exists (new ++ [OBlob m len] ++ tl).
    split; [rewrite Hst, Hout, <- !app_assoc; reflexivity|].
    intros i x Hx. rewrite Hvs in Hx.
    apply lookup_alter_version in Hx as (y & Hy & [->|[-> ->]]).
    + destruct (H i y Hy) as [?|[?|Hin]]; auto.
      right. right. rewrite blob_marks_app. apply in_or_app. auto.
    + right. right. rewrite blob_marks_app. apply in_or_app. right. left. reflexivity.
  - unfold eprintf, modify, cvs_read_block. simpl.
    match goal with
    | |- context [if ?c then Abort _ _ else _] => destruct c; [exact Logic.I|]
    end.
    exact H.
Qed.

Lemma marks_from_grab_versions pre vs0 fetch :
  keeps (marks_from pre vs0) any_abort (grab_versions fetch).
Proof.
  assert (Hl : keeps (marks_from pre vs0) any_abort next_line).
  { apply keeps_next_line_input; auto. }
  assert (He : forall v e s, marks_from pre vs0 s ->
                 marks_from pre vs0 (with_versions (alter (set_version_exec e) v) s)).
  { intros v e s (new & Hout & H). exists new. split; [exact Hout|].
    intros i x Hx. simpl in Hx.
    apply lookup_alter_version in Hx as (y & Hy & [->|[-> ->]]); [eauto|].
    exact (H _ _ Hy). }
  apply keeps_grab_versions; auto using marks_from_read_blob.
  apply keeps_read_versions_any; auto using marks_from_read_blob.
Qed.

(** A flush of fix-ups writes no blob that is not that of a version. *)
Lemma blobs_match_print_fixups base tg cs :
  keeps blobs_match any_abort (print_fixups base tg cs).
Proof.
  apply (keeps_print_fixups blobs_match (fun _ => blobs_match) any_abort);
    auto using blobs_match_grab_versions, blobs_match_out.
  - intros s H. unfold next_mark. destruct (_ <? _); [exact Logic.I | exact H].
  - intros m s Hs. apply blobs_match_mark, Hs.
Qed.

Lemma blobs_match_In s i x :
  blobs_match s -> db_versions s !! i = Some x -> v_mark x <> SIZE_MAX ->
  In (v_mark x) (blob_marks (stdout s)).
Proof.
  intros H Hx Hm. unfold blobs_match in H.
  apply list_elem_of_In. rewrite H. apply list_elem_of_In.
  unfold version_marks. apply filter_In. split.
  - apply in_map, list_elem_of_In. eapply list_elem_of_lookup_2, Hx.
  - apply negb_true_iff, Z.eqb_neq, Hm.
Qed.

(** ** [print_commit] *)

(** The tip of file [f] on branch [br]. *)
Definition tip (s : state) (br : tref) (f : fref) : option vref :=
  match db_tags s !! br with
  | Some b =>
      match t_branch_versions b with
      | Some a => default None (a !! f)
      | None => None
      end
  | None => None
  end.

(** The delta of a commit: "each version in the changeset whose used flag
    is set and whose live() differs from the branch tip". *)
Definition in_delta (s : state) (br : tref) (i : vref) : bool :=
  match db_versions s !! i with
  | Some x =>
      v_used x
      && negb (option_vref_eqb (live s (Some i)) (live s (tip s br (v_file x))))
  | None => false
  end.

(** "If all deltas are empty the changeset is a no-op." *)
Definition is_noop (s : state) (br : tref) (versions : list vref) : bool :=
  forallb (fun i => negb (in_delta s br i)) versions.

Lemma commit_delta_Ret br versions :
  forall is_nil fetch s r s',
    commit_delta br versions is_nil fetch s = Ret r s' ->
    s' = s /\ r.1 = is_nil && is_noop s br versions.
Proof.
  induction versions as [|i l IH]; intros is_nil fetch s r s' H.
  - apply ret_Ret in H as [-> ->]. simpl. rewrite andb_true_r. auto.
  - cbn [commit_delta] in H. inv_bind H.
    assert (Hd : in_delta s br i
                 = v_used a && negb (option_vref_eqb (live s (Some i))
                                       (live s (tip s br (v_file a))))).
    { unfold in_delta. rewrite E. reflexivity. }
    cbn [is_noop forallb]. fold (is_noop s br l). rewrite Hd.
    destruct (v_used a); simpl in *.
    + inv_bind H. inv_bind H.
      destruct (t_branch_versions a0) as [arr|] eqn:Earr; [|discriminate].
      inv_bind H.
      assert (Htip : tip s br (v_file a) = a1).
      { unfold tip. rewrite E0, Earr, E1. reflexivity. }
      rewrite Htip.
      destruct (option_vref_eqb _ _); simpl.
      * apply IH in H. exact H.
      * match type of H with
        | match ?x with _ => _ end _ = _ => destruct x as [c|]
        end.
        -- inv_bind H. destruct (v_mark _ =? _); apply IH in H as [-> ->];
             rewrite andb_false_r; auto.
        -- apply IH in H as [-> ->]. rewrite andb_false_r; auto.
    + apply IH in H. exact H.
Qed.

(** What [print_commit] fetches: the versions of the delta that are live
    and have no mark, in the order of the changeset. *)
Definition needs_fetch (s : state) (br : tref) (i : vref) : bool :=
  in_delta s br i
  && match db_versions s !! i with
     | Some x => negb (v_dead x) && (v_mark x =? SIZE_MAX)
     | None => false
     end.

Definition delta_fetch (s : state) (br : tref) (versions : list vref) : list vref :=
  List.filter (needs_fetch s br) versions.

Lemma commit_delta_fetch br versions :
  forall is_nil fetch s r s',
    commit_delta br versions is_nil fetch s = Ret r s' ->
    r.2 = fetch ++ delta_fetch s br versions.
Proof.
  induction versions as [|i l IH]; intros is_nil fetch s r s' H.
  - apply ret_Ret in H as [_ ->]. simpl. rewrite app_nil_r. reflexivity.
  - cbn [commit_delta] in H.
    apply bind_Ret in H as (x & s0 & Ex & H).
    apply the_version_Ret in Ex as [-> Ex].
    unfold delta_fetch. cbn [List.filter]. fold (delta_fetch s br l).
    unfold needs_fetch at 1. unfold in_delta. rewrite Ex.
    destruct (v_used x); simpl in *; [|apply IH in H; exact H].
    apply bind_Ret in H as (s0 & s1 & Eg & H). apply get_Ret in Eg as [-> ->].
    apply bind_Ret in H as (b & s1 & Eb & H).
    apply the_tag_Ret in Eb as [-> Eb].
    destruct (t_branch_versions b) as [arr|] eqn:Earr; [|discriminate].
    apply bind_Ret in H as (tp & s1 & Etp & H).
    assert (Htip : tip s br (v_file x) = tp /\ s1 = s).
    { unfold array_get in Etp. unfold tip. rewrite Eb, Earr.
      destruct (arr !! v_file x); [|discriminate].
      injection Etp as <- <-. auto. }
    destruct Htip as [Htip ->]. rewrite Htip.
    rewrite !Ex in H. rewrite !Ex.
    destruct (v_dead x) eqn:Ed.
    + destruct (option_vref_eqb None (live s tp)); simpl;
        apply IH in H; exact H.
    + destruct (option_vref_eqb (Some i) (live s tp)); simpl.
      * apply IH in H; exact H.
      * apply bind_Ret in H as (y & s1 & Ey & H).
        apply the_version_Ret in Ey as [-> Ey].
        rewrite Ex in Ey. injection Ey as <-.
        destruct (v_mark x =? SIZE_MAX); apply IH in H; rewrite H.
        -- rewrite <- app_assoc. reflexivity.
        -- reflexivity.
Qed.

(** The line of a version in a commit record. *)
Definition commit_line (s : state) (i : vref) : list out_item :=
  match db_versions s !! i with
  | Some x =>
      if v_used x then
        let path := default "" (f_path <$> db_files s !! v_file x) in
        [if v_dead x then ODelete path else OModify (v_exec x) (v_mark x) path]
      else []
  | None => []
  end.

Definition commit_lines (s : state) (versions : list vref) : list out_item :=
  flat_map (commit_line s) versions.

Lemma with_stdout_nil s : with_stdout (stdout s ++ []) s = s.
Proof. destruct s. unfold with_stdout. simpl. rewrite app_nil_r. reflexivity. Qed.

Lemma print_commit_versions_Ret versions :
  forall s u s',
    for_each versions print_commit_version s = Ret u s' ->
    s' = with_stdout (stdout s ++ commit_lines s versions) s.
Proof.
  induction versions as [|i l IH]; intros s u s' H.
  - apply ret_Ret in H as [-> _]. symmetry. apply with_stdout_nil.
  - rewrite for_each_cons in H. inv_bind H.
    unfold print_commit_version in E. inv_bind E.
    unfold commit_lines. cbn [flat_map]. fold (commit_lines s l).
    unfold commit_line at 1. rewrite E0.
    destruct (v_used a0).
    + simpl in E. inv_bind E. rewrite E0 in E1. injection E1 as <-.
      inv_bind E. rewrite E1. simpl.
      assert (s0 = with_stdout
                     (stdout s ++ [if v_dead a0 then ODelete (f_path a1)
                                   else OModify (v_exec a0) (v_mark a0) (f_path a1)]) s)
        as ->.
      { destruct (v_dead a0); apply modify_Ret in E; exact E. }
      apply IH in H as ->. simpl.
      unfold with_stdout. simpl. rewrite <- app_assoc. reflexivity.
    + apply ret_Ret in E as [-> _]. apply IH in H. exact H.
Qed.

(** The state after a commit that is not a no-op: [s2] is the state after
    the fetch, [m] the mark of the commit. *)
Definition committed (n : nat) (cs : changeset) (v : version) (br : tref)
    (b : tag) (m : Z) (s2 : state) : state :=
  let s3 := with_mark_counter m
              (with_tags (alter (set_tag_last (Some (CCommit n))) br) s2) in
  let s4 := with_changesets (alter (set_changeset_mark m) n) s3 in
  let s5 := with_stdout
              (stdout s2 ++ [OCommit true (ref_name b); OMark m;
                             OCommitter (v_author v) (cs_time cs); OData (v_log v)]
                 ++ commit_lines s2 (cs_versions cs)) s4 in
  with_stderr (stderr s5 ++ [ENewline]) s5.

(** Brings the updates of a state into the form of one record. *)
Ltac state_norm_in H :=
  cbn [db_files db_versions db_tags db_changesets mark_counter stdout stderr
       s_in s_line s_sent count_versions count_transactions
       with_versions with_tags with_changesets with_mark_counter with_stdout
       with_stderr with_input with_sent with_counts] in H.

Ltac state_norm :=
  cbn [db_files db_versions db_tags db_changesets mark_counter stdout stderr
       s_in s_line s_sent count_versions count_transactions
       with_versions with_tags with_changesets with_mark_counter with_stdout
       with_stderr with_input with_sent with_counts].

Lemma print_commit_proper_Ret n cs v br s1 s' :
  print_commit_proper n cs v br s1 = Ret tt s' ->
  if is_noop s1 br (cs_versions cs) then
    exists b l lc,
      db_tags s1 !! br = Some b /\ t_last b = Some l /\
      changeset_at s1 l = Some lc /\
      s' = with_tags (alter (set_tag_last (Some (CCommit n))) br)
             (with_changesets (alter (set_changeset_mark (cs_mark lc)) n) s1)
  else
    exists s2 b,
      grab_versions (delta_fetch s1 br (cs_versions cs))
        (with_stderr (stderr s1 ++ [ECommit (cs_time cs)]) s1)
      = Ret tt s2 /\
      db_tags s2 !! br = Some b /\
      s' = committed n cs v br b (mark_counter s2 + 1) s2.
Proof.
  unfold print_commit_proper. intros H.
  inv_bind H. pose proof (commit_delta_fetch _ _ _ _ _ _ _ E) as Hfetch.
  apply commit_delta_Ret in E as [-> Hnil].
  destruct a as [is_nil fetch]. simpl in Hnil, Hfetch. subst is_nil fetch.
  destruct (is_noop s1 br (cs_versions cs)).
  - inv_bind H. destruct (t_last a) as [l|] eqn:El; [|discriminate].
    inv_bind H. inv_bind H. apply modify_Ret in H.
    exists a, l, a0. auto.
  - inv_bind H. inv_bind H. destruct a0. inv_bind H.
    inv_bind H. apply next_mark_Ret in E0 as [Hm ->]. state_norm_in Hm.
    inv_bind H. state_norm_in H.
    inv_bind H. state_norm_in E0. state_norm_in H.
    rewrite list_lookup_alter_eq in E0.
    destruct (db_tags s !! br) as [b|] eqn:Eb; [|discriminate].
    simpl in E0. injection E0 as <-.
    change (ref_name (set_tag_last (Some (CCommit n)) b)) with (ref_name b) in H.
    inv_bind H. state_norm_in H.
    inv_bind H. state_norm_in H.
    inv_bind H. state_norm_in H.
    inv_bind H. state_norm_in H.
    inv_bind H. apply print_commit_versions_Ret in E0 as ->. state_norm_in H.
    apply modify_Ret in H. state_norm_in H.
    exists s, b. split; [exact E|]. split; [exact Eb|].
    rewrite H, Hm. unfold committed. state_norm.
    f_equal. rewrite <- !app_assoc. reflexivity.
Qed.

Lemma print_commit_Ret n s s' :
  print_commit n s = Ret tt s' ->
  exists cs v0 rest v br s1,
    db_changesets s !! n = Some cs /\
    cs_versions cs = v0 :: rest /\
    db_versions s !! v0 = Some v /\
    v_branch v = Some br /\
    print_fixups (Some br) br (Some (CCommit n)) s = Ret tt s1 /\
    print_commit_proper n cs v br s1 = Ret tt s'.
Proof.
  unfold print_commit. intros H.
  inv_bind H. simpl in E.
  destruct (cs_versions a) as [|v0 rest] eqn:Ev; [discriminate|].
  inv_bind H. destruct (v_branch a0) as [br|] eqn:Eb; [|discriminate].
  inv_bind H. destruct a1.
  exists a, v0, rest, a0, br, s0. repeat split; assumption.
Qed.

(** Neither the fetch driver nor a flush of fix-ups touches the commit
    changesets. *)
Definition changesets_are (C : list changeset) (s : state) : Prop :=
  db_changesets s = C.

Lemma changesets_print_fixups C base tg cs :
  keeps (changesets_are C) any_abort (print_fixups base tg cs).
Proof.
  assert (Hf : fetch_tolerant (changesets_are C)) by (split; intros; assumption).
  apply (tolerant_print_fixups _ Hf) with (allowed := fun _ => False).
  - intros; assumption.
  - apply keeps_read_blob_tolerant; auto.
  - split; [intros; assumption | intros ? ? ? []].
Qed.

Lemma render_commit_header name m author time log :
  render_all [OCommit true name; OMark m; OCommitter author time; OData log]
  = "commit refs/heads/" +:+ name +:+ nl
      +:+ "mark :" +:+ fmt_u m +:+ nl
      +:+ "committer " +:+ author +:+ " <" +:+ author +:+ "> " +:+ fmt_d time
      +:+ " +0000" +:+ nl
      +:+ "data " +:+ fmt_u (Z.of_nat (String.length log)) +:+ nl +:+ log +:+ nl.
Proof.
  cbn [render_all fold_right render refs_kind].
  rewrite ?append_assoc. reflexivity.
Qed.

Lemma render_commit_line s i x f :
  db_versions s !! i = Some x ->
  db_files s !! v_file x = Some f ->
  render_all (commit_line s i)
  = if v_used x then
      if v_dead x then "D " +:+ f_path f +:+ nl
      else "M " +:+ (if v_exec x then "755" else "644") +:+ " :"
             +:+ fmt_u (v_mark x) +:+ " " +:+ f_path f +:+ nl
    else "".
Proof.
  intros Hx Hf. unfold commit_line. rewrite Hx, Hf.
  destruct (v_used x); [|reflexivity].
  destruct (v_dead x); cbn [render_all fold_right render default fmap option_fmap option_map];
    rewrite ?append_assoc; reflexivity.
Qed.


Module CommitScenario.
Import Scenario.

(** The state after the changesets of [schedule] have been emitted. *)
Definition after (schedule : list cref) (s : state) : state :=
  final ((initialise ;;; for_each schedule emit_changeset) s).

(** One commit on the trunk: file [a] at 1.1, and the dead 1.1 that CVS
    leaves on the trunk for a file [d] added on a branch. *)
Definition dead_on_trunk : state :=
  start [mkFile "a" (heap 0); mkFile "d" (heap 1)]
    [ver 0 "1.1" 0 10; dead_ver 1 "1.1" 0 10]
    [branch "" 2 None [] 0]
    [commit 10 [0; 1]%nat]
    (created "a" "1.1" "x" +:+ ok).

(** The trunk has been created and its commit is next. *)
Definition trunk_created : state := after [CTag 0%nat] dead_on_trunk.

Definition trunk_flushed : state :=
  final (print_fixups (Some 0%nat) 0%nat (Some (CCommit 0)) trunk_created).

Definition trunk_committed : state := final (print_commit 0 trunk_created).

(** Branch [b] is placed on the second commit of the trunk, where [a] is at
    1.2, and names [a] at 1.1: a fix-up of time 10 is pending.  The commit
    on [b], of time 50, is the dead revision of a file [c] that the branch
    does not have. *)
Definition noop_on_branch : state :=
  start [mkFile "a" (heap 0); mkFile "c" (heap 1)]
    [ver 0 "1.1" 0 10; ver 0 "1.2" 0 20; dead_ver 1 "1.1.2.1" 1 50]
    [branch "" 2 None [] 0; branch "b" 2 (Some (CCommit 1)) [0%nat] 30]
    [commit 10 [0%nat]; commit 20 [1%nat]; commit 50 [2%nat]]
    (created "a" "1.1" "x" +:+ ok +:+ created "a" "1.2" "yy" +:+ ok).

(** The trunk and branch [b] have been emitted; the commit on [b] is
    next. *)
Definition branch_created : state :=
  after [CTag 0; CCommit 0; CCommit 1; CTag 1]%nat noop_on_branch.

Definition branch_flushed : state :=
  final (print_fixups (Some 1%nat) 1%nat (Some (CCommit 2)) branch_created).

Definition branch_committed : state := final (print_commit 2 branch_created).

(** One commit on the trunk, of two files at 1.1; the server answers [ok]
    without sending either. *)
Definition same_id : state :=
  start [mkFile "a" (heap 0); mkFile "b" (heap 1)]
    [ver 0 "1.1" 0 10; ver 1 "1.1" 0 10]
    [branch "" 2 None [] 0]
    [commit 10 [0; 1]%nat]
    ok.

Definition same_id_created : state := after [CTag 0%nat] same_id.
End CommitScenario.

(** C5, counterexample: the first commit of the trunk holds [a] at 1.1
    and the dead 1.1 of [d], a file the trunk does not have.  The delta is
    the one version of [a], yet the commit record has two lines, [M 644 :1
    a] and [D d]. *)
Lemma print_commit_lines_counterexample :
  exists s',
    print_commit 0 CommitScenario.trunk_created = Ret tt s' /\
    (cs_versions <$> db_changesets CommitScenario.trunk_created !! 0%nat)
    = Some [0; 1]%nat /\
    filter (fun i => in_delta CommitScenario.trunk_created 0 i = true) [0; 1]%nat
    = [0%nat] /\
    stdout s' = stdout CommitScenario.trunk_created
                  ++ [OBlob 1 1; OBytes "x"; ONewline;
                      OCommit true "cvs_master"; OMark 2; OCommitter "u" 10;
                      OData "log"; OModify false 1 "a"; ODelete "d"].
Proof.
  eexists. split; [vm_compute; reflexivity|].
  split; [vm_compute; reflexivity|]. split; vm_compute; reflexivity.
Qed.

Lemma blob_marks_commit_lines s versions : blob_marks (commit_lines s versions) = [].
Proof.
  induction versions as [|i l IH]; [reflexivity|].
  unfold commit_lines. cbn [flat_map]. fold (commit_lines s l).
  rewrite blob_marks_app, IH, app_nil_r.
  unfold commit_line. destruct (db_versions s !! i) as [x|]; [|reflexivity].
  destruct (v_used x); [|reflexivity]. destruct (v_dead x); reflexivity.
Qed.

(** C5, amended: [print_commit] first flushes the fix-ups of the branch
    that are due.  For every commit changeset that is not a no-op after
    that, it fetches the versions of the delta that are live and have no
    mark, and no others; it assigns the changeset a fresh mark and writes a
    [commit refs/heads/<branch>] header (with [cvs_master] when the branch
    name is empty), a [mark :N] line, a committer line with the author and
    the changeset time with zone +0000, a data block with the log, and then
    one line for every used version of the changeset, in the delta or not:
    [M <mode> :<mark> <path>] with mode 755 if the version is executable
    and 644 otherwise for live versions, and [D <path>] for dead ones.

    [<mark>] is the mark of the version after the fetch.  A version that
    was requested has the mark of a blob record written by this fetch,
    unless two or more versions with the same version string were
    requested: the fetch may then leave one without a mark, and the line
    carries 18446744073709551615.  Every version has after the fetch no
    mark, the mark it had, or that of a blob of this fetch.  If before
    [print_commit] the marks of the versions were those of the blob records
    written, they are so after, and every mark on an [M] line other than
    18446744073709551615 is that of a blob record written. *)
Theorem print_commit_record n s s' cs v0 v br :
  db_changesets s !! n = Some cs ->
  head (cs_versions cs) = Some v0 ->
  db_versions s !! v0 = Some v ->
  v_branch v = Some br ->
  print_commit n s = Ret tt s' ->
  is_noop (final (print_fixups (Some br) br (Some (CCommit n)) s)) br (cs_versions cs)
  = false ->
  exists s2 blobs b m,
    grab_versions
      (delta_fetch (final (print_fixups (Some br) br (Some (CCommit n)) s)) br
         (cs_versions cs))
      (with_stderr
         (stderr (final (print_fixups (Some br) br (Some (CCommit n)) s))
            ++ [ECommit (cs_time cs)])
         (final (print_fixups (Some br) br (Some (CCommit n)) s)))
    = Ret tt s2 /\
    stdout s2 = stdout (final (print_fixups (Some br) br (Some (CCommit n)) s)) ++ blobs /\
    db_versions s' = db_versions s2 /\
    db_tags s' !! br = Some b /\
    m = mark_counter s' /\
    mark_counter (final (print_fixups (Some br) br (Some (CCommit n)) s)) < m /\
    cs_mark <$> db_changesets s' !! n = Some m /\
    stdout s' = stdout (final (print_fixups (Some br) br (Some (CCommit n)) s))
                  ++ blobs
                  ++ [OCommit true (ref_name b); OMark m;
                      OCommitter (v_author v) (cs_time cs); OData (v_log v)]
                  ++ commit_lines s' (cs_versions cs) /\
    render_all [OCommit true (ref_name b); OMark m;
                OCommitter (v_author v) (cs_time cs); OData (v_log v)]
    = "commit refs/heads/"
        +:+ (if String.eqb (t_tag b) "" then "cvs_master" else t_tag b) +:+ nl
        +:+ "mark :" +:+ fmt_u m +:+ nl
        +:+ "committer " +:+ v_author v +:+ " <" +:+ v_author v +:+ "> "
        +:+ fmt_d (cs_time cs) +:+ " +0000" +:+ nl
        +:+ "data " +:+ fmt_u (Z.of_nat (String.length (v_log v))) +:+ nl
        +:+ v_log v +:+ nl /\
    commit_lines s' (cs_versions cs) = flat_map (commit_line s') (cs_versions cs) /\
    (forall i x f,
      db_versions s' !! i = Some x ->
      db_files s' !! v_file x = Some f ->
      render_all (commit_line s' i)
      = if v_used x then
          if v_dead x then "D " +:+ f_path f +:+ nl
          else "M " +:+ (if v_exec x then "755" else "644") +:+ " :"
                 +:+ fmt_u (v_mark x) +:+ " " +:+ f_path f +:+ nl
        else "") /\
    (forall i x,
      db_versions s' !! i = Some x ->
      v_mark x = SIZE_MAX \/
      has_mark i (v_mark x) (final (print_fixups (Some br) br (Some (CCommit n)) s)) \/
      In (v_mark x) (blob_marks blobs)) /\
    (same_version_id (final (print_fixups (Some br) br (Some (CCommit n)) s))
       (delta_fetch (final (print_fixups (Some br) br (Some (CCommit n)) s)) br
          (cs_versions cs)) = false
     \/ (length (delta_fetch (final (print_fixups (Some br) br (Some (CCommit n)) s)) br
                   (cs_versions cs)) <= 1)%nat ->
     forall i,
       In i (delta_fetch (final (print_fixups (Some br) br (Some (CCommit n)) s)) br
               (cs_versions cs)) ->
       exists x, db_versions s' !! i = Some x /\ v_mark x <> SIZE_MAX /\
                 In (v_mark x) (blob_marks blobs)) /\
    (blobs_match s ->
     blobs_match s' /\
     forall i x, db_versions s' !! i = Some x -> v_mark x <> SIZE_MAX ->
                 In (v_mark x) (blob_marks (stdout s'))).
Proof.
  intros Hcs Hv0 Hv Hbr H.
  destruct (print_commit_Ret _ _ _ H)
    as (cs' & v0' & rest & v' & br' & s1 & Hcs' & Hv0' & Hv' & Hbr' & Hfix & Hp).
  rewrite Hcs in Hcs'. injection Hcs' as <-.
  rewrite Hv0' in Hv0. injection Hv0 as ->.
  rewrite Hv in Hv'. injection Hv' as <-.
  rewrite Hbr in Hbr'. injection Hbr' as <-.
  rewrite Hfix. cbn [final]. intros Hnoop.
  apply print_commit_proper_Ret in Hp. rewrite Hnoop in Hp.
  destruct Hp as (s2 & b & Hgrab & Hb & ->).
  pose proof (hoare_Ret _ _ _ _ _ _ _ (fetch_frame_grab_versions _ _)
                (fetch_frame_refl _) Hgrab) as (_ & _ & Hcs2 & Hctr).
  pose proof (hoare_Ret _ _ _ _ _ _ _ (marks_from_grab_versions _ _ _)
                (marks_from_refl _) Hgrab) as (blobs & Hblobs & Hfrom).
  cbn [stdout db_versions with_stderr] in Hblobs, Hfrom.
  pose proof (hoare_Ret _ _ _ _ _ _ _ (changesets_print_fixups _ _ _ _)
                (eq_refl : changesets_are (db_changesets s) s) Hfix) as Hcs1.
  unfold changesets_are in Hcs1. simpl in Hcs2, Hctr.
  assert (Hmarks : forall i x,
             db_versions s2 !! i = Some x ->
             v_mark x = SIZE_MAX \/ has_mark i (v_mark x) s1 \/
             In (v_mark x) (blob_marks blobs)).
  { intros i x Hx. destruct (Hfrom i x Hx) as [?|[Hold|?]]; auto.
    right. left. unfold has_mark.
    destruct (db_versions s1 !! i) as [x0|]; [|discriminate].
    injection Hold as Hold. eauto. }
  exists s2, blobs, (set_tag_last (Some (CCommit n)) b), (mark_counter s2 + 1).
  split; [exact Hgrab|]. split; [exact Hblobs|]. split; [reflexivity|].
  split; [unfold committed; simpl; rewrite list_lookup_alter_eq, Hb; reflexivity|].
  split; [reflexivity|]. split; [lia|].
  split; [unfold committed; simpl;
          rewrite list_lookup_alter_eq, Hcs2, Hcs1, Hcs; reflexivity|].
  split; [unfold committed; simpl; rewrite Hblobs, <- !app_assoc; reflexivity|].
  split; [apply render_commit_header|].
  split; [reflexivity|].
  split; [intros i x f; apply render_commit_line|].
  split; [exact Hmarks|].
  split.
  - intros Hc i Hi.
    destruct (grab_versions_marks _ _ _ Hgrab Hc i Hi) as (x & Hx & Hm).
    exists x. split; [exact Hx|]. split; [exact Hm|].
    destruct (Hmarks i x Hx) as [?|[(x0 & Hx0 & Hold)|?]]; [contradiction| |assumption].
    exfalso. apply Hm. rewrite <- Hold.
    unfold delta_fetch in Hi. apply filter_In in Hi as [_ Hi].
    unfold needs_fetch in Hi. rewrite Hx0 in Hi.
    apply andb_true_iff in Hi as [_ Hi]. apply andb_true_iff in Hi as [_ Hi].
    apply Z.eqb_eq, Hi.
  - intros Hbm.
    assert (Hbm' : blobs_match (committed n cs v br b (mark_counter s2 + 1) s2)).
    { assert (Hbm2 : blobs_match s2).
      { refine (hoare_Ret _ _ _ _ _ _ _ (blobs_match_grab_versions _) _ Hgrab).
        exact (hoare_Ret _ _ _ _ _ _ _ (blobs_match_print_fixups _ _ _) Hbm Hfix). }
      unfold blobs_match, version_marks, committed in *. state_norm.
      rewrite !blob_marks_app, blob_marks_commit_lines. simpl.
      rewrite !app_nil_r. exact Hbm2. }
    split; [exact Hbm'|].
    intros i x Hx Hm. exact (blobs_match_In _ _ _ Hbm' Hx Hm).
Qed.

Lemma print_commit_record_witness :
  exists s2 blobs b m,
    grab_versions (delta_fetch CommitScenario.trunk_flushed 0%nat [0; 1]%nat)
      (with_stderr (stderr CommitScenario.trunk_flushed ++ [ECommit 10])
         CommitScenario.trunk_flushed)
    = Ret tt s2 /\
    stdout s2 = stdout CommitScenario.trunk_flushed ++ blobs /\
    db_versions CommitScenario.trunk_committed = db_versions s2 /\
    db_tags CommitScenario.trunk_committed !! 0%nat = Some b /\
    m = mark_counter CommitScenario.trunk_committed /\
    mark_counter CommitScenario.trunk_flushed < m /\
    cs_mark <$> db_changesets CommitScenario.trunk_committed !! 0%nat = Some m /\
    stdout CommitScenario.trunk_committed
    = stdout CommitScenario.trunk_flushed ++ blobs
        ++ [OCommit true (ref_name b); OMark m; OCommitter "u" 10; OData "log"]
        ++ commit_lines CommitScenario.trunk_committed [0; 1]%nat /\
    render_all [OCommit true (ref_name b); OMark m; OCommitter "u" 10; OData "log"]
    = "commit refs/heads/"
        +:+ (if String.eqb (t_tag b) "" then "cvs_master" else t_tag b) +:+ nl
        +:+ "mark :" +:+ fmt_u m +:+ nl
        +:+ "committer " +:+ "u" +:+ " <" +:+ "u" +:+ "> "
        +:+ fmt_d 10 +:+ " +0000" +:+ nl
        +:+ "data " +:+ fmt_u (Z.of_nat (String.length "log")) +:+ nl
        +:+ "log" +:+ nl /\
    commit_lines CommitScenario.trunk_committed [0; 1]%nat
    = flat_map (commit_line CommitScenario.trunk_committed) [0; 1]%nat /\
    (forall i x f,
      db_versions CommitScenario.trunk_committed !! i = Some x ->
      db_files CommitScenario.trunk_committed !! v_file x = Some f ->
      render_all (commit_line CommitScenario.trunk_committed i)
      = if v_used x then
          if v_dead x then "D " +:+ f_path f +:+ nl
          else "M " +:+ (if v_exec x then "755" else "644") +:+ " :"
                 +:+ fmt_u (v_mark x) +:+ " " +:+ f_path f +:+ nl
        else "") /\
    (forall i x,
      db_versions CommitScenario.trunk_committed !! i = Some x ->
      v_mark x = SIZE_MAX \/
      has_mark i (v_mark x) CommitScenario.trunk_flushed \/
      In (v_mark x) (blob_marks blobs)) /\
    (same_version_id CommitScenario.trunk_flushed
       (delta_fetch CommitScenario.trunk_flushed 0%nat [0; 1]%nat) = false
     \/ (length (delta_fetch CommitScenario.trunk_flushed 0%nat [0; 1]%nat) <= 1)%nat ->
     forall i,
       In i (delta_fetch CommitScenario.trunk_flushed 0%nat [0; 1]%nat) ->
       exists x, db_versions CommitScenario.trunk_committed !! i = Some x /\
                 v_mark x <> SIZE_MAX /\ In (v_mark x) (blob_marks blobs)) /\
    (blobs_match CommitScenario.trunk_created ->
     blobs_match CommitScenario.trunk_committed /\
     forall i x, db_versions CommitScenario.trunk_committed !! i = Some x ->
                 v_mark x <> SIZE_MAX ->
                 In (v_mark x) (blob_marks (stdout CommitScenario.trunk_committed))).
Proof.
  apply (print_commit_record 0%nat CommitScenario.trunk_created
           CommitScenario.trunk_committed (Scenario.commit 10 [0; 1]%nat) 0%nat
           (mkVersion 0 "1.1" None (Some 0%nat) "u" "log" 10 false false true SIZE_MAX)
           0%nat).
  - vm_compute. reflexivity.
  - vm_compute. reflexivity.
  - vm_compute. reflexivity.
  - vm_compute. reflexivity.
  - vm_compute. reflexivity.
  - vm_compute. reflexivity.
Defined.

(** The versions requested may be left without a mark: both versions of
    the commit are requested, with the same version string, the server
    sends neither, and [print_commit] returns with the sentinel on both
    lines. *)
Lemma print_commit_unmarked_example :
  exists s',
    print_commit 0 CommitScenario.same_id_created = Ret tt s' /\
    delta_fetch CommitScenario.same_id_created 0%nat [0; 1]%nat = [0; 1]%nat /\
    same_version_id CommitScenario.same_id_created [0; 1]%nat = true /\
    stdout s' = stdout CommitScenario.same_id_created
                  ++ [OCommit true "cvs_master"; OMark 1; OCommitter "u" 10;
                      OData "log"; OModify false SIZE_MAX "a";
                      OModify false SIZE_MAX "b"] /\
    render_all [OModify false SIZE_MAX "a"] = "M 644 :18446744073709551615 a" +:+ nl.
Proof.
  eexists. split; [vm_compute; reflexivity|].
  split; [vm_compute; reflexivity|]. split; [vm_compute; reflexivity|].
  split; vm_compute; reflexivity.
Qed.

(** C6, counterexample: branch [b] has a fix-up pending when its first
    commit comes, and that commit is a no-op: its only version is the dead
    revision of a file the branch does not have.  [print_commit] writes
    the fix-up commit all the same, takes mark 5 from the counter, and gives
    the changeset that mark, not the mark 4 that the branch's last changeset
    has at the call. *)
Lemma print_commit_noop_counterexample :
  exists s' b,
    is_noop CommitScenario.branch_created 1 [2%nat] = true /\
    print_commit 2 CommitScenario.branch_created = Ret tt s' /\
    stdout s' = stdout CommitScenario.branch_created
                  ++ [OCommit true "b"; OMark 5; OCommitter "crap" 30; ODataLen 65;
                      OText ("Fix-up commit generated by crap-clone.  (~1 +0 -0 =0)"
                               +:+ nl +:+ "a 1.2->1.1" +:+ nl);
                      OModify false 1 "a"] /\
    mark_counter CommitScenario.branch_created = 4 /\ mark_counter s' = 5 /\
    db_tags CommitScenario.branch_created !! 1%nat = Some b /\
    t_last b = Some (CTag 1) /\
    cs_mark (t_changeset b) = 4 /\
    cs_mark <$> db_changesets s' !! 2%nat = Some 5.
Proof.
  eexists _, _. split; [vm_compute; reflexivity|].
  split; [vm_compute; reflexivity|].
  split; [vm_compute; reflexivity|].
  split; [vm_compute; reflexivity|]. split; [vm_compute; reflexivity|].
  split; [vm_compute; reflexivity|]. split; [vm_compute; reflexivity|].
  split; vm_compute; reflexivity.
Qed.

(** C6, amended: [print_commit] first flushes the fix-ups of the branch
    that are due, which may write a fix-up commit, fetch versions and move
    the tips of the branch.  If after that every used version's live value
    equals the branch's tip for its file, the changeset is a no-op:
    [print_commit] emits no further output record and issues no further
    fetch, the changeset's mark is set to the mark that the branch's last
    changeset then has, the branch's last pointer is updated to this
    changeset, and no other state is modified. *)
Theorem print_commit_noop n s s' cs v0 v br :
  db_changesets s !! n = Some cs ->
  head (cs_versions cs) = Some v0 ->
  db_versions s !! v0 = Some v ->
  v_branch v = Some br ->
  print_commit n s = Ret tt s' ->
  is_noop (final (print_fixups (Some br) br (Some (CCommit n)) s)) br (cs_versions cs)
  = true ->
  exists b l lc,
    db_tags (final (print_fixups (Some br) br (Some (CCommit n)) s)) !! br = Some b /\
    t_last b = Some l /\
    changeset_at (final (print_fixups (Some br) br (Some (CCommit n)) s)) l = Some lc /\
    s' = with_tags (alter (set_tag_last (Some (CCommit n))) br)
           (with_changesets (alter (set_changeset_mark (cs_mark lc)) n)
              (final (print_fixups (Some br) br (Some (CCommit n)) s))) /\
    stdout s' = stdout (final (print_fixups (Some br) br (Some (CCommit n)) s)) /\
    s_sent s' = s_sent (final (print_fixups (Some br) br (Some (CCommit n)) s)).
Proof.
  intros Hcs Hv0 Hv Hbr H.
  destruct (print_commit_Ret _ _ _ H)
    as (cs' & v0' & rest & v' & br' & s1 & Hcs' & Hv0' & Hv' & Hbr' & Hfix & Hp).
  rewrite Hcs in Hcs'. injection Hcs' as <-.
  rewrite Hv0' in Hv0. injection Hv0 as ->.
  rewrite Hv in Hv'. injection Hv' as <-.
  rewrite Hbr in Hbr'. injection Hbr' as <-.
  rewrite Hfix. cbn [final]. intros Hnoop.
  apply print_commit_proper_Ret in Hp. rewrite Hnoop in Hp.
  destruct Hp as (b & l & lc & Hb & Hl & Hlc & ->).
  exists b, l, lc. repeat split; assumption.
Qed.

Lemma print_commit_noop_witness :
  exists b l lc,
    db_tags CommitScenario.branch_flushed !! 1%nat = Some b /\
    t_last b = Some l /\
    changeset_at CommitScenario.branch_flushed l = Some lc /\
    CommitScenario.branch_committed
    = with_tags (alter (set_tag_last (Some (CCommit 2))) 1%nat)
        (with_changesets (alter (set_changeset_mark (cs_mark lc)) 2%nat)
           CommitScenario.branch_flushed) /\
    stdout CommitScenario.branch_committed = stdout CommitScenario.branch_flushed /\
    s_sent CommitScenario.branch_committed = s_sent CommitScenario.branch_flushed.
Proof.
  apply (print_commit_noop 2%nat CommitScenario.branch_created
           CommitScenario.branch_committed (Scenario.commit 50 [2%nat]) 2%nat
           (mkVersion 1 "1.1.2.1" None (Some 1%nat) "u" "log" 50 true false true SIZE_MAX)
           1%nat).
  - vm_compute. reflexivity.
  - vm_compute. reflexivity.
  - vm_compute. reflexivity.
  - vm_compute. reflexivity.
  - vm_compute. reflexivity.
  - vm_compute. reflexivity.
Defined.

(* ===================================================================== *)
(** * Marks *)

(** [increasing lo l hi]: the list [l] is strictly increasing, above [lo]
    and not above [hi]. *)
Fixpoint increasing (lo : Z) (l : list Z) (hi : Z) : Prop :=
  match l with
  | [] => lo <= hi
  | m :: r => lo < m /\ increasing m r hi
  end.

Lemma increasing_mono lo l hi hi' :
  increasing lo l hi -> hi <= hi' -> increasing lo l hi'.
Proof.
  revert lo. induction l as [|m r IH]; simpl; intros lo H Hle; [lia|].
  destruct H. split; [assumption|]. apply IH; assumption.
Qed.

Lemma increasing_snoc lo l hi m c :
  increasing lo l hi -> hi < m -> m <= c -> increasing lo (l ++ [m]) c.
Proof.
  revert lo. induction l as [|x r IH]; simpl; intros lo H Hlt Hle.
  - split; lia.
  - destruct H. split; [assumption|]. apply IH; assumption.
Qed.

Lemma increasing_bounds lo l hi :
  increasing lo l hi -> Forall (fun m => lo < m <= hi) l.
Proof.
  revert lo. induction l as [|x r IH]; simpl; intros lo H; [constructor|].
  destruct H as [Hx Hr]. pose proof (IH _ Hr) as Hall.
  constructor.
  - split; [assumption|].
    destruct r as [|y r']; simpl in Hr; [assumption|].
    apply Forall_inv in Hall. lia.
  - eapply Forall_impl; [exact Hall|]. simpl. intros; lia.
Qed.

Lemma increasing_sorted lo l hi :
  increasing lo l hi -> StronglySorted Z.lt l.
Proof.
  revert lo. induction l as [|x r IH]; simpl; intros lo H; [constructor|].
  destruct H as [Hx Hr]. constructor; [eapply IH, Hr|].
  eapply Forall_impl; [exact (increasing_bounds _ _ _ Hr)|]. simpl. intros; lia.
Qed.

Lemma StronglySorted_lt_NoDup l : StronglySorted Z.lt l -> NoDup l.
Proof.
  induction 1 as [|x r Hr IH Hx]; constructor; [|assumption].
  intros Hin. rewrite Forall_forall in Hx. specialize (Hx x Hin). lia.
Qed.

(** The marks of the records written so far. *)
Definition emitted_marks (s : state) : list Z := marks_of (stdout s).

(** Between two records: the marks written are increasing, positive, and
    none is above the counter. *)
Definition marks_in_order (s : state) : Prop :=
  increasing 0 (emitted_marks s) (mark_counter s).

(** After [++mark_counter] has given [m], until [mark :m] is written. *)
Definition mark_pending (m : Z) (s : state) : Prop :=
  increasing 0 (emitted_marks s) (m - 1) /\ m <= mark_counter s.

Lemma marks_of_snoc l o : marks_of (l ++ [o]) = marks_of l ++ marks_of_item o.
Proof.
  rewrite marks_of_app. unfold marks_of at 2. cbn [flat_map].
  rewrite app_nil_r. reflexivity.
Qed.

Lemma marks_in_order_out o s :
  marks_of_item o = [] ->
  marks_in_order s -> marks_in_order (with_stdout (stdout s ++ [o]) s).
Proof.
  unfold marks_in_order, emitted_marks. simpl. intros Ho H.
  rewrite marks_of_snoc, Ho, app_nil_r. exact H.
Qed.

Lemma mark_pending_out m o s :
  marks_of_item o = [] ->
  mark_pending m s -> mark_pending m (with_stdout (stdout s ++ [o]) s).
Proof.
  unfold mark_pending, emitted_marks. simpl. intros Ho [H Hm].
  rewrite marks_of_snoc, Ho, app_nil_r. auto.
Qed.

Lemma marks_in_order_alloc :
  hoare marks_in_order next_mark mark_pending any_abort.
Proof.
  intros s H. unfold next_mark. destruct (_ <? _); [exact Logic.I|].
  unfold mark_pending, emitted_marks. simpl.
  replace (mark_counter s + 1 - 1) with (mark_counter s) by lia.
  split; [exact H | lia].
Qed.

Lemma mark_pending_emit m o s :
  marks_of_item o = [m] ->
  mark_pending m s -> marks_in_order (with_stdout (stdout s ++ [o]) s).
Proof.
  unfold mark_pending, marks_in_order, emitted_marks. simpl. intros Ho [H Hm].
  rewrite marks_of_snoc, Ho.
  eapply increasing_snoc; [exact H | lia | exact Hm].
Qed.

(** A blob record takes the next mark. *)
Lemma marks_in_order_read_blob version path vers len :
  keeps marks_in_order any_abort (read_blob version path vers len).
Proof.
  intros s H. unfold read_blob, bind, the_version.
  destruct (db_versions s !! version) as [v|]; [|exact Logic.I].
  destruct (v_mark v =? SIZE_MAX).
  - pose proof (marks_in_order_alloc s H) as Ha.
    destruct (next_mark s) as [m s1|]; [|exact Logic.I].
    unfold update_version, printf, modify.
    assert (H2 : marks_in_order
                   (with_stdout
                      (stdout (with_versions (alter (set_version_mark m) version) s1)
                         ++ [OBlob m len])
                      (with_versions (alter (set_version_mark m) version) s1))).
    { apply (mark_pending_emit m); [reflexivity|]. exact Ha. }
    unfold cvs_read_block. cbn beta iota.
    match goal with
    | |- context [if ?c then Abort _ _ else _] => destruct c; [exact Logic.I|]
    end.
    unfold marks_in_order, emitted_marks in *. simpl in *.
    rewrite !marks_of_snoc. simpl. rewrite !app_nil_r.
    rewrite marks_of_snoc in H2. exact H2.
  - unfold eprintf, modify, cvs_read_block. simpl.
    match goal with
    | |- context [if ?c then Abort _ _ else _] => destruct c; [exact Logic.I|]
    end.
    exact H.
Qed.

Lemma marks_in_order_grab_versions fetch :
  keeps marks_in_order any_abort (grab_versions fetch).
Proof.
  assert (Hl : keeps marks_in_order any_abort next_line).
  { apply keeps_next_line_input; auto. }
  apply keeps_grab_versions; auto using marks_in_order_read_blob.
  apply keeps_read_versions_any; auto using marks_in_order_read_blob.
Qed.

Lemma may_emit_all schedule : Forall (may_emit (fun _ => True)) schedule.
Proof. apply Forall_forall. intros [n|t] _; exact Logic.I. Qed.

Section MarksInOrder.

Local Ltac emitter lemma :=
  apply (lemma marks_in_order mark_pending any_abort (fun _ => True));
  auto using marks_in_order_grab_versions, marks_in_order_alloc,
    marks_in_order_out, mark_pending_out, may_emit_all;
  intros m s Hs; apply (mark_pending_emit m (OMark m)); [reflexivity | exact Hs].

Lemma marks_in_order_emit_changesets schedule :
  keeps marks_in_order any_abort (for_each schedule emit_changeset).
Proof. emitter keeps_emit_changesets. Qed.

Lemma marks_in_order_emit_all schedule :
  keeps marks_in_order any_abort (emit_all schedule).
Proof. emitter keeps_emit_all. Qed.

End MarksInOrder.

(** The mark of commit [n]. *)
Definition commit_mark (n : nat) (m : Z) (s : state) : Prop :=
  cs_mark <$> db_changesets s !! n = Some m.

Lemma commit_mark_fetch_tolerant n m : fetch_tolerant (commit_mark n m).
Proof. split; intros; assumption. Qed.

Lemma commit_mark_emit_tolerant n m :
  emit_tolerant (commit_mark n m) (fun k => k <> n).
Proof.
  split; [intros; assumption|].
  intros k m' s Hk H. unfold commit_mark in *. simpl.
  rewrite list_lookup_alter_ne by exact Hk. exact H.
Qed.

Lemma may_emit_others n schedule :
  ~ In (CCommit n) schedule -> Forall (may_emit (fun k => k <> n)) schedule.
Proof.
  intros Hn. apply Forall_forall. intros [k|t] Hin; simpl; [|exact Logic.I].
  intros ->. apply Hn. apply list_elem_of_In. exact Hin.
Qed.

Section Stable.
Context (schedule : list cref).

Lemma has_mark_emit i m :
  m <> SIZE_MAX ->
  keeps (has_mark i m) any_abort (for_each schedule emit_changeset) /\
  keeps (has_mark i m) any_abort (emit_all schedule).
Proof.
  intros Hm.
  split;
    [ apply (tolerant_emit_changesets _ (has_mark_fetch_tolerant i m))
        with (allowed := fun _ => True)
    | apply (tolerant_emit_all _ (has_mark_fetch_tolerant i m))
        with (allowed := fun _ => True) ];
    auto using has_mark_exec, has_mark_read_blob, has_mark_emit_tolerant,
      may_emit_all.
Qed.

Lemma commit_mark_emit n m :
  ~ In (CCommit n) schedule ->
  keeps (commit_mark n m) any_abort (for_each schedule emit_changeset) /\
  keeps (commit_mark n m) any_abort (emit_all schedule).
Proof.
  intros Hn.
  assert (Hb : forall version path vers len,
             keeps (commit_mark n m) any_abort (read_blob version path vers len)).
  { apply keeps_read_blob_tolerant; auto using commit_mark_fetch_tolerant. }
  split;
    [ apply (tolerant_emit_changesets _ (commit_mark_fetch_tolerant n m))
        with (allowed := fun k => k <> n)
    | apply (tolerant_emit_all _ (commit_mark_fetch_tolerant n m))
        with (allowed := fun k => k <> n) ];
    auto using commit_mark_emit_tolerant, may_emit_others.
Qed.
End Stable.

Module MarkScenario.
Import Scenario.

(** Branch [b] is placed on the third commit of the trunk, where [a] is at
    1.2 and [c] at 1.1, and names [a] at 1.1 and [c] at 1.2: two fix-ups
    are pending, of times 10 and 40.  The commit on [b] is of time 30. *)
Definition two_flushes : state :=
  start [mkFile "a" (heap 0); mkFile "c" (heap 1)]
    [ver 0 "1.1" 0 10; ver 0 "1.2" 0 12; ver 1 "1.1" 0 20; ver 1 "1.2" 0 40;
     ver 0 "1.1.2.1" 1 30]
    [branch "" 2 None [] 0; branch "b" 2 (Some (CCommit 2)) [0; 3]%nat 25]
    [commit 10 [0%nat]; commit 12 [1%nat]; commit 20 [2%nat]; commit 40 [3%nat];
     commit 30 [4%nat]]
    (created "a" "1.1" "x" +:+ ok +:+ created "a" "1.2" "y" +:+ ok
     +:+ created "c" "1.1" "z" +:+ ok +:+ created "a" "1.1.2.1" "w" +:+ ok
     +:+ created "c" "1.2" "v" +:+ ok).

(** The trunk up to the branch point, the branch, and its commit. *)
Definition until_branch_commit : list cref :=
  [CTag 0; CCommit 0; CCommit 1; CCommit 2; CTag 1; CCommit 4]%nat.

Definition branch_committed : state :=
  final ((initialise ;;; for_each until_branch_commit emit_changeset) two_flushes).

(** The last commit of the trunk has been emitted after that. *)
Definition trunk_committed : state :=
  final (for_each [CCommit 3] emit_changeset branch_committed).
End MarkScenario.

(** C7, counterexample: the first fix-up of branch [b] is flushed before the
    commit on [b], and the changeset of [b] gets mark 7 from the counter.
    The second is flushed at the end of the run, and the same changeset
    gets mark 12. *)
Lemma tag_mark_reassigned_counterexample :
  exists s1 s2 t1 t2,
    (initialise ;;; for_each MarkScenario.until_branch_commit emit_changeset)
      MarkScenario.two_flushes = Ret tt s1 /\
    emitted_marks s1 = [1; 2; 3; 4; 5; 6; 7; 8; 9] /\
    db_tags s1 !! 1%nat = Some t1 /\
    cs_mark (t_changeset t1) = 7 /\
    (for_each [CCommit 3] emit_changeset ;;; final_fixups) s1 = Ret tt s2 /\
    emit_all (MarkScenario.until_branch_commit ++ [CCommit 3]) MarkScenario.two_flushes
    = Ret tt (with_stdout (stdout s2 ++ [OProgressDone]) s2) /\
    db_tags s2 !! 1%nat = Some t2 /\
    cs_mark (t_changeset t2) = 12.
Proof.
  eexists _, _, _, _.
  split; [vm_compute; reflexivity|]. split; [vm_compute; reflexivity|].
  split; [vm_compute; reflexivity|]. split; [vm_compute; reflexivity|].
  split; [vm_compute; reflexivity|]. split; [vm_compute; reflexivity|].
  split; vm_compute; reflexivity.
Qed.

(** C7, amended: the marks appearing in emitted blob and commit records
    are drawn from a single counter and form a strictly increasing
    sequence of positive integers with no duplicates; once a version has
    been assigned a mark its mark never changes for the rest of the run,
    and the mark of a commit changeset is not changed by the emission of
    the other changesets.  The mark of the changeset of a tag is not
    stable: [print_tag] takes it from the parent changeset, and every
    fix-up commit that [print_fixups] writes for the tag or branch sets it
    anew, to the mark of that commit, fresh from the counter; a call of
    [print_fixups] that writes no commit leaves it alone.

    The run is [emit_all], or any stretch of its loop, from a state
    between two records. *)
Theorem marks_increasing_and_stable schedule s s' :
  marks_in_order s ->
  emit_all schedule s = Ret tt s' \/ for_each schedule emit_changeset s = Ret tt s' ->
  (exists new, emitted_marks s' = emitted_marks s ++ new) /\
  StronglySorted Z.lt (emitted_marks s') /\
  NoDup (emitted_marks s') /\
  Forall (fun m => 0 < m <= mark_counter s') (emitted_marks s') /\
  (forall i m, m <> SIZE_MAX -> has_mark i m s -> has_mark i m s') /\
  (forall n m, ~ In (CCommit n) schedule -> commit_mark n m s -> commit_mark n m s') /\
  (forall tg s0 s1 t,
      db_tags s0 !! tg = Some t ->
      print_tag tg s0 = Ret tt s1 ->
      exists m t1,
        parent_mark s0 t = Some m /\
        db_tags s1 !! tg = Some t1 /\
        ((cs_mark (t_changeset t1) = m /\ mark_counter s1 = mark_counter s0) \/
         (exists pre m1 post,
             stdout s1 = pre ++ [OCommit false (ref_name t); OMark m1;
                                 OCommitter "crap" (cs_time (t_changeset t))] ++ post /\
             cs_mark (t_changeset t1) = m1 /\
             mark_counter s0 < m1 /\ mark_counter s1 = m1))) /\
  (forall base tg cs s0 s1 t,
      db_tags s0 !! tg = Some t ->
      print_fixups base tg cs s0 = Ret tt s1 ->
      exists t1,
        db_tags s1 !! tg = Some t1 /\
        ((stdout s1 = stdout s0 /\ t_changeset t1 = t_changeset t /\
          mark_counter s1 = mark_counter s0) \/
         (exists blobs m1 time post,
             stdout s1 = stdout s0 ++ blobs
                           ++ [OCommit (is_branch t) (ref_name t); OMark m1;
                               OCommitter "crap" time] ++ post /\
             cs_mark (t_changeset t1) = m1 /\
             mark_counter s0 < m1 /\ mark_counter s1 = m1))).
Proof.
  intros Hs Hrun.
  assert (Hinv : forall I : state -> Prop,
             keeps I any_abort (for_each schedule emit_changeset) ->
             keeps I any_abort (emit_all schedule) -> I s -> I s').
  { intros I H1 H2 HI. destruct Hrun as [Hrun|Hrun].
    - exact (hoare_Ret _ _ _ _ _ _ _ H2 HI Hrun).
    - exact (hoare_Ret _ _ _ _ _ _ _ H1 HI Hrun). }
  assert (Hord : marks_in_order s').
  { apply Hinv; auto using marks_in_order_emit_changesets, marks_in_order_emit_all. }
  split; [|split; [|split; [|split; [|split; [|split; [|split]]]]]].
  - assert (Hg : grows (stdout s) s').
    { apply Hinv; [| |apply grows_refl].
      - apply (tolerant_emit_changesets _ (grows_fetch_tolerant _))
          with (allowed := fun _ => True);
          auto using grows_emit_tolerant, may_emit_all.
        apply keeps_read_blob_tolerant; auto using grows_fetch_tolerant.
      - apply (tolerant_emit_all _ (grows_fetch_tolerant _))
          with (allowed := fun _ => True);
          auto using grows_emit_tolerant, may_emit_all.
        apply keeps_read_blob_tolerant; auto using grows_fetch_tolerant. }
    destruct Hg as [new Hnew]. exists (marks_of new).
    unfold emitted_marks. rewrite Hnew. apply marks_of_app.
  - eapply increasing_sorted, Hord.
  - eapply StronglySorted_lt_NoDup, increasing_sorted, Hord.
  - apply increasing_bounds, Hord.
  - intros i m Hm. destruct (has_mark_emit schedule i m Hm). apply Hinv; assumption.
  - intros n m Hn. destruct (commit_mark_emit schedule n m Hn). apply Hinv; assumption.
  - intros tg s0 s1 t Ht H.
    destruct (print_tag_Ret _ _ _ _ Ht H)
      as (m & rest & t1 & Hm & Hout & Ht1 & _ &
          [(_ & _ & Hmark & Hctr)|(Hb & _ & blobs & m1 & post & -> & Hmark & Hlt & Hctr)]).
    + exists m, t1. auto.
    + exists m, t1. split; [exact Hm|]. split; [exact Ht1|]. right.
      exists (stdout s0 ++ [OReset false (ref_name t)]
                ++ (if m =? 0 then [] else [OFrom m]) ++ blobs), m1, post.
      split; [|auto].
      rewrite Hout, Hb, <- !app_assoc. reflexivity.
  - intros base tg cs s0 s1 t Ht H.
    destruct (print_fixups_flush _ _ _ _ _ _ Ht H)
      as (fixups & s2 & Hl &
          [[_ ->]|(_ & blobs & m1 & time & post & _ & Hout & Hlt & Hctr & t1 & Ht1 & Hmark & _)]).
    + apply fixup_list_Ret in Hl as (t0 & k & Ht0 & ->).
      rewrite Ht in Ht0. injection Ht0 as <-.
      exists (set_fixups (t_fixups t) k t).
      split; [simpl; rewrite list_lookup_alter_eq, Ht; reflexivity|].
      left. auto.
    + exists t1. split; [exact Ht1|]. right.
      exists blobs, m1, time, post. auto.
Qed.

Lemma marks_increasing_and_stable_witness :
  (exists new,
      emitted_marks MarkScenario.trunk_committed
      = emitted_marks MarkScenario.branch_committed ++ new) /\
  StronglySorted Z.lt (emitted_marks MarkScenario.trunk_committed) /\
  NoDup (emitted_marks MarkScenario.trunk_committed) /\
  Forall (fun m => 0 < m <= mark_counter MarkScenario.trunk_committed)
    (emitted_marks MarkScenario.trunk_committed) /\
  (forall i m,
      m <> SIZE_MAX ->
      has_mark i m MarkScenario.branch_committed ->
      has_mark i m MarkScenario.trunk_committed) /\
  (forall n m,
      ~ In (CCommit n) [CCommit 3] ->
      commit_mark n m MarkScenario.branch_committed ->
      commit_mark n m MarkScenario.trunk_committed) /\
  (forall tg s0 s1 t,
      db_tags s0 !! tg = Some t ->
      print_tag tg s0 = Ret tt s1 ->
      exists m t1,
        parent_mark s0 t = Some m /\
        db_tags s1 !! tg = Some t1 /\
        ((cs_mark (t_changeset t1) = m /\ mark_counter s1 = mark_counter s0) \/
         (exists pre m1 post,
             stdout s1 = pre ++ [OCommit false (ref_name t); OMark m1;
                                 OCommitter "crap" (cs_time (t_changeset t))] ++ post /\
             cs_mark (t_changeset t1) = m1 /\
             mark_counter s0 < m1 /\ mark_counter s1 = m1))) /\
  (forall base tg cs s0 s1 t,
      db_tags s0 !! tg = Some t ->
      print_fixups base tg cs s0 = Ret tt s1 ->
      exists t1,
        db_tags s1 !! tg = Some t1 /\
        ((stdout s1 = stdout s0 /\ t_changeset t1 = t_changeset t /\
          mark_counter s1 = mark_counter s0) \/
         (exists blobs m1 time post,
             stdout s1 = stdout s0 ++ blobs
                           ++ [OCommit (is_branch t) (ref_name t); OMark m1;
                               OCommitter "crap" time] ++ post /\
             cs_mark (t_changeset t1) = m1 /\
             mark_counter s0 < m1 /\ mark_counter s1 = m1))).
Proof.
  apply (marks_increasing_and_stable [CCommit 3] MarkScenario.branch_committed
           MarkScenario.trunk_committed).
  - vm_compute. repeat split; discriminate.
  - right. vm_compute. reflexivity.
Defined.

(* ===================================================================== *)
(** * Pending fix-ups and the commits of the branch *)

Module RedundantScenario.
Import Scenario.

(** File [f] was added on branch [b]: its 1.1 on the trunk is dead, and so
    is its 1.1.2.1 on [b], both of time 10.  [f] was added to the trunk
    later, as 1.2.  Branch [b] is placed on the last commit of the trunk,
    where [f] is at 1.2, and names [a] at 1.2 and [f] at 1.1: the deletion
    of [f] is pending, with time 10. *)
Definition added_on_branch : state :=
  start [mkFile "a" (heap 0); mkFile "f" (heap 1)]
    [ver 0 "1.1" 0 5; dead_ver 1 "1.1" 0 10; ver 1 "1.2" 0 20; ver 0 "1.2" 0 30;
     dead_ver 1 "1.1.2.1" 1 10]
    [branch "" 2 None [] 0; branch "b" 2 (Some (CCommit 3)) [3; 1]%nat 30]
    [commit 5 [0%nat]; commit 10 [1%nat]; commit 20 [2%nat]; commit 30 [3%nat];
     commit 10 [4%nat]]
    (created "a" "1.1" "x" +:+ ok +:+ created "f" "1.2" "y" +:+ ok
     +:+ created "a" "1.2" "z" +:+ ok).

Definition schedule : list cref :=
  [CTag 0; CCommit 0; CCommit 1; CCommit 2; CCommit 3; CTag 1; CCommit 4]%nat.
End RedundantScenario.

(** C10, at its failing input: the deletion of [f] is still pending on
    branch [b] when the commit of [b] comes, its time not being before the
    commit's.  The commit deletes [f] itself ([D f]), and the tip of [f] on
    [b] becomes the dead 1.1.2.1.  At the final flush the pending entry is
    redundant: its target and the live base version are both null.
    [fixup_commit_comment] counts no change for the one entry, and its
    assertion fails. *)
Theorem final_flush_redundant_fixup :
  exists s1 s2 b,
    (initialise ;;; for_each RedundantScenario.schedule emit_changeset)%emit
      RedundantScenario.added_on_branch = Ret tt s1 /\
    db_tags s1 !! 1%nat = Some b /\
    skipn (t_fixups_curr b) (t_fixups b) = [mkFixup 1 None 10] /\
    live s1 (tip s1 1 1) = None /\
    last (stdout s1) = Some (ODelete "f") /\
    final_fixups s1
    = Abort (AssertFailed "added + deleted + modified == fixups_end - fixups") s2 /\
    emit_all RedundantScenario.schedule RedundantScenario.added_on_branch
    = Abort (AssertFailed "added + deleted + modified == fixups_end - fixups") s2.
Proof.
  eexists _, _, _.
  split; [vm_compute; reflexivity|]. split; [vm_compute; reflexivity|].
  split; [vm_compute; reflexivity|]. split; [vm_compute; reflexivity|].
  split; [vm_compute; reflexivity|]. split; vm_compute; reflexivity.
Qed.


(* ===================================================================== *)
(** * Further properties of the emitter *)

(** ** The marks are consecutive *)

(** [1; 2; ...; n]. *)
Definition marks_upto (n : Z) : list Z := map Z.of_nat (seq 1 (Z.to_nat n)).

Lemma marks_upto_succ n : 0 <= n -> marks_upto (n + 1) = marks_upto n ++ [n + 1].
Proof.
  intros Hn. unfold marks_upto.
  replace (Z.to_nat (n + 1)) with (Z.to_nat n + 1)%nat by lia.
  rewrite seq_app, map_app. simpl. f_equal. f_equal. lia.
Qed.

(** Between two records every mark up to the counter has been written,
    in order. *)
Definition marks_consecutive (s : state) : Prop :=
  0 <= mark_counter s /\ emitted_marks s = marks_upto (mark_counter s).

(** After [++mark_counter] has given [m], until [mark :m] is written. *)
Definition mark_due (m : Z) (s : state) : Prop :=
  0 < m /\ mark_counter s = m /\ emitted_marks s = marks_upto (m - 1).

Lemma marks_consecutive_out o s :
  marks_of_item o = [] ->
  marks_consecutive s -> marks_consecutive (with_stdout (stdout s ++ [o]) s).
Proof.
  unfold marks_consecutive, emitted_marks. simpl. intros Ho [H0 H].
  rewrite marks_of_snoc, Ho, app_nil_r. auto.
Qed.

Lemma mark_due_out m o s :
  marks_of_item o = [] ->
  mark_due m s -> mark_due m (with_stdout (stdout s ++ [o]) s).
Proof.
  unfold mark_due, emitted_marks. simpl. intros Ho (H0 & Hc & H).
  rewrite marks_of_snoc, Ho, app_nil_r. auto.
Qed.

Lemma marks_consecutive_alloc :
  hoare marks_consecutive next_mark mark_due any_abort.
Proof.
  intros s [H0 H]. unfold next_mark. destruct (_ <? _); [exact Logic.I|].
  unfold mark_due, emitted_marks. simpl.
  replace (mark_counter s + 1 - 1) with (mark_counter s) by lia.
  repeat split; [lia | exact H].
Qed.

Lemma mark_due_emit m o s :
  marks_of_item o = [m] ->
  mark_due m s -> marks_consecutive (with_stdout (stdout s ++ [o]) s).
Proof.
  unfold mark_due, marks_consecutive, emitted_marks. simpl. intros Ho (H0 & Hc & H).
  rewrite marks_of_snoc, Ho, H, Hc. split; [lia|].
  replace m with (m - 1 + 1) at 2 3 by lia. symmetry. apply marks_upto_succ. lia.
Qed.

Lemma marks_consecutive_read_blob version path vers len :
  keeps marks_consecutive any_abort (read_blob version path vers len).
Proof.
  intros s H. unfold read_blob, bind, the_version.
  destruct (db_versions s !! version) as [v|]; [|exact Logic.I].
  destruct (v_mark v =? SIZE_MAX).
  - pose proof (marks_consecutive_alloc s H) as Ha.
    destruct (next_mark s) as [m s1|]; [|exact Logic.I].
    unfold update_version, printf, modify.
    assert (H2 : marks_consecutive
                   (with_stdout
                      (stdout (with_versions (alter (set_version_mark m) version) s1)
                         ++ [OBlob m len])
                      (with_versions (alter (set_version_mark m) version) s1))).
    { apply (mark_due_emit m); [reflexivity|]. exact Ha. }
    unfold cvs_read_block. cbn beta iota.
    match goal with
    | |- context [if ?c then Abort _ _ else _] => destruct c; [exact Logic.I|]
    end.
    unfold marks_consecutive, emitted_marks in *. simpl in *.
    rewrite !marks_of_snoc. simpl. rewrite !app_nil_r.
    rewrite marks_of_snoc in H2. exact H2.
  - unfold eprintf, modify, cvs_read_block. simpl.
    match goal with
    | |- context [if ?c then Abort _ _ else _] => destruct c; [exact Logic.I|]
    end.
    exact H.
Qed.

Lemma marks_consecutive_grab_versions fetch :
  keeps marks_consecutive any_abort (grab_versions fetch).
Proof.
  assert (Hl : keeps marks_consecutive any_abort next_line).
  { apply keeps_next_line_input; auto. }
  apply keeps_grab_versions; auto using marks_consecutive_read_blob.
  apply keeps_read_versions_any; auto using marks_consecutive_read_blob.
Qed.

Lemma marks_consecutive_emit_all schedule :
  keeps marks_consecutive any_abort (emit_all schedule).
Proof.
  apply (keeps_emit_all marks_consecutive mark_due any_abort (fun _ => True));
    auto using marks_consecutive_grab_versions, marks_consecutive_alloc,
      marks_consecutive_out, mark_due_out, may_emit_all;
    intros m s Hs; apply (mark_due_emit m (OMark m)); [reflexivity | exact Hs].
Qed.

(** X1: a run of the emitter that starts with the counter at 0 and no
    record written, and returns, has written the marks 1, 2, ..., n in
    this order, [n] being the final value of the counter: every value the
    counter takes is the mark of exactly one blob or commit record. *)
Theorem emit_all_marks_consecutive schedule s s' :
  mark_counter s = 0 ->
  stdout s = [] ->
  emit_all schedule s = Ret tt s' ->
  0 <= mark_counter s' /\
  emitted_marks s' = map Z.of_nat (seq 1 (Z.to_nat (mark_counter s'))) /\
  length (emitted_marks s') = Z.to_nat (mark_counter s').
Proof.
  intros Hc Ho Hrun.
  assert (Hs : marks_consecutive s).
  { unfold marks_consecutive, emitted_marks. rewrite Hc, Ho. split; [lia | reflexivity]. }
  pose proof (hoare_Ret _ _ _ _ _ _ _ (marks_consecutive_emit_all schedule) Hs Hrun)
    as [H0 H].
  split; [exact H0|]. split; [exact H|].
  rewrite H. unfold marks_upto. rewrite length_map, length_seq. reflexivity.
Qed.


(** ** One blob for each version fetched, over the run *)

Lemma blobs_match_emit_all schedule :
  keeps blobs_match any_abort (emit_all schedule).
Proof.
  apply (keeps_emit_all blobs_match (fun _ => blobs_match) any_abort (fun _ => True));
    auto using blobs_match_grab_versions, blobs_match_out, may_emit_all.
  - apply keeps_next_mark; auto.
  - intros m s Hs. apply blobs_match_mark, Hs.
Qed.

Lemma version_marks_none s :
  Forall (fun v => v_mark v = SIZE_MAX) (db_versions s) -> version_marks s = [].
Proof.
  unfold version_marks. induction 1 as [|v vs Hv _ IH]; [reflexivity|].
  simpl. rewrite Hv. simpl. exact IH.
Qed.

(** X2: a run of the emitter that starts with no version fetched and
    nothing written, and returns, has written exactly one blob record for
    each version that has a mark at the end, with that mark, and none
    else; no two versions have the same mark. *)
Theorem emit_all_one_blob_per_version schedule s s' :
  Forall (fun v => v_mark v = SIZE_MAX) (db_versions s) ->
  stdout s = [] ->
  mark_counter s = 0 ->
  emit_all schedule s = Ret tt s' ->
  Permutation (blob_marks (stdout s')) (version_marks s') /\
  NoDup (version_marks s').
Proof.
  intros Hv Ho Hc Hrun.
  assert (Hb : blobs_match s).
  { unfold blobs_match. rewrite Ho, version_marks_none by exact Hv. constructor. }
  assert (Hm : marks_in_order s).
  { unfold marks_in_order, emitted_marks. rewrite Ho, Hc. simpl. lia. }
  pose proof (hoare_Ret _ _ _ _ _ _ _ (blobs_match_emit_all schedule) Hb Hrun) as Hb'.
  pose proof (hoare_Ret _ _ _ _ _ _ _ (marks_in_order_emit_all schedule) Hm Hrun) as Hm'.
  cbv beta in Hb', Hm'. split; [exact Hb'|].
  unfold blobs_match in Hb'. rewrite <- Hb'.
  eapply sublist_NoDup; [|apply blob_marks_sublist].
  eapply StronglySorted_lt_NoDup, increasing_sorted, Hm'.
Qed.

(* ===================================================================== *)
(** * Further properties of the fetch driver *)

(** ** Lines of the server's reply ([next_line], server.c) *)

Lemma getline_app s : (getline s).1 +:+ (getline s).2 = s.
Proof.
  induction s as [|c r IH]; [reflexivity|]. simpl.
  destruct (Ascii.eqb c newline); [reflexivity|].
  destruct (getline r) as [l r']. simpl in *.
  change (String c (l +:+ r') = String c r). f_equal. exact IH.
Qed.

(** The line that [getline] returns has at most one newline, its last
    character; without one the stream has ended. *)
Lemma getline_chomp s :
  strchr (chomp (getline s).1) newline = None /\
  ((getline s).1 = chomp (getline s).1 +:+ nl \/
   (getline s).1 = chomp (getline s).1 /\ (getline s).2 = "").
Proof.
  induction s as [|c r IH]; [simpl; auto|]. simpl.
  destruct (Ascii.eqb c newline) eqn:E.
  - apply Ascii.eqb_eq in E as ->. simpl. auto.
  - destruct (getline r) as [l r']. simpl in *.
    destruct IH as [Hn Hl].
    destruct l as [|c' l'].
    + simpl. rewrite !E. simpl. rewrite ?E. split; [reflexivity|].
      destruct Hl as [Hl|[_ ->]]; [discriminate | auto].
    + change (chomp (String c (String c' l'))) with (String c (chomp (String c' l'))).
      remember (chomp (String c' l')) as ch eqn:Ech. clear Ech.
      split; [cbn [strchr]; rewrite E, Hn; reflexivity|].
      destruct Hl as [Hl|[Hl ->]].
      * left. change (String c (String c' l') = String c (ch +:+ nl)).
        f_equal. exact Hl.
      * right. split; [f_equal; exact Hl | reflexivity].
Qed.

Lemma has_nul_chomp l : has_nul l = false -> has_nul (chomp l) = false.
Proof.
  induction l as [|c r IH]; [reflexivity|]. simpl. intros H.
  apply orb_false_iff in H as [Hc Hr].
  destruct r as [|c' r'].
  - destruct (Ascii.eqb c newline); [reflexivity | simpl; rewrite Hc; reflexivity].
  - change (has_nul (String c (chomp (String c' r'))) = false).
    simpl. rewrite Hc. simpl. exact (IH Hr).
Qed.

(** X3: [next_line] reads one line.  When it returns, the line it leaves
    in [conn->line] has neither newline nor NUL, and the unread stream
    was this line, a newline and what is still unread (or this line alone,
    at the end of a stream that does not end in a newline); nothing but
    the stream and the line changes.  It is fatal at the end of the stream
    and on a line with a NUL. *)
Theorem next_line_reads_one_line s :
  match next_line s with
  | Ret _ s' =>
      strchr (s_line s') newline = None /\
      has_nul (s_line s') = false /\
      (s_in s = s_line s' +:+ nl +:+ s_in s' \/
       s_in s = s_line s' /\ s_in s' = "" /\ s_line s' <> "") /\
      s' = with_input (s_in s') (s_line s') s
  | Abort e _ =>
      e = Fatal "Unexpected EOF from server." /\ s_in s = "" \/
      e = Fatal "Got line containing ASCII NUL from server." /\
      has_nul (getline (s_in s)).1 = true
  end.
Proof.
  unfold next_line. destruct (s_in s) as [|c r] eqn:Ein; [left; auto|].
  rewrite <- Ein.
  pose proof (getline_app (s_in s)) as Happ.
  pose proof (getline_chomp (s_in s)) as [Hnl Hl].
  destruct (getline (s_in s)) as [l rest]. simpl in *.
  destruct (has_nul l) eqn:En; [right; auto|].
  simpl. split; [exact Hnl|]. split; [apply has_nul_chomp, En|].
  split; [|reflexivity].
  destruct Hl as [Hl|[Hl ->]].
  - left. rewrite <- Happ. rewrite Hl at 1. apply append_assoc.
  - right. rewrite <- Happ, <- Hl.
    assert (Hr : forall x, x +:+ "" = x).
    { induction x as [|a x IH]; [reflexivity|].
      change (String a (x +:+ "") = String a x). f_equal. exact IH. }
    rewrite Hr. split; [reflexivity|]. split; [reflexivity|].
    intros ->. rewrite Hr in Happ. rewrite Ein in Happ. discriminate.
Qed.

(** ** The end of a reply ([read_versions]) *)

(** Lines, each ended by a newline. *)
Definition text_lines (l : list string) : string :=
  fold_right (fun a b => a +:+ nl +:+ b) "" l.

(** A line of text as the server sends it. *)
Definition plain_line (l : string) : bool :=
  match strchr l newline with None => negb (has_nul l) | Some _ => false end.

Lemma getline_line l r :
  strchr l newline = None -> getline (l +:+ nl +:+ r) = (l +:+ nl, r).
Proof.
  induction l as [|c l IH]; intros H; [reflexivity|].
  simpl in H. destruct (Ascii.eqb c newline) eqn:E; [discriminate|].
  destruct (strchr l newline) eqn:El; [discriminate|].
  change (getline (String c (l +:+ nl +:+ r)) = (String c (l +:+ nl), r)).
  simpl. rewrite E, (IH eq_refl). reflexivity.
Qed.

Lemma has_nul_line l : has_nul (l +:+ nl) = has_nul l.
Proof.
  induction l as [|c l IH]; [reflexivity|].
  change (has_nul (String c (l +:+ nl)) = has_nul (String c l)).
  simpl. rewrite IH. reflexivity.
Qed.

Lemma chomp_line l : strchr l newline = None -> chomp (l +:+ nl) = l.
Proof.
  induction l as [|c l IH]; intros H; [reflexivity|].
  simpl in H. destruct (Ascii.eqb c newline) eqn:E; [discriminate|].
  destruct (strchr l newline) eqn:El; [discriminate|].
  change (chomp (String c (l +:+ nl)) = String c l).
  specialize (IH eq_refl).
  destruct l as [|c' l']; [reflexivity|].
  change (String c (chomp (String c' l' +:+ nl)) = String c (String c' l')).
  f_equal. exact IH.
Qed.

(** [next_line] on a stream that starts with a plain line. *)
Lemma next_line_plain l r s :
  plain_line l = true ->
  s_in s = l +:+ nl +:+ r ->
  next_line s = Ret tt (with_input r l s).
Proof.
  unfold plain_line. intros Hp Hin.
  destruct (strchr l newline) eqn:Hn; [discriminate|].
  apply negb_true_iff in Hp.
  unfold next_line. rewrite Hin.
  destruct (l +:+ nl +:+ r) as [|c x] eqn:E.
  { destruct l; discriminate. }
  rewrite <- E, (getline_line l r Hn), has_nul_line, Hp, (chomp_line l Hn).
  reflexivity.
Qed.

Lemma append_length a b :
  String.length (a +:+ b) = (String.length a + String.length b)%nat.
Proof.
  induction a as [|c a IH]; [reflexivity|].
  change (S (String.length (a +:+ b)) = S (String.length a + String.length b)).
  f_equal. exact IH.
Qed.

Lemma text_lines_length msgs r :
  (length msgs <= String.length (text_lines msgs +:+ r))%nat.
Proof.
  induction msgs as [|m msgs IH]; [simpl; lia|].
  cbn [text_lines fold_right]. fold (text_lines msgs).
  rewrite !append_assoc, !append_length. simpl.
  rewrite append_length in IH. lia.
Qed.

Lemma read_versions_fuel_messages msgs : forall fuel r s,
  (length msgs < fuel)%nat ->
  Forall (fun l => plain_line l && (starts_with l "M " || starts_with l "MT ") = true)
    msgs ->
  s_in s = text_lines (msgs ++ ["ok"]) +:+ r ->
  read_versions_fuel fuel s = Ret tt (with_input r "ok" s).
Proof.
  induction msgs as [|m msgs IH]; intros fuel r s Hf Hm Hin.
  - destruct fuel as [|fuel]; [simpl in Hf; lia|].
    cbn [read_versions_fuel]. unfold bind.
    rewrite (next_line_plain "ok" r s eq_refl Hin). reflexivity.
  - destruct fuel as [|fuel]; [simpl in Hf; lia|].
    inversion Hm as [|? ? Hhd Htl]; subst.
    apply andb_true_iff in Hhd as [Hp Hmsg].
    cbn [read_versions_fuel]. unfold bind.
    assert (Hin' : s_in s = m +:+ nl +:+ (text_lines (msgs ++ ["ok"]) +:+ r)).
    { rewrite Hin. cbn [app text_lines fold_right]. fold (text_lines (msgs ++ ["ok"])).
      rewrite !append_assoc. reflexivity. }
    rewrite (next_line_plain m _ s Hp Hin'). unfold line. cbn [s_line with_input].
    rewrite Hmsg.
    rewrite (IH fuel r (with_input (text_lines (msgs ++ ["ok"]) +:+ r) m s));
      [reflexivity | simpl in Hf; lia | exact Htl | reflexivity].
Qed.

(** X4: [read_versions] reads a reply to its end.  When the server sends
    only [M] and [MT] messages and then [ok], it returns with the stream
    just after the [ok] line, having counted one transaction and changed
    nothing else: messages are skipped. *)
Theorem read_versions_skips_messages msgs rest s :
  Forall (fun l => plain_line l && (starts_with l "M " || starts_with l "MT ") = true)
    msgs ->
  s_in s = text_lines (msgs ++ ["ok"]) +:+ rest ->
  read_versions s
  = Ret tt (with_input rest "ok"
              (with_counts (count_versions s) (count_transactions s + 1) s)).
Proof.
  intros Hm Hin. unfold read_versions, bind, modify, get.
  apply (read_versions_fuel_messages msgs); [|exact Hm|exact Hin].
  cbn [s_in with_counts]. rewrite Hin.
  pose proof (text_lines_length (msgs ++ ["ok"]) rest) as Hl.
  rewrite length_app in Hl. simpl in Hl. lia.
Qed.

Lemma read_versions_skips_messages_witness :
  read_versions
    (Scenario.start [] [] [] []
       ("M checking out" +:+ nl +:+ "MT text x" +:+ nl +:+ "ok" +:+ nl +:+ "Created ./"))
  = Ret tt
      (with_input "Created ./" "ok"
         (with_counts 0 (0 + 1)
            (Scenario.start [] [] [] []
               ("M checking out" +:+ nl +:+ "MT text x" +:+ nl +:+ "ok" +:+ nl
                  +:+ "Created ./")))).
Proof.
  apply (read_versions_skips_messages ["M checking out"; "MT text x"] "Created ./").
  - repeat constructor.
  - reflexivity.
Defined.

Lemma read_versions_fuel_ok fuel : forall s s',
  read_versions_fuel fuel s = Ret tt s' -> s_line s' = "ok".
Proof.
  induction fuel as [|fuel IH]; intros s s' H; [discriminate|].
  cbn [read_versions_fuel] in H.
  apply bind_Ret in H as ([] & s1 & _ & H).
  apply bind_Ret in H as (l & s2 & Hl & H).
  injection Hl as <- <-.
  destruct (starts_with (s_line s1) "M " || starts_with (s_line s1) "MT ").
  - exact (IH _ _ H).
  - destruct (String.eqb (s_line s1) "ok") eqn:E.
    + injection H as <-. apply String.eqb_eq, E.
    + apply bind_Ret in H as ([] & s3 & _ & H). exact (IH _ _ H).
Qed.

(** ** A file in a reply ([read_version]) *)

Lemma strchr_append a c r :
  strchr a c = None -> strchr (a +:+ String c r) c = Some (String.length a).
Proof.
  induction a as [|x a IH]; simpl; intros H.
  - rewrite Ascii.eqb_refl. reflexivity.
  - destruct (Ascii.eqb x c); [discriminate|].
    destruct (strchr a c); [discriminate|].
    change (option_map S (strchr (a +:+ String c r) c) = Some (S (String.length a))).
    rewrite (IH eq_refl). reflexivity.
Qed.

Lemma take_append a b : CString.take (String.length a) (a +:+ b) = a.
Proof.
  induction a as [|x a IH]; [destruct b; reflexivity|].
  change (String x (CString.take (String.length a) (a +:+ b)) = String x a).
  f_equal. exact IH.
Qed.

Lemma drop_append a b : CString.drop (String.length a) (a +:+ b) = b.
Proof.
  induction a as [|x a IH]; [destruct b; reflexivity|]. exact IH.
Qed.

Lemma drop_append_S a c b : CString.drop (S (String.length a)) (a +:+ String c b) = b.
Proof.
  induction a as [|x a IH]; [reflexivity|]. exact IH.
Qed.

Lemma starts_with_append p r : starts_with (p +:+ r) p = true.
Proof.
  unfold starts_with. induction p as [|c p IH]; [destruct r; reflexivity|].
  change (String.prefix (String c p) (String c (p +:+ r)) = true).
  simpl. destruct (ascii_dec c c); [exact IH | contradiction].
Qed.

Lemma bind_run {A B} (m : M A) (k : A -> M B) s a s1 :
  m s = Ret a s1 -> bind m k s = k a s1.
Proof. unfold bind. intros ->. reflexivity. Qed.

(** The header of a file: the update line, the directory in the
    repository, the entry line, the mode and the length. *)
Section UpdateHeader.
Variables (kind dir repo name vers more mode lenline : string).

Definition entry_line : string := "/" +:+ name +:+ "/" +:+ vers +:+ "/" +:+ more.

Definition update_header : string := text_lines [repo; entry_line; mode; lenline].

Definition mode_exec : bool :=
  match strchr mode "x" with Some _ => true | None => false end.

Lemma read_version_header len rest s file version :
  In kind ["Created "; "Update-existing "; "Updated "] ->
  s_line s = kind +:+ dir ->
  plain_line repo = true ->
  plain_line entry_line = true ->
  strchr name "/" = None ->
  strchr vers "/" = None ->
  plain_line mode = true ->
  starts_with mode "u=" = true ->
  plain_line lenline = true ->
  strtoul lenline = (len, "") ->
  len <> ULONG_MAX ->
  s_in s = update_header +:+ rest ->
  database_find_file s (update_directory dir +:+ name) = Some file ->
  file_find_version s file vers = Some version ->
  read_version s
  = read_blob version (update_directory dir +:+ name) vers len
      (with_versions (alter (set_version_exec mode_exec) version)
         (with_input rest lenline s)).
Proof.
  intros Hkind Hline Hrepo Hentry Hname Hvers Hmode Hu Hlen Hparse Hmax Hin Hfile Hver.
  unfold update_header in Hin. cbn [text_lines fold_right] in Hin.
  rewrite !append_assoc in Hin. change ("" +:+ rest) with rest in Hin.
  assert (Hd : starts_with (kind +:+ dir) "Removed " = false /\
               starts_with (kind +:+ dir) "Checked-in " = false /\
               negb (starts_with (kind +:+ dir) "Created ")
               && negb (starts_with (kind +:+ dir) "Update-existing ")
               && negb (starts_with (kind +:+ dir) "Updated ") = false /\
               match strchr (kind +:+ dir) " " with
               | Some i => update_directory (CString.drop (S i) (kind +:+ dir))
               | None => ""
               end = update_directory dir).
  { destruct Hkind as [<-|[<-|[<-|[]]]];
      (split; [reflexivity|]; split; [reflexivity|]; split; [|reflexivity]);
      rewrite starts_with_append; reflexivity. }
  destruct Hd as (Hr & Hc & Hk & Hd).
  unfold read_version.
  rewrite (bind_run line _ s (s_line s) s eq_refl), Hline, Hr, Hc, Hk, Hd.
  cbv zeta.
  rewrite (bind_run next_line _ s tt _ (next_line_plain repo _ s Hrepo Hin)).
  rewrite (bind_run next_line _ _ tt _
             (next_line_plain entry_line _ (with_input _ repo s) Hentry eq_refl)).
  rewrite (bind_run line _ _ _ _ eq_refl).
  cbn [s_line with_input].
  assert (He : starts_with entry_line "/" = true)
    by (unfold entry_line; apply starts_with_append).
  assert (Hdrop : CString.drop 1 entry_line
                  = name +:+ String "/" (vers +:+ String "/" more))
    by reflexivity.
  rewrite He, !Hdrop. cbn [negb].
  rewrite (strchr_append name "/" _ Hname), drop_append_S.
  rewrite (strchr_append vers "/" _ Hvers), !take_append.
  rewrite (bind_run get _ _ _ _ eq_refl).
  change (database_find_file (with_input ?a ?b (with_input ?c ?d s)) ?p)
    with (database_find_file s p).
  rewrite Hfile.
  change (file_find_version (with_input ?a ?b (with_input ?c ?d s)) ?f ?v)
    with (file_find_version s f v).
  rewrite Hver.
  rewrite (bind_run next_line _ _ tt _
             (next_line_plain mode _ (with_input _ entry_line _) Hmode eq_refl)).
  rewrite (bind_run line _ _ _ _ eq_refl).
  cbn [s_line with_input]. rewrite Hu. cbn [negb].
  rewrite (bind_run (update_version _ _) _ _ tt _ eq_refl).
  match goal with
  | |- bind next_line _ ?st = _ =>
      rewrite (bind_run next_line _ st tt _ (next_line_plain lenline rest st Hlen eq_refl))
  end.
  rewrite (bind_run line _ _ _ _ eq_refl).
  cbn [s_line with_input with_versions]. rewrite Hparse.
  apply Z.eqb_neq in Hmax. rewrite Hmax. cbn [orb negb String.eqb].
  f_equal.
Qed.

(** The state in which [read_blob] is called. *)
Lemma read_blob_at_header vi (v : version) e input l s :
  db_versions s !! vi = Some v ->
  the_version vi
    (with_versions (alter (set_version_exec e) vi) (with_input input l s))
  = Ret (set_version_exec e v)
      (with_versions (alter (set_version_exec e) vi) (with_input input l s)).
Proof.
  intros Hv. unfold the_version. cbn [db_versions with_versions with_input].
  rewrite list_lookup_alter_eq, Hv. reflexivity.
Qed.

Lemma cvs_read_block_body out body rest' s :
  s_in s = body +:+ rest' ->
  cvs_read_block out (Z.of_nat (String.length body)) s
  = Ret tt (if out
            then with_stdout (stdout s ++ [OBytes body]) (with_input rest' (s_line s) s)
            else with_input rest' (s_line s) s).
Proof.
  intros Hin. unfold cvs_read_block. rewrite Hin, append_length.
  destruct (_ <? _) eqn:E; [apply Z.ltb_lt in E; lia|].
  rewrite Nat2Z.id, take_append, drop_append. reflexivity.
Qed.

(** X5: the first time the server sends a version, [read_version] takes
    the path from the directory of the update line and the name of the
    entry line, sets the executable bit of the version from the mode line
    (an [x] anywhere in it), gives the version the next mark, and writes
    the blob record: header with mark and length, the body, a newline.
    The stream is left after the body. *)
Theorem read_version_first_fetch body rest s file vi (v : version) :
  In kind ["Created "; "Update-existing "; "Updated "] ->
  s_line s = kind +:+ dir ->
  plain_line repo = true ->
  plain_line entry_line = true ->
  strchr name "/" = None ->
  strchr vers "/" = None ->
  plain_line mode = true ->
  starts_with mode "u=" = true ->
  plain_line lenline = true ->
  strtoul lenline = (Z.of_nat (String.length body), "") ->
  Z.of_nat (String.length body) <> ULONG_MAX ->
  s_in s = update_header +:+ body +:+ rest ->
  database_find_file s (update_directory dir +:+ name) = Some file ->
  file_find_version s file vers = Some vi ->
  db_versions s !! vi = Some v ->
  v_mark v = SIZE_MAX ->
  mark_counter s < LONG_MAX ->
  exists s',
    read_version s = Ret tt s' /\
    db_versions s'
    = alter (fun x => set_version_mark (mark_counter s + 1) (set_version_exec mode_exec x))
        vi (db_versions s) /\
    mark_counter s' = mark_counter s + 1 /\
    stdout s' = stdout s ++ [OBlob (mark_counter s + 1) (Z.of_nat (String.length body));
                             OBytes body; ONewline] /\
    s_in s' = rest /\
    count_versions s' = count_versions s + 1 /\
    stderr s' = stderr s /\ s_sent s' = s_sent s /\
    db_files s' = db_files s /\ db_tags s' = db_tags s /\
    db_changesets s' = db_changesets s.
Proof.
  intros Hkind Hline Hrepo Hentry Hname Hvers Hmode Hu Hlen Hparse Hmax Hin Hfile Hver
    Hv Hm Hc.
  rewrite (read_version_header _ (body +:+ rest) s file vi
             Hkind Hline Hrepo Hentry Hname Hvers Hmode Hu Hlen Hparse Hmax Hin Hfile Hver).
  unfold read_blob.
  rewrite (bind_run _ _ _ _ _ (read_blob_at_header vi v _ _ _ s Hv)).
  change (v_mark (set_version_exec mode_exec v)) with (v_mark v).
  cbv zeta. rewrite Hm. change (SIZE_MAX =? SIZE_MAX) with true. cbv iota.
  assert (E : (LONG_MAX <? mark_counter s + 1) = false) by (apply Z.ltb_ge; lia).
  unfold bind, next_mark, update_version, printf, modify.
  cbn [mark_counter with_versions with_input]. rewrite E. cbv beta iota.
  rewrite (cvs_read_block_body true body rest) by reflexivity.
  eexists. split; [reflexivity|].
  cbn [db_versions mark_counter stdout s_in count_versions stderr s_sent db_files
       db_tags db_changesets with_versions with_mark_counter with_stdout with_input
       with_counts s_line count_transactions].
  rewrite <- !app_assoc. repeat split.
  rewrite list_alter_alter_eq. reflexivity.
Qed.

(** X6: when the server sends a version that has its mark already,
    [read_version] writes no blob record and takes no mark: it warns,
    sets the executable bit from the mode line all the same, and skips
    the body. *)
Theorem read_version_duplicate body rest s file vi (v : version) :
  In kind ["Created "; "Update-existing "; "Updated "] ->
  s_line s = kind +:+ dir ->
  plain_line repo = true ->
  plain_line entry_line = true ->
  strchr name "/" = None ->
  strchr vers "/" = None ->
  plain_line mode = true ->
  starts_with mode "u=" = true ->
  plain_line lenline = true ->
  strtoul lenline = (Z.of_nat (String.length body), "") ->
  Z.of_nat (String.length body) <> ULONG_MAX ->
  s_in s = update_header +:+ body +:+ rest ->
  database_find_file s (update_directory dir +:+ name) = Some file ->
  file_find_version s file vers = Some vi ->
  db_versions s !! vi = Some v ->
  v_mark v <> SIZE_MAX ->
  exists s',
    read_version s = Ret tt s' /\
    stdout s' = stdout s /\
    mark_counter s' = mark_counter s /\
    db_versions s' = alter (set_version_exec mode_exec) vi (db_versions s) /\
    stderr s' = stderr s ++ [EDuplicate (update_directory dir +:+ name) vers] /\
    s_in s' = rest /\
    count_versions s' = count_versions s + 1.
Proof.
  intros Hkind Hline Hrepo Hentry Hname Hvers Hmode Hu Hlen Hparse Hmax Hin Hfile Hver
    Hv Hm.
  rewrite (read_version_header _ (body +:+ rest) s file vi
             Hkind Hline Hrepo Hentry Hname Hvers Hmode Hu Hlen Hparse Hmax Hin Hfile Hver).
  unfold read_blob.
  rewrite (bind_run _ _ _ _ _ (read_blob_at_header vi v _ _ _ s Hv)).
  change (v_mark (set_version_exec mode_exec v)) with (v_mark v).
  cbv zeta. apply Z.eqb_neq in Hm. rewrite Hm. cbv iota.
  unfold bind, eprintf, modify. cbv beta iota.
  rewrite (cvs_read_block_body false body rest) by reflexivity.
  eexists. split; [reflexivity|].
  cbn [db_versions mark_counter stdout s_in count_versions stderr s_sent db_files
       db_tags db_changesets with_versions with_mark_counter with_stdout with_input
       with_counts with_stderr s_line count_transactions].
  repeat split.
Qed.
End UpdateHeader.

(** ** Requests ([grab_version], [grab_by_option]) *)

(** Reading a reply sends nothing. *)
Definition sent_is (q : list req_item) (s : state) : Prop := s_sent s = q.

Lemma sent_is_read_versions q : keeps (sent_is q) any_abort read_versions.
Proof.
  apply keeps_read_versions_any; auto; try exact Logic.I.
  - apply keeps_next_line_input; auto.
  - intros version path vers len s H. unfold read_blob, bind, the_version.
    destruct (db_versions s !! version) as [v|]; [|exact Logic.I].
    destruct (v_mark v =? SIZE_MAX).
    + unfold next_mark. destruct (_ <? _); [exact Logic.I|].
      unfold update_version, printf, modify, cvs_read_block. cbn beta iota.
      match goal with
      | |- context [if ?c then Abort _ _ else _] => destruct c; [exact Logic.I|]
      end.
      exact H.
    + unfold eprintf, modify, cvs_read_block. cbn beta iota.
      match goal with
      | |- context [if ?c then Abort _ _ else _] => destruct c; [exact Logic.I|]
      end.
      exact H.
Qed.

(** "Make sure we have the directory": the directory of the file is
    declared when the version has no parent or the parent has not been
    fetched. *)
Definition announced (s : state) (v : version) (path : string) : list req_item :=
  match dirname path with
  | Some dir =>
      match v_parent v with
      | None => [QDirectory dir]
      | Some p =>
          match db_versions s !! p with
          | Some pv => if v_mark pv =? SIZE_MAX then [QDirectory dir] else []
          | None => []
          end
      end
  | None => []
  end.

(** X7: [grab_version] sends nothing for NULL or for a version that has
    its mark.  For any other version it sends one [update] request, for
    the revision and the path of that version with [-kk], after the
    directories, and when it returns the version has its mark: a reply
    that lacks the version is fatal. *)
Theorem grab_version_request vi s s' :
  grab_version vi s = Ret tt s' ->
  match vi with
  | None => s' = s
  | Some i =>
      exists v,
        db_versions s !! i = Some v /\
        if v_mark v =? SIZE_MAX then
          exists f,
            db_files s !! v_file v = Some f /\
            marked i s' /\
            s_sent s' = s_sent s ++ announced s v (f_path f)
                          ++ [QMainDirectory; QArg_kk; QArg_r (v_version v);
                              QArg_dashdash; QArg (f_path f); QUpdate]
        else s' = s
  end.
Proof.
  intros H. destruct vi as [i|]; [|apply ret_Ret in H as [-> _]; reflexivity].
  pose proof (grab_version_marks i s s' H) as Hmarked.
  unfold grab_version in H. inv_bind H. exists a. split; [exact E|].
  destruct (v_mark a =? SIZE_MAX) eqn:Em; simpl in H;
    [|apply ret_Ret in H as [-> _]; reflexivity].
  inv_bind H. exists a0. split; [exact E0|]. split; [exact Hmarked|].
  apply bind_Ret in H as ([] & s1 & Hdir & H).
  assert (Hs1 : s1 = with_sent (s_sent s ++ announced s a (f_path a0)) s).
  { unfold announced. destruct (dirname (f_path a0)) as [dir|].
    - destruct (v_parent a) as [p|].
      + inv_bind Hdir. rewrite E1.
        destruct (v_mark a1 =? SIZE_MAX).
        * apply modify_Ret in Hdir. exact Hdir.
        * apply ret_Ret in Hdir as [-> _]. destruct s. unfold with_sent. simpl.
          rewrite app_nil_r. reflexivity.
      + apply modify_Ret in Hdir. exact Hdir.
    - apply ret_Ret in Hdir as [-> _]. destruct s. unfold with_sent. simpl.
      rewrite app_nil_r. reflexivity. }
  subst s1.
  inv_bind H. inv_bind H.
  apply bind_Ret in H as ([] & s2 & Hread & H).
  pose proof (hoare_Ret _ _ _ _ _ _ _ (sent_is_read_versions _) eq_refl Hread) as Hsent.
  inv_bind H.
  match type of H with
  | (if ?c then _ else _) _ = _ => destruct c; [discriminate|]
  end.
  apply ret_Ret in H as [-> _].
  unfold sent_is in Hsent. rewrite Hsent. simpl. rewrite <- !app_assoc. reflexivity.
Qed.

(** The file of a version to fetch: its [path] goes into the array. *)
Definition fetch_file (s : state) (i : vref) : option file :=
  match db_versions s !! i with
  | Some v => db_files s !! v_file v
  | None => None
  end.

(** What [grab_by_option] asserts of each version. *)
Definition fetchable (s : state) (i : vref) : Prop :=
  exists v, db_versions s !! i = Some v /\
            v_dead v = false /\ v_used v = true /\ v_mark v = SIZE_MAX.

Lemma fetch_paths_Ret fetch : forall s files s',
  fetch_paths fetch s = Ret files s' ->
  s' = s /\ Forall (fetchable s) fetch /\
  Forall2 (fun i f => fetch_file s i = Some f) fetch files.
Proof.
  induction fetch as [|i r IH]; intros s files s' H.
  - apply ret_Ret in H as [-> ->]. repeat constructor.
  - cbn [fetch_paths] in H. inv_bind H.
    unfold live, version_live in H.
    destruct (db_versions s !! i) as [x|] eqn:Ex; [|discriminate].
    destruct (v_dead x) eqn:Ed; [discriminate|].
    inv_bind H. rewrite Ex in E. injection E as <-.
    inv_bind H. apply andb_true_iff in E as [Eu Em]. apply Z.eqb_eq in Em.
    inv_bind H. apply bind_Ret in H as (ps & s1 & Hps & H).
    apply IH in Hps as (-> & Hall & Hfiles).
    apply ret_Ret in H as [-> ->].
    split; [reflexivity|]. split.
    + constructor; [|exact Hall]. exists x. auto.
    + constructor; [|exact Hfiles]. unfold fetch_file. rewrite Ex. exact E.
Qed.

(** [strcmp] orders the strings of bytes. *)
Lemma strcmp_le_total a b : strcmp_le a b = true \/ strcmp_le b a = true.
Proof.
  unfold strcmp_le. rewrite (String.compare_antisym b a).
  destruct (String.compare a b); simpl; auto.
Qed.

Lemma strcmp_le_trans : forall a b c,
  strcmp_le a b = true -> strcmp_le b c = true -> strcmp_le a c = true.
Proof.
  assert (H : forall a b c, String.compare a b <> Gt -> String.compare b c <> Gt ->
                            String.compare a c <> Gt).
  { intros a. induction a as [|x a' IH]; intros [|y b] [|z c]; simpl; try congruence.
    unfold Ascii.compare.
    destruct (N.compare_spec (N_of_ascii x) (N_of_ascii y)) as [Exy|Exy|Exy];
      destruct (N.compare_spec (N_of_ascii y) (N_of_ascii z)) as [Eyz|Eyz|Eyz];
      destruct (N.compare_spec (N_of_ascii x) (N_of_ascii z)) as [Exz|Exz|Exz];
      try congruence; try lia.
    apply IH. }
  intros a b c Hab Hbc. unfold strcmp_le in *.
  specialize (H a b c).
  destruct (String.compare a b); try discriminate;
    destruct (String.compare b c); try discriminate;
    destruct (String.compare a c); try reflexivity;
    exfalso; apply H; congruence.
Qed.

(** X8: [grab_by_option] asserts that there is something to fetch and
    that every version is live, used and without a mark.  It sends one
    request: the directories, the main directory, [-r] and [-D] when
    given, [-kk], [--], the path of every version once, and [update].
    The paths come in the order in which the sort leaves the array: that
    of the bytes of the pointers to them, which [strcmp] is given by
    [qsort], not that of the paths; a directory is declared before every
    path whose directory is not that of the path before. *)
Theorem grab_by_option_request r_arg D_arg fetch s s' :
  grab_by_option r_arg D_arg fetch s = Ret tt s' ->
  fetch <> [] /\
  Forall (fetchable s) fetch /\
  exists files sorted,
    Forall2 (fun i f => fetch_file s i = Some f) fetch files /\
    Permutation files sorted /\
    StronglySorted (fun a b => strcmp_le (f_path_ptr a) (f_path_ptr b) = true) sorted /\
    s_sent s' = s_sent s ++ directories None (map f_path sorted) ++ [QMainDirectory]
                  ++ opt_arg QArg_r r_arg
                  ++ match D_arg with Some t => [QArg_D t] | None => [] end
                  ++ [QArg_kk; QArg_dashdash] ++ map QArg (map f_path sorted)
                  ++ [QUpdate].
Proof.
  unfold grab_by_option. intros H.
  apply bind_Ret in H as (files & s1 & Hp & H).
  apply fetch_paths_Ret in Hp as (-> & Hall & Hfiles).
  inv_bind H. apply negb_true_iff, Nat.eqb_neq in E.
  split.
  { intros ->. inversion Hfiles. subst. apply E. reflexivity. }
  split; [exact Hall|].
  exists files, (ARRAY_SORT pointer_le files).
  split; [exact Hfiles|].
  split; [apply ARRAY_SORT_perm|].
  split.
  { apply (ARRAY_SORT_sorted pointer_le).
    - intros ? ?. apply strcmp_le_total.
    - intros ? ? ?. apply strcmp_le_trans. }
  cbv zeta in H.
  do 7 (apply bind_Ret in H as ([] & ? & Hm & H); apply modify_Ret in Hm; subst).
  pose proof (hoare_Ret _ _ _ _ _ _ _ (sent_is_read_versions _) eq_refl H) as Hsent.
  unfold sent_is in Hsent. rewrite Hsent. simpl. unfold opt_arg.
  destruct D_arg; rewrite <- !app_assoc; reflexivity.
Qed.

(** ** A set of versions ([grab_versions]) *)

(** X9: unless the versions all have the same version string (two or
    more), every version of the set has a mark when [grab_versions]
    returns, whatever the server sent; marks given before are kept, and
    files, tags and changesets are not touched. *)
Theorem grab_versions_fetches_all fetch s s' :
  grab_versions fetch s = Ret tt s' ->
  same_version_id s fetch = false \/ (length fetch <= 1)%nat ->
  (forall i, In i fetch -> marked i s') /\
  (forall i m, m <> SIZE_MAX -> has_mark i m s -> has_mark i m s') /\
  db_files s' = db_files s /\ db_tags s' = db_tags s /\
  db_changesets s' = db_changesets s /\ mark_counter s <= mark_counter s'.
Proof.
  intros H Hc.
  split; [exact (grab_versions_marks fetch s s' H Hc)|].
  split.
  - intros i m Hm Hi.
    exact (hoare_Ret _ _ _ _ _ _ _ (has_mark_grab_versions i m fetch Hm) Hi H).
  - exact (hoare_Ret _ _ _ _ _ _ _ (fetch_frame_grab_versions s fetch)
             (fetch_frame_refl s) H).
Qed.

(** [dmin] and [dmax] bound the times seen. *)
Lemma time_range_bounds times : forall dmin dmax lo hi,
  dmin <= dmax ->
  time_range dmin dmax times = (lo, hi) ->
  lo <= dmin /\ dmax <= hi /\
  Forall (fun t => lo <= t <= hi) times /\
  (lo = dmin \/ In lo times) /\ (hi = dmax \/ In hi times).
Proof.
  induction times as [|t r IH]; intros dmin dmax lo hi Hle H.
  - injection H as <- <-. repeat split; auto; try lia.
  - cbn [time_range] in H.
    destruct (t <? dmin) eqn:E1; [|destruct (dmax <? t) eqn:E2].
    + apply Z.ltb_lt in E1.
      apply IH in H as (H1 & H2 & H3 & H4 & H5); [|lia].
      repeat split; try lia.
      * constructor; [lia | exact H3].
      * destruct H4 as [->|H4]; [right; left; reflexivity | right; right; exact H4].
      * destruct H5 as [->|H5]; [left; reflexivity | right; right; exact H5].
    + apply Z.ltb_ge in E1. apply Z.ltb_lt in E2.
      apply IH in H as (H1 & H2 & H3 & H4 & H5); [|lia].
      repeat split; try lia.
      * constructor; [lia | exact H3].
      * destruct H4 as [->|H4]; [left; reflexivity | right; right; exact H4].
      * destruct H5 as [->|H5]; [right; left; reflexivity | right; right; exact H5].
    + apply Z.ltb_ge in E1. apply Z.ltb_ge in E2.
      apply IH in H as (H1 & H2 & H3 & H4 & H5); [|lia].
      repeat split; try lia.
      * constructor; [lia | exact H3].
      * destruct H4 as [->|H4]; [left; reflexivity | right; right; exact H4].
      * destruct H5 as [->|H5]; [left; reflexivity | right; right; exact H5].
Qed.

(** X10: the loop of [grab_versions] over the times of the versions
    leaves in [dmin] and [dmax] the earliest and the latest of them: both
    are times of versions of the set and every time lies between them. *)
Theorem time_range_min_max t0 times :
  In (time_range t0 t0 times).1 (t0 :: times) /\
  In (time_range t0 t0 times).2 (t0 :: times) /\
  Forall (fun t => (time_range t0 t0 times).1 <= t <= (time_range t0 t0 times).2)
    (t0 :: times).
Proof.
  destruct (time_range t0 t0 times) as [lo hi] eqn:E.
  apply time_range_bounds in E as (H1 & H2 & H3 & H4 & H5); [|lia].
  simpl. split; [|split].
  - destruct H4 as [->|H4]; [left; reflexivity | right; exact H4].
  - destruct H5 as [->|H5]; [left; reflexivity | right; exact H5].
  - constructor; [lia | exact H3].
Qed.

(* ===================================================================== *)
(** * Further properties of the fix-ups *)

(** ** The assertion of [fixup_commit_comment] *)

(** An entry that asks for what its file has already. *)
Definition redundant (vs : list version) (base : option (list (option vref)))
    (e : fixup_ver) : bool :=
  option_vref_eqb (old_version vs base (fx_file e)) (fx_version e).

Lemma option_vref_eqb_refl a : option_vref_eqb a a = true.
Proof. destruct a as [x|]; simpl; [apply Nat.eqb_refl | reflexivity]. Qed.

Lemma changes_state_sum vs base fixups f :
  ((if is_added vs base fixups f then 1 else 0)
   + (if is_deleted vs base fixups f then 1 else 0)
   + (if is_modified vs base fixups f then 1 else 0)
   = if changes_state vs base fixups f then 1 else 0)%nat.
Proof.
  unfold is_added, is_deleted, is_modified, changes_state.
  destruct (option_vref_eqb _ _); simpl; [reflexivity|].
  destruct (new_version vs base fixups f), (old_version vs base f); reflexivity.
Qed.

Lemma count_files_changes vs base fixups i n :
  (count_files (is_added vs base fixups) i n
   + count_files (is_deleted vs base fixups) i n
   + count_files (is_modified vs base fixups) i n
   = count_files (changes_state vs base fixups) i n)%nat.
Proof.
  revert i. induction n as [|n IH]; intros i; [reflexivity|].
  rewrite !count_files_cons, <- (IH (S i)), <- (changes_state_sum vs base fixups i). lia.
Qed.

(** The files that change state are those of the entries that are not
    redundant. *)
Lemma count_files_entries vs base n : forall i fixups,
  fixups_sorted i fixups = true ->
  Forall (fun e => (fx_file e < i + n)%nat) fixups ->
  count_files (changes_state vs base fixups) i n
  = length (List.filter (fun e => negb (redundant vs base e)) fixups).
Proof.
  induction n as [|n IH]; intros i fixups Hs Hr.
  - destruct fixups as [|e r]; [reflexivity|].
    simpl in Hs. apply andb_prop in Hs as [Hlo _]. apply Nat.leb_le in Hlo.
    apply Forall_inv in Hr. lia.
  - rewrite count_files_cons.
    destruct fixups as [|e r].
    + unfold changes_state at 1, new_version. simpl.
      rewrite option_vref_eqb_refl. simpl.
      apply (IH (S i) []); [reflexivity | constructor].
    + pose proof Hs as Hs'. simpl in Hs. apply andb_prop in Hs as [Hlo Hrs].
      apply Nat.leb_le in Hlo.
      destruct (Nat.eq_dec (fx_file e) i) as [He|He].
      * assert (Hnew : new_version vs base (e :: r) i = fx_version e).
        { unfold new_version, fixup_for. simpl. rewrite He, Nat.eqb_refl. reflexivity. }
        unfold changes_state at 1. rewrite Hnew.
        cbn [List.filter]. unfold redundant at 1. rewrite He.
        rewrite (count_files_ext _ (changes_state vs base r)).
        -- rewrite (IH (S i) r).
           ++ destruct (option_vref_eqb _ _); reflexivity.
           ++ rewrite <- He. exact Hrs.
           ++ apply Forall_inv_tail in Hr.
              eapply Forall_impl; [exact Hr|]. simpl. intros; lia.
        -- intros j Hj. unfold changes_state, new_version, fixup_for. simpl.
           destruct (Nat.eqb_spec (fx_file e) j); [lia | reflexivity].
      * assert (Hnew : new_version vs base (e :: r) i = old_version vs base i).
        { unfold new_version.
          rewrite (fixups_sorted_below (S i) (e :: r) i); [reflexivity | | lia].
          cbn [fixups_sorted]. apply andb_true_intro.
          split; [apply Nat.leb_le; lia | exact Hrs]. }
        unfold changes_state at 1. rewrite Hnew, option_vref_eqb_refl. simpl.
        apply IH.
        -- cbn [fixups_sorted]. apply andb_true_intro.
           split; [apply Nat.leb_le; lia | exact Hrs].
        -- eapply Forall_impl; [exact Hr|]. simpl. intros; lia.
Qed.

Lemma filter_length_all {A} (p : A -> bool) l :
  length (List.filter p l) = length l -> Forall (fun x => p x = true) l.
Proof.
  induction l as [|x l IH]; [constructor|]. simpl.
  pose proof (filter_length_le p l) as Hle.
  destruct (p x) eqn:E; simpl; intros H.
  - constructor; [exact E | apply IH; lia].
  - lia.
Qed.

Lemma filter_length_some {A} (p : A -> bool) l :
  length (List.filter p l) <> length l -> Exists (fun x => p x = false) l.
Proof.
  induction l as [|x l IH]; [intros H; contradiction|]. simpl.
  destruct (p x) eqn:E; simpl; intros H.
  - right. apply IH. lia.
  - left. exact E.
Qed.

(** X11: on fix-ups in file order, for files of the database,
    [fixup_commit_comment] returns the log only when every entry changes
    the state of its file, and its assertion [added + deleted + modified
    == fixups_end - fixups] fails only when some entry is redundant: it
    asks for the very version (or absence) that the base has, live. *)
Theorem fixup_commit_comment_assertion s base fixups :
  fixups_sorted 0 fixups = true ->
  Forall (fun e => (fx_file e < length (db_files s))%nat) fixups ->
  match fixup_commit_comment base fixups s with
  | Ret _ _ => Forall (fun e => redundant (db_versions s) base e = false) fixups
  | Abort (AssertFailed _) _ =>
      Exists (fun e => redundant (db_versions s) base e = true) fixups
  | Abort _ _ => True
  end.
Proof.
  intros Hs Hr. unfold fixup_commit_comment, bind, get.
  destruct (comment_stats _ _ _ _ _ _) as [st|] eqn:Est; [|exact Logic.I].
  destruct (comment_stats_counts _ _ _ _ _ _ _ Hs Est) as (_ & Ha & Hd & Hm).
  simpl in Ha, Hd, Hm.
  pose proof (count_files_changes (db_versions s) base fixups 0 (length (db_files s)))
    as Hsum.
  rewrite (count_files_entries _ _ _ 0%nat fixups Hs Hr) in Hsum.
  unfold assert.
  destruct (Nat.eqb_spec (added st + deleted st + modified st) (length fixups)) as [E|E].
  - assert (Hall : Forall (fun e => redundant (db_versions s) base e = false) fixups).
    { eapply Forall_impl;
        [apply (filter_length_all (fun e => negb (redundant (db_versions s) base e))
                  fixups); lia|].
      simpl. intros e He. apply negb_true_iff, He. }
    unfold ret.
    destruct (comment_lines _ _ _ _ _ _ _); [exact Hall | exact Logic.I].
  - unfold abort_with.
    eapply Exists_impl;
      [apply (filter_length_some (fun e => negb (redundant (db_versions s) base e))
                fixups); lia|].
    simpl. intros e He. apply negb_false_iff, He.
Qed.

(** ** The entries that [create_fixups] makes *)

Lemma option_vref_eqb_eq a b : option_vref_eqb a b = true <-> a = b.
Proof.
  destruct a as [x|], b as [y|]; simpl; split; intros H;
    try discriminate; try reflexivity.
  - apply Nat.eqb_eq in H. congruence.
  - injection H as ->. apply Nat.eqb_refl.
Qed.

Lemma version_live_Some vs v i :
  version_live vs v = Some i -> exists x, vs !! i = Some x /\ v_dead x = false.
Proof.
  unfold version_live. destruct v as [j|]; [|discriminate].
  destruct (vs !! j) as [x|] eqn:E; [|discriminate].
  destruct (v_dead x) eqn:Ed; [discriminate|].
  intros H. injection H as <-. eauto.
Qed.

(** What [create_fixups] guarantees of an entry. *)
Definition entry_ok (vs : list version) (nfiles : nat)
    (base : option (list (option vref))) (e : fixup_ver) : Prop :=
  (fx_file e < nfiles)%nat /\
  redundant vs base e = false /\
  match fx_version e with
  | Some v => exists x, vs !! v = Some x /\ v_dead x = false
  | None => True
  end.

Lemma wanted_fixup_Some vs base tf f e :
  wanted_fixup vs base tf f = Some e ->
  fx_file e = f /\ redundant vs base e = false /\
  match fx_version e with
  | Some v => exists x, vs !! v = Some x /\ v_dead x = false
  | None => True
  end.
Proof.
  unfold wanted_fixup.
  destruct (option_vref_eqb _ _) eqn:E; [discriminate|].
  intros H. injection H as <-. simpl. split; [reflexivity|].
  split; [exact E|].
  destruct (version_live vs (target vs tf f)) as [v|] eqn:Ev; [|exact Logic.I].
  eapply version_live_Some, Ev.
Qed.

Lemma wanted_files_sublist vs base tf l :
  map fx_file (omap (wanted_fixup vs base tf) l) `sublist_of` l.
Proof.
  induction l as [|f l IH]; [constructor|].
  rewrite omap_cons.
  destruct (wanted_fixup vs base tf f) as [e|] eqn:E.
  - apply wanted_fixup_Some in E as [<- _]. simpl. constructor. exact IH.
  - simpl. constructor. exact IH.
Qed.

(** X12: from a well-formed tag and base, [create_fixups] leaves at most
    one entry per file, each for a file of the database, none redundant
    and none naming a dead version (a dead target is a deletion).  There
    is no entry exactly when the live base version and the live target
    version agree on every file. *)
Theorem create_fixups_entries s tg t base :
  db_tags s !! tg = Some t ->
  t_fixups t = [] ->
  tag_files_ok (db_versions s) (length (db_files s)) 0 (t_tag_files t) = true ->
  base_ok (db_versions s) (length (db_files s)) base = true ->
  exists fixups,
    create_fixups base tg s = Ret tt (with_tags (alter (set_fixups fixups 0) tg) s) /\
    NoDup (map fx_file fixups) /\
    Forall (entry_ok (db_versions s) (length (db_files s)) base) fixups /\
    (fixups = [] <->
     forall f, (f < length (db_files s))%nat ->
       version_live (db_versions s) (base_at base f)
       = version_live (db_versions s) (target (db_versions s) (t_tag_files t) f)).
Proof.
  intros Ht Hf Htf Hb.
  set (vs := db_versions s). set (n := length (db_files s)).
  set (wanted := omap (wanted_fixup vs base (t_tag_files t)) (seq 0 n)).
  exists (ARRAY_SORT compare_fixup_by_time wanted).
  pose proof (ARRAY_SORT_perm compare_fixup_by_time wanted) as Hperm.
  split; [|split; [|split]].
  - unfold create_fixups, bind, the_tag. rewrite Ht, Hf. simpl.
    rewrite (create_fixups_from_wanted _ _ (length (db_files s)) _ Hb 0%nat _ eq_refl Htf).
    reflexivity.
  - rewrite <- Hperm.
    eapply sublist_NoDup; [apply NoDup_seq | apply wanted_files_sublist].
  - rewrite <- Hperm. apply Forall_forall. intros e He.
    apply list_elem_of_omap in He as (f & Hin & Hw).
    apply elem_of_seq in Hin.
    apply wanted_fixup_Some in Hw as (Hfile & Hred & Hlive).
    split; [lia|]. split; assumption.
  - split.
    + intros Hnil f Hlt.
      assert (Hw : wanted = []).
      { apply Permutation_nil_r. rewrite Hperm, Hnil. reflexivity. }
      destruct (wanted_fixup vs base (t_tag_files t) f) as [e|] eqn:E.
      * assert (He : e ∈ wanted).
        { apply list_elem_of_omap. exists f. split; [apply elem_of_seq; lia | exact E]. }
        rewrite Hw in He. inversion He.
      * unfold wanted_fixup in E.
        destruct (option_vref_eqb _ _) eqn:Eq; [|discriminate].
        apply option_vref_eqb_eq, Eq.
    + intros Hall.
      assert (Hw : wanted = []).
      { destruct wanted as [|e w] eqn:Ew; [reflexivity|].
        assert (He : e ∈ omap (wanted_fixup vs base (t_tag_files t)) (seq 0 n)).
        { fold wanted. rewrite Ew. constructor. }
        apply list_elem_of_omap in He as (f & Hin & Hwf).
        apply elem_of_seq in Hin. unfold wanted_fixup in Hwf.
        rewrite (Hall f) in Hwf by lia.
        rewrite option_vref_eqb_refl in Hwf. discriminate. }
      rewrite Hw. reflexivity.
Qed.

(* ===================================================================== *)
(** * Further properties of the emitter: fix-up commits and tags *)

(** ** The lines of a fix-up commit (the last loop of [print_fixups]) *)

(** [base_versions ? version_live (base_versions[i]) : NULL], where
    [base_versions] is the array of tag [x]. *)
Definition base_live_at (s : state) (base : option tref) (i : fref) : option vref :=
  match base with
  | Some x => live s (tip s x i)
  | None => None
  end.

(** The line of an entry: [M] for its version, [D] for the base version
    when it has none. *)
Definition fixup_line (s : state) (base : option tref) (e : fixup_ver)
    : option out_item :=
  match fx_version e with
  | Some t =>
      x ← db_versions s !! t;
      f ← db_files s !! v_file x;
      Some (OModify (v_exec x) (v_mark x) (f_path f))
  | None =>
      b ← base_live_at s base (fx_file e);
      x ← db_versions s !! b;
      f ← db_files s !! v_file x;
      Some (ODelete (f_path f))
  end.

(** The tips after the entries: [tag->branch_versions[i] = tv]. *)
Definition flush_tips (fixups : list fixup_ver) (a : list (option vref))
    : list (option vref) :=
  fold_left (fun a e => <[fx_file e := fx_version e]> a) fixups a.

Lemma base_version_Ret base i s bv s' :
  base_version base i s = Ret bv s' -> s' = s /\ bv = base_live_at s base i.
Proof.
  unfold base_version, base_array, base_live_at, tip. intros H.
  destruct base as [x|].
  - inv_bind H. inv_bind E. apply ret_Ret in E as [-> ->]. rewrite E0.
    destruct (t_branch_versions a0) as [arr|].
    + inv_bind H. inv_bind H. apply ret_Ret in H as [-> ->].
      rewrite E. auto.
    + apply ret_Ret in H as [-> ->]. auto.
  - inv_bind H. apply ret_Ret in E as [-> ->]. apply ret_Ret in H as [-> ->]. auto.
Qed.

Lemma print_fixup_Ret base tg e s s' t :
  db_tags s !! tg = Some t ->
  print_fixup base tg e s = Ret tt s' ->
  option_vref_eqb (fx_version e) (base_live_at s base (fx_file e)) = false /\
  exists o,
    fixup_line s base e = Some o /\
    s' = (if is_branch t
          then with_tags (alter (set_branch_version (fx_file e) (fx_version e)) tg)
                 (with_stdout (stdout s ++ [o]) s)
          else with_stdout (stdout s ++ [o]) s).
Proof.
  intros Ht H. unfold print_fixup in H. cbv zeta in H.
  apply bind_Ret in H as (bv & s1 & Hbv & H).
  apply base_version_Ret in Hbv as [-> ->].
  inv_bind H. apply negb_true_iff in E. split; [exact E|].
  apply bind_Ret in H as ([] & s1 & Hline & H).
  assert (Ho : exists o, fixup_line s base e = Some o /\
                         s1 = with_stdout (stdout s ++ [o]) s).
  { unfold fixup_line. destruct (fx_version e) as [tv|].
    - inv_bind Hline. inv_bind Hline. apply modify_Ret in Hline.
      rewrite E0. simpl. rewrite E1. simpl. eauto.
    - destruct (base_live_at s base (fx_file e)) as [b|]; [|discriminate].
      inv_bind Hline. inv_bind Hline. apply modify_Ret in Hline.
      simpl. rewrite E0. simpl. rewrite E1. simpl. eauto. }
  destruct Ho as (o & Ho & ->). exists o. split; [exact Ho|].
  inv_bind H. simpl in E0. rewrite Ht in E0. injection E0 as <-.
  destruct (is_branch t).
  - apply modify_Ret in H. exact H.
  - apply ret_Ret in H as [-> _]. reflexivity.
Qed.

Lemma base_live_at_update s base tg i tv o j :
  j <> i ->
  base_live_at
    (with_tags (alter (set_branch_version i tv) tg) (with_stdout o s)) base j
  = base_live_at s base j.
Proof.
  intros Hne. unfold base_live_at, tip, live. destruct base as [x|]; [|reflexivity].
  cbn [db_tags db_versions with_tags with_stdout].
  destruct (decide (x = tg)) as [->|Hx].
  - rewrite list_lookup_alter_eq. destruct (db_tags s !! tg) as [t|]; [|reflexivity].
    simpl. destruct (t_branch_versions t) as [a|]; [|reflexivity]. simpl.
    rewrite list_lookup_insert_ne by congruence. reflexivity.
  - rewrite list_lookup_alter_ne by congruence. reflexivity.
Qed.

Lemma fixup_line_update s base tg i tv o e :
  fx_file e <> i ->
  fixup_line (with_tags (alter (set_branch_version i tv) tg) (with_stdout o s)) base e
  = fixup_line s base e.
Proof.
  intros Hne. unfold fixup_line. rewrite base_live_at_update by exact Hne.
  reflexivity.
Qed.

Lemma alter_same {A} (f : A -> A) (l : list A) i x :
  l !! i = Some x -> f x = x -> alter f i l = l.
Proof.
  intros Hx Hf. rewrite <- (list_alter_id id l i) at 2 by reflexivity.
  apply list_alter_ext; [|reflexivity].
  intros y Hy. rewrite Hx in Hy. injection Hy as <-. exact Hf.
Qed.

Lemma flush_tips_state s t tg e r lines o :
  db_tags s !! tg = Some t ->
  with_tags
    (alter (set_branch_versions
              (option_map (flush_tips r)
                 (t_branch_versions (set_branch_version (fx_file e) (fx_version e) t))))
       tg)
    (with_stdout
       (stdout (with_tags (alter (set_branch_version (fx_file e) (fx_version e)) tg)
                  (with_stdout (stdout s ++ [o]) s)) ++ lines)
       (with_tags (alter (set_branch_version (fx_file e) (fx_version e)) tg)
          (with_stdout (stdout s ++ [o]) s)))
  = with_tags
      (alter (set_branch_versions
                (option_map (flush_tips (e :: r)) (t_branch_versions t))) tg)
      (with_stdout (stdout s ++ o :: lines) s).
Proof.
  intros Ht. destruct s. unfold with_tags, with_stdout. simpl in *.
  rewrite <- app_assoc. f_equal. rewrite list_alter_alter_eq.
  apply list_alter_ext; [|reflexivity].
  intros x Hx. rewrite Ht in Hx. injection Hx as <-.
  destruct t as [? bv ? ? ? ? ? ? ? ?].
  unfold set_branch_version, set_branch_versions. simpl.
  destruct bv; reflexivity.
Qed.

Lemma Forall2_transfer {A B} (P Q : A -> B -> Prop) l k :
  Forall2 P l k -> Forall (fun a => forall b, P a b -> Q a b) l -> Forall2 Q l k.
Proof.
  induction 1 as [|a b l k Hab Hlk IH]; intros Hall; [constructor|].
  apply Forall_cons in Hall as [Ha Hl]. constructor; auto.
Qed.

Lemma print_fixup_loop base tg fixups : forall s s' t,
  NoDup (map fx_file fixups) ->
  db_tags s !! tg = Some t ->
  for_each fixups (print_fixup base tg) s = Ret tt s' ->
  exists lines,
    Forall2 (fun e o => fixup_line s base e = Some o) fixups lines /\
    Forall (fun e => option_vref_eqb (fx_version e)
                       (base_live_at s base (fx_file e)) = false) fixups /\
    s' = if is_branch t
         then with_tags
                (alter (set_branch_versions
                          (option_map (flush_tips fixups) (t_branch_versions t))) tg)
                (with_stdout (stdout s ++ lines) s)
         else with_stdout (stdout s ++ lines) s.
Proof.
  induction fixups as [|e r IH]; intros s s' t Hnd Ht H.
  - apply ret_Ret in H as [-> _]. exists []. split; [constructor|]. split; [constructor|].
    destruct s. unfold with_tags, with_stdout. simpl in *. rewrite app_nil_r.
    destruct (is_branch t); [|reflexivity].
    f_equal. symmetry. apply (alter_same _ _ _ t Ht).
    destruct t as [? bv ? ? ? ? ? ? ? ?]. unfold set_branch_versions. simpl.
    destruct bv; reflexivity.
  - rewrite for_each_cons in H. apply bind_Ret in H as ([] & s1 & H1 & H).
    apply (print_fixup_Ret _ _ _ _ _ t Ht) in H1 as (Hassert & o & Ho & Hs1).
    simpl in Hnd. apply NoDup_cons in Hnd as [Hnotin Hnd].
    assert (Hfiles : Forall (fun e' => fx_file e' <> fx_file e) r).
    { apply Forall_forall. intros e' He' Heq. apply Hnotin.
      rewrite <- Heq. apply list_elem_of_fmap. exists e'. auto. }
    destruct (is_branch t) eqn:Eb.
    + subst s1.
      assert (Ht1 : db_tags
                      (with_tags (alter (set_branch_version (fx_file e) (fx_version e)) tg)
                         (with_stdout (stdout s ++ [o]) s)) !! tg
                    = Some (set_branch_version (fx_file e) (fx_version e) t)).
      { simpl. rewrite list_lookup_alter_eq, Ht. reflexivity. }
      destruct (IH _ _ _ Hnd Ht1 H) as (lines & Hlines & Has & ->).
      exists (o :: lines). split; [|split].
      * constructor; [exact Ho|].
        eapply Forall2_transfer; [exact Hlines|].
        eapply Forall_impl; [exact Hfiles|]. simpl. intros e' He' o' Hl.
        rewrite <- Hl. symmetry. apply fixup_line_update, He'.
      * constructor; [exact Hassert|].
        apply Forall_forall. intros e' He'.
        rewrite Forall_forall in Has, Hfiles.
        rewrite <- (Has e' He'). f_equal. symmetry.
        apply base_live_at_update, Hfiles, He'.
      * assert (Hb1 : is_branch (set_branch_version (fx_file e) (fx_version e) t) = true).
        { unfold is_branch, set_branch_version in *. simpl.
          destruct (t_branch_versions t); [reflexivity | discriminate]. }
        rewrite Hb1. apply flush_tips_state, Ht.
    + subst s1.
      destruct (IH (with_stdout (stdout s ++ [o]) s) s' t Hnd Ht H)
        as (lines & Hlines & Has & ->).
      rewrite Eb. exists (o :: lines). split; [|split].
      * constructor; [exact Ho | exact Hlines].
      * constructor; [exact Hassert | exact Has].
      * destruct s. unfold with_stdout. simpl. rewrite <- app_assoc. reflexivity.
Qed.

Lemma flush_tips_other fixups : forall a j,
  j ∉ map fx_file fixups -> flush_tips fixups a !! j = a !! j.
Proof.
  induction fixups as [|e r IH]; intros a j Hj; [reflexivity|].
  simpl in Hj. apply not_elem_of_cons in Hj as [Hne Hj].
  unfold flush_tips. cbn [fold_left]. fold (flush_tips r (<[fx_file e := fx_version e]> a)).
  rewrite (IH _ j Hj). apply list_lookup_insert_ne. congruence.
Qed.

Lemma flush_tips_lookup fixups : forall a e,
  NoDup (map fx_file fixups) ->
  e ∈ fixups ->
  (fx_file e < length a)%nat ->
  flush_tips fixups a !! fx_file e = Some (fx_version e).
Proof.
  induction fixups as [|e0 r IH]; intros a e Hnd He Hlen; [inversion He|].
  simpl in Hnd. apply NoDup_cons in Hnd as [Hnotin Hnd].
  unfold flush_tips. cbn [fold_left].
  fold (flush_tips r (<[fx_file e0 := fx_version e0]> a)).
  apply elem_of_cons in He as [->|He].
  - rewrite (flush_tips_other r _ _ Hnotin).
    apply list_lookup_insert_eq. exact Hlen.
  - apply (IH _ e Hnd He). rewrite length_insert. exact Hlen.
Qed.

(** X13: the last loop of [print_fixups], over entries for different
    files.  When it returns, it has written one line for each entry, in
    order: [M <mode> :<mark> <path>] for the version of the entry, [D
    <path>] for an entry without one; none of the entries was redundant
    (the assertion [tv != bv]); and on a branch the tip of each entry's
    file is now the entry's version, the other tips being as before.
    Nothing else has changed: the state is the one before with these lines
    at the end of the output and, on a branch, with these tips in the array
    of the tag; the other fields of the tag, the other tags, the files,
    versions and changesets, the counters, the diagnostics, the requests
    and the input are as they were. *)
Theorem print_fixups_lines base tg fixups s s' t :
  NoDup (map fx_file fixups) ->
  db_tags s !! tg = Some t ->
  for_each fixups (print_fixup base tg) s = Ret tt s' ->
  exists lines,
    Forall2 (fun e o => fixup_line s base e = Some o) fixups lines /\
    stdout s' = stdout s ++ lines /\
    Forall (fun e => option_vref_eqb (fx_version e)
                       (base_live_at s base (fx_file e)) = false) fixups /\
    (forall a, t_branch_versions t = Some a ->
       exists t' a',
         db_tags s' !! tg = Some t' /\ t_branch_versions t' = Some a' /\
         t' = set_branch_versions (Some a') t /\
         length a' = length a /\
         (forall e, e ∈ fixups -> (fx_file e < length a)%nat ->
                    a' !! fx_file e = Some (fx_version e)) /\
         (forall j, j ∉ map fx_file fixups -> a' !! j = a !! j)) /\
    (t_branch_versions t = None -> db_tags s' = db_tags s) /\
    (forall u, u <> tg -> db_tags s' !! u = db_tags s !! u) /\
    db_versions s' = db_versions s /\ db_files s' = db_files s /\
    db_changesets s' = db_changesets s /\ mark_counter s' = mark_counter s /\
    s_sent s' = s_sent s /\
    stderr s' = stderr s /\ s_in s' = s_in s /\ s_line s' = s_line s /\
    count_versions s' = count_versions s /\
    count_transactions s' = count_transactions s /\
    s' = (if is_branch t
          then with_tags
                 (alter (set_branch_versions
                           (option_map (flush_tips fixups) (t_branch_versions t))) tg)
                 (with_stdout (stdout s ++ lines) s)
          else with_stdout (stdout s ++ lines) s).
Proof.
  intros Hnd Ht H.
  destruct (print_fixup_loop _ _ _ _ _ _ Hnd Ht H) as (lines & Hlines & Has & ->).
  exists lines. split; [exact Hlines|].
  unfold is_branch.
  destruct (t_branch_versions t) as [a|] eqn:Ea.
  - split; [reflexivity|]. split; [exact Has|]. split.
    + intros a0 Ha0. injection Ha0 as <-.
      exists (set_branch_versions (Some (flush_tips fixups a)) t), (flush_tips fixups a).
      split; [simpl; rewrite list_lookup_alter_eq, Ht; reflexivity|].
      split; [reflexivity|]. split; [reflexivity|]. split.
      * clear. revert a. induction fixups as [|e r IH]; intros a; [reflexivity|].
        unfold flush_tips. cbn [fold_left].
        fold (flush_tips r (<[fx_file e := fx_version e]> a)).
        rewrite IH, length_insert. reflexivity.
      * split.
        -- intros e He Hlen. apply flush_tips_lookup; assumption.
        -- intros j Hj. apply flush_tips_other, Hj.
    + split; [discriminate|].
      split; [intros u Hu; simpl; apply list_lookup_alter_ne; congruence|].
      do 10 (split; [reflexivity|]). reflexivity.
  - split; [reflexivity|]. split; [exact Has|].
    split; [discriminate|]. split; [reflexivity|].
    split; [reflexivity|].
    do 10 (split; [reflexivity|]). reflexivity.
Qed.

(** ** A branch is created ([print_tag]) *)

(** The branch that a changeset is on: the branch of the first version of
    a commit; for the changeset of a tag, the tag. *)
Definition branch_of (s : state) (c : cref) : option tref :=
  match c with
  | CCommit n =>
      p ← db_changesets s !! n;
      v0 ← head (cs_versions p);
      v ← db_versions s !! v0;
      v_branch v
  | CTag p => Some p
  end.

Lemma cref_eqb_eq a b : cref_eqb a b = true -> a = b.
Proof.
  destruct a, b; simpl; try discriminate;
    intros H; apply Nat.eqb_eq in H; congruence.
Qed.

(** The state in [print_tag] when it calls [create_fixups]: the tag is
    announced on stderr, the reset and from lines are written, the mark of
    the tag is [m] and its last changeset is its own. *)
Definition tag_reset (tg : tref) (t : tag) (m : Z) (s : state) : state :=
  with_tags (alter (set_tag_last (Some (CTag tg))) tg)
    (with_stdout
       (stdout s ++ [OReset (is_branch t) (ref_name t)]
          ++ (if m =? 0 then [] else [OFrom m]))
       (with_tags (alter (set_tag_mark m) tg)
          (with_stderr
             (stderr s ++ [ETag (cs_time (t_changeset t)) (is_branch t) (t_tag t)])
             s))).

Lemma branch_tag_inv tg s s' t :
  db_tags s !! tg = Some t ->
  is_branch t = true ->
  print_tag tg s = Ret tt s' ->
  exists m arr f s2,
    parent_mark s t = Some m /\
    create_fixups arr tg (tag_reset tg t m s) = Ret tt s2 /\
    s' = with_tags (alter (set_branch_versions (Some f)) tg) s2 /\
    match t_parent t with
    | None => arr = None /\ f = List.repeat None (length (db_files s))
    | Some p =>
        arr = Some f /\
        exists b bt, branch_of s p = Some b /\ db_tags s !! b = Some bt /\
                     t_last bt = Some p /\ t_branch_versions bt = Some f
    end.
Proof.
  intros Ht Hbr H. unfold print_tag in H.
  apply bind_Ret in H as (t0 & s0 & E & H).
  apply the_tag_Ret in E as [-> E]. rewrite Ht in E. injection E as <-.
  apply bind_Ret in H as ([] & s0 & E & H). apply modify_Ret in E. subst s0.
  set (s1 := with_stderr _ s) in *.
  apply bind_Ret in H as (branch & s0 & E & H).
  assert (Hb : s0 = s1 /\
               branch = match t_parent t with
                        | Some p => branch_of s p
                        | None => None
                        end).
  { destruct (t_parent t) as [[n|p]|].
    - apply bind_Ret in E as (pc & s2 & E0 & E).
      apply the_changeset_Ret in E0 as [-> E0].
      simpl in E0. unfold branch_of. rewrite E0. simpl.
      destruct (cs_versions pc) as [|v0 r]; [discriminate|].
      apply bind_Ret in E as (v & s2 & E1 & E).
      apply the_version_Ret in E1 as [-> E1].
      apply ret_Ret in E as [-> ->]. simpl in E1. simpl.
      rewrite E1. auto.
    - apply ret_Ret in E as [-> ->]. auto.
    - apply ret_Ret in E as [-> ->]. auto. }
  destruct Hb as [-> Hb]. clear E.
  apply bind_Ret in H as ([] & s0 & E & H).
  assert (Ha : s0 = s1 /\
               forall p, t_parent t = Some p ->
                 exists b bt, branch = Some b /\ db_tags s !! b = Some bt /\
                              t_last bt = Some p).
  { destruct (t_parent t) as [p|];
      [|apply ret_Ret in E as [-> _]; split; [reflexivity|discriminate]].
    destruct branch as [b|]; [|discriminate].
    apply bind_Ret in E as (bt & s2 & E0 & E).
    apply the_tag_Ret in E0 as [-> E0].
    apply assert_Ret in E as [-> Hl].
    split; [reflexivity|]. intros p' Hp'. injection Hp' as <-.
    exists b, bt. split; [reflexivity|]. split; [exact E0|].
    destruct (t_last bt) as [l|]; [|discriminate].
    f_equal. apply cref_eqb_eq. exact Hl. }
  destruct Ha as [-> Ha]. clear E.
  apply bind_Ret in H as ([] & s0 & E & H). apply modify_Ret in E. subst s0.
  apply bind_Ret in H as (m & s0 & E & H).
  assert (parent_mark s t = Some m /\
          s0 = with_stdout (stdout s1 ++ [OReset (is_branch t) (ref_name t)]) s1)
    as [Hm ->].
  { unfold parent_mark. destruct (t_parent t) as [p|].
    - apply bind_Ret in E as (pc & s2 & E0 & E).
      apply the_changeset_Ret in E0 as [-> E0].
      apply ret_Ret in E as [-> ->]. split; [|reflexivity].
      destruct p; simpl in *; rewrite E0; reflexivity.
    - apply ret_Ret in E as [-> ->]. auto. }
  clear E.
  apply bind_Ret in H as ([] & s0 & E & H). apply modify_Ret in E. subst s0.
  set (sa := with_tags (alter (set_tag_mark m) tg) _) in *.
  apply bind_Ret in H as ([] & s0 & E & H).
  assert (Hsb : s0 = with_stdout (stdout sa ++ (if m =? 0 then [] else [OFrom m])) sa).
  { destruct (m =? 0); simpl in E.
    - apply ret_Ret in E as [-> _]. rewrite app_nil_r. subst sa s1.
      destruct s; reflexivity.
    - apply modify_Ret in E as ->. reflexivity. }
  clear E. subst s0.
  apply bind_Ret in H as ([] & s0 & E & H). apply modify_Ret in E. subst s0.
  set (sb := with_tags (alter (set_tag_last (Some (CTag tg))) tg) _) in *.
  apply bind_Ret in H as (arr & s0 & E & H).
  pose proof (base_array_Ret _ _ _ _ E) as ->.
  assert (Hbase : match branch with
                  | Some b => exists bt, db_tags s !! b = Some bt /\
                                         arr = t_branch_versions bt
                  | None => arr = None
                  end).
  { unfold base_array in E. destruct branch as [b|].
    - apply bind_Ret in E as (bt & s2 & E0 & E).
      apply the_tag_Ret in E0 as [-> E0].
      apply ret_Ret in E as [_ ->].
      subst sb sa s1. simpl in E0.
      destruct (decide (b = tg)) as [->|Hne].
      + rewrite !list_lookup_alter_eq, Ht in E0. simpl in E0.
        injection E0 as <-. exists t. auto.
      + rewrite !list_lookup_alter_ne in E0 by congruence. eauto.
    - apply ret_Ret in E as [_ ->]. reflexivity. }
  clear E.
  apply bind_Ret in H as ([] & s2 & Ecf & H).
  assert (Hsb : sb = tag_reset tg t m s).
  { subst sb sa s1. unfold tag_reset. destruct s. unfold with_tags, with_stdout,
      with_stderr. simpl. rewrite <- app_assoc. reflexivity. }
  rewrite Hsb in Ecf. clear Hsb.
  rewrite Hbr in H.
  apply bind_Ret in H as (sg & s0 & E & H). apply get_Ret in E as [-> ->].
  destruct (t_parent t) as [p|] eqn:Ep.
  - destruct (Ha p eq_refl) as (b & bt & -> & Hbt & Hl).
    destruct Hbase as (bt' & Hbt' & ->). rewrite Hbt in Hbt'.
    injection Hbt' as Heq. subst bt'. revert H Ecf.
    destruct (t_branch_versions bt) as [f|] eqn:Ef; intros H Ecf; [|discriminate].
    apply modify_Ret in H. exists m, (Some f), f, s2. split; [exact Hm|].
    split; [exact Ecf|]. split; [exact H|]. split; [reflexivity|].
    exists b, bt. auto.
  - subst branch. subst arr. apply modify_Ret in H.
    assert (Hfiles : db_files s2 = db_files s).
    { destruct (create_fixups_Ret _ _ _ _ _ Ecf) as [fx ->]. reflexivity. }
    rewrite Hfiles in H.
    eexists m, None, _, s2. split; [exact Hm|]. split; [exact Ecf|].
    split; [exact H|]. auto.
Qed.

(** X14: [print_tag] on a branch.  When it returns, the tag was placed on
    no changeset, or on the last changeset of the branch of that changeset
    (the assertion); the reset line and, for a parent with a mark, its
    from line are the only output; the tag's tips are a copy of the tips
    of the parent's branch, or all empty at the root; its last changeset
    is its own, its mark the parent's, its fix-up cursor at the start; no
    other tag, no version and no changeset is touched. *)
Theorem print_tag_branch tg s s' t :
  db_tags s !! tg = Some t ->
  is_branch t = true ->
  print_tag tg s = Ret tt s' ->
  exists m t',
    parent_mark s t = Some m /\
    db_tags s' = <[tg := t']> (db_tags s) /\
    match t_parent t with
    | None =>
        t_branch_versions t' = Some (List.repeat None (length (db_files s)))
    | Some p =>
        exists b bt a,
          branch_of s p = Some b /\ db_tags s !! b = Some bt /\
          t_last bt = Some p /\
          t_branch_versions bt = Some a /\ t_branch_versions t' = Some a
    end /\
    t_last t' = Some (CTag tg) /\
    cs_mark (t_changeset t') = m /\
    t_fixups_curr t' = 0%nat /\
    (t_tag t', t_parent t', t_tag_files t', t_fixup t', t_is_released t')
    = (t_tag t, t_parent t, t_tag_files t, t_fixup t, t_is_released t) /\
    stdout s' = stdout s ++ [OReset true (ref_name t)]
                  ++ (if m =? 0 then [] else [OFrom m]) /\
    db_versions s' = db_versions s /\
    db_changesets s' = db_changesets s /\
    db_files s' = db_files s /\
    mark_counter s' = mark_counter s.
Proof.
  intros Ht Hbr H.
  destruct (branch_tag_inv _ _ _ _ Ht Hbr H)
    as (m & arr & f & s2 & Hm & Hcf & -> & Hp).
  apply create_fixups_Ret in Hcf as [fx ->].
  exists m, (set_branch_versions (Some f)
               (set_fixups fx 0 (set_tag_last (Some (CTag tg)) (set_tag_mark m t)))).
  split; [exact Hm|]. split.
  { unfold tag_reset. simpl. rewrite !list_alter_alter_eq.
    apply list_eq. intros i. destruct (decide (i = tg)) as [->|Hne].
    - rewrite list_lookup_alter_eq, Ht.
      rewrite list_lookup_insert_eq by (apply lookup_lt_Some in Ht; exact Ht).
      reflexivity.
    - rewrite list_lookup_alter_ne, list_lookup_insert_ne by congruence.
      reflexivity. }
  split.
  { destruct (t_parent t) as [p|].
    - destruct Hp as (_ & b & bt & ? & ? & ? & ?). exists b, bt, f. auto.
    - destruct Hp as [_ ->]. reflexivity. }
  unfold tag_reset. simpl. rewrite Hbr.
  repeat (split; [reflexivity|]). reflexivity.
Qed.

(** ** A worked history *)

Module Sample.
Import Scenario.

(** Two files.  The trunk has [a] at 1.1 and 1.2 and [c] at 1.1; branch
    [b] is placed on the third commit and names [a] at 1.1 and [c] at 1.1,
    so one fix-up is pending; its only commit is [a] at 1.1.2.1. *)
Definition history : state :=
  start [mkFile "a" (heap 0); mkFile "c" (heap 1)]
    [ver 0 "1.1" 0 10; ver 0 "1.2" 0 12; ver 1 "1.1" 0 20; ver 0 "1.1.2.1" 1 30]
    [branch "" 2 None [] 0; branch "b" 2 (Some (CCommit 2)) [0; 2]%nat 25]
    [commit 10 [0%nat]; commit 12 [1%nat]; commit 20 [2%nat]; commit 30 [3%nat]]
    (created "a" "1.1" "x" +:+ ok +:+ created "a" "1.2" "y" +:+ ok
     +:+ created "c" "1.1" "z" +:+ ok +:+ created "a" "1.1.2.1" "w" +:+ ok).

Definition schedule : list cref :=
  [CTag 0; CCommit 0; CCommit 1; CCommit 2; CTag 1; CCommit 3]%nat.

Definition emitted : state := final (emit_all schedule history).

(** The trunk has been emitted up to the point of the branch. *)
Definition trunk_emitted : state :=
  final ((initialise ;;;
          for_each [CTag 0; CCommit 0; CCommit 1; CCommit 2]%nat emit_changeset)
           history).


(** Tag [b] at that point. *)
Definition branch_b : tag :=
  mkTag "b" (Some [Some 0; Some 2]%nat) (Some (CCommit 2)) [0; 2]%nat None
    false false (mkChangeset 25 [] SIZE_MAX) [] 0.

(** Branch [b] has been created at the tips of the trunk, with its fix-up
    pending. *)
Definition branch_created : state := final (print_tag 1 trunk_emitted).

Definition branch_b_created : tag :=
  mkTag "b" (Some [Some 1; Some 2]%nat) (Some (CCommit 2)) [0; 2]%nat
    (Some (CTag 1)) false false (mkChangeset 25 [] 6)
    [mkFixup 0 (Some 0%nat) 10] 0.

(** The lines of the fix-up of [b] have been written after that. *)
Definition fixup_written : state :=
  final (for_each [mkFixup 0 (Some 0%nat) 10] (print_fixup (Some 0%nat) 1%nat)
           branch_created).

(** One file, whose version 1.1 has not been fetched. *)
Definition one_file (replies : string) : state :=
  start [mkFile "a" (heap 0)] [ver 0 "1.1" 0 10] [branch "" 1 None [] 0] [] replies.

(** An update response of the server for it, after its first line. *)
Definition update_reply : string :=
  lines ["/repo/a"; "/a/1.1///"; "u=rwx,g=r,o=r"; "2"] +:+ "hi" +:+ ok.

Definition update_pending : state :=
  with_input update_reply "Created ./" (one_file "").

(** The server sends the same version once more. *)
Definition update_repeated : state :=
  with_input update_reply "Created ./" (final (read_version update_pending)).

Definition one_wanted : state := one_file (created "a" "1.1" "hi" +:+ ok).

(** Two files at 1.1, both sent by the server. *)
Definition two_wanted : state :=
  start [mkFile "d/a" (heap 0); mkFile "b" (heap 1)]
    [ver 0 "1.1" 0 10; ver 1 "1.1" 0 10]
    [branch "" 2 None [] 0] []
    (lines ["Created d/"; "/repo/d/a"; "/a/1.1///"; "u=rw,g=r,o=r"; "1"] +:+ "x"
     +:+ created "b" "1.1" "yy" +:+ ok).

(** Three files at 1.1, whose paths were allocated in the order [a/x],
    [b/y], [a/z]; the server sends none of them. *)
Definition three_wanted : state :=
  start [mkFile "a/x" (heap 0); mkFile "b/y" (heap 1); mkFile "a/z" (heap 2)]
    [ver 0 "1.1" 0 10; ver 1 "1.1" 0 10; ver 2 "1.1" 0 10]
    [branch "" 3 None [] 0] [] ok.

(** Two versions on the trunk, 100 seconds apart, both sent for the
    request by date. *)
Definition two_by_date : state :=
  start [mkFile "a" (heap 0); mkFile "b" (heap 1)]
    [ver 0 "1.1" 0 1000; ver 1 "1.2" 0 1100]
    [branch "" 2 None [] 0] []
    (created "a" "1.1" "x" +:+ created "b" "1.2" "yy" +:+ ok).

End Sample.

(** ** The theorems on the worked history *)

Lemma emit_all_marks_consecutive_witness :
  0 <= mark_counter Sample.emitted /\
  emitted_marks Sample.emitted
  = map Z.of_nat (seq 1 (Z.to_nat (mark_counter Sample.emitted))) /\
  length (emitted_marks Sample.emitted) = Z.to_nat (mark_counter Sample.emitted).
Proof.
  apply (emit_all_marks_consecutive Sample.schedule Sample.history).
  - reflexivity.
  - reflexivity.
  - vm_compute. reflexivity.
Defined.

Lemma emit_all_one_blob_per_version_witness :
  Permutation (blob_marks (stdout Sample.emitted)) (version_marks Sample.emitted) /\
  NoDup (version_marks Sample.emitted).
Proof.
  apply (emit_all_one_blob_per_version Sample.schedule Sample.history).
  - repeat constructor.
  - reflexivity.
  - reflexivity.
  - vm_compute. reflexivity.
Defined.

Lemma read_version_first_fetch_witness :
  exists s',
    read_version Sample.update_pending = Ret tt s' /\
    db_versions s'
    = alter (fun x => set_version_mark (mark_counter Sample.update_pending + 1)
                        (set_version_exec (mode_exec "u=rwx,g=r,o=r") x))
        0%nat (db_versions Sample.update_pending) /\
    mark_counter s' = mark_counter Sample.update_pending + 1 /\
    stdout s' = stdout Sample.update_pending
                  ++ [OBlob (mark_counter Sample.update_pending + 1)
                        (Z.of_nat (String.length "hi"));
                      OBytes "hi"; ONewline] /\
    s_in s' = Scenario.ok /\
    count_versions s' = count_versions Sample.update_pending + 1 /\
    stderr s' = stderr Sample.update_pending /\
    s_sent s' = s_sent Sample.update_pending /\
    db_files s' = db_files Sample.update_pending /\
    db_tags s' = db_tags Sample.update_pending /\
    db_changesets s' = db_changesets Sample.update_pending.
Proof.
  apply (read_version_first_fetch "Created " "./" "/repo/a" "a" "1.1" "//"
           "u=rwx,g=r,o=r" "2" "hi" Scenario.ok Sample.update_pending
           0%nat 0%nat (Scenario.ver 0 "1.1" 0 10)).
  - simpl. auto.
  - reflexivity.
  - reflexivity.
  - reflexivity.
  - reflexivity.
  - reflexivity.
  - reflexivity.
  - reflexivity.
  - reflexivity.
  - reflexivity.
  - vm_compute. discriminate.
  - reflexivity.
  - reflexivity.
  - reflexivity.
  - reflexivity.
  - reflexivity.
  - vm_compute. reflexivity.
Defined.

Lemma read_version_duplicate_witness :
  exists s',
    read_version Sample.update_repeated = Ret tt s' /\
    stdout s' = stdout Sample.update_repeated /\
    mark_counter s' = mark_counter Sample.update_repeated /\
    db_versions s'
    = alter (set_version_exec (mode_exec "u=rwx,g=r,o=r")) 0%nat
        (db_versions Sample.update_repeated) /\
    stderr s' = stderr Sample.update_repeated
                  ++ [EDuplicate (update_directory "./" +:+ "a") "1.1"] /\
    s_in s' = Scenario.ok /\
    count_versions s' = count_versions Sample.update_repeated + 1.
Proof.
  apply (read_version_duplicate "Created " "./" "/repo/a" "a" "1.1" "//"
           "u=rwx,g=r,o=r" "2" "hi" Scenario.ok Sample.update_repeated
           0%nat 0%nat
           (mkVersion 0 "1.1" None (Some 0%nat) "u" "log" 10 false true true 1)).
  - simpl. auto.
  - reflexivity.
  - reflexivity.
  - reflexivity.
  - reflexivity.
  - reflexivity.
  - reflexivity.
  - reflexivity.
  - reflexivity.
  - reflexivity.
  - vm_compute. discriminate.
  - reflexivity.
  - reflexivity.
  - reflexivity.
  - vm_compute. reflexivity.
  - vm_compute. discriminate.
Defined.

Lemma grab_version_request_witness :
  exists v,
    db_versions Sample.one_wanted !! 0%nat = Some v /\
    if v_mark v =? SIZE_MAX then
      exists f,
        db_files Sample.one_wanted !! v_file v = Some f /\
        marked 0 (final (grab_version (Some 0%nat) Sample.one_wanted)) /\
        s_sent (final (grab_version (Some 0%nat) Sample.one_wanted))
        = s_sent Sample.one_wanted ++ announced Sample.one_wanted v (f_path f)
            ++ [QMainDirectory; QArg_kk; QArg_r (v_version v); QArg_dashdash;
                QArg (f_path f); QUpdate]
    else final (grab_version (Some 0%nat) Sample.one_wanted) = Sample.one_wanted.
Proof.
  apply (grab_version_request (Some 0%nat) Sample.one_wanted).
  vm_compute. reflexivity.
Defined.

Lemma grab_by_option_request_witness :
  [0; 1]%nat <> [] /\
  Forall (fetchable Sample.two_wanted) [0; 1]%nat /\
  exists files sorted,
    Forall2 (fun i f => fetch_file Sample.two_wanted i = Some f) [0; 1]%nat files /\
    Permutation files sorted /\
    StronglySorted (fun a b => strcmp_le (f_path_ptr a) (f_path_ptr b) = true) sorted /\
    s_sent (final (grab_by_option (Some "1.1") None [0; 1]%nat Sample.two_wanted))
    = s_sent Sample.two_wanted ++ directories None (map f_path sorted)
        ++ [QMainDirectory] ++ opt_arg QArg_r (Some "1.1") ++ []
        ++ [QArg_kk; QArg_dashdash] ++ map QArg (map f_path sorted) ++ [QUpdate].
Proof.
  apply (grab_by_option_request (Some "1.1") None [0; 1]%nat Sample.two_wanted).
  vm_compute. reflexivity.
Defined.

(** The order of the request is that of the pointers: [a/z] is sent last
    and directory [a] is declared twice, where the order of the paths
    would have [a/z] second. *)
Lemma pointer_order_example :
  exists s',
    grab_by_option (Some "1.1") None [2; 1; 0]%nat Sample.three_wanted = Ret tt s' /\
    s_sent s' = [QDirectory "a"; QDirectory "b"; QDirectory "a"; QMainDirectory;
                 QArg_r "1.1"; QArg_kk; QArg_dashdash;
                 QArg "a/x"; QArg "b/y"; QArg "a/z"; QUpdate] /\
    ARRAY_SORT strcmp_le ["a/x"; "b/y"; "a/z"] = ["a/x"; "a/z"; "b/y"].
Proof.
  eexists. split; [vm_compute; reflexivity|]. split; vm_compute; reflexivity.
Qed.

Lemma grab_versions_fetches_all_witness :
  (forall i, In i [0; 1]%nat ->
     marked i (final (grab_versions [0; 1]%nat Sample.two_by_date))) /\
  (forall i m, m <> SIZE_MAX -> has_mark i m Sample.two_by_date ->
     has_mark i m (final (grab_versions [0; 1]%nat Sample.two_by_date))) /\
  db_files (final (grab_versions [0; 1]%nat Sample.two_by_date))
  = db_files Sample.two_by_date /\
  db_tags (final (grab_versions [0; 1]%nat Sample.two_by_date))
  = db_tags Sample.two_by_date /\
  db_changesets (final (grab_versions [0; 1]%nat Sample.two_by_date))
  = db_changesets Sample.two_by_date /\
  mark_counter Sample.two_by_date
  <= mark_counter (final (grab_versions [0; 1]%nat Sample.two_by_date)).
Proof.
  apply (grab_versions_fetches_all [0; 1]%nat Sample.two_by_date).
  - vm_compute. reflexivity.
  - left. reflexivity.
Defined.

Lemma fixup_commit_comment_assertion_witness :
  match fixup_commit_comment (Some [Some 1; Some 2]%nat)
          [mkFixup 0 (Some 0%nat) 10] Sample.history with
  | Ret _ _ =>
      Forall (fun e => redundant (db_versions Sample.history)
                         (Some [Some 1; Some 2]%nat) e = false)
        [mkFixup 0 (Some 0%nat) 10]
  | Abort (AssertFailed _) _ =>
      Exists (fun e => redundant (db_versions Sample.history)
                         (Some [Some 1; Some 2]%nat) e = true)
        [mkFixup 0 (Some 0%nat) 10]
  | Abort _ _ => True
  end.
Proof.
  apply (fixup_commit_comment_assertion Sample.history
           (Some [Some 1; Some 2]%nat) [mkFixup 0 (Some 0%nat) 10]).
  - reflexivity.
  - repeat constructor.
Defined.

Lemma create_fixups_entries_witness :
  exists fixups,
    create_fixups (Some [Some 1; Some 2]%nat) 1 Sample.trunk_emitted
    = Ret tt (with_tags (alter (set_fixups fixups 0) 1%nat) Sample.trunk_emitted) /\
    NoDup (map fx_file fixups) /\
    Forall (entry_ok (db_versions Sample.trunk_emitted)
              (length (db_files Sample.trunk_emitted))
              (Some [Some 1; Some 2]%nat)) fixups /\
    (fixups = [] <->
     forall f, (f < length (db_files Sample.trunk_emitted))%nat ->
       version_live (db_versions Sample.trunk_emitted)
         (base_at (Some [Some 1; Some 2]%nat) f)
       = version_live (db_versions Sample.trunk_emitted)
           (target (db_versions Sample.trunk_emitted)
              (t_tag_files Sample.branch_b) f)).
Proof.
  apply (create_fixups_entries Sample.trunk_emitted 1%nat Sample.branch_b
           (Some [Some 1; Some 2]%nat)).
  - vm_compute. reflexivity.
  - reflexivity.
  - vm_compute. reflexivity.
  - vm_compute. reflexivity.
Defined.

Lemma print_fixups_lines_witness :
  exists lines,
    Forall2 (fun e o => fixup_line Sample.branch_created (Some 0%nat) e = Some o)
      [mkFixup 0 (Some 0%nat) 10] lines /\
    stdout Sample.fixup_written = stdout Sample.branch_created ++ lines /\
    Forall (fun e => option_vref_eqb (fx_version e)
                       (base_live_at Sample.branch_created (Some 0%nat) (fx_file e))
                     = false)
      [mkFixup 0 (Some 0%nat) 10] /\
    (forall a, t_branch_versions Sample.branch_b_created = Some a ->
       exists t' a',
         db_tags Sample.fixup_written !! 1%nat = Some t' /\
         t_branch_versions t' = Some a' /\
         t' = set_branch_versions (Some a') Sample.branch_b_created /\
         length a' = length a /\
         (forall e, e ∈ [mkFixup 0 (Some 0%nat) 10] ->
            (fx_file e < length a)%nat -> a' !! fx_file e = Some (fx_version e)) /\
         forall j, j ∉ map fx_file [mkFixup 0 (Some 0%nat) 10] -> a' !! j = a !! j) /\
    (t_branch_versions Sample.branch_b_created = None ->
     db_tags Sample.fixup_written = db_tags Sample.branch_created) /\
    (forall u, u <> 1%nat ->
       db_tags Sample.fixup_written !! u = db_tags Sample.branch_created !! u) /\
    db_versions Sample.fixup_written = db_versions Sample.branch_created /\
    db_files Sample.fixup_written = db_files Sample.branch_created /\
    db_changesets Sample.fixup_written = db_changesets Sample.branch_created /\
    mark_counter Sample.fixup_written = mark_counter Sample.branch_created /\
    s_sent Sample.fixup_written = s_sent Sample.branch_created /\
    stderr Sample.fixup_written = stderr Sample.branch_created /\
    s_in Sample.fixup_written = s_in Sample.branch_created /\
    s_line Sample.fixup_written = s_line Sample.branch_created /\
    count_versions Sample.fixup_written = count_versions Sample.branch_created /\
    count_transactions Sample.fixup_written = count_transactions Sample.branch_created /\
    Sample.fixup_written
    = (if is_branch Sample.branch_b_created
       then with_tags
              (alter (set_branch_versions
                        (option_map (flush_tips [mkFixup 0 (Some 0%nat) 10])
                           (t_branch_versions Sample.branch_b_created))) 1%nat)
              (with_stdout (stdout Sample.branch_created ++ lines) Sample.branch_created)
       else with_stdout (stdout Sample.branch_created ++ lines) Sample.branch_created).
Proof.
  apply (print_fixups_lines (Some 0%nat) 1%nat [mkFixup 0 (Some 0%nat) 10]
           Sample.branch_created _ Sample.branch_b_created).
  - repeat constructor. intros H. inversion H.
  - vm_compute. reflexivity.
  - vm_compute. reflexivity.
Defined.

Lemma print_tag_branch_witness :
  exists m t',
    parent_mark Sample.trunk_emitted Sample.branch_b = Some m /\
    db_tags Sample.branch_created = <[1%nat := t']> (db_tags Sample.trunk_emitted) /\
    (exists b bt a,
       branch_of Sample.trunk_emitted (CCommit 2) = Some b /\
       db_tags Sample.trunk_emitted !! b = Some bt /\
       t_last bt = Some (CCommit 2) /\
       t_branch_versions bt = Some a /\ t_branch_versions t' = Some a) /\
    t_last t' = Some (CTag 1) /\
    cs_mark (t_changeset t') = m /\
    t_fixups_curr t' = 0%nat /\
    (t_tag t', t_parent t', t_tag_files t', t_fixup t', t_is_released t')
    = (t_tag Sample.branch_b, t_parent Sample.branch_b,
       t_tag_files Sample.branch_b, t_fixup Sample.branch_b,
       t_is_released Sample.branch_b) /\
    stdout Sample.branch_created
    = stdout Sample.trunk_emitted ++ [OReset true (ref_name Sample.branch_b)]
        ++ (if m =? 0 then [] else [OFrom m]) /\
    db_versions Sample.branch_created = db_versions Sample.trunk_emitted /\
    db_changesets Sample.branch_created = db_changesets Sample.trunk_emitted /\
    db_files Sample.branch_created = db_files Sample.trunk_emitted /\
    mark_counter Sample.branch_created = mark_counter Sample.trunk_emitted.
Proof.
  apply (print_tag_branch 1%nat Sample.trunk_emitted Sample.branch_created
           Sample.branch_b).
  - vm_compute. reflexivity.
  - reflexivity.
  - vm_compute. reflexivity.
Defined.

(** ** Creating a branch and flushing its fix-ups *)

Lemma version_live_idem vs v :
  version_live vs (version_live vs v) = version_live vs v.
Proof.
  destruct (version_live vs v) as [i|] eqn:E; [|reflexivity].
  destruct (version_live_Some _ _ _ E) as (x & Hx & Hd).
  simpl. rewrite Hx, Hd. reflexivity.
Qed.

Lemma wanted_fixup_version vs base tf f e :
  wanted_fixup vs base tf f = Some e ->
  fx_file e = f /\ fx_version e = version_live vs (target vs tf f).
Proof.
  unfold wanted_fixup. destruct (option_vref_eqb _ _); [discriminate|].
  intros H. injection H as <-. auto.
Qed.

Lemma wanted_fixup_None vs base tf f :
  wanted_fixup vs base tf f = None ->
  version_live vs (base_at base f) = version_live vs (target vs tf f).
Proof.
  unfold wanted_fixup. destruct (option_vref_eqb _ _) eqn:E; [|discriminate].
  intros _. apply option_vref_eqb_eq, E.
Qed.

Lemma lookup_repeat {A} (x : A) n : forall i o,
  List.repeat x n !! i = Some o -> o = x.
Proof.
  induction n as [|n IH]; intros i o H; [destruct i; discriminate|].
  destruct i as [|i]; simpl in H.
  - injection H as <-. reflexivity.
  - exact (IH i o H).
Qed.

(** X15: a branch is created by [print_tag] and the last loop of
    [print_fixups] is then run over all the fix-ups stored for it.  When
    both return, the tip of the branch for every file is the version the
    tag names for the file, up to dead versions counting as none: the
    fix-ups make up exactly the difference between the parent branch and
    the tag. *)
Theorem branch_fixups_restore_tag tg s s1 s' t t1 :
  db_tags s !! tg = Some t ->
  is_branch t = true ->
  tag_files_ok (db_versions s) (length (db_files s)) 0 (t_tag_files t) = true ->
  (forall p b bt, t_parent t = Some p -> branch_of s p = Some b ->
     db_tags s !! b = Some bt ->
     base_ok (db_versions s) (length (db_files s)) (t_branch_versions bt) = true) ->
  print_tag tg s = Ret tt s1 ->
  db_tags s1 !! tg = Some t1 ->
  for_each (t_fixups t1) (print_fixup (Some tg) tg) s1 = Ret tt s' ->
  forall f, (f < length (db_files s))%nat ->
    live s' (tip s' tg f)
    = version_live (db_versions s) (target (db_versions s) (t_tag_files t) f).
Proof.
  intros Ht Hbr Htf Hbase Hpt Ht1 Hloop f0 Hf0.
  destruct (branch_tag_inv _ _ _ _ Ht Hbr Hpt)
    as (m & arr & a & s2 & _ & Hcf & -> & Hp).
  set (vs := db_versions s) in *. set (n := length (db_files s)) in *.
  (* the base of [create_fixups] and the array copied *)
  assert (Harr : base_ok vs n arr = true /\ length a = n /\
                 forall f, base_at arr f = default None (a !! f)).
  { destruct (t_parent t) as [p|].
    - destruct Hp as (-> & b & bt & Hb & Hbt & _ & Ha).
      pose proof (Hbase p b bt eq_refl Hb Hbt) as Hok. rewrite Ha in Hok.
      split; [exact Hok|]. split; [|reflexivity].
      simpl in Hok. apply andb_true_iff in Hok as [Hlen _].
      apply Nat.eqb_eq, Hlen.
    - destruct Hp as [-> ->]. split; [reflexivity|].
      split; [apply repeat_length|].
      intros f. simpl. destruct (List.repeat None n !! f) as [o|] eqn:E;
        [|reflexivity].
      apply lookup_repeat in E. subst o. reflexivity. }
  destruct Harr as (Hok & Hlen & Hat).
  (* the fix-ups stored *)
  set (wanted := omap (wanted_fixup vs arr (t_tag_files t)) (seq 0 n)).
  assert (Hs2 : s2 = with_tags
                  (alter (set_fixups (ARRAY_SORT compare_fixup_by_time wanted) 0) tg)
                  (tag_reset tg t m s)).
  { unfold create_fixups in Hcf.
    apply bind_Ret in Hcf as (tb & sx & E & Hcf).
    apply the_tag_Ret in E as [-> E].
    unfold tag_reset in E. simpl in E.
    rewrite !list_lookup_alter_eq, Ht in E. simpl in E. injection E as <-.
    apply bind_Ret in Hcf as ([] & sx & E & Hcf).
    apply assert_Ret in E as [-> _].
    apply bind_Ret in Hcf as (sg & sx & E & Hcf).
    apply get_Ret in E as [-> ->].
    change (db_versions (tag_reset tg t m s)) with vs in Hcf.
    change (length (db_files (tag_reset tg t m s))) with n in Hcf.
    change (t_tag_files (set_tag_last (Some (CTag tg)) (set_tag_mark m t)))
      with (t_tag_files t) in Hcf.
    rewrite (create_fixups_from_wanted vs arr n n Hok 0%nat _ eq_refl Htf) in Hcf.
    apply modify_Ret in Hcf. exact Hcf. }
  subst s2.
  set (fx := ARRAY_SORT compare_fixup_by_time wanted) in *.
  assert (Hperm : Permutation wanted fx) by apply ARRAY_SORT_perm.
  assert (Hnd : NoDup (map fx_file fx)).
  { rewrite <- Hperm.
    eapply sublist_NoDup; [apply NoDup_seq | apply wanted_files_sublist]. }
  assert (Et1 : t1 = set_branch_versions (Some a)
                       (set_fixups fx 0
                          (set_tag_last (Some (CTag tg)) (set_tag_mark m t)))).
  { unfold tag_reset in Ht1. simpl in Ht1.
    rewrite !list_lookup_alter_eq, Ht in Ht1. simpl in Ht1.
    injection Ht1 as <-. reflexivity. }
  assert (Hfx : t_fixups t1 = fx) by (rewrite Et1; reflexivity).
  rewrite Hfx in Hloop.
  assert (Hb1 : is_branch t1 = true) by (rewrite Et1; reflexivity).
  assert (Ebv : t_branch_versions t1 = Some a) by (rewrite Et1; reflexivity).
  set (s1 := with_tags (alter (set_branch_versions (Some a)) tg) _) in *.
  assert (Hvs1 : db_versions s1 = vs) by reflexivity.
  clearbody s1.
  destruct (print_fixup_loop _ _ _ _ _ _ Hnd Ht1 Hloop) as (lines & _ & _ & ->).
  rewrite Hb1. unfold live, tip.
  cbn [db_tags db_versions with_tags with_stdout].
  rewrite list_lookup_alter_eq, Ht1, Ebv, Hvs1.
  cbn [fmap option_fmap option_map t_branch_versions set_branch_versions].
  destruct (wanted_fixup vs arr (t_tag_files t) f0) as [e|] eqn:Ew.
  - destruct (wanted_fixup_version _ _ _ _ _ Ew) as [Hfile Hver].
    assert (He : e ∈ fx).
    { rewrite <- Hperm. apply list_elem_of_omap. exists f0.
      split; [apply elem_of_seq; lia | exact Ew]. }
    pose proof (flush_tips_lookup fx a e Hnd He) as Hl.
    rewrite Hfile in Hl. rewrite Hl by lia. simpl.
    rewrite Hver. apply version_live_idem.
  - assert (Hout : f0 ∉ map fx_file fx).
    { intros Hin. apply list_elem_of_fmap in Hin as (e & Hfile & He).
      rewrite <- Hperm in He. apply list_elem_of_omap in He as (f & _ & Hw).
      destruct (wanted_fixup_version _ _ _ _ _ Hw) as [Hf _].
      rewrite Hf in Hfile. subst f. rewrite Ew in Hw. discriminate. }
    rewrite (flush_tips_other fx a f0 Hout), <- Hat.
    apply wanted_fixup_None, Ew.
Qed.

Lemma branch_fixups_restore_tag_witness :
  live (final (for_each (t_fixups Sample.branch_b_created)
                 (print_fixup (Some 1%nat) 1%nat) Sample.branch_created))
    (tip (final (for_each (t_fixups Sample.branch_b_created)
                   (print_fixup (Some 1%nat) 1%nat) Sample.branch_created))
       1%nat 0%nat)
  = version_live (db_versions Sample.trunk_emitted)
      (target (db_versions Sample.trunk_emitted)
         (t_tag_files Sample.branch_b) 0%nat).
Proof.
  apply (branch_fixups_restore_tag 1%nat Sample.trunk_emitted Sample.branch_created
           _ Sample.branch_b Sample.branch_b_created).
  - vm_compute. reflexivity.
  - reflexivity.
  - vm_compute. reflexivity.
  - intros p b bt Hp Hb Hbt. injection Hp as <-.
    vm_compute in Hb. injection Hb as <-.
    vm_compute in Hbt. injection Hbt as <-. vm_compute. reflexivity.
  - vm_compute. reflexivity.
  - vm_compute. reflexivity.
  - vm_compute. reflexivity.
  - vm_compute. lia.
Defined.

(** ** The data of a blob has the length announced *)

(** Every blob header in the output is followed by a block of bytes of
    the length it announces, and a newline. *)
Definition blobs_framed (out : list out_item) : Prop :=
  forall i m len,
    out !! i = Some (OBlob m len) ->
    exists body,
      out !! S i = Some (OBytes body) /\
      Z.of_nat (String.length body) = len /\
      out !! S (S i) = Some ONewline.

Definition framed (s : state) : Prop := blobs_framed (stdout s).

Lemma blobs_framed_snoc out o :
  marks_of_item o = [] -> blobs_framed out -> blobs_framed (out ++ [o]).
Proof.
  intros Ho H i m len Hi.
  assert (Hlt : (i < length out)%nat).
  { destruct (decide (i < length out)%nat) as [|Hge]; [assumption|].
    rewrite lookup_app_r in Hi by lia.
    destruct (i - length out)%nat as [|k]; simpl in Hi; [|destruct k; discriminate].
    injection Hi as ->. discriminate. }
  rewrite lookup_app_l in Hi by exact Hlt.
  destruct (H i m len Hi) as (body & H1 & Hlen & H2).
  exists body. split; [|split; [exact Hlen|]].
  - apply lookup_app_l_Some, H1.
  - apply lookup_app_l_Some, H2.
Qed.

Lemma blobs_framed_mark out m :
  blobs_framed out -> blobs_framed (out ++ [OMark m]).
Proof.
  intros H i m' len Hi.
  assert (Hlt : (i < length out)%nat).
  { destruct (decide (i < length out)%nat) as [|Hge]; [assumption|].
    rewrite lookup_app_r in Hi by lia.
    destruct (i - length out)%nat as [|k]; simpl in Hi; [|destruct k; discriminate].
    discriminate. }
  rewrite lookup_app_l in Hi by exact Hlt.
  destruct (H i m' len Hi) as (body & H1 & Hlen & H2).
  exists body. split; [|split; [exact Hlen|]].
  - apply lookup_app_l_Some, H1.
  - apply lookup_app_l_Some, H2.
Qed.

Lemma blobs_framed_blob out m body :
  blobs_framed out ->
  blobs_framed (out ++ [OBlob m (Z.of_nat (String.length body)); OBytes body; ONewline]).
Proof.
  intros H i m' len Hi.
  destruct (decide (i < length out)%nat) as [Hlt|Hge].
  - rewrite lookup_app_l in Hi by exact Hlt.
    destruct (H i m' len Hi) as (b & H1 & Hlen & H2).
    exists b. split; [|split; [exact Hlen|]].
    + apply lookup_app_l_Some, H1.
    + apply lookup_app_l_Some, H2.
  - rewrite lookup_app_r in Hi by lia.
    destruct (i - length out)%nat as [|[|[|k]]] eqn:Ek; simpl in Hi; try discriminate.
    injection Hi as <- <-.
    assert (i = length out) as -> by lia.
    exists body. split; [|split; [reflexivity|]].
    + rewrite lookup_app_r by lia.
      replace (S (length out) - length out)%nat with 1%nat by lia. reflexivity.
    + rewrite lookup_app_r by lia.
      replace (S (S (length out)) - length out)%nat with 2%nat by lia. reflexivity.
Qed.

Lemma take_length_le n : forall s,
  (n <= String.length s)%nat -> String.length (CString.take n s) = n.
Proof.
  induction n as [|n IH]; intros s H; [destruct s; reflexivity|].
  destruct s as [|c s]; simpl in *; [lia|].
  rewrite IH by lia. reflexivity.
Qed.

Lemma digits_nonneg s : forall acc, 0 <= acc -> 0 <= (digits acc s).1.1.
Proof.
  induction s as [|c s IH]; intros acc Hacc; [exact Hacc|].
  cbn [digits]. destruct (digit c) as [d|] eqn:Ed; [|exact Hacc].
  assert (Hd : 0 <= d).
  { unfold digit in Ed. destruct (_ && _) eqn:E; [|discriminate].
    injection Ed as <-. apply andb_true_iff in E as [E _]. lia. }
  match goal with
  | |- context [digits ?a s] => specialize (IH a)
  end.
  destruct (digits _ s) as [[v n] t]. simpl in *. apply IH.
  destruct (ULONG_MAX <? acc * 10 + d); [unfold ULONG_MAX|]; lia.
Qed.

Lemma strtoul_nonneg s : 0 <= (strtoul s).1.
Proof.
  unfold strtoul.
  destruct (match skip_space s with
            | String "-" r => (true, r)
            | String "+" r => (false, r)
            | _ => (false, skip_space s)
            end) as [neg s2].
  pose proof (digits_nonneg s2 0 ltac:(lia)) as H.
  destruct (digits 0 s2) as [[v n] t]. simpl in H.
  destruct n; [simpl; lia|].
  destruct (ULONG_MAX <? v); [unfold ULONG_MAX; simpl; lia|].
  destruct neg; simpl; [|exact H].
  apply Z.mod_pos_bound. lia.
Qed.

Lemma framed_read_blob version path vers len :
  0 <= len -> keeps framed any_abort (read_blob version path vers len).
Proof.
  intros Hlen s H. unfold read_blob, bind, the_version.
  destruct (db_versions s !! version) as [v|]; [|exact Logic.I].
  destruct (v_mark v =? SIZE_MAX).
  - unfold next_mark. destruct (_ <? _); [exact Logic.I|].
    unfold update_version, printf, modify, cvs_read_block. cbn beta iota.
    match goal with
    | |- context [if ?c then Abort _ _ else _] => destruct c eqn:Ec; [exact Logic.I|]
    end.
    unfold framed in *. cbn [stdout with_stdout with_input with_versions
                               with_mark_counter with_counts s_in s_line] in *.
    apply Z.ltb_ge in Ec.
    rewrite <- !app_assoc. cbn [app].
    replace len with (Z.of_nat (String.length (CString.take (Z.to_nat len) (s_in s))))
      at 1.
    + apply blobs_framed_blob, H.
    + rewrite take_length_le by lia. lia.
  - unfold eprintf, modify, cvs_read_block. simpl.
    match goal with
    | |- context [if ?c then Abort _ _ else _] => destruct c; [exact Logic.I|]
    end.
    exact H.
Qed.

Lemma framed_read_version : keeps framed any_abort read_version.
Proof.
  assert (Hl : keeps framed any_abort next_line).
  { apply keeps_next_line_input; auto. }
  unfold read_version.
  apply keeps_bind; [apply keeps_line|]. intros l.
  destruct (starts_with l "Removed "); [exact Hl|].
  destruct (starts_with l "Checked-in ");
    [apply keeps_bind; [exact Hl | intros _; exact Hl]|].
  destruct (_ && _); [apply keeps_fatal; auto|]. cbv zeta.
  apply keeps_bind; [exact Hl|]. intros _.
  apply keeps_bind; [exact Hl|]. intros _.
  apply keeps_bind; [apply keeps_line|]. intros l1.
  destruct (negb _); [apply keeps_fatal; auto|].
  destruct (strchr _ "/"); [|apply keeps_fatal; auto].
  destruct (strchr _ "/"); [|apply keeps_fatal; auto].
  apply keeps_bind; [apply keeps_get|]. intros s0.
  destruct (database_find_file _ _); [|apply keeps_fatal; auto].
  destruct (file_find_version _ _ _); [|apply keeps_fatal; auto].
  apply keeps_bind; [exact Hl|]. intros _.
  apply keeps_bind; [apply keeps_line|]. intros l2.
  destruct (negb _); [apply keeps_fatal; auto|].
  apply keeps_bind; [apply keeps_modify; intros s1 H1; exact H1|]. intros _.
  apply keeps_bind; [exact Hl|]. intros _.
  apply keeps_bind; [apply keeps_line|]. intros l3.
  pose proof (strtoul_nonneg l3) as Hn.
  destruct (strtoul l3) as [len tail]. simpl in Hn.
  destruct (_ || _); [apply keeps_fatal; auto|].
  apply framed_read_blob, Hn.
Qed.

Lemma framed_read_versions_fuel fuel :
  keeps framed any_abort (read_versions_fuel fuel).
Proof.
  assert (Hl : keeps framed any_abort next_line).
  { apply keeps_next_line_input; auto. }
  induction fuel as [|fuel IH]; [apply hoare_abort; exact Logic.I|].
  cbn [read_versions_fuel].
  apply keeps_bind; [exact Hl|]. intros _.
  apply keeps_bind; [apply keeps_line|]. intros l.
  destruct (_ || _); [exact IH|].
  destruct (String.eqb l "ok"); [apply keeps_ret|].
  apply keeps_bind; [apply framed_read_version | intros _; exact IH].
Qed.

Lemma framed_grab_versions fetch :
  keeps framed any_abort (grab_versions fetch).
Proof.
  apply keeps_grab_versions; auto.
  unfold read_versions.
  apply keeps_bind; [apply keeps_modify; intros s H; exact H|]. intros _.
  apply keeps_bind; [apply keeps_get|]. intros s.
  apply framed_read_versions_fuel.
Qed.

(** X16: in the output of a run of the emitter that returns, every blob
    header [blob, mark :m, data <len>] is followed by exactly [len] bytes
    of data and a newline. *)
Theorem emit_all_blobs_framed schedule s s' :
  blobs_framed (stdout s) ->
  emit_all schedule s = Ret tt s' ->
  blobs_framed (stdout s').
Proof.
  intros Hs Hrun.
  assert (Hk : keeps framed any_abort (emit_all schedule)).
  { apply (keeps_emit_all framed (fun _ => framed) any_abort (fun _ => True));
      auto using framed_grab_versions, may_emit_all.
    - intros o s0 Ho H. apply blobs_framed_snoc; assumption.
    - intros s0 H. unfold next_mark. destruct (_ <? _); [exact Logic.I | exact H].
    - intros m o s0 Ho H. apply blobs_framed_snoc; assumption.
    - intros m s0 H. apply blobs_framed_mark, H. }
  exact (hoare_Ret _ _ _ _ _ _ _ Hk Hs Hrun).
Qed.

Lemma emit_all_blobs_framed_witness : blobs_framed (stdout Sample.emitted).
Proof.
  apply (emit_all_blobs_framed Sample.schedule Sample.history).
  - intros i m len H. destruct i; discriminate.
  - vm_compute. reflexivity.
Defined.

(** ** The statistics of the connection *)

(** The [update] requests among the requests sent, the blob headers in
    the output and the duplicates reported. *)
Fixpoint updates (q : list req_item) : Z :=
  match q with
  | [] => 0
  | QUpdate :: r => 1 + updates r
  | _ :: r => updates r
  end.

Fixpoint blobs (out : list out_item) : Z :=
  match out with
  | [] => 0
  | OBlob _ _ :: r => 1 + blobs r
  | _ :: r => blobs r
  end.

Fixpoint duplicates (err : list err_item) : Z :=
  match err with
  | [] => 0
  | EDuplicate _ _ :: r => 1 + duplicates r
  | _ :: r => duplicates r
  end.

Lemma updates_app a b : updates (a ++ b) = updates a + updates b.
Proof.
  induction a as [|x a IH]; [reflexivity|].
  destruct x; simpl; rewrite IH; lia.
Qed.

Lemma blobs_app a b : blobs (a ++ b) = blobs a + blobs b.
Proof.
  induction a as [|x a IH]; [reflexivity|].
  destruct x; simpl; rewrite IH; lia.
Qed.

Lemma duplicates_app a b : duplicates (a ++ b) = duplicates a + duplicates b.
Proof.
  induction a as [|x a IH]; [reflexivity|].
  destruct x; simpl; rewrite IH; lia.
Qed.

Lemma updates_directories paths : forall d, updates (directories d paths) = 0.
Proof.
  induction paths as [|p r IH]; intros d; [reflexivity|].
  cbn [directories]. destruct (dirname p) as [dir|]; [|apply IH].
  destruct (match d with Some d0 => String.eqb dir d0 | None => false end);
    [apply IH|].
  simpl. apply IH.
Qed.

Lemma updates_args paths : updates (map QArg paths) = 0.
Proof. induction paths as [|p r IH]; [reflexivity | exact IH]. Qed.

(** The counters of the connection against what has been sent and
    written: [c] and [v] are the differences, which never change.  The
    versions are counted when [versions] is set. *)
Definition counted (versions : bool) (c v : Z) (s : state) : Prop :=
  count_transactions s = c + updates (s_sent s) /\
  (versions = true ->
   count_versions s = v + blobs (stdout s) + duplicates (stderr s)).

Section Counted.
Variables (versions : bool) (c v : Z).

Lemma counted_next_line : keeps (counted versions c v) any_abort next_line.
Proof. apply keeps_next_line_input; auto. Qed.

Lemma counted_sent q :
  updates q = 0 -> keeps (counted versions c v) any_abort (cvs_printf q).
Proof.
  intros Hq. apply keeps_modify. intros s [Ht Hv]. split; [|exact Hv].
  simpl. rewrite updates_app, Hq. lia.
Qed.

Lemma counted_update q :
  updates q = 1 ->
  hoare (counted versions c v) (cvs_printf q)
    (fun _ => counted versions (c - 1) v) any_abort.
Proof.
  intros Hq s [Ht Hv]. split; [|exact Hv].
  simpl. rewrite updates_app, Hq. lia.
Qed.

Lemma counted_exec i e s :
  counted versions c v s ->
  counted versions c v (with_versions (alter (set_version_exec e) i) s).
Proof. intros H. exact H. Qed.

Lemma counted_read_blob version path vers len :
  keeps (counted versions c v) any_abort (read_blob version path vers len).
Proof.
  intros s [Ht Hv]. unfold read_blob, bind, the_version.
  destruct (db_versions s !! version) as [x|]; [|exact Logic.I].
  destruct (v_mark x =? SIZE_MAX).
  - unfold next_mark. destruct (_ <? _); [exact Logic.I|].
    unfold update_version, printf, modify, cvs_read_block. cbn beta iota.
    match goal with
    | |- context [if ?b then Abort _ _ else _] => destruct b; [exact Logic.I|]
    end.
    split; [exact Ht|]. intros Hk. specialize (Hv Hk).
    cbn [stdout stderr count_versions with_stdout with_input with_versions
           with_mark_counter with_counts] in *.
    rewrite !blobs_app. simpl. lia.
  - unfold eprintf, modify, cvs_read_block. cbn beta iota.
    match goal with
    | |- context [if ?b then Abort _ _ else _] => destruct b; [exact Logic.I|]
    end.
    split; [exact Ht|]. intros Hk. specialize (Hv Hk).
    cbn [stdout stderr count_versions with_stdout with_stderr with_input
           with_counts] in *.
    rewrite duplicates_app. simpl. lia.
Qed.

Lemma counted_read_version : keeps (counted versions c v) any_abort read_version.
Proof.
  pose proof counted_next_line as Hl.
  unfold read_version.
  apply keeps_bind; [apply keeps_line|]. intros l.
  destruct (starts_with l "Removed "); [exact Hl|].
  destruct (starts_with l "Checked-in ");
    [apply keeps_bind; [exact Hl | intros _; exact Hl]|].
  destruct (_ && _); [apply keeps_fatal; auto|]. cbv zeta.
  apply keeps_bind; [exact Hl|]. intros _.
  apply keeps_bind; [exact Hl|]. intros _.
  apply keeps_bind; [apply keeps_line|]. intros l1.
  destruct (negb _); [apply keeps_fatal; auto|].
  destruct (strchr _ "/"); [|apply keeps_fatal; auto].
  destruct (strchr _ "/"); [|apply keeps_fatal; auto].
  apply keeps_bind; [apply keeps_get|]. intros s0.
  destruct (database_find_file _ _); [|apply keeps_fatal; auto].
  destruct (file_find_version _ _ _); [|apply keeps_fatal; auto].
  apply keeps_bind; [exact Hl|]. intros _.
  apply keeps_bind; [apply keeps_line|]. intros l2.
  destruct (negb _); [apply keeps_fatal; auto|].
  apply keeps_bind; [apply keeps_modify; intros s1 H1; exact H1|]. intros _.
  apply keeps_bind; [exact Hl|]. intros _.
  apply keeps_bind; [apply keeps_line|]. intros l3.
  destruct (strtoul l3) as [len tail].
  destruct (_ || _); [apply keeps_fatal; auto|].
  apply counted_read_blob.
Qed.

Lemma counted_read_versions_fuel fuel :
  keeps (counted versions c v) any_abort (read_versions_fuel fuel).
Proof.
  induction fuel as [|fuel IH]; [apply hoare_abort; exact Logic.I|].
  cbn [read_versions_fuel].
  apply keeps_bind; [apply counted_next_line|]. intros _.
  apply keeps_bind; [apply keeps_line|]. intros l.
  destruct (_ || _); [exact IH|].
  destruct (String.eqb l "ok"); [apply keeps_ret|].
  apply keeps_bind; [apply counted_read_version | intros _; exact IH].
Qed.

End Counted.

(** A transaction: the [update] request has been sent, and
    [read_versions] counts it and reads the reply. *)
Lemma counted_read_versions versions c v :
  hoare (counted versions (c - 1) v) read_versions
    (fun _ => counted versions c v) any_abort.
Proof.
  unfold read_versions.
  eapply hoare_bind with (Q1 := fun _ => counted versions c v).
  - intros s [Ht Hv]. split; [simpl; lia | exact Hv].
  - intros _. eapply hoare_bind; [apply keeps_get|]. intros s.
    apply counted_read_versions_fuel.
Qed.

Section CountedDriver.
Variables (versions : bool) (c v : Z).
Let I := counted versions c v.

Lemma counted_grab_version i : keeps I any_abort (grab_version i).
Proof.
  unfold grab_version. destruct i as [vi|]; [|apply keeps_ret].
  apply keeps_bind; [apply keeps_the_version; auto|]. intros x.
  destruct (negb _); [apply keeps_ret|]. cbv zeta.
  apply keeps_bind; [apply keeps_the_file; auto|]. intros f.
  apply keeps_bind.
  { destruct (dirname (f_path f)) as [dir|]; [|apply keeps_ret].
    destruct (v_parent x) as [p|]; [|apply counted_sent; reflexivity].
    apply keeps_bind; [apply keeps_the_version; auto|]. intros pv.
    destruct (v_mark pv =? SIZE_MAX); [apply counted_sent; reflexivity | apply keeps_ret]. }
  intros _.
  apply keeps_bind; [apply counted_sent; reflexivity|]. intros _.
  eapply hoare_bind; [apply counted_update; reflexivity|]. intros ?.
  eapply hoare_bind; [apply counted_read_versions|]. intros ?.
  apply keeps_bind; [apply keeps_the_version; auto|]. intros x'.
  destruct (v_mark x' =? SIZE_MAX); [apply keeps_fatal; auto | apply keeps_ret].
Qed.

Lemma counted_grab_by_option r_arg D_arg fetch :
  keeps I any_abort (grab_by_option r_arg D_arg fetch).
Proof.
  unfold grab_by_option.
  apply keeps_bind; [apply keeps_fetch_paths; auto|]. intros paths.
  apply keeps_bind; [apply keeps_assert; auto|]. intros _. cbv zeta.
  apply keeps_bind; [apply counted_sent, updates_directories|]. intros _.
  apply keeps_bind; [apply counted_sent; reflexivity|]. intros _.
  apply keeps_bind; [apply counted_sent; destruct r_arg; reflexivity|]. intros _.
  apply keeps_bind; [apply counted_sent; destruct D_arg; reflexivity|]. intros _.
  apply keeps_bind; [apply counted_sent; reflexivity|]. intros _.
  apply keeps_bind; [apply counted_sent, updates_args|]. intros _.
  eapply hoare_bind; [apply counted_update; reflexivity|]. intros ?.
  apply counted_read_versions.
Qed.

Lemma counted_grab_missing tried fetch :
  keeps I any_abort (grab_missing tried fetch).
Proof.
  unfold grab_missing. apply keeps_for_each. intros i.
  apply keeps_bind; [apply keeps_the_version; auto|]. intros x.
  destruct (v_mark x =? SIZE_MAX); [|apply keeps_ret].
  apply keeps_bind; [|intros _; apply counted_grab_version].
  destruct (1 <? Z.b2z tried); [|apply keeps_ret].
  apply keeps_bind; [apply keeps_the_file; auto|]. intros f.
  apply keeps_modify. intros s [Ht Hv]. split; [exact Ht|].
  intros Hk. specialize (Hv Hk). simpl. rewrite duplicates_app. simpl. lia.
Qed.

Lemma counted_grab_versions fetch : keeps I any_abort (grab_versions fetch).
Proof.
  unfold grab_versions.
  destruct fetch as [|first [|second rest]];
    [apply keeps_ret | apply counted_grab_version |].
  apply keeps_bind; [apply keeps_the_version; auto|]. intros v0.
  apply keeps_bind; [apply keeps_the_versions; auto|]. intros vs.
  destruct (forallb _ vs); [apply counted_grab_by_option|].
  destruct (time_range _ _ _) as [dmin dmax]. cbv zeta.
  apply keeps_bind; [|intros _; apply counted_grab_missing].
  destruct (_ && _); [|apply keeps_ret].
  destruct (v_branch v0) as [b|]; [|apply keeps_ret].
  apply keeps_bind; [apply keeps_the_tag; auto|]. intros br.
  apply counted_grab_by_option.
Qed.

End CountedDriver.

(** X17: [grab_versions] keeps the statistics of the connection right.
    When it returns, the count of transactions has grown by the number of
    [update] requests it has sent, and the count of versions by the number
    of blobs it has written and duplicates it has reported. *)
Theorem grab_versions_statistics fetch s s' :
  grab_versions fetch s = Ret tt s' ->
  count_transactions s' - count_transactions s
  = updates (s_sent s') - updates (s_sent s) /\
  count_versions s' - count_versions s
  = (blobs (stdout s') - blobs (stdout s))
    + (duplicates (stderr s') - duplicates (stderr s)).
Proof.
  intros Hrun.
  set (c := count_transactions s - updates (s_sent s)).
  set (v := count_versions s - blobs (stdout s) - duplicates (stderr s)).
  assert (Hs : counted true c v s).
  { split; [subst c; lia | intros _; subst v; lia]. }
  pose proof (hoare_Ret _ _ _ _ _ _ _ (counted_grab_versions true c v fetch) Hs Hrun)
    as [Ht Hv].
  specialize (Hv eq_refl). subst c v. lia.
Qed.

(** X18: a run of the emitter that returns has counted one transaction
    for each [update] request it has sent: the number of transactions that
    [main] reports is the number of requests for file contents. *)
Theorem emit_all_transactions schedule s s' :
  count_transactions s = 0 ->
  s_sent s = [] ->
  emit_all schedule s = Ret tt s' ->
  count_transactions s' = updates (s_sent s').
Proof.
  intros Hc Hq Hrun.
  assert (Hs : counted false 0 0 s).
  { split; [rewrite Hc, Hq; reflexivity | discriminate]. }
  assert (Hk : keeps (counted false 0 0) any_abort (emit_all schedule)).
  { apply (keeps_emit_all (counted false 0 0) (fun _ => counted false 0 0)
             any_abort (fun _ => True));
      auto using counted_grab_versions, may_emit_all.
    - intros e s0 [Ht _]. split; [exact Ht | discriminate].
    - intros o s0 _ [Ht _]. split; [exact Ht | discriminate].
    - intros s0 H. unfold next_mark. destruct (_ <? _); [exact Logic.I | exact H].
    - intros m o s0 _ [Ht _]. split; [exact Ht | discriminate].
    - intros m s0 [Ht _]. split; [exact Ht | discriminate]. }
  destruct (hoare_Ret _ _ _ _ _ _ _ Hk Hs Hrun) as [Ht _].
  rewrite Ht. lia.
Qed.

Lemma emit_all_transactions_witness :
  count_transactions Sample.emitted = updates (s_sent Sample.emitted).
Proof.
  apply (emit_all_transactions Sample.schedule Sample.history).
  - reflexivity.
  - reflexivity.
  - vm_compute. reflexivity.
Defined.

Lemma grab_versions_statistics_witness :
  count_transactions (final (grab_versions [0; 1]%nat Sample.two_by_date))
    - count_transactions Sample.two_by_date
  = updates (s_sent (final (grab_versions [0; 1]%nat Sample.two_by_date)))
    - updates (s_sent Sample.two_by_date) /\
  count_versions (final (grab_versions [0; 1]%nat Sample.two_by_date))
    - count_versions Sample.two_by_date
  = (blobs (stdout (final (grab_versions [0; 1]%nat Sample.two_by_date)))
     - blobs (stdout Sample.two_by_date))
    + (duplicates (stderr (final (grab_versions [0; 1]%nat Sample.two_by_date)))
       - duplicates (stderr Sample.two_by_date)).
Proof.
  apply (grab_versions_statistics [0; 1]%nat Sample.two_by_date).
  vm_compute. reflexivity.
Defined.

(* ===================================================================== *)
(** * Connecting to the server (server.c) *)

Module Server.

(** What [conn->stream] is connected to. *)
Inductive peer :=
| Socket (host port : string)                        (**r [connect_to_pserver] *)
| Program (program : string) (argv : list string).   (**r [connect_to_program] *)

(** The failures of the operating system that the code checks for, with
    [strerror (errno)] or [gai_strerror (r)]. *)
Inductive socket_failure :=
| NoAddress (err : string)      (**r [getaddrinfo] *)
| NoSocket (err : string)       (**r [socket] *)
| NoConnect (err : string)      (**r [connect] *)
| NoStream (err : string).      (**r [fdopen] *)

Inductive spawn_failure :=
| NoSocketpair (err : string)   (**r [socketpair] *)
| NoFork (err : string)         (**r [fork] *)
| NoFdopen (err : string).      (**r [fdopen] *)

(** The process environment the connection functions read: [getenv],
    the content of a file that [fopen (path, "r")] opens, and what the
    operating system answers when a socket to [host:port] or a child
    process is asked for ([None]: it succeeds) or the authentication
    request is written. *)
Record environ := mkEnviron {
  getenv : string -> option string;
  fopen : string -> option string;
  open_socket : string -> string -> option socket_failure;
  spawn : string -> list string -> option spawn_failure;
  auth_write_error : option string
}.

(** The connection as the functions below leave it: [conn->remote_root],
    the peer of [conn->stream], and the text of each [fprintf] to the
    stream and to stderr, in order.  [conn->line] and the unread replies
    of the peer are [s_line] and [s_in] of the state, as for
    [next_line]. *)
Record connection := mkConnection {
  remote_root : string;
  stream : peer;
  written : list string;
  log : list string
}.

(** The characters of a buffer that the string functions of C see: those
    before the first NUL. *)
Definition c_str (s : string) : string :=
  match strchr s nul with
  | Some i => CString.take i s
  | None => s
  end.

(** [l[n]], the terminating NUL included. *)
Definition char_at (l : string) (n : nat) : ascii :=
  match String.get n l with Some c => c | None => nul end.

(** The successive results of [getline] on a file. *)
Fixpoint lines_of (s : string) : list string :=
  match s with
  | EmptyString => []
  | String c r =>
      if Ascii.eqb c newline then String c EmptyString :: lines_of r
      else match lines_of r with
           | [] => [String c EmptyString]
           | l :: ls => String c l :: ls
           end
  end.

(** The body of the loop of [pserver_password] for one line: the
    password, when the line is for [root]. *)
Definition cvspass_entry (root line : string) : option string :=
  let l := c_str (chomp line) in
  let l := if starts_with l "/1 " then CString.drop 3 l else l in
  if starts_with l root && Ascii.eqb (char_at l (String.length root)) " "
  then Some (CString.drop (String.length root + 1) l)
  else None.

Fixpoint cvspass_lines (root : string) (lines : list string) : string :=
  match lines with
  | [] => "A"
  | line :: rest =>
      match cvspass_entry root line with
      | Some password => password
      | None => cvspass_lines root rest
      end
  end.

Definition pserver_password (env : environ) (root : string) : M string :=
  match getenv env "HOME" with
  | None => fatal "Cannot get home directory"
  | Some home =>
      match fopen env (home +:+ "/.cvspass") with
      | None => ret "A"
      | Some cvspass => ret (cvspass_lines root (lines_of cvspass))
      end
  end.

Definition socket_fatal {A} (host port : string) (f : socket_failure) : M A :=
  match f with
  | NoAddress err =>
      fatal ("Could not look-up server " +:+ host +:+ ":" +:+ port +:+ ": " +:+ err)
  | NoSocket err =>
      fatal ("Count not create socket for server " +:+ host +:+ ":" +:+ port
               +:+ ": " +:+ err)
  | NoConnect err =>
      fatal ("Count not connect to server " +:+ host +:+ ":" +:+ port +:+ ": " +:+ err)
  | NoStream err => fatal ("fdopen failed: " +:+ err)
  end.

Definition spawn_fatal {A} (f : spawn_failure) : M A :=
  match f with
  | NoSocketpair err => fatal ("socketpair failed: " +:+ err)
  | NoFork err => fatal ("fork() failed: " +:+ err)
  | NoFdopen err => fatal ("fdopen failed: " +:+ err)
  end.

(** [memchr (s, c, n)]. *)
Definition memchr (s : string) (c : ascii) (n : nat) : option nat :=
  strchr (CString.take n s) c.

(** [strndup (s + from, n)]. *)
Definition strndup (s : string) (from n : nat) : string :=
  CString.take n (CString.drop from s).

(** [connect_to_pserver] is only called on a root that starts with
    [:pserver:].  The diagnostics of a run that ends in [fatal] are not
    kept. *)
Definition connect_to_pserver (env : environ) (root : string) : M connection :=
  let host := CString.drop (String.length ":pserver:") root in
  match strchr host "/" with
  | None => fatal ("No path in CVS root '" +:+ root +:+ "'")
  | Some path_at =>
      let path := CString.drop path_at host in
      let host_len := path_at in
      let '(host_len, port) :=
        match memchr host ":" host_len with
        | None => (host_len, "2401")
        | Some colon => (colon, strndup host (colon + 1) (path_at - (colon + 1)))
        end in
      let* parts :=
        match memchr host "@" host_len with
        | None =>
            (* [host = root]: the name is cut from the start of the root. *)
            match getenv env "USER" with
            | None => fatal ("Cannot determine user-name for '" +:+ root +:+ "'")
            | Some user =>
                if (String.length user <? 5)%nat
                then abort_with (Segfault "user += 5")
                else ret (CString.drop 5 user, strndup root 0 host_len)
            end
        | Some at_ =>
            ret (CString.take at_ host,
                 strndup host (at_ + 1) (host_len - (at_ + 1)))
        end in
      let '(user, host) := parts in
      let log1 := "Pserver '" +:+ user +:+ "'@'" +:+ host +:+ "':'" +:+ port
                    +:+ "' '" +:+ path +:+ "'" +:+ nl in
      match open_socket env host port with
      | Some f => socket_fatal host port f
      | None =>
          let* password := pserver_password env root in
          let log2 := "Password '" +:+ password +:+ "'" +:+ nl in
          match auth_write_error env with
          | Some err => fatal ("Writing to socket: " +:+ err)
          | None =>
              let request :=
                "BEGIN AUTH REQUEST" +:+ nl +:+ path +:+ nl +:+ user +:+ nl
                  +:+ password +:+ nl +:+ "END AUTH REQUEST" +:+ nl in
              next_line ;;;
              let* l := line in
              if negb (String.eqb l "I LOVE YOU")
              then fatal ("Failed to login: '" +:+ l +:+ "'")
              else
                ret (mkConnection path (Socket host port) [request]
                       [log1; log2; "Logged in successfully" +:+ nl])
          end
      end
  end.

Definition connect_to_program (env : environ) (program : string)
    (argv : list string) : M peer :=
  match spawn env program argv with
  | Some f => spawn_fatal f
  | None => ret (Program program argv)
  end.

Definition connect_to_fork (env : environ) (path : string) : M connection :=
  let* stream := connect_to_program env "cvs" ["cvs"; "server"] in
  ret (mkConnection path stream [] []).

Definition connect_to_ext (env : environ) (root path : string) : M connection :=
  let* program :=
    match getenv env "CVS_RSH" with
    | None => ret "ssh"
    | Some p =>
        if (String.length p <? String.length "CVS_RSH=")%nat
        then abort_with (Segfault "program += strlen (CVS_RSH=)")
        else ret (CString.drop (String.length "CVS_RSH=") p)
    end in
  match strchr path "/" with
  | None => fatal ("Root '" +:+ root +:+ "' has no remote root.")
  | Some slash =>
      let host := strndup path 0 slash in
      let* stream := connect_to_program env program [program; host; "cvs"; "server"] in
      ret (mkConnection (CString.drop (slash + 1) path) stream [] [])
  end.

Definition connect_to_fake (env : environ) (root : string) : M connection :=
  let program := CString.drop (String.length ":fake:") root in
  match strchr program ":" with
  | None => fatal ("Root '" +:+ root +:+ "' has no remote root")
  | Some colon1 =>
      match strchr (CString.drop (colon1 + 1) program) ":" with
      | None => fatal ("Root '" +:+ root +:+ "' has no remote root")
      | Some colon2 =>
          let remote := CString.drop (colon1 + 1 + colon2 + 1) program in
          let argument := strndup program (colon1 + 1) colon2 in
          let program := strndup program 0 colon1 in
          let* stream := connect_to_program env program [program; argument] in
          ret (mkConnection remote stream [] [])
      end
  end.

(** The requests that open the protocol. *)
Definition greeting (remote_root : string) : string :=
  "Root " +:+ remote_root +:+ nl
  +:+ "Valid-responses ok error Valid-requests Checked-in New-entry "
  +:+ "Checksum Copy-file Updated Created Update-existing Merged "
  +:+ "Patched Rcs-diff Mode Mod-time Removed Remove-entry "
  +:+ "Set-static-directory Clear-static-directory Set-sticky "
  +:+ "Clear-sticky Template Notified Module-expansion "
  +:+ "Wrapper-rcsOption M Mbinary E F MT" +:+ nl
  +:+ "valid-requests" +:+ nl
  +:+ "UseUnchanged" +:+ nl.

Definition connect_to_server (env : environ) (root : string) : M connection :=
  (* conn->line = NULL *)
  modify (fun s => with_input (s_in s) "" s) ;;;
  let* conn :=
    if starts_with root ":pserver:" then connect_to_pserver env root
    else if starts_with root ":fake:" then connect_to_fake env root
    else if starts_with root ":ext:" then connect_to_ext env root (CString.drop 5 root)
    else if negb (Ascii.eqb (char_at root 0) "/")
            && match strchr root ":" with Some _ => true | None => false end
    then connect_to_ext env root root
    else connect_to_fork env root in
  let sent := written conn ++ [greeting (remote_root conn)] in
  next_line ;;;
  let* l := line in
  if negb (starts_with l "Valid-requests ")
  then fatal ("Did not get valid requests ('" +:+ l +:+ "')")
  else
    let logged := log conn ++ [l +:+ nl] in
    next_line ;;;
    let* l := line in
    if negb (String.eqb l "ok") then fatal "Did not get 'ok'!"
    else ret (mkConnection (remote_root conn) (stream conn) sent logged).

End Server.

(** ** The password file ([pserver_password]) *)

Lemma strchr_app_None a b c :
  strchr a c = None -> strchr b c = None -> strchr (a +:+ b) c = None.
Proof.
  induction a as [|x a IH]; simpl; intros Ha Hb; [exact Hb|].
  destruct (Ascii.eqb x c); [discriminate|].
  destruct (strchr a c); [discriminate|].
  change (option_map S (strchr (a +:+ b) c) = None).
  rewrite (IH eq_refl Hb). reflexivity.
Qed.

Lemma has_nul_strchr s : has_nul s = false <-> strchr s nul = None.
Proof.
  induction s as [|c s IH]; simpl; [tauto|].
  destruct (Ascii.eqb c nul); simpl; [split; discriminate|].
  rewrite IH. destruct (strchr s nul); simpl; split; congruence.
Qed.

Lemma plain_line_spec l :
  plain_line l = true <-> strchr l newline = None /\ strchr l nul = None.
Proof.
  unfold plain_line. destruct (strchr l newline).
  - split; [discriminate | intros [H _]; discriminate].
  - rewrite negb_true_iff, has_nul_strchr. tauto.
Qed.

Lemma plain_line_append a b :
  plain_line a = true -> plain_line b = true -> plain_line (a +:+ b) = true.
Proof.
  rewrite !plain_line_spec. intros [? ?] [? ?].
  split; apply strchr_app_None; assumption.
Qed.

Lemma c_str_plain l : strchr l nul = None -> Server.c_str l = l.
Proof. unfold Server.c_str. intros ->. reflexivity. Qed.

Lemma get_append a c b : String.get (String.length a) (a +:+ String c b) = Some c.
Proof. induction a as [|x a IH]; [reflexivity | exact IH]. Qed.

(** [getline] yields the lines of [lines_of], one after the other. *)
Lemma lines_of_getline s :
  s <> "" ->
  Server.lines_of s = (getline s).1 :: Server.lines_of (getline s).2.
Proof.
  induction s as [|c r IH]; intros Hs; [contradiction|].
  cbn [Server.lines_of getline].
  destruct (Ascii.eqb c newline); [reflexivity|].
  destruct r as [|c' r'].
  - reflexivity.
  - rewrite IH by discriminate.
    destruct (getline (String c' r')) as [l rest]. reflexivity.
Qed.

Lemma lines_of_line l r :
  strchr l newline = None ->
  Server.lines_of (l +:+ nl +:+ r) = (l +:+ nl) :: Server.lines_of r.
Proof.
  intros H. rewrite lines_of_getline.
  - rewrite (getline_line l r H). reflexivity.
  - destruct l; discriminate.
Qed.

Lemma append_cons c a b : String c a +:+ b = String c (a +:+ b).
Proof. reflexivity. Qed.

Lemma append_nil b : "" +:+ b = b.
Proof. reflexivity. Qed.

(** A line that does not start with the marker of the new format is taken
    as it is. *)
Lemma starts_with_marker root rest :
  starts_with (root +:+ " ") "/1 " = false ->
  starts_with (root +:+ String " " rest) "/1 " = false.
Proof.
  unfold starts_with.
  destruct root as [|c1 [|c2 [|c3 r]]];
    rewrite ?append_cons, ?append_nil; cbn [String.prefix]; intros H;
    repeat match goal with
           | |- context [ascii_dec ?a ?b] => destruct (ascii_dec a b)
           | H : context [ascii_dec ?a ?b] |- _ => destruct (ascii_dec a b)
           end; try reflexivity; try discriminate; try congruence.
  destruct r; rewrite ?append_cons, ?append_nil in H; discriminate H.
Qed.

Lemma cvspass_entry_found marker root password :
  marker = "/1 " \/ marker = "" /\ starts_with (root +:+ " ") "/1 " = false ->
  plain_line root = true ->
  plain_line password = true ->
  Server.cvspass_entry root ((marker +:+ root +:+ " " +:+ password) +:+ nl)
  = Some password.
Proof.
  intros Hm Hr Hp.
  assert (Hsp : plain_line (root +:+ " " +:+ password) = true).
  { apply plain_line_append; [exact Hr|].
    apply (plain_line_append " " password eq_refl Hp). }
  assert (Hl : plain_line (marker +:+ root +:+ " " +:+ password) = true).
  { destruct Hm as [->|[-> _]]; [|exact Hsp].
    apply (plain_line_append "/1 " _ eq_refl Hsp). }
  apply plain_line_spec in Hl as [Hnl Hnul].
  unfold Server.cvspass_entry.
  rewrite (chomp_line _ Hnl), (c_str_plain _ Hnul).
  assert (Hstrip : (if starts_with (marker +:+ root +:+ " " +:+ password) "/1 "
                    then CString.drop 3 (marker +:+ root +:+ " " +:+ password)
                    else marker +:+ root +:+ " " +:+ password)
                   = root +:+ " " +:+ password).
  { destruct Hm as [->|[-> Hno]].
    - rewrite (starts_with_append "/1 "). reflexivity.
    - change ("" +:+ root +:+ " " +:+ password) with (root +:+ String " " password).
      rewrite (starts_with_marker root password Hno). reflexivity. }
  cbv zeta. rewrite Hstrip.
  rewrite starts_with_append. unfold Server.char_at.
  change (root +:+ " " +:+ password) with (root +:+ String " " password).
  rewrite get_append. simpl.
  replace (String.length root + 1)%nat with (S (String.length root)) by lia.
  rewrite drop_append_S. reflexivity.
Qed.

Lemma text_lines_cons l ls rest :
  text_lines (l :: ls) +:+ rest = l +:+ nl +:+ (text_lines ls +:+ rest).
Proof.
  cbn [text_lines fold_right]. fold (text_lines ls).
  rewrite !append_assoc. reflexivity.
Qed.

(** X19: the password for a root is that of the first line of
    [$HOME/.cvspass] that is for this root: the root, a space and the
    password, with or without the marker [/1 ] in front.  Lines for other
    roots before it are skipped, and what follows it is not read. *)
Theorem pserver_password_lookup env home root marker skipped password rest s :
  Server.getenv env "HOME" = Some home ->
  Server.fopen env (home +:+ "/.cvspass")
  = Some (text_lines (skipped ++ [marker +:+ root +:+ " " +:+ password]) +:+ rest) ->
  marker = "/1 " \/ marker = "" /\ starts_with (root +:+ " ") "/1 " = false ->
  plain_line root = true ->
  plain_line password = true ->
  Forall (fun l => strchr l newline = None /\
                   Server.cvspass_entry root (l +:+ nl) = None) skipped ->
  Server.pserver_password env root s = Ret password s.
Proof.
  intros Hhome Hfile Hm Hr Hp Hskip.
  unfold Server.pserver_password. rewrite Hhome, Hfile. unfold ret. f_equal.
  clear Hhome Hfile.
  induction Hskip as [|l ls [Hnl Hno] _ IH].
  - cbn [app]. rewrite text_lines_cons, lines_of_line.
    + cbn [Server.cvspass_lines].
      rewrite (cvspass_entry_found marker root password Hm Hr Hp). reflexivity.
    + assert (Hl : plain_line (marker +:+ root +:+ " " +:+ password) = true).
      { apply plain_line_append.
        - destruct Hm as [->|[-> _]]; reflexivity.
        - apply plain_line_append; [exact Hr|].
          apply (plain_line_append " " password eq_refl Hp). }
      apply plain_line_spec in Hl as [Hl _]. exact Hl.
  - cbn [app]. rewrite text_lines_cons, (lines_of_line _ _ Hnl).
    cbn [Server.cvspass_lines]. rewrite Hno. exact IH.
Qed.

(** Without an entry for the root, and without the file, the password is
    the scrambled empty one. *)
Lemma pserver_password_default env home root cvspass s :
  Server.getenv env "HOME" = Some home ->
  Server.fopen env (home +:+ "/.cvspass") = cvspass ->
  match cvspass with
  | Some file =>
      Forall (fun l => Server.cvspass_entry root l = None) (Server.lines_of file)
  | None => True
  end ->
  Server.pserver_password env root s = Ret "A" s.
Proof.
  intros Hhome Hfile Hall. unfold Server.pserver_password.
  rewrite Hhome, Hfile. destruct cvspass as [file|]; [|reflexivity].
  unfold ret. f_equal.
  induction Hall as [|l ls Hl _ IH]; [reflexivity|].
  cbn [Server.cvspass_lines]. rewrite Hl. exact IH.
Qed.

(** ** Logging in to a password server ([connect_to_pserver]) *)

Module PserverRoot.

(** A root [:pserver:user@host:port/dir], the port being optional. *)
Definition root (user host : string) (port : option string) (dir : string) : string :=
  ":pserver:" +:+ user +:+ "@" +:+ host
    +:+ match port with Some p => ":" +:+ p | None => "" end +:+ "/" +:+ dir.

(** The authentication request. *)
Definition request (user password dir : string) : string :=
  "BEGIN AUTH REQUEST" +:+ nl +:+ "/" +:+ dir +:+ nl +:+ user +:+ nl
    +:+ password +:+ nl +:+ "END AUTH REQUEST" +:+ nl.

Definition port_of (port : option string) : string :=
  match port with Some p => p | None => "2401" end.

End PserverRoot.

Lemma append_mid u x h r : (u +:+ String x h) +:+ r = u +:+ String x (h +:+ r).
Proof.
  induction u as [|c u IH]; [reflexivity|].
  rewrite !append_cons. f_equal. exact IH.
Qed.

Lemma append_nil_r a : a +:+ "" = a.
Proof.
  induction a as [|c a IH]; [reflexivity|]. rewrite append_cons. f_equal. exact IH.
Qed.

Lemma strchr_mid_None u x h c :
  strchr u c = None -> Ascii.eqb x c = false -> strchr h c = None ->
  strchr (u +:+ String x h) c = None.
Proof.
  intros Hu Hx Hh. apply strchr_app_None; [exact Hu|].
  simpl. rewrite Hx, Hh. reflexivity.
Qed.

Lemma length_mid u x h :
  String.length (u +:+ String x h) = (String.length u + 1 + String.length h)%nat.
Proof. rewrite append_length. simpl. lia. Qed.

Lemma take_length a : CString.take (String.length a) a = a.
Proof. rewrite <- (append_nil_r a) at 2. apply take_append. Qed.

(** X20: [connect_to_pserver] on a root [:pserver:user@host:port/dir]
    (the port may be left out, and is then 2401) connects to [host] at
    [port], writes the authentication request for the repository [/dir],
    [user] and the password of the root, and returns once the server has
    answered [I LOVE YOU]; the remote root is [/dir]. *)
Theorem connect_to_pserver_login env user host port dir password rest s :
  strchr user "@" = None -> strchr user ":" = None -> strchr user "/" = None ->
  strchr host ":" = None -> strchr host "/" = None ->
  match port with Some p => strchr p "/" = None | None => True end ->
  Server.open_socket env host (PserverRoot.port_of port) = None ->
  Server.auth_write_error env = None ->
  Server.pserver_password env (PserverRoot.root user host port dir) s
  = Ret password s ->
  s_in s = "I LOVE YOU" +:+ nl +:+ rest ->
  Server.connect_to_pserver env (PserverRoot.root user host port dir) s
  = Ret (Server.mkConnection ("/" +:+ dir)
           (Server.Socket host (PserverRoot.port_of port))
           [PserverRoot.request user password dir]
           ["Pserver '" +:+ user +:+ "'@'" +:+ host +:+ "':'"
              +:+ PserverRoot.port_of port +:+ "' '" +:+ "/" +:+ dir +:+ "'" +:+ nl;
            "Password '" +:+ password +:+ "'" +:+ nl;
            "Logged in successfully" +:+ nl])
        (with_input rest "I LOVE YOU" s).
Proof.
  intros Hu_at Hu_colon Hu_slash Hh_colon Hh_slash Hp_slash Hsock Hwrite Hpw Hin.
  unfold Server.connect_to_pserver.
  set (root := PserverRoot.root user host port dir) in *.
  set (tail := match port with
               | Some p => String ":" (p +:+ String "/" dir)
               | None => String "/" dir
               end).
  assert (Hhost0 : CString.drop (String.length ":pserver:") root
                   = user +:+ String "@" (host +:+ tail)).
  { subst root tail. unfold PserverRoot.root. destruct port; reflexivity. }
  rewrite Hhost0. clearbody root. clear Hhost0.
  set (uh := user +:+ String "@" host).
  (* the path *)
  set (auth := match port with Some p => uh +:+ String ":" p | None => uh end).
  assert (Hsplit : user +:+ String "@" (host +:+ tail) = auth +:+ String "/" dir).
  { subst auth tail uh. destruct port as [p|].
    - rewrite <- append_mid. rewrite <- (append_mid _ ":" p). reflexivity.
    - rewrite <- append_mid. reflexivity. }
  assert (Hauth_slash : strchr auth "/" = None).
  { subst auth uh. destruct port as [p|].
    - apply strchr_mid_None; [|reflexivity|exact Hp_slash].
      apply strchr_mid_None; [exact Hu_slash|reflexivity|exact Hh_slash].
    - apply strchr_mid_None; [exact Hu_slash|reflexivity|exact Hh_slash]. }
  rewrite Hsplit, (strchr_append auth "/" dir Hauth_slash).
  cbv zeta. rewrite drop_append.
  (* the port *)
  assert (Huh_colon : strchr uh ":" = None).
  { apply strchr_mid_None; [exact Hu_colon|reflexivity|exact Hh_colon]. }
  assert (Hport :
            match Server.memchr (auth +:+ String "/" dir) ":" (String.length auth) with
            | Some colon =>
                (colon,
                 Server.strndup (auth +:+ String "/" dir) (colon + 1)
                   (String.length auth - (colon + 1)))
            | None => (String.length auth, "2401")
            end = (String.length uh, PserverRoot.port_of port)).
  { unfold Server.memchr, Server.strndup. rewrite take_append.
    subst auth. destruct port as [p|].
    - rewrite (strchr_append uh ":" p Huh_colon).
      f_equal. rewrite append_mid.
      replace (String.length uh + 1)%nat with (S (String.length uh)) by lia.
      rewrite drop_append_S, length_mid.
      replace (String.length uh + 1 + String.length p - S (String.length uh))%nat
        with (String.length p) by lia.
      apply take_append.
    - rewrite Huh_colon. reflexivity. }
  rewrite Hport. clear Hport.
  (* the user and the host *)
  assert (Hat : Server.memchr (auth +:+ String "/" dir) "@" (String.length uh)
                = Some (String.length user)).
  { unfold Server.memchr.
    assert (Htake : CString.take (String.length uh) (auth +:+ String "/" dir) = uh).
    { subst auth. destruct port as [p|].
      - rewrite append_mid. apply take_append.
      - apply take_append. }
    rewrite Htake. apply strchr_append, Hu_at. }
  rewrite Hat. clear Hat.
  assert (Huser : CString.take (String.length user) (auth +:+ String "/" dir) = user).
  { rewrite <- Hsplit. apply take_append. }
  assert (Hhost : Server.strndup (auth +:+ String "/" dir) (String.length user + 1)
                    (String.length uh - (String.length user + 1)) = host).
  { unfold Server.strndup. rewrite <- Hsplit.
    replace (String.length user + 1)%nat with (S (String.length user)) by lia.
    rewrite drop_append_S. subst uh. rewrite length_mid.
    replace (String.length user + 1 + String.length host - S (String.length user))%nat
      with (String.length host) by lia.
    apply take_append. }
  rewrite Huser, Hhost. clear Huser Hhost.
  unfold bind at 1. unfold ret at 1.
  rewrite Hsock.
  rewrite (bind_run _ _ _ _ _ Hpw), Hwrite.
  rewrite (bind_run next_line _ s tt _ (next_line_plain "I LOVE YOU" rest s eq_refl Hin)).
  reflexivity.
Qed.

(** ** The greeting ([connect_to_server]) *)

Lemma next_line_Ret s u s' :
  next_line s = Ret u s' ->
  (s_in s = s_line s' +:+ nl +:+ s_in s' \/
   s_in s = s_line s' /\ s_in s' = "") /\
  s' = with_input (s_in s') (s_line s') s.
Proof.
  unfold next_line. destruct (s_in s) as [|c r] eqn:Ein; [discriminate|].
  rewrite <- Ein.
  pose proof (getline_app (s_in s)) as Happ.
  pose proof (getline_chomp (s_in s)) as [_ Hl].
  destruct (getline (s_in s)) as [l rest]. simpl in *.
  destruct (has_nul l); [discriminate|].
  intros H. injection H as H. subst s'. simpl. split; [|reflexivity].
  destruct Hl as [Hl|[Hl ->]].
  - left. rewrite <- Happ. rewrite Hl at 1. apply append_assoc.
  - right. rewrite <- Happ, <- Hl, append_nil_r. auto.
Qed.

Lemma starts_with_split p : forall l,
  starts_with l p = true -> l = p +:+ CString.drop (String.length p) l.
Proof.
  unfold starts_with. induction p as [|c p IH]; intros l H.
  - destruct l; reflexivity.
  - destruct l as [|c' l]; simpl in H; [discriminate|].
    destruct (ascii_dec c c') as [<-|]; [|discriminate].
    rewrite append_cons. f_equal. apply IH, H.
Qed.

Lemma pserver_password_Ret env root s p s' :
  Server.pserver_password env root s = Ret p s' -> s' = s.
Proof.
  unfold Server.pserver_password.
  destruct (Server.getenv env "HOME"); [|discriminate].
  destruct (Server.fopen env _); intros H; injection H as _ <-; reflexivity.
Qed.

Lemma connect_to_program_Ret env program argv s p s' :
  Server.connect_to_program env program argv s = Ret p s' ->
  s' = s /\ p = Server.Program program argv /\ Server.spawn env program argv = None.
Proof.
  unfold Server.connect_to_program.
  destruct (Server.spawn env program argv) as [f|].
  - destruct f; discriminate.
  - intros H. injection H as <- <-. auto.
Qed.

(** A log-in that returns has read the line [I LOVE YOU]. *)
Lemma connect_to_pserver_Ret env root s c s' :
  Server.connect_to_pserver env root s = Ret c s' ->
  (s_in s = "I LOVE YOU" +:+ nl +:+ s_in s' \/
   s_in s = "I LOVE YOU" /\ s_in s' = "") /\
  s' = with_input (s_in s') "I LOVE YOU" s.
Proof.
  unfold Server.connect_to_pserver. cbv zeta.
  destruct (strchr _ "/") as [path_at|]; [|discriminate].
  destruct (match Server.memchr _ ":" path_at with
            | Some colon => _
            | None => _
            end) as [host_len port].
  intros H. apply bind_Ret in H as ([user host] & s1 & Hparts & H).
  assert (s1 = s) as ->.
  { destruct (Server.memchr _ "@" host_len).
    - apply ret_Ret in Hparts as [-> _]. reflexivity.
    - destruct (Server.getenv env "USER") as [u|]; [|discriminate].
      destruct (String.length u <? 5)%nat; [discriminate|].
      apply ret_Ret in Hparts as [-> _]. reflexivity. }
  clear Hparts.
  destruct (Server.open_socket env host port) as [f|]; [destruct f; discriminate|].
  apply bind_Ret in H as (password & s1 & Hpw & H).
  apply pserver_password_Ret in Hpw as ->.
  destruct (Server.auth_write_error env); [discriminate|].
  apply bind_Ret in H as ([] & s1 & Hline & H).
  apply bind_Ret in H as (l & s2 & Hl & H).
  injection Hl as <- <-.
  destruct (String.eqb (s_line s1) "I LOVE YOU") eqn:E; [|discriminate].
  apply String.eqb_eq in E.
  apply ret_Ret in H as [-> _].
  apply next_line_Ret in Hline. rewrite E in Hline. exact Hline.
Qed.

Lemma connect_to_fake_Ret env root s c s' :
  Server.connect_to_fake env root s = Ret c s' ->
  s' = s /\ Server.written c = [] /\ Server.log c = [].
Proof.
  unfold Server.connect_to_fake. cbv zeta.
  destruct (strchr _ ":") as [colon1|]; [|discriminate].
  destruct (strchr _ ":") as [colon2|]; [|discriminate].
  intros H. apply bind_Ret in H as (p & s1 & Hp & H).
  apply connect_to_program_Ret in Hp as (-> & _ & _).
  apply ret_Ret in H as [-> ->]. auto.
Qed.

Lemma connect_to_ext_Ret env root path s c s' :
  Server.connect_to_ext env root path s = Ret c s' ->
  s' = s /\ Server.written c = [] /\ Server.log c = [].
Proof.
  unfold Server.connect_to_ext.
  intros H. apply bind_Ret in H as (program & s1 & Hprog & H).
  assert (s1 = s) as ->.
  { destruct (Server.getenv env "CVS_RSH") as [p|].
    - destruct (String.length p <? _)%nat; [discriminate|].
      apply ret_Ret in Hprog as [-> _]. reflexivity.
    - apply ret_Ret in Hprog as [-> _]. reflexivity. }
  destruct (strchr path "/") as [slash|]; [|discriminate].
  cbv zeta in H.
  apply bind_Ret in H as (p & s1 & Hp & H).
  apply connect_to_program_Ret in Hp as (-> & _ & _).
  apply ret_Ret in H as [-> ->]. auto.
Qed.

Lemma connect_to_fork_Ret env path s c s' :
  Server.connect_to_fork env path s = Ret c s' ->
  s' = s /\ Server.written c = [] /\ Server.log c = [].
Proof.
  unfold Server.connect_to_fork.
  intros H. apply bind_Ret in H as (p & s1 & Hp & H).
  apply connect_to_program_Ret in Hp as (-> & _ & _).
  apply ret_Ret in H as [-> ->]. auto.
Qed.

(** X21: [connect_to_server] returns only when the server has answered
    the greeting with a line [Valid-requests ...] and the line [ok], after
    the line [I LOVE YOU] when the root is for a password server and
    nothing else before.  The last text it has sent is then the greeting
    for the remote root of the connection, and the line of valid requests
    is the last one it has logged. *)
Theorem connect_to_server_handshake env root s c s' :
  Server.connect_to_server env root s = Ret c s' ->
  exists login valid sent0 log0,
    (if starts_with root ":pserver:"
     then login = "I LOVE YOU" +:+ nl
     else login = "" /\ sent0 = [] /\ log0 = []) /\
    (s_in s = login +:+ "Valid-requests " +:+ valid +:+ nl +:+ "ok" +:+ nl +:+ s_in s' \/
     s_in s = login +:+ "Valid-requests " +:+ valid +:+ nl +:+ "ok" /\ s_in s' = "") /\
    Server.written c = sent0 ++ [Server.greeting (Server.remote_root c)] /\
    Server.log c = log0 ++ ["Valid-requests " +:+ valid +:+ nl] /\
    s' = with_input (s_in s') "ok" s.
Proof.
  unfold Server.connect_to_server. intros H.
  apply bind_Ret in H as ([] & s0 & E & H). apply modify_Ret in E. subst s0.
  set (sr := with_input (s_in s) "" s) in *.
  apply bind_Ret in H as (c0 & s1 & Hconn & H).
  cbv zeta in H.
  apply bind_Ret in H as ([] & s2 & Hline1 & H).
  apply bind_Ret in H as (l1 & s3 & Hl1 & H). injection Hl1 as <- <-.
  destruct (starts_with (s_line s2) "Valid-requests ") eqn:Evalid; [|discriminate].
  cbn [negb] in H.
  apply bind_Ret in H as ([] & s3 & Hline2 & H).
  apply bind_Ret in H as (l2 & s4 & Hl2 & H). injection Hl2 as <- <-.
  destruct (String.eqb (s_line s3) "ok") eqn:Eok; [|discriminate].
  cbn [negb] in H. apply ret_Ret in H as [-> ->].
  apply String.eqb_eq in Eok.
  apply next_line_Ret in Hline1 as [Hin1 Hs2].
  apply next_line_Ret in Hline2 as [Hin2 Hs3].
  rewrite Eok in Hin2, Hs3.
  (* the line of valid requests *)
  assert (Hv : exists valid, s_line s2 = "Valid-requests " +:+ valid).
  { exists (CString.drop (String.length "Valid-requests ") (s_line s2)).
    apply starts_with_split, Evalid. }
  destruct Hv as [valid Hv]. rewrite Hv in Hin1.
  assert (Hin2' : s_in s2 <> "").
  { destruct Hin2 as [Hin2|[Hin2 _]]; rewrite Hin2; discriminate. }
  destruct Hin1 as [Hin1|[_ Hnil]]; [|contradiction].
  assert (Hrest : s_in s1 = "Valid-requests " +:+ valid +:+ nl +:+ "ok" +:+ nl +:+ s_in s3 \/
                  s_in s1 = "Valid-requests " +:+ valid +:+ nl +:+ "ok" /\ s_in s3 = "").
  { rewrite Hin1. destruct Hin2 as [Hin2|[Hin2 Hnil]]; rewrite Hin2.
    - left. rewrite !append_assoc. reflexivity.
    - right. rewrite !append_assoc. auto. }
  assert (Hfin : forall sx, s1 = with_input (s_in s1) (s_line s1) sx ->
                            s3 = with_input (s_in s3) "ok" sx).
  { intros sx Hsx. rewrite Hs3, Hs2, Hsx. reflexivity. }
  cbn [Server.written Server.log Server.remote_root].
  destruct (starts_with root ":pserver:").
  - apply connect_to_pserver_Ret in Hconn as [Hlogin Hs1].
    exists ("I LOVE YOU" +:+ nl), valid, (Server.written c0), (Server.log c0).
    split; [reflexivity|].
    assert (Hne : s_in s1 <> "").
    { rewrite Hin1. discriminate. }
    destruct Hlogin as [Hlogin|[_ Hnil]]; [|contradiction].
    change (s_in sr) with (s_in s) in Hlogin.
    split.
    { rewrite Hlogin.
      destruct Hrest as [Hr|[Hr Hnil]]; rewrite Hr; [left|right; split; [|exact Hnil]];
        rewrite !append_assoc; reflexivity. }
    split; [reflexivity|]. split; [rewrite Hv; reflexivity|].
    apply (Hfin (with_input (s_in s1) "I LOVE YOU" s)).
    rewrite Hs1. reflexivity.
  - assert (Hsame : s1 = sr /\ Server.written c0 = [] /\ Server.log c0 = []).
    { destruct (starts_with root ":fake:");
        [exact (connect_to_fake_Ret _ _ _ _ _ Hconn)|].
      destruct (starts_with root ":ext:");
        [exact (connect_to_ext_Ret _ _ _ _ _ _ Hconn)|].
      destruct (_ && _);
        [exact (connect_to_ext_Ret _ _ _ _ _ _ Hconn)
        |exact (connect_to_fork_Ret _ _ _ _ _ Hconn)]. }
    destruct Hsame as (-> & Hw & Hlog).
    exists "", valid, [], []. split; [auto|].
    change (s_in sr) with (s_in s) in Hrest.
    split; [exact Hrest|]. rewrite Hw, Hlog, Hv.
    split; [reflexivity|]. split; [reflexivity|].
    apply (Hfin s). reflexivity.
Qed.

(** The program that [connect_to_ext] runs: [ssh], or what follows the
    first eight characters of [$CVS_RSH]. *)
Definition rsh_program (rsh : option string) : string :=
  match rsh with
  | Some p => CString.drop (String.length "CVS_RSH=") p
  | None => "ssh"
  end.

(** X22: for a root [:ext:host/dir], [connect_to_server] runs
    [<program> host cvs server] and, once the server has answered the
    greeting, returns a connection whose remote root is [dir], without the
    slash that ends the host. *)
Theorem connect_to_server_ext env rsh host dir valid rest s :
  strchr host "/" = None ->
  Server.getenv env "CVS_RSH" = rsh ->
  match rsh with
  | Some p => (String.length "CVS_RSH=" <= String.length p)%nat
  | None => True
  end ->
  Server.spawn env (rsh_program rsh) [rsh_program rsh; host; "cvs"; "server"] = None ->
  plain_line ("Valid-requests " +:+ valid) = true ->
  s_in s = "Valid-requests " +:+ valid +:+ nl +:+ "ok" +:+ nl +:+ rest ->
  Server.connect_to_server env (":ext:" +:+ host +:+ "/" +:+ dir) s
  = Ret (Server.mkConnection dir
           (Server.Program (rsh_program rsh) [rsh_program rsh; host; "cvs"; "server"])
           [Server.greeting dir]
           ["Valid-requests " +:+ valid +:+ nl])
        (with_input rest "ok" s).
Proof.
  intros Hhost Hrsh Hlen Hspawn Hvalid Hin.
  unfold Server.connect_to_server.
  rewrite (bind_run _ _ s tt (with_input (s_in s) "" s) eq_refl).
  assert (Hp : starts_with (":ext:" +:+ host +:+ "/" +:+ dir) ":pserver:" = false)
    by reflexivity.
  assert (Hf : starts_with (":ext:" +:+ host +:+ "/" +:+ dir) ":fake:" = false)
    by reflexivity.
  rewrite Hp, Hf, (starts_with_append ":ext:").
  change (CString.drop 5 (":ext:" +:+ host +:+ "/" +:+ dir))
    with (host +:+ String "/" dir).
  assert (Hext : Server.connect_to_ext env (":ext:" +:+ host +:+ "/" +:+ dir)
                   (host +:+ String "/" dir) (with_input (s_in s) "" s)
                 = Ret (Server.mkConnection dir
                          (Server.Program (rsh_program rsh)
                             [rsh_program rsh; host; "cvs"; "server"]) [] [])
                     (with_input (s_in s) "" s)).
  { unfold Server.connect_to_ext. rewrite Hrsh.
    assert (Hprog : (match rsh with
                     | Some p =>
                         if (String.length p <? String.length "CVS_RSH=")%nat
                         then abort_with (Segfault "program += strlen (CVS_RSH=)")
                         else ret (CString.drop (String.length "CVS_RSH=") p)
                     | None => ret "ssh"
                     end) (with_input (s_in s) "" s)
                    = Ret (rsh_program rsh) (with_input (s_in s) "" s)).
    { destruct rsh as [p|]; [|reflexivity].
      apply Nat.ltb_ge in Hlen. rewrite Hlen. reflexivity. }
    rewrite (bind_run _ _ _ _ _ Hprog).
    rewrite (strchr_append host "/" dir Hhost). cbv zeta.
    unfold Server.strndup. change (CString.drop 0 (host +:+ String "/" dir))
      with (host +:+ String "/" dir).
    rewrite take_append.
    unfold Server.connect_to_program. rewrite Hspawn.
    rewrite (bind_run _ _ _ _ _ eq_refl).
    replace (String.length host + 1)%nat with (S (String.length host)) by lia.
    rewrite drop_append_S. reflexivity. }
  rewrite (bind_run _ _ _ _ _ Hext). cbv zeta.
  cbn [Server.written Server.log Server.remote_root Server.stream app].
  rewrite (bind_run next_line _ _ tt _
             (next_line_plain ("Valid-requests " +:+ valid) ("ok" +:+ nl +:+ rest)
                (with_input (s_in s) "" s) Hvalid Hin)).
  rewrite (bind_run line _ _ _ _ eq_refl).
  cbn [s_line with_input].
  rewrite (starts_with_append "Valid-requests "). cbn [negb].
  match goal with
  | |- bind next_line _ ?st = _ =>
      rewrite (bind_run next_line _ st tt _ (next_line_plain "ok" rest st eq_refl eq_refl))
  end.
  rewrite (bind_run line _ _ _ _ eq_refl).
  reflexivity.
Qed.

(** ** A password server and a remote shell *)

Module ServerSample.

Definition root : string := ":pserver:alice@cvs.example.org:2401/cvsroot".

Definition cvspass : string :=
  text_lines ["/1 :pserver:alice@cvs.example.org:2401/cvs Axyz";
              "/1 :pserver:alice@cvs.example.org:2401/cvsroot Ay=0=h<Z";
              ":pserver:alice@cvs.example.org:2401/cvsroot Aold"].

(** Every socket and child process is granted; [$CVS_RSH] is not set. *)
Definition env : Server.environ :=
  Server.mkEnviron
    (fun name => if String.eqb name "HOME" then Some "/home/alice" else None)
    (fun path => if String.eqb path "/home/alice/.cvspass" then Some cvspass else None)
    (fun _ _ => None)
    (fun _ _ => None)
    None.

Definition valid_requests : string := "Valid-requests Root Directory Argument update".

(** The server accepts the log-in and answers the greeting. *)
Definition logging_in : state :=
  Scenario.start [] [] [] []
    (text_lines ["I LOVE YOU"; valid_requests; "ok"]).

Definition logged_in : Server.connection :=
  Server.mkConnection "/cvsroot" (Server.Socket "cvs.example.org" "2401")
    [PserverRoot.request "alice" "Ay=0=h<Z" "cvsroot"; Server.greeting "/cvsroot"]
    ["Pserver 'alice'@'cvs.example.org':'2401' '/cvsroot'" +:+ nl;
     "Password 'Ay=0=h<Z'" +:+ nl;
     "Logged in successfully" +:+ nl;
     valid_requests +:+ nl].

(** The peer of a remote shell answers the greeting. *)
Definition greeted : state :=
  Scenario.start [] [] [] [] (text_lines [valid_requests; "ok"]).

End ServerSample.

Lemma pserver_password_lookup_witness :
  Server.pserver_password ServerSample.env ServerSample.root ServerSample.logging_in
  = Ret "Ay=0=h<Z" ServerSample.logging_in.
Proof.
  apply (pserver_password_lookup ServerSample.env "/home/alice" ServerSample.root
           "/1 " ["/1 :pserver:alice@cvs.example.org:2401/cvs Axyz"] "Ay=0=h<Z"
           (text_lines [":pserver:alice@cvs.example.org:2401/cvsroot Aold"])).
  - reflexivity.
  - reflexivity.
  - left. reflexivity.
  - reflexivity.
  - reflexivity.
  - repeat constructor.
Defined.

Lemma connect_to_pserver_login_witness :
  Server.connect_to_pserver ServerSample.env
    (PserverRoot.root "alice" "cvs.example.org" (Some "2401") "cvsroot")
    ServerSample.logging_in
  = Ret (Server.mkConnection ("/" +:+ "cvsroot")
           (Server.Socket "cvs.example.org" (PserverRoot.port_of (Some "2401")))
           [PserverRoot.request "alice" "Ay=0=h<Z" "cvsroot"]
           ["Pserver '" +:+ "alice" +:+ "'@'" +:+ "cvs.example.org" +:+ "':'"
              +:+ PserverRoot.port_of (Some "2401") +:+ "' '" +:+ "/" +:+ "cvsroot"
              +:+ "'" +:+ nl;
            "Password '" +:+ "Ay=0=h<Z" +:+ "'" +:+ nl;
            "Logged in successfully" +:+ nl])
        (with_input (text_lines [ServerSample.valid_requests; "ok"]) "I LOVE YOU"
           ServerSample.logging_in).
Proof.
  apply (connect_to_pserver_login ServerSample.env "alice" "cvs.example.org"
           (Some "2401") "cvsroot" "Ay=0=h<Z"
           (text_lines [ServerSample.valid_requests; "ok"]) ServerSample.logging_in).
  - reflexivity.
  - reflexivity.
  - reflexivity.
  - reflexivity.
  - reflexivity.
  - reflexivity.
  - reflexivity.
  - reflexivity.
  - vm_compute. reflexivity.
  - reflexivity.
Defined.

Lemma connect_to_server_handshake_witness :
  exists login valid sent0 log0,
    (if starts_with ServerSample.root ":pserver:"
     then login = "I LOVE YOU" +:+ nl
     else login = "" /\ sent0 = [] /\ log0 = []) /\
    (s_in ServerSample.logging_in
     = login +:+ "Valid-requests " +:+ valid +:+ nl +:+ "ok" +:+ nl
         +:+ s_in (with_input "" "ok" ServerSample.logging_in) \/
     s_in ServerSample.logging_in
     = login +:+ "Valid-requests " +:+ valid +:+ nl +:+ "ok" /\
     s_in (with_input "" "ok" ServerSample.logging_in) = "") /\
    Server.written ServerSample.logged_in
    = sent0 ++ [Server.greeting (Server.remote_root ServerSample.logged_in)] /\
    Server.log ServerSample.logged_in
    = log0 ++ ["Valid-requests " +:+ valid +:+ nl] /\
    with_input "" "ok" ServerSample.logging_in
    = with_input (s_in (with_input "" "ok" ServerSample.logging_in)) "ok"
        ServerSample.logging_in.
Proof.
  apply (connect_to_server_handshake ServerSample.env ServerSample.root).
  vm_compute. reflexivity.
Defined.

Lemma connect_to_server_ext_witness :
  Server.connect_to_server ServerSample.env
    (":ext:" +:+ "cvs.example.org" +:+ "/" +:+ "cvsroot") ServerSample.greeted
  = Ret (Server.mkConnection "cvsroot"
           (Server.Program (rsh_program None)
              [rsh_program None; "cvs.example.org"; "cvs"; "server"])
           [Server.greeting "cvsroot"]
           ["Valid-requests " +:+ "Root Directory Argument update" +:+ nl])
        (with_input "" "ok" ServerSample.greeted).
Proof.
  apply (connect_to_server_ext ServerSample.env None "cvs.example.org" "cvsroot"
           "Root Directory Argument update" "").
  - reflexivity.
  - reflexivity.
  - exact Logic.I.
  - reflexivity.
  - reflexivity.
  - reflexivity.
Defined.
